(** * The scrape-job engine of convex-firecrawl-scrape

    A shallow embedding of the component's URL utilities ([url.ts]), of its
    configuration ([config.ts]) and of the queries, mutations and the
    executor of [lib.ts], followed by the properties of the job life cycle,
    of the cache and of the sweepers.

    Conventions.
    - A JavaScript string is a [string] whose characters are UTF-16 code
      units below 256; [String.length] is then [.length].
    - Times and durations ([Date.now()], [ttlMs]) are integers of [Z].
    - A mutation is a function from the transaction context to the context
      it leaves behind and an outcome ([Return] or [Throw]); [commit] is the
      platform's transaction: a mutation that throws leaves no trace.
    - What the JavaScript platform provides and the repository only calls
      (the URL parser, [URLSearchParams] encoding, SHA-256,
      [JSON.stringify], the message of an argument validation error) is
      the interface [Platform]; every general theorem
      holds for all its implementations, and [model_platform] is one that
      runs, for the concrete examples. *)

From Stdlib Require Import ZArith NArith List String Ascii Bool Lia DecimalString.
From Stdlib Require Import Permutation Sorting.Sorted.
Import ListNotations.
Local Open Scope string_scope.
Local Open Scope list_scope.
Local Open Scope nat_scope.

Set Implicit Arguments.
Set Warnings "-register-all".

(* ================================================================== *)
(** ** JavaScript strings *)
(* ================================================================== *)

Module JS.

  (** One code unit of [String.prototype.toLowerCase] on the range 0..255:
      A-Z, and the Latin-1 capitals U+00C0..U+00DE except the sign U+00D7. *)
Definition lowerChar (c : ascii) : ascii :=
    let n := nat_of_ascii c in
    if ((65 <=? n) && (n <=? 90)) || ((192 <=? n) && (n <=? 222) && negb (n =? 215))
    then ascii_of_nat (n + 32) else c.

Fixpoint toLowerCase (s : string) : string :=
    match s with
    | EmptyString => EmptyString
    | String c s' => String (lowerChar c) (toLowerCase s')
    end.

Definition startsWith (s p : string) : bool := prefix p s.

Definition endsWith (s suffix : string) : bool :=
    (length suffix <=? length s) &&
    String.eqb (substring (length s - length suffix) (length suffix) s) suffix.

  (** [s.includes(needle)] *)
Fixpoint includes (s needle : string) : bool :=
    prefix needle s ||
    match s with
    | EmptyString => false
    | String _ s' => includes s' needle
    end.

  (** [s.slice(0, -1)] *)
Definition dropLast (s : string) : string := substring 0 (length s - 1) s.

(** [s.repeat(n)] *)
Definition repeat (s : string) (n : N) : string :=
  N.iter n (String.append s) EmptyString.

  (** A string in a condition: only the empty string is falsy. *)
Definition truthy (s : string) : bool := negb (String.eqb s EmptyString).

  (** Template-literal rendering of a non-negative integer. *)
Definition showNat (n : nat) : string := NilZero.string_of_uint (Nat.to_uint n).

  (** [new TextEncoder().encode(str).length]: a code unit below 128 takes
      one byte of UTF-8, one in 128..255 takes two. *)
Fixpoint utf8Length (s : string) : Z :=
    match s with
    | EmptyString => 0%Z
    | String c s' =>
        ((if (nat_of_ascii c <? 128)%nat then 1 else 2) + utf8Length s')%Z
    end.

  (** [Array.prototype.sort()] without a comparator, on strings: insertion
      into code-unit order. *)
Fixpoint insertSorted (x : string) (l : list string) : list string :=
    match l with
    | [] => [x]
    | y :: l' => if String.leb x y then x :: l else y :: insertSorted x l'
    end.

Definition sort (l : list string) : list string :=
    fold_right insertSorted [] l.

End JS.

(* ================================================================== *)
(** ** Regular expressions, by derivatives *)
(* ================================================================== *)

Module Regex.

Inductive re : Type :=
  | Never
  | Eps
  | Cls (p : ascii -> bool)
  | Cat (r1 r2 : re)
  | Alt (r1 r2 : re)
  | Star (r : re).

Fixpoint nullable (r : re) : bool :=
    match r with
    | Never => false
    | Eps => true
    | Cls _ => false
    | Cat r1 r2 => nullable r1 && nullable r2
    | Alt r1 r2 => nullable r1 || nullable r2
    | Star _ => true
    end.

Fixpoint deriv (c : ascii) (r : re) : re :=
    match r with
    | Never | Eps => Never
    | Cls p => if p c then Eps else Never
    | Cat r1 r2 =>
        if nullable r1 then Alt (Cat (deriv c r1) r2) (deriv c r2)
        else Cat (deriv c r1) r2
    | Alt r1 r2 => Alt (deriv c r1) (deriv c r2)
    | Star r1 => Cat (deriv c r1) (Star r1)
    end.

  (** The whole of [s] is in the language of [r]. *)
Fixpoint matches (r : re) (s : string) : bool :=
    match s with
    | EmptyString => nullable r
    | String c s' => matches (deriv c r) s'
    end.

Definition chr (c : ascii) : re := Cls (Ascii.eqb c).
  (** a letter under the [i] flag *)
Definition chrI (c : ascii) : re :=
    Cls (fun x => Ascii.eqb (JS.lowerChar x) (JS.lowerChar c)).
Definition range (lo hi : ascii) : re :=
    Cls (fun x => (nat_of_ascii lo <=? nat_of_ascii x) && (nat_of_ascii x <=? nat_of_ascii hi)).
Definition digit : re := range "0" "9".
Definition any : re := Cls (fun _ => true).
Definition opt (r : re) : re := Alt Eps r.

Fixpoint lit (s : string) : re :=
    match s with
    | EmptyString => Eps
    | String c s' => Cat (chr c) (lit s')
    end.

Fixpoint litI (s : string) : re :=
    match s with
    | EmptyString => Eps
    | String c s' => Cat (chrI c) (litI s')
    end.

Definition seq (rs : list re) : re := fold_right Cat Eps rs.

  (** [\d{1,3}] *)
Definition digits13 : re := seq [digit; opt digit; opt digit].

  (** A pattern [/^body$/]: [test] is a match of the whole string. *)
Definition anchored (body : re) : re := body.
  (** A pattern [/^body/] with no [$]: anything may follow. *)
Definition leading (body : re) : re := Cat body (Star any).

End Regex.

(* ================================================================== *)
(** ** The platform interface *)
(* ================================================================== *)

(** The components of a parsed [URL] object that the code reads. *)
Record URL : Type := mkURL {
  protocol : string;
  hostname : string;
  port : string;
  pathname : string;
  search : string
}.

(** JSON values ([v.any()] fields); numbers are integers here. *)
Inductive JSON : Type :=
| JNull
| JBool (b : bool)
| JNum (n : Z)
| JStr (s : string)
| JArr (l : list JSON)
| JObj (l : list (string * JSON)).

Class Platform : Type := {
  (** [new URL(s)]; [None] when it throws *)
  URL_parse : string -> option URL;
  (** [new URLSearchParams(search)] *)
  URLSearchParams_parse : string -> list (string * string);
  (** [URLSearchParams.prototype.toString] *)
  URLSearchParams_toString : list (string * string) -> string;
  (** hexadecimal SHA-256 of the UTF-8 encoding *)
  sha256_hex : string -> string;
  (** [JSON.stringify] *)
  JSON_stringify : JSON -> string;
  (** the message of the error [ctx.runMutation] throws when the argument
      validators of [failScrape] refuse the [error] and [errorCode] passed *)
  argumentError : JSON -> option JSON -> string
}.

(* ================================================================== *)
(** ** config.ts *)
(* ================================================================== *)

Module CONFIG.
Definition DEFAULT_TTL_MS : Z := (30 * 24 * 60 * 60 * 1000)%Z.
Definition FILE_STORAGE_THRESHOLD_BYTES : Z := (1024 * 1024)%Z.
Definition STUCK_JOB_TIMEOUT_MS : Z := (5 * 60 * 1000)%Z.
Definition CLEANUP_BATCH_SIZE : nat := 100.
Definition MAX_URL_LENGTH : nat := 2000.
End CONFIG.

(* ================================================================== *)
(** ** url.ts *)
(* ================================================================== *)

Definition TRACKING_PARAMS : list string :=
  [ "utm_source"; "utm_medium"; "utm_campaign"; "utm_term"; "utm_content";
    "utm_id"; "utm_source_platform"; "utm_creative_format";
    "utm_marketing_tactic"; "gclid"; "gclsrc"; "dclid";
    "fbclid"; "fb_action_ids"; "fb_action_types"; "fb_source"; "fb_ref";
    "msclkid";
    "twclid";
    "hsa_acc"; "hsa_cam"; "hsa_grp"; "hsa_ad"; "hsa_src"; "hsa_tgt";
    "hsa_kw"; "hsa_mt"; "hsa_net"; "hsa_ver";
    "ref"; "source"; "mc_cid"; "mc_eid"; "_ga"; "_gl" ].

Definition PRIVATE_IP_PATTERNS : list Regex.re :=
  let d := Regex.digits13 in
  let dot := Regex.chr "." in
  [ (* /^localhost$/i *)
    Regex.anchored (Regex.litI "localhost");
    (* /^127\.\d{1,3}\.\d{1,3}\.\d{1,3}$/ *)
    Regex.anchored (Regex.seq [Regex.lit "127"; dot; d; dot; d; dot; d]);
    (* /^::1$/ *)
    Regex.anchored (Regex.lit "::1");
    (* /^\[::1\]$/ *)
    Regex.anchored (Regex.lit "[::1]");
    (* /^10\.\d{1,3}\.\d{1,3}\.\d{1,3}$/ *)
    Regex.anchored (Regex.seq [Regex.lit "10"; dot; d; dot; d; dot; d]);
    (* /^172\.(1[6-9]|2\d|3[0-1])\.\d{1,3}\.\d{1,3}$/ *)
    Regex.anchored
      (Regex.seq [Regex.lit "172"; dot;
                  Regex.Alt (Regex.Cat (Regex.chr "1") (Regex.range "6" "9"))
                    (Regex.Alt (Regex.Cat (Regex.chr "2") Regex.digit)
                               (Regex.Cat (Regex.chr "3") (Regex.range "0" "1")));
                  dot; d; dot; d]);
    (* /^192\.168\.\d{1,3}\.\d{1,3}$/ *)
    Regex.anchored (Regex.seq [Regex.lit "192"; dot; Regex.lit "168"; dot; d; dot; d]);
    (* /^169\.254\.\d{1,3}\.\d{1,3}$/ *)
    Regex.anchored (Regex.seq [Regex.lit "169"; dot; Regex.lit "254"; dot; d; dot; d]);
    (* /^fe80:/i *)
    Regex.leading (Regex.litI "fe80:");
    (* /^fc00:/i *)
    Regex.leading (Regex.litI "fc00:");
    (* /^fd[0-9a-f]{2}:/i *)
    Regex.leading
      (let hex := Regex.Alt Regex.digit
                    (Regex.Cls (fun x =>
                       let n := nat_of_ascii (JS.lowerChar x) in
                       (97 <=? n) && (n <=? 102))) in
       Regex.seq [Regex.litI "fd"; hex; hex; Regex.chr ":"]);
    (* /^0\.0\.0\.0$/ *)
    Regex.anchored (Regex.lit "0.0.0.0");
    (* /^\[::\]$/ *)
    Regex.anchored (Regex.lit "[::]") ].

Definition BLOCKED_HOSTNAME_SUFFIXES : list string :=
  [ ".local"; ".internal"; ".localhost" ].

Inductive UrlValidationError : Type :=
| too_long (maxLength actualLength : nat)
| invalid_url (message : string)
| invalid_scheme (scheme : string)
| private_ip (host : string)
| blocked_hostname (host : string).

Inductive UrlValidationResult : Type :=
| valid
| invalid (error : UrlValidationError).

Section Url.
Context {P : Platform}.

Definition validateUrl (u : string) : UrlValidationResult :=
    (* Check length *)
    if CONFIG.MAX_URL_LENGTH <? length u then
      invalid (too_long CONFIG.MAX_URL_LENGTH (length u))
    else
      (* Parse URL *)
      match URL_parse u with
      | None => invalid (invalid_url "Invalid URL format")
      | Some parsed =>
          (* Check scheme *)
          if negb (protocol parsed =? "http:")%string &&
             negb (protocol parsed =? "https:")%string then
            invalid (invalid_scheme (protocol parsed))
          else
            (* Check for private IPs *)
            let host := JS.toLowerCase (hostname parsed) in
            if existsb (fun pattern => Regex.matches pattern host) PRIVATE_IP_PATTERNS then
              invalid (private_ip host)
            (* Check for blocked hostname suffixes *)
            else if existsb (fun suffix => JS.endsWith host suffix) BLOCKED_HOSTNAME_SUFFIXES then
              invalid (blocked_hostname host)
            else valid
      end.

Definition formatValidationError (error : UrlValidationError) : string :=
    (match error with
    | too_long maxLength actualLength =>
        "URL exceeds maximum length of " ++ JS.showNat maxLength ++
        " characters (got " ++ JS.showNat actualLength ++ ")"
    | invalid_url message => "Invalid URL: " ++ message
    | invalid_scheme scheme =>
        "Invalid URL scheme: " ++ scheme ++ ". Only http and https are allowed"
    | private_ip host =>
        "Private/local IP addresses are not allowed: " ++ host
    | blocked_hostname host =>
        "Blocked hostname: " ++ host ++ ". Private network hostnames are not allowed"
    end)%string.

Definition isTrackingParam (name : string) : bool :=
    let lowerName := JS.toLowerCase name in
    if existsb (String.eqb lowerName) TRACKING_PARAMS then true
    else if JS.startsWith lowerName "utm_" then true
    else false.

  (** [URLSearchParams.prototype.get]: the first value under the name. *)
Fixpoint params_get (params : list (string * string)) (name : string) : option string :=
    match params with
    | [] => None
    | (k, v) :: rest => if (k =? name)%string then Some v else params_get rest name
    end.

  (** [URLSearchParams.prototype.set]: overwrite the first pair under the
      name and drop the others, or append. *)
Fixpoint params_set (params : list (string * string)) (name value : string)
    : list (string * string) :=
    match params with
    | [] => [(name, value)]
    | (k, v) :: rest =>
        if (k =? name)%string
        then (k, value) :: filter (fun kv => negb (fst kv =? name)%string) rest
        else (k, v) :: params_set rest name value
    end.

  (** [normalizeUrl]; [None] when [new URL] throws. *)
Definition normalizeUrl (u : string) : option string :=
    match URL_parse u with
    | None => None
    | Some parsed =>
        (* Lowercase hostname *)
        let normalized :=
          (protocol parsed ++ "//" ++ JS.toLowerCase (hostname parsed))%string in
        (* Add port only if non-default *)
        let isDefaultPort :=
          ((protocol parsed =? "http:") && (port parsed =? "80"))%string ||
          ((protocol parsed =? "https:") && (port parsed =? "443"))%string ||
          (port parsed =? EmptyString)%string in
        let normalized :=
          if negb isDefaultPort then (normalized ++ ":" ++ port parsed)%string
          else normalized in
        (* Normalize path - remove trailing slash from non-root paths *)
        let path := pathname parsed in
        let path :=
          if (1 <? length path) && JS.endsWith path "/" then JS.dropLast path else path in
        (* Sort and filter query parameters *)
        let params := URLSearchParams_parse (search parsed) in
        let paramNames :=
          JS.sort (filter (fun name => negb (isTrackingParam name)) (map fst params)) in
        let sortedParams :=
          fold_left
            (fun acc name =>
               match params_get params name with
               | Some value => params_set acc name value
               | None => acc
               end)
            paramNames [] in
        let queryString := URLSearchParams_toString sortedParams in
        (* Add path: for root "/", only include it if there's no query string *)
        let normalized :=
          if (path =? "/")%string && JS.truthy queryString then normalized
          else (normalized ++ path)%string in
        let normalized :=
          if JS.truthy queryString then (normalized ++ "?" ++ queryString)%string
          else normalized in
        Some normalized
    end.

Definition hashUrl (input : string) : string := sha256_hex input.

End Url.

(* ================================================================== *)
(** ** A platform that runs *)
(* ================================================================== *)

(** A model of the platform on the plain part of its input language; it
    is what the concrete examples below are evaluated with.  The URL
    parser follows the WHATWG algorithm on strings of code units below 256
    of the shapes [scheme://[user@]host[:port][/path][?query][#fragment]]
    and [scheme:opaque-path], with a host made of letters, digits, [.],
    [-] and [_] (a dotted-decimal IPv4 address or a bracketed IPv6 literal
    being taken as written).  Outside that part the model answers [None],
    which says nothing about the platform. *)
Module PlatformModel.

Definition code (c : ascii) : nat := nat_of_ascii c.
  (** the double quote, U+0022 *)
Definition dquote : ascii := "034".
Definition isAlpha (c : ascii) : bool :=
    ((65 <=? code c) && (code c <=? 90)) || ((97 <=? code c) && (code c <=? 122)).
Definition isDigit (c : ascii) : bool := (48 <=? code c) && (code c <=? 57).
Definition isOneOf (chars : string) (c : ascii) : bool :=
    existsb (Ascii.eqb c) (list_ascii_of_string chars).

Fixpoint takeWhile (p : ascii -> bool) (s : string) : string :=
    match s with
    | EmptyString => EmptyString
    | String c s' => if p c then String c (takeWhile p s') else EmptyString
    end.

Fixpoint dropWhile (p : ascii -> bool) (s : string) : string :=
    match s with
    | EmptyString => EmptyString
    | String c s' => if p c then dropWhile p s' else s
    end.

Fixpoint allChars (p : ascii -> bool) (s : string) : bool :=
    match s with
    | EmptyString => true
    | String c s' => p c && allChars p s'
    end.

Fixpoint filterChars (p : ascii -> bool) (s : string) : string :=
    match s with
    | EmptyString => EmptyString
    | String c s' => if p c then String c (filterChars p s') else filterChars p s'
    end.

Fixpoint mapChars (f : ascii -> string) (s : string) : string :=
    match s with
    | EmptyString => EmptyString
    | String c s' => (f c ++ mapChars f s')%string
    end.

Definition revString (s : string) : string :=
    string_of_list_ascii (rev (list_ascii_of_string s)).

  (** Split on a separator character. *)
Fixpoint split (sep : ascii) (s : string) : list string :=
    match s with
    | EmptyString => [EmptyString]
    | String c s' =>
        if Ascii.eqb c sep then EmptyString :: split sep s'
        else match split sep s' with
             | [] => [String c EmptyString]
             | w :: ws => String c w :: ws
             end
    end.

Definition join (sep : string) (l : list string) : string :=
    match l with
    | [] => EmptyString
    | x :: xs => fold_left (fun acc y => (acc ++ sep ++ y)%string) xs x
    end.

Definition hexDigit (upper : bool) (n : nat) : ascii :=
    if n <? 10 then ascii_of_nat (48 + n)
    else ascii_of_nat ((if upper then 55 else 87) + n).

Definition hexValue (c : ascii) : option nat :=
    if isDigit c then Some (code c - 48)
    else if (65 <=? code c) && (code c <=? 70) then Some (code c - 55)
    else if (97 <=? code c) && (code c <=? 102) then Some (code c - 87)
    else None.

Definition percentByte (b : nat) : string :=
    String "%" (String (hexDigit true (b / 16)) (String (hexDigit true (b mod 16)) EmptyString)).

  (** Percent-encoding of the UTF-8 bytes of one code unit below 256. *)
Definition percentEncode (c : ascii) : string :=
    if code c <? 128 then percentByte (code c)
    else (percentByte (192 + code c / 64) ++ percentByte (128 + code c mod 64))%string.

Definition isControlOrSpace (c : ascii) : bool := code c <=? 32.
Definition isTabOrNewline (c : ascii) : bool :=
    (code c =? 9) || (code c =? 10) || (code c =? 13).

Definition specialSchemes : list string := ["http"; "https"; "ftp"; "ws"; "wss"].
Definition defaultPort (scheme : string) : string :=
    if (scheme =? "http")%string || (scheme =? "ws")%string then "80"
    else if (scheme =? "https")%string || (scheme =? "wss")%string then "443"
    else if (scheme =? "ftp")%string then "21"
    else EmptyString.

Definition isSchemeChar (c : ascii) : bool := isAlpha c || isDigit c || isOneOf "+-." c.

Definition parseScheme (s : string) : option (string * string) :=
    match s with
    | String c _ =>
        if isAlpha c then
          match dropWhile isSchemeChar s with
          | String ":" rest => Some (JS.toLowerCase (takeWhile isSchemeChar s), rest)
          | _ => None
          end
        else None
    | EmptyString => None
    end.

Definition isHostChar (c : ascii) : bool := isAlpha c || isDigit c || isOneOf ".-_" c.

  (** The port as the [URL] object shows it: decimal, without leading
      zeros, empty when absent or the scheme's default. *)
Definition parsePort (scheme portText : string) : option string :=
    if (portText =? EmptyString)%string then Some EmptyString
    else if allChars isDigit portText then
      let n := fold_left (fun acc c => 10 * acc + N.of_nat (code c - 48))%N
                 (list_ascii_of_string portText) 0%N in
      if (65535 <? n)%N then None
      else let shown := NilZero.string_of_uint (N.to_uint n) in
           Some (if (shown =? defaultPort scheme)%string then EmptyString else shown)
    else None.

Definition isIPv4Part (part : string) : bool :=
    negb (part =? EmptyString)%string && allChars isDigit part &&
    ((part =? "0")%string || negb (prefix "0" part)) &&
    (length part <=? 3) &&
    (fold_left (fun acc c => 10 * acc + (code c - 48)) (list_ascii_of_string part) 0 <=? 255).

Definition lastOf (l : list string) : string := last l EmptyString.

Definition parseHost (hostText : string) : option string :=
    match hostText with
    | EmptyString => None
    | String "[" _ =>
        if JS.endsWith hostText "]" &&
           allChars (fun c => isDigit c || isOneOf "abcdefABCDEF:[]" c) hostText
        then Some (JS.toLowerCase hostText) else None
    | _ =>
        if allChars isHostChar hostText then
          let labels := split "." hostText in
          if allChars isDigit (lastOf labels) && negb (lastOf labels =? EmptyString)%string then
            if (List.length labels =? 4) && forallb isIPv4Part labels
            then Some hostText else None
          else Some (JS.toLowerCase hostText)
        else None
    end.

  (** Removal of dot segments while the path is read. *)
Fixpoint pathSegments (segs : list string) (acc : list string) : list string :=
   match segs with
   | [] => rev acc
   | seg :: rest =>
       let isLast := match rest with [] => true | _ => false end in
       if (seg =? "..")%string then
         let acc' := tl acc in
         pathSegments rest (if isLast then EmptyString :: acc' else acc')
       else if (seg =? ".")%string then
         pathSegments rest (if isLast then EmptyString :: acc else acc)
       else pathSegments rest (seg :: acc)
   end.

Definition encodePathChar (c : ascii) : string :=
    if (code c <=? 32) || (126 <? code c) || Ascii.eqb c dquote || isOneOf "<>`{}" c
    then percentEncode c
    else String c EmptyString.

Definition encodeQueryChar (c : ascii) : string :=
    if (code c <=? 32) || (126 <? code c) || Ascii.eqb c dquote || isOneOf "<>'" c
    then percentEncode c
    else String c EmptyString.

Definition parsePath (text : string) : string :=
    let slashed := mapChars (fun c => if Ascii.eqb c "\" then "/" else String c EmptyString) text in
    match slashed with
    | EmptyString => "/"
    | String _ segsText =>
        ("/" ++ join "/" (pathSegments (split "/" (mapChars encodePathChar segsText)) []))%string
    end.

Definition parseSearch (afterPath : string) : string :=
    match afterPath with
    | String "?" q =>
        let query := takeWhile (fun c => negb (Ascii.eqb c "#")) q in
        if (query =? EmptyString)%string then EmptyString else String "?" (mapChars encodeQueryChar query)
    | _ => EmptyString
    end.

Definition isPathEnd (c : ascii) : bool := isOneOf "?#" c.
Definition isAuthorityEnd (c : ascii) : bool := isOneOf "/\?#" c.

Definition parse (input : string) : option URL :=
    let trimmed :=
      revString (dropWhile isControlOrSpace (revString (dropWhile isControlOrSpace input))) in
    let cleaned := filterChars (fun c => negb (isTabOrNewline c)) trimmed in
    match parseScheme cleaned with
    | None => None
    | Some (scheme, rest) =>
        if existsb (String.eqb scheme) specialSchemes then
          let rest := dropWhile (isOneOf "/\") rest in
          let authority := takeWhile (fun c => negb (isAuthorityEnd c)) rest in
          let afterAuthority := dropWhile (fun c => negb (isAuthorityEnd c)) rest in
          let hostPort := lastOf (split "@" authority) in
          let hostText :=
            match hostPort with
            | String "[" _ =>
                (takeWhile (fun c => negb (Ascii.eqb c "]")) hostPort ++ "]")%string
            | _ => takeWhile (fun c => negb (Ascii.eqb c ":")) hostPort
            end in
          let afterHost := substring (length hostText) (length hostPort) hostPort in
          match parseHost hostText,
                match afterHost with
                | EmptyString => Some EmptyString
                | String ":" portText => parsePort scheme portText
                | _ => None
                end
          with
          | Some host, Some portShown =>
              let pathText := takeWhile (fun c => negb (isPathEnd c)) afterAuthority in
              let afterPath := dropWhile (fun c => negb (isPathEnd c)) afterAuthority in
              Some (mkURL (scheme ++ ":") host portShown (parsePath pathText)
                          (parseSearch afterPath))
          | _, _ => None
          end
        else
          match rest with
          | String "/" (String "/" afterSlashes) =>
              let authority := takeWhile (fun c => negb (isAuthorityEnd c)) afterSlashes in
              let afterAuthority :=
                dropWhile (fun c => negb (isAuthorityEnd c)) afterSlashes in
              let pathText := takeWhile (fun c => negb (isPathEnd c)) afterAuthority in
              if allChars isHostChar authority &&
                 allChars (fun c => (32 <? code c) && (code c <? 127)) pathText
              then Some (mkURL (scheme ++ ":") authority EmptyString pathText EmptyString)
              else None
          | _ =>
              let pathText := takeWhile (fun c => negb (isPathEnd c)) rest in
              let afterPath := dropWhile (fun c => negb (isPathEnd c)) rest in
              if allChars (fun c => (32 <? code c) && (code c <? 127)) pathText then
                Some (mkURL (scheme ++ ":") EmptyString EmptyString pathText
                            (match afterPath with
                             | String "?" q =>
                                 let query := takeWhile (fun c => negb (Ascii.eqb c "#")) q in
                                 if (query =? EmptyString)%string then EmptyString
                                 else String "?" (mapChars
                                   (fun c => if (code c <=? 32) || (126 <? code c) ||
                                                Ascii.eqb c dquote || isOneOf "<>" c
                                             then percentEncode c else String c EmptyString) query)
                             | _ => EmptyString
                             end))
              else None
          end
    end.

  (** Percent-decoding of a form-encoded component; a decoded pair of
      bytes that is the UTF-8 form of a code unit in 128..255 gives that
      code unit. *)
Fixpoint percentDecode (fuel : nat) (s : string) : string :=
    match fuel with
    | O => s
    | S fuel' =>
        match s with
        | EmptyString => EmptyString
        | String "%" (String h1 (String h2 rest as tail1) as tail0) =>
            match hexValue h1, hexValue h2 with
            | Some a, Some b =>
                let byte := 16 * a + b in
                match
                  (if (byte =? 194) || (byte =? 195) then
                     match rest with
                     | String "%" (String k1 (String k2 rest2)) =>
                         match hexValue k1, hexValue k2 with
                         | Some x, Some y =>
                             if (128 <=? 16 * x + y) && (16 * x + y <? 192)
                             then Some (ascii_of_nat ((byte - 192) * 64 + (16 * x + y - 128)), rest2)
                             else None
                         | _, _ => None
                         end
                     | _ => None
                     end
                   else None)
                with
                | Some (c, rest2) => String c (percentDecode fuel' rest2)
                | None => String (ascii_of_nat byte) (percentDecode fuel' rest)
                end
            | _, _ => String "%" (percentDecode fuel' tail0)
            end
        | String c rest => String c (percentDecode fuel' rest)
        end
    end.

Definition formDecode (s : string) : string :=
    percentDecode (length s)
      (mapChars (fun c => if Ascii.eqb c "+" then " " else String c EmptyString) s).

Definition searchParamsParse (searchText : string) : list (string * string) :=
    let body := match searchText with String "?" q => q | _ => searchText end in
    map (fun piece =>
           let name := takeWhile (fun c => negb (Ascii.eqb c "=")) piece in
           let rest := dropWhile (fun c => negb (Ascii.eqb c "=")) piece in
           (formDecode name,
            formDecode (match rest with String _ value => value | EmptyString => EmptyString end)))
        (filter (fun piece => negb (piece =? EmptyString)%string) (split "&" body)).

Definition formEncodeChar (c : ascii) : string :=
    if Ascii.eqb c " " then "+"
    else if isAlpha c || isDigit c || isOneOf "*-._" c then String c EmptyString
    else percentEncode c.

Definition searchParamsToString (params : list (string * string)) : string :=
    join "&" (map (fun kv => (mapChars formEncodeChar (fst kv) ++ "=" ++
                              mapChars formEncodeChar (snd kv))%string) params).

  (** [JSON.stringify] of one string. *)
Definition quoteChar (c : ascii) : string :=
    if Ascii.eqb c dquote then String "\" (String dquote EmptyString)
    else if Ascii.eqb c "\" then "\\"
    else if code c =? 8 then "\b"
    else if code c =? 9 then "\t"
    else if code c =? 10 then "\n"
    else if code c =? 12 then "\f"
    else if code c =? 13 then "\r"
    else if code c <? 32 then
      String "\" (String "u" (String "0" (String "0"
        (String (hexDigit false (code c / 16)) (String (hexDigit false (code c mod 16)) EmptyString)))))
    else String c EmptyString.

Definition quote (s : string) : string :=
    (String dquote (mapChars quoteChar s) ++ String dquote EmptyString)%string.

Definition showZ (z : Z) : string := NilZero.string_of_int (Z.to_int z).

Fixpoint stringify (j : JSON) : string :=
    match j with
    | JNull => "null"
    | JBool true => "true"
    | JBool false => "false"
    | JNum n => showZ n
    | JStr s => quote s
    | JArr l => ("[" ++ join "," (map stringify l) ++ "]")%string
    | JObj l =>
        ("{" ++ join ","
                 ((fix members (l : list (string * JSON)) : list string :=
                     match l with
                     | [] => []
                     | (k, v) :: rest => (quote k ++ ":" ++ stringify v)%string :: members rest
                     end) l) ++ "}")%string
    end.

End PlatformModel.

(** The model as a platform.  The digest is the identity: the index key is
    the normalized URL itself, an injective key as SHA-256 is taken to be. *)
Definition model_platform : Platform := {|
  URL_parse := PlatformModel.parse;
  URLSearchParams_parse := PlatformModel.searchParamsParse;
  URLSearchParams_toString := PlatformModel.searchParamsToString;
  sha256_hex := fun input => input;
  JSON_stringify := PlatformModel.stringify;
  argumentError := fun _ _ => "ArgumentValidationError: Value does not match validator."
|}.

(* ================================================================== *)
(** ** schema.ts: the [scrapes] table *)
(* ================================================================== *)

(** Document and file ids: opaque to the code, natural numbers here. *)
Abbreviation Id := nat (only parsing).
Abbreviation FileId := nat (only parsing).

Inductive Status : Type := pending | scraping | completed | failed.

Definition Status_eqb (a b : Status) : bool :=
  match a, b with
  | pending, pending | scraping, scraping | completed, completed | failed, failed => true
  | _, _ => false
  end.

Inductive ErrorCode : Type :=
| CodeNumber (n : Z)
| CodeString (s : string).

Record Metadata : Type := mkMetadata {
  title : option string;
  description : option string;
  language : option string;
  sourceURL : option string;
  statusCode : option Z;
  ogImage : option string;
  ogTitle : option string;
  ogDescription : option string;
  ogSiteName : option string;
  contentType : option string;
  cacheControl : option string
}.

(** The optional content fields of a record; also the shape of the
    executor's [contentUpdate] and of [completeScrape]'s [...content]. *)
Record Content : Type := mkContent {
  markdown : option string;
  markdownFileId : option FileId;
  html : option string;
  htmlFileId : option FileId;
  rawHtml : option string;
  rawHtmlFileId : option FileId;
  summary : option string;
  links : option (list string);
  linksFileId : option FileId;
  images : option (list string);
  imagesFileId : option FileId;
  screenshotUrl : option string;
  screenshotFileId : option FileId;
  extractedJson : option JSON;
  extractedJsonFileId : option FileId;
  metadata : option Metadata
}.

Definition noContent : Content :=
  mkContent None None None None None None None None None None None None None None None None.

Record Job : Type := mkJob {
  _id : Id;
  url : string;
  normalizedUrl : string;
  urlHash : string;
  status : Status;
  formats : list string;
  content : Content;
  extractionSchema : option JSON;
  error : option string;
  errorCode : option ErrorCode;
  startedAt : Z;
  scrapingAt : option Z;
  scrapedAt : option Z;
  expiresAt : Z
}.

(* ================================================================== *)
(** ** The transaction context *)
(* ================================================================== *)

Inductive Proxy : Type := proxy_basic | proxy_stealth | proxy_auto.

(** [scrapeOptionsValidator] *)
Record ScrapeOptions : Type := mkScrapeOptions {
  opt_formats : option (list string);
  opt_extractionSchema : option JSON;
  opt_ttlMs : option Z;
  opt_force : option bool;
  opt_onlyMainContent : option bool;
  opt_includeTags : option (list string);
  opt_excludeTags : option (list string);
  opt_waitFor : option Z;
  opt_mobile : option bool;
  opt_proxy : option Proxy;
  opt_storeScreenshot : option bool
}.

Definition noOptions : ScrapeOptions :=
  mkScrapeOptions None None None None None None None None None None None.

(** The [options] object handed to [scrapeAction]. *)
Record ActionOptions : Type := mkActionOptions {
  act_extractionSchema : option JSON;
  act_onlyMainContent : option bool;
  act_includeTags : option (list string);
  act_excludeTags : option (list string);
  act_waitFor : option Z;
  act_mobile : option bool;
  act_proxy : Proxy;
  act_storeScreenshot : option bool
}.

(** The arguments of a scheduled [scrapeAction]. *)
Record ActionArgs : Type := mkActionArgs {
  arg_jobId : Id;
  arg_url : string;
  arg_apiKey : string;
  arg_formats : list string;
  arg_options : ActionOptions;
  arg_ttlMs : Z
}.

(** File storage: the blobs by id, and the next id to hand out. *)
Record Storage : Type := mkStorage {
  files : list (FileId * string);
  nextFileId : FileId
}.

(** What a mutation reads and writes: the table (newest record first, the
    descending order of the indexes on [_creationTime]), the id the next
    insert receives, file storage, and the scheduler's queue. *)
Record Ctx : Type := mkCtx {
  scrapes : list Job;
  nextId : Id;
  storage : Storage;
  scheduled : list ActionArgs
}.

Inductive Outcome (A : Type) : Type :=
| Return (a : A)
| Throw (message : string).
Arguments Throw {A} message.

(** A handler: state passing with exceptions.  The context that comes with
    a [Throw] is the one at the moment of the throw. *)
Definition M (A : Type) : Type := Ctx -> Ctx * Outcome A.

Definition ret {A} (a : A) : M A := fun c => (c, Return a).
Definition throw {A} (message : string) : M A := fun c => (c, Throw message).
Definition bind {A B} (m : M A) (k : A -> M B) : M B :=
  fun c => match m c with
           | (c', Return a) => k a c'
           | (c', Throw e) => (c', Throw e)
           end.

Declare Scope handler_scope.
Delimit Scope handler_scope with handler.
Notation "x <- m ;; k" := (bind m (fun x => k))
  (at level 61, m at next level, right associativity) : handler_scope.
Notation "m ;; k" := (bind m (fun _ => k))
  (at level 61, right associativity) : handler_scope.
Local Open Scope handler_scope.

(** [for (const x of l) body] *)
Fixpoint forEach {A} (l : list A) (body : A -> M unit) : M unit :=
  match l with
  | [] => ret tt
  | x :: rest => body x ;; forEach rest body
  end.

(** [try body catch handler]: what [body] did before throwing stays done. *)
Definition tryCatch {A} (body : M A) (handler : string -> M A) : M A :=
  fun c => match body c with
           | (c', Return a) => (c', Return a)
           | (c', Throw e) => handler e c'
           end.

(** The transaction around a mutation: all or nothing. *)
Definition commit {A} (m : M A) (c : Ctx) : Ctx * Outcome A :=
  match m c with
  | (c', Return a) => (c', Return a)
  | (_, Throw e) => (c, Throw e)
  end.

Definition hasId (id : Id) (j : Job) : bool := _id j =? id.

Definition setScrapes (c : Ctx) (table : list Job) : Ctx :=
  mkCtx table (nextId c) (storage c) (scheduled c).

Definition patchTable (id : Id) (fields : Job -> Job) (table : list Job) : list Job :=
  map (fun j => if hasId id j then fields j else j) table.

Definition deleteFromTable (id : Id) (table : list Job) : list Job :=
  filter (fun j => negb (hasId id j)) table.

(** [ctx.db.get(id)] *)
Definition db_get (id : Id) : M (option Job) :=
  fun c => (c, Return (find (hasId id) (scrapes c))).

(** [ctx.db.patch(id, fields)], the fields as a function on the record;
    it throws on a missing document. *)
Definition db_patch (id : Id) (fields : Job -> Job) : M unit :=
  fun c =>
    if existsb (hasId id) (scrapes c) then
      (setScrapes c (patchTable id fields (scrapes c)), Return tt)
    else (c, Throw "Update on nonexistent document").

(** [ctx.db.delete(id)] *)
Definition db_delete (id : Id) : M unit :=
  fun c =>
    if existsb (hasId id) (scrapes c) then
      (setScrapes c (deleteFromTable id (scrapes c)), Return tt)
    else (c, Throw "Delete on nonexistent document").

(** [ctx.db.insert("scrapes", doc)] *)
Definition db_insert (doc : Id -> Job) : M Id :=
  fun c =>
    (mkCtx (doc (nextId c) :: scrapes c) (S (nextId c)) (storage c) (scheduled c),
     Return (nextId c)).

(** [withIndex("by_url_hash", q => q.eq("urlHash", hash)).order("desc")] *)
Definition by_url_hash_desc (hash : string) : M (list Job) :=
  fun c => (c, Return (filter (fun j => (urlHash j =? hash)%string) (scrapes c))).

(** the same index in its ascending order *)
Definition by_url_hash_asc (hash : string) : M (list Job) :=
  fun c => (c, Return (rev (filter (fun j => (urlHash j =? hash)%string) (scrapes c)))).

Fixpoint insertByExpires (j : Job) (l : list Job) : list Job :=
  match l with
  | [] => [j]
  | k :: l' => if (expiresAt j <=? expiresAt k)%Z then j :: l else k :: insertByExpires j l'
  end.

(** [withIndex("by_expires", q => q.lt("expiresAt", bound))]: ascending
    [expiresAt], the older record first among equals. *)
Definition by_expires_lt (bound : Z) : M (list Job) :=
  fun c => (c, Return (fold_right insertByExpires []
                         (filter (fun j => (expiresAt j <? bound)%Z) (rev (scrapes c))))).

(** An absent value sorts before every number in an index. *)
Definition indexKeyLt (key : option Z) (bound : Z) : bool :=
  match key with
  | None => true
  | Some t => (t <? bound)%Z
  end.

(** [withIndex("by_status_scraping",
       q => q.eq("status", "scraping").lt("scrapingAt", bound))] *)
Definition by_status_scraping_lt (bound : Z) : M (list Job) :=
  fun c => (c, Return (filter (fun j => Status_eqb (status j) scraping &&
                                        indexKeyLt (scrapingAt j) bound)
                              (rev (scrapes c)))).

Definition removeFile (fileId : FileId) (l : list (FileId * string)) : list (FileId * string) :=
  filter (fun f => negb (fst f =? fileId)) l.

(** [ctx.storage.delete(fileId)]; it throws when there is no such file. *)
Definition storage_delete (fileId : FileId) : M unit :=
  fun c =>
    if existsb (fun f => fst f =? fileId) (files (storage c)) then
      (mkCtx (scrapes c) (nextId c)
             (mkStorage (removeFile fileId (files (storage c))) (nextFileId (storage c)))
             (scheduled c), Return tt)
    else (c, Throw "storage: file not found").

(** [ctx.scheduler.runAfter(0, internal.lib.scrapeAction, args)] *)
Definition scheduler_runAfter (args : ActionArgs) : M unit :=
  fun c => (mkCtx (scrapes c) (nextId c) (storage c) (scheduled c ++ [args]), Return tt).

(* ================================================================== *)
(** ** lib.ts: helpers, queries and mutations *)
(* ================================================================== *)

(** Check if cached formats satisfy the requested formats (superset check) *)
Definition formatsSatisfied (cached requested : list string) : bool :=
  forallb (fun f => existsb (String.eqb f) cached) requested.

Definition getByteLength (str : string) : Z := JS.utf8Length str.

Definition isActive (j : Job) : bool :=
  Status_eqb (status j) pending || Status_eqb (status j) scraping.

Definition isTerminal (j : Job) : bool :=
  Status_eqb (status j) completed || Status_eqb (status j) failed.

(** The test of both cache scans: completed, not expired, formats covered. *)
Definition cacheHit (now : Z) (requested : list string) (j : Job) : bool :=
  Status_eqb (status j) completed &&
  (now <? expiresAt j)%Z &&
  formatsSatisfied (formats j) requested.

Definition optList {A} (o : option A) : list A :=
  match o with Some a => [a] | None => [] end.

(** The file ids of a record, in the order the code collects them. *)
Definition fileIdsOf (c : Content) : list FileId :=
  optList (markdownFileId c) ++ optList (htmlFileId c) ++ optList (rawHtmlFileId c) ++
  optList (screenshotFileId c) ++ optList (linksFileId c) ++ optList (imagesFileId c) ++
  optList (extractedJsonFileId c).

(** A JSON value in a condition. *)
Definition jsonTruthy (j : JSON) : bool :=
  match j with
  | JNull => false
  | JBool b => b
  | JNum n => negb (n =? 0)%Z
  | JStr s => JS.truthy s
  | JArr _ | JObj _ => true
  end.

Definition optTruthy {A} (truthy : A -> bool) (o : option A) : bool :=
  match o with Some a => truthy a | None => false end.

Definition orElse {A} (o : option A) (d : A) : A :=
  match o with Some a => a | None => d end.

Definition showId (id : Id) : string := JS.showNat id.

Definition showStatus (s : Status) : string :=
  match s with
  | pending => "pending"
  | scraping => "scraping"
  | completed => "completed"
  | failed => "failed"
  end.

Definition conflictMessage (id : Id) : string :=
  ("Scrape already in progress for this URL. Job ID: " ++ showId id)%string.

Section Lib.
Context {P : Platform}.

Definition getCached (u : string) (requested : option (list string)) (now : Z)
    : M (option Job) :=
    match validateUrl u with
    | invalid _ => ret None
    | valid =>
        match normalizeUrl u with
        | None => throw "Invalid URL"
        | Some normalized =>
            let hash := hashUrl normalized in
            let requestedFormats := orElse requested ["markdown"] in
            found <- by_url_hash_desc hash ;;
            let scrapes := firstn 10 found in
            ret (find (cacheHit now requestedFormats) scrapes)
        end
    end.

Definition getByUrl (u : string) : M (option Job) :=
    match validateUrl u with
    | invalid _ => ret None
    | valid =>
        match normalizeUrl u with
        | None => throw "Invalid URL"
        | Some normalized =>
            let hash := hashUrl normalized in
            found <- by_url_hash_desc hash ;;
            ret (hd_error found)
        end
    end.

(** Step 4 of [startScrape], under [options.force]: delete the completed
    records among the ten newest of the hash, files first. *)
Definition forceDelete (urlHash : string) : M unit :=
  existing <- by_url_hash_desc urlHash ;;
  forEach (firstn 10 existing) (fun scrape =>
    if Status_eqb (status scrape) completed then
      (* Delete associated file storage *)
      forEach (fileIdsOf (content scrape)) storage_delete ;;
      (* Delete the record *)
      db_delete (_id scrape)
    else ret tt).

(** The document of step 7 of [startScrape]. *)
Definition pendingRecord (u normalizedUrl urlHash : string) (formats : list string)
           (options : ScrapeOptions) (now ttlMs : Z) (id : Id) : Job :=
  mkJob id u normalizedUrl urlHash pending formats noContent
        (* Store extraction schema if provided *)
        (if optTruthy jsonTruthy (opt_extractionSchema options)
         then opt_extractionSchema options else None)
        None None now None None
        (now + ttlMs)%Z (* Will be updated on completion *).

(** The arguments of step 8 of [startScrape]. *)
Definition scheduledArgs (jobId : Id) (u apiKey : string) (formats : list string)
           (options : ScrapeOptions) (ttlMs : Z) : ActionArgs :=
  mkActionArgs jobId u apiKey formats
    (mkActionOptions (opt_extractionSchema options)
       (opt_onlyMainContent options) (opt_includeTags options)
       (opt_excludeTags options) (opt_waitFor options)
       (opt_mobile options) (orElse (opt_proxy options) proxy_basic)
       (opt_storeScreenshot options))
    ttlMs.

Definition startScrape (u apiKey : string) (options : ScrapeOptions) (now : Z) : M Id :=
    (* 1. Validate URL *)
    match validateUrl u with
    | invalid error => throw (formatValidationError error)
    | valid =>
        (* 2. Normalize URL and compute hash *)
        match normalizeUrl u with
        | None => throw "Invalid URL"
        | Some normalizedUrl =>
            let urlHash := hashUrl normalizedUrl in
            (* 3. Determine formats (default to markdown) *)
            let formats := orElse (opt_formats options) ["markdown"] in
            let force := orElse (opt_force options) false in
            (* 4. Handle force option - invalidate existing cache *)
            (if force then forceDelete urlHash else ret tt) ;;
            (* 5. Check for existing pending/scraping job (deduplication) *)
            found <- by_url_hash_desc urlHash ;;
            let pendingJobs := firstn 10 found in
            match find isActive pendingJobs with
            | Some job => throw (conflictMessage (_id job))
            | None =>
                (* 6. Check for valid cache (unless force) *)
                match (if force then None else find (cacheHit now formats) pendingJobs) with
                | Some job => ret (_id job)
                | None =>
                    (* 7. Create pending record *)
                    let ttlMs := orElse (opt_ttlMs options) CONFIG.DEFAULT_TTL_MS in
                    jobId <- db_insert
                      (pendingRecord u normalizedUrl urlHash formats options now ttlMs) ;;
                    (* 8. Schedule the scrape action *)
                    scheduler_runAfter (scheduledArgs jobId u apiKey formats options ttlMs) ;;
                    ret jobId
                end
            end
        end
    end.

Definition setExpiresAt (t : Z) (j : Job) : Job :=
    mkJob (_id j) (url j) (normalizedUrl j) (urlHash j) (status j) (formats j) (content j)
          (extractionSchema j) (error j) (errorCode j) (startedAt j) (scrapingAt j)
          (scrapedAt j) t.

  (** the loop of [invalidate]; its result is [invalidatedCount] *)
Fixpoint invalidateLoop (now : Z) (scrapes : list Job) : M nat :=
    match scrapes with
    | [] => ret 0
    | scrape :: rest =>
        (* Only invalidate completed scrapes that are not already expired *)
        if Status_eqb (status scrape) completed && (now <? expiresAt scrape)%Z then
          db_patch (_id scrape) (setExpiresAt now) ;;
          count <- invalidateLoop now rest ;;
          ret (S count)
        else invalidateLoop now rest
    end.

  (** the result of [invalidate]: [success] and [invalidatedCount] *)
Definition invalidate (u : string) (now : Z) : M (bool * nat) :=
    match validateUrl u with
    | invalid _ => ret (false, 0)
    | valid =>
        match normalizeUrl u with
        | None => throw "Invalid URL"
        | Some normalized =>
            let hash := hashUrl normalized in
            scrapes <- by_url_hash_asc hash ;;
            invalidatedCount <- invalidateLoop now scrapes ;;
            ret (true, invalidatedCount)
        end
    end.

  (** Deletes the files one by one and swallows each failure; the result
      is the number of deletions that succeeded. *)
Fixpoint deleteFilesBestEffort (fileIds : list FileId) : M nat :=
    match fileIds with
    | [] => ret 0
    | fileId :: rest =>
        deleted <- tryCatch (storage_delete fileId ;; ret 1) (fun _ => ret 0) ;;
        more <- deleteFilesBestEffort rest ;;
        ret (deleted + more)
    end.

  (** the result of [deleteScrape]: [success] and [deletedFileCount] *)
Definition deleteScrape (id : Id) : M (bool * nat) :=
    found <- db_get id ;;
    match found with
    | None => ret (false, 0)
    | Some scrape =>
        if isActive scrape then
          throw ("Cannot delete scrape with status " ++
                 String PlatformModel.dquote (showStatus (status scrape)) ++
                 String PlatformModel.dquote ". Wait for scrape to complete or fail.")%string
        else
          deletedFileCount <- deleteFilesBestEffort (fileIdsOf (content scrape)) ;;
          db_delete id ;;
          ret (true, deletedFileCount)
    end.

  (* ---------------------------------------------------------------- *)
  (** *** Internal mutations *)

Definition markScrapingFields (now : Z) (j : Job) : Job :=
    mkJob (_id j) (url j) (normalizedUrl j) (urlHash j) scraping (formats j) (content j)
          (extractionSchema j) (error j) (errorCode j) (startedAt j) (Some now)
          (scrapedAt j) (expiresAt j).

Definition markScraping (jobId : Id) (now : Z) : M unit :=
    db_patch jobId (markScrapingFields now).

Definition over {A} (new old : option A) : option A :=
    match new with Some a => Some a | None => old end.

  (** [{ ...content }] laid over a record's content: a field that the
      arguments carry replaces the record's, the others stay. *)
Definition mergeContent (new old : Content) : Content :=
    mkContent
      (over (markdown new) (markdown old)) (over (markdownFileId new) (markdownFileId old))
      (over (html new) (html old)) (over (htmlFileId new) (htmlFileId old))
      (over (rawHtml new) (rawHtml old)) (over (rawHtmlFileId new) (rawHtmlFileId old))
      (over (summary new) (summary old))
      (over (links new) (links old)) (over (linksFileId new) (linksFileId old))
      (over (images new) (images old)) (over (imagesFileId new) (imagesFileId old))
      (over (screenshotUrl new) (screenshotUrl old))
      (over (screenshotFileId new) (screenshotFileId old))
      (over (extractedJson new) (extractedJson old))
      (over (extractedJsonFileId new) (extractedJsonFileId old))
      (over (metadata new) (metadata old)).

Definition completeFields (now ttlMs : Z) (new : Content) (j : Job) : Job :=
    mkJob (_id j) (url j) (normalizedUrl j) (urlHash j) completed (formats j)
          (mergeContent new (content j))
          (extractionSchema j) (error j) (errorCode j) (startedAt j) (scrapingAt j)
          (Some now) (now + ttlMs)%Z.

Definition completeScrape (jobId : Id) (new : Content) (ttlMs : Z) (now : Z) : M unit :=
    (* Check current status to prevent race with stuck job detection *)
    found <- db_get jobId ;;
    match found with
    | None => ret tt
    | Some job =>
        if negb (Status_eqb (status job) pending) && negb (Status_eqb (status job) scraping)
        then ret tt
        else db_patch jobId (completeFields now ttlMs new)
    end.

  (** [{ status: "failed", error, errorCode }]: an absent [errorCode]
      in a patch removes the field. *)
Definition failFields (message : string) (code : option ErrorCode) (j : Job) : Job :=
    mkJob (_id j) (url j) (normalizedUrl j) (urlHash j) failed (formats j) (content j)
          (extractionSchema j) (Some message) code (startedAt j) (scrapingAt j)
          (scrapedAt j) (expiresAt j).

Definition failScrape (jobId : Id) (message : string) (code : option ErrorCode) : M unit :=
    (* Check current status to prevent overwriting terminal states *)
    found <- db_get jobId ;;
    match found with
    | None => ret tt
    | Some job =>
        if Status_eqb (status job) completed || Status_eqb (status job) failed
        then ret tt
        else db_patch jobId (failFields message code)
    end.

  (* ---------------------------------------------------------------- *)
  (** *** Cron job mutations *)

  (** the result of [cleanupExpired]: [deletedCount] and [deletedFileCount] *)
Fixpoint cleanupLoop (expired : list Job) : M (nat * nat) :=
    match expired with
    | [] => ret (0, 0)
    | entry :: rest =>
        (* Only delete jobs in terminal states - never delete pending/scraping *)
        if negb (Status_eqb (status entry) completed) && negb (Status_eqb (status entry) failed)
        then cleanupLoop rest
        else
          deletedFiles <- deleteFilesBestEffort (fileIdsOf (content entry)) ;;
          db_delete (_id entry) ;;
          counts <- cleanupLoop rest ;;
          ret (S (fst counts), deletedFiles + snd counts)
    end.

Definition cleanupExpired (now : Z) : M (nat * nat) :=
    found <- by_expires_lt now ;;
    let expired := firstn CONFIG.CLEANUP_BATCH_SIZE found in
    cleanupLoop expired.

  (** [{ status: "failed", error: "Scrape timed out after 5 minutes" }] *)
Definition timeoutFields (j : Job) : Job :=
    mkJob (_id j) (url j) (normalizedUrl j) (urlHash j) failed (formats j) (content j)
          (extractionSchema j) (Some "Scrape timed out after 5 minutes") (errorCode j)
          (startedAt j) (scrapingAt j) (scrapedAt j) (expiresAt j).

  (** the loop of [markStuckJobsFailed]; its result is [markedFailedCount] *)
Fixpoint markFailedLoop (stuckJobs : list Job) : M nat :=
    match stuckJobs with
    | [] => ret 0
    | job :: rest =>
        db_patch (_id job) timeoutFields ;;
        count <- markFailedLoop rest ;;
        ret (S count)
    end.

  (** the result of [markStuckJobsFailed]: [markedFailedCount] *)
Definition markStuckJobsFailed (now : Z) : M nat :=
    let cutoffTime := (now - CONFIG.STUCK_JOB_TIMEOUT_MS)%Z in
    stuckJobs <- by_status_scraping_lt cutoffTime ;;
    markFailedLoop stuckJobs.

End Lib.

(* ================================================================== *)
(** ** lib.ts: the executor, [scrapeAction] *)
(* ================================================================== *)

(** An element of [data.images]: a string, or an object with a [url]. *)
Inductive ImageItem : Type :=
| ImageString (u : string)
| ImageObject (u : string).

Definition imageUrl (img : ImageItem) : string :=
  match img with ImageString u => u | ImageObject u => u end.

(** [result.data] of the provider's reply. *)
Record FirecrawlData : Type := mkData {
  data_markdown : option string;
  data_html : option string;
  data_rawHtml : option string;
  data_summary : option string;
  data_links : option (list string);
  data_images : option (list ImageItem);
  data_screenshot : option string;
  data_extract : option JSON;
  data_metadata : option Metadata
}.

(** What the call to the provider came to.  [errorJson] is the parsed
    error body, reduced to the two fields read, [error] and [code], each
    absent or a JSON value of any type ([None] when parsing or reading
    throws); [resultError] and [resultCode] are [result.error] and
    [result.code] of the reply. *)
Inductive Response : Type :=
| FetchThrows (message : string)
| NotOk (httpStatus : Z) (errorBody : string)
        (errorJson : option (option JSON * option JSON))
| Ok (success : bool) (resultError : option JSON) (resultCode : option JSON)
     (data : FirecrawlData).

(** What fetching the screenshot came to. *)
Inductive ScreenshotFetch : Type :=
| ShotThrows
| ShotNotOk
| ShotOk (blob : string).

(** [ctx.storage.store(blob)] *)
Definition storage_store (blob : string) : M FileId :=
  fun c =>
    (mkCtx (scrapes c) (nextId c)
           (mkStorage ((nextFileId (storage c), blob) :: files (storage c))
                      (S (nextFileId (storage c))))
           (scheduled c),
     Return (nextFileId (storage c))).

(** [ctx.runMutation(...)]: a transaction of its own. *)
Definition runMutation {A} (m : M A) : M A := fun c => commit m c.

Definition keepTruthy (o : option string) : option string :=
  match o with
  | Some s => if JS.truthy s then Some s else None
  | None => None
  end.

(** The truthiness of a JSON value. *)
Definition JSON_truthy (v : JSON) : bool :=
  match v with
  | JNull => false
  | JBool b => b
  | JNum n => negb (n =? 0)%Z
  | JStr s => JS.truthy s
  | JArr _ | JObj _ => true
  end.

(** [field || fallback] *)
Definition orJSON (field : option JSON) (fallback : JSON) : JSON :=
  match field with
  | Some v => if JSON_truthy v then v else fallback
  | None => fallback
  end.

(** [v.string()] *)
Definition asString (v : JSON) : option string :=
  match v with
  | JStr s => Some s
  | _ => None
  end.

(** [v.union(v.number(), v.string())] *)
Definition asErrorCode (v : JSON) : option ErrorCode :=
  match v with
  | JNum n => Some (CodeNumber n)
  | JStr s => Some (CodeString s)
  | _ => None
  end.

(** [v.optional(v.union(v.number(), v.string()))]: an absent field passes. *)
Definition asOptionalErrorCode (v : option JSON) : option (option ErrorCode) :=
  match v with
  | Some v => option_map Some (asErrorCode v)
  | None => Some None
  end.

Section Executor.
Context {P : Platform}.

  (** The branch every sized field goes through: over the threshold the
      serialized text becomes a blob and only its id is kept, otherwise
      the value is kept inline. *)
Definition inlineOrFile {A} (value : A) (serialized : string)
    : M (option A * option FileId) :=
    if (CONFIG.FILE_STORAGE_THRESHOLD_BYTES <? getByteLength serialized)%Z then
      fileId <- storage_store serialized ;;
      ret (None, Some fileId)
    else ret (Some value, None).

(** One "Handle ..." block of the action: [if (data.x) { if (size >
    threshold) store else inline }], for a field with its truthiness and
    its serialization. *)
Definition sizedField {A} (truthy : A -> bool) (serialize : A -> string)
           (field : option A) : M (option A * option FileId) :=
    match field with
    | Some value =>
        if truthy value then inlineOrFile value (serialize value) else ret (None, None)
    | None => ret (None, None)
    end.

(** an array in a condition is always truthy *)
Definition arrayTruthy (l : list string) : bool := true.

Definition asIs (text : string) : string := text.

Definition stringsJson (l : list string) : string := JSON_stringify (JArr (map JStr l)).

Definition buildMetadata (m : Metadata) : option Metadata :=
    let cleaned :=
      mkMetadata (keepTruthy (title m)) (keepTruthy (description m))
        (keepTruthy (language m)) (keepTruthy (sourceURL m))
        (match statusCode m with
         | Some n => if (n =? 0)%Z then None else Some n
         | None => None
         end)
        (keepTruthy (ogImage m)) (keepTruthy (ogTitle m))
        (keepTruthy (ogDescription m)) (keepTruthy (ogSiteName m))
        (keepTruthy (contentType m)) (keepTruthy (cacheControl m)) in
    match cleaned with
    | mkMetadata None None None None None None None None None None None => None
    | _ => Some cleaned
    end.

  (** Process content and prepare for storage: the [contentUpdate]. *)
(** The screenshot block: the URL is always recorded; with
    [storeScreenshot] the fetched bytes are stored as well, when the fetch
    succeeds. *)
Definition screenshotField (field : option string) (storeScreenshot : option bool)
           (shot : ScreenshotFetch) : M (option string * option FileId) :=
    match keepTruthy field with
    | Some shotUrl =>
        if orElse storeScreenshot false then
          match shot with
          | ShotOk blob =>
              fileId <- storage_store blob ;;
              ret (Some shotUrl, Some fileId)
          | ShotNotOk | ShotThrows => ret (Some shotUrl, None)
          end
        else ret (Some shotUrl, None)
    | None => ret (None, None)
    end.

Definition buildContentUpdate (data : FirecrawlData) (storeScreenshot : option bool)
             (shot : ScreenshotFetch) : M Content :=
    (* Handle markdown *)
    md <- sizedField JS.truthy asIs (data_markdown data) ;;
    (* Handle HTML *)
    ht <- sizedField JS.truthy asIs (data_html data) ;;
    (* Handle raw HTML *)
    rh <- sizedField JS.truthy asIs (data_rawHtml data) ;;
    (* Handle summary *)
    let sm := keepTruthy (data_summary data) in
    (* Handle links *)
    ln <- sizedField arrayTruthy stringsJson (data_links data) ;;
    (* Handle images: extract image URLs from Firecrawl image objects *)
    im <- sizedField arrayTruthy stringsJson
            (option_map (map imageUrl) (data_images data)) ;;
    (* Handle screenshot *)
    sc <- screenshotField (data_screenshot data) storeScreenshot shot ;;
    (* Handle extracted JSON *)
    ex <- sizedField jsonTruthy JSON_stringify (data_extract data) ;;
    (* Handle metadata *)
    let meta := match data_metadata data with
                | Some m => buildMetadata m
                | None => None
                end in
    ret (mkContent (fst md) (snd md) (fst ht) (snd ht) (fst rh) (snd rh) sm
                   (fst ln) (snd ln) (fst im) (snd im) (fst sc) (snd sc)
                   (fst ex) (snd ex) meta).

  (** The first step of the action: mark as scraping. *)
Definition scrapeAction_begin (args : ActionArgs) (now : Z) : M unit :=
    runMutation (markScraping (arg_jobId args) now).

  (** [ctx.runMutation(internal.lib.failScrape, { jobId, error, errorCode })]
      as the action calls it: the arguments are validated before the
      mutation runs, and the call throws when they are refused. *)
Definition callFailScrape (jobId : Id) (error : JSON) (errorCode : option JSON) : M unit :=
    match asString error, asOptionalErrorCode errorCode with
    | Some message, Some code => runMutation (failScrape jobId message code)
    | _, _ => throw (argumentError error errorCode)
    end.

  (** The rest of the action, given what the provider answered: the [try]
      block and its [catch]. *)
Definition scrapeAction_finish (args : ActionArgs) (response : Response)
             (shot : ScreenshotFetch) (now : Z) : M unit :=
    let jobId := arg_jobId args in
    tryCatch
      (match response with
       | FetchThrows message => throw message
       | NotOk httpStatus errorBody errorJson =>
           let fallback :=
             JStr ("Firecrawl API error: " ++ PlatformModel.showZ httpStatus)%string in
           let errorMessage :=
             match errorJson with
             | Some (e, _) => orJSON e fallback
             | None => if JS.truthy errorBody then JStr errorBody else fallback
             end in
           let errorCode :=
             match errorJson with
             | Some (_, code) => orJSON code (JNum httpStatus)
             | None => JNum httpStatus
             end in
           callFailScrape jobId errorMessage (Some errorCode)
       | Ok success resultError resultCode data =>
           if negb success then
             callFailScrape jobId (orJSON resultError (JStr "Firecrawl scrape failed"))
                            resultCode
           else
             contentUpdate <- buildContentUpdate data
                                (act_storeScreenshot (arg_options args)) shot ;;
             runMutation (completeScrape jobId contentUpdate (arg_ttlMs args) now)
       end)
      (fun errorMessage => runMutation (failScrape jobId errorMessage None)).

End Executor.

(* ================================================================== *)
(** ** The running system *)
(* ================================================================== *)

(** The table, storage and scheduler queue, and the actions that have
    begun and not yet ended. *)
Record World : Type := mkWorld {
  ctx : Ctx;
  running : list ActionArgs
}.

Definition emptyWorld : World :=
  mkWorld (mkCtx [] 0 (mkStorage [] 0) []) [].

(** What can happen: a caller's mutation, a cron trigger, the scheduler
    starting the [n]-th queued action, the [n]-th running action getting
    its answer. *)
Inductive Event : Type :=
| CallStartScrape (u apiKey : string) (options : ScrapeOptions)
| CallInvalidate (u : string)
| CallDeleteScrape (id : Id)
| CronCleanupExpired
| CronMarkStuckJobsFailed
| ActionBegins (n : nat)
| ActionEnds (n : nat) (response : Response) (shot : ScreenshotFetch).

Fixpoint removeNth {A} (n : nat) (l : list A) : list A :=
  match n, l with
  | _, [] => []
  | O, _ :: rest => rest
  | S n', x :: rest => x :: removeNth n' rest
  end.

Definition dequeue (c : Ctx) (n : nat) : Ctx :=
  mkCtx (scrapes c) (nextId c) (storage c) (removeNth n (scheduled c)).

Section System.
Context {P : Platform}.

  (** One event at time [now]; [None] when the event cannot happen (no
      such queued or running action).  The end of an action, that is
      the storage writes of the executor followed by its closing
      mutation ([completeScrape] or [failScrape]), is one event: the
      writes only add files under fresh ids, which no other handler
      reads before a record refers to them, so interleaving them with
      other events changes no record. *)
Definition exec (now : Z) (e : Event) (w : World) : option World :=
    match e with
    | CallStartScrape u apiKey options =>
        Some (mkWorld (fst (commit (startScrape u apiKey options now) (ctx w))) (running w))
    | CallInvalidate u =>
        Some (mkWorld (fst (commit (invalidate u now) (ctx w))) (running w))
    | CallDeleteScrape id =>
        Some (mkWorld (fst (commit (deleteScrape id) (ctx w))) (running w))
    | CronCleanupExpired =>
        Some (mkWorld (fst (commit (cleanupExpired now) (ctx w))) (running w))
    | CronMarkStuckJobsFailed =>
        Some (mkWorld (fst (commit (markStuckJobsFailed now) (ctx w))) (running w))
    | ActionBegins n =>
        match nth_error (scheduled (ctx w)) n with
        | None => None
        | Some args =>
            match scrapeAction_begin args now (dequeue (ctx w) n) with
            | (c', Return _) => Some (mkWorld c' (args :: running w))
            | (c', Throw _) => Some (mkWorld c' (running w))
            end
        end
    | ActionEnds n response shot =>
        match nth_error (running w) n with
        | None => None
        | Some args =>
            Some (mkWorld (fst (scrapeAction_finish args response shot now (ctx w)))
                          (removeNth n (running w)))
        end
    end.

Definition step (w w' : World) : Prop :=
    exists now e, exec now e w = Some w'.

Inductive reachable : World -> Prop :=
  | reachable_start : reachable emptyWorld
  | reachable_step : forall w w', reachable w -> step w w' -> reachable w'.

End System.

(* ================================================================== *)
(** ** Vocabulary of the statements *)
(* ================================================================== *)

(** Some record of [l] has the id of [j]. *)
Definition idIn (j : Job) (l : list Job) : bool := existsb (hasId (_id j)) l.

(** Document ids are unique, as the database hands them out. *)
Definition uniqueIds (table : list Job) : Prop := NoDup (map _id table).

Definition uniqueFileIds (s : Storage) : Prop := NoDup (map fst (files s)).

(** Two contexts that differ at most in the table. *)
Definition sameButTable (c c' : Ctx) : Prop :=
  nextId c' = nextId c /\ storage c' = storage c /\ scheduled c' = scheduled c.

(** Two contexts that differ at most in the table and the stored files. *)
Definition sameButData (c c' : Ctx) : Prop :=
  nextId c' = nextId c /\ scheduled c' = scheduled c /\
  nextFileId (storage c') = nextFileId (storage c).

(** The records the stuck-job sweep is about at time [now]: in status
    scraping since before [now] less the timeout. *)
Definition isStuck (now : Z) (j : Job) : bool :=
  Status_eqb (status j) scraping &&
  match scrapingAt j with
  | Some t => (t <? now - CONFIG.STUCK_JOB_TIMEOUT_MS)%Z
  | None => false
  end.

(** A record in status scraping carries its [scrapingAt]: [markScraping]
    writes the two together. *)
Definition scrapingStamped (table : list Job) : Prop :=
  forall j, In j table -> status j = scraping -> scrapingAt j <> None.

Definition setStartedAt (t : Z) (j : Job) : Job :=
  mkJob (_id j) (url j) (normalizedUrl j) (urlHash j) (status j) (formats j) (content j)
        (extractionSchema j) (error j) (errorCode j) t (scrapingAt j)
        (scrapedAt j) (expiresAt j).

(** A record of the page [https://example.com/page] for the examples. *)
Definition sampleJob (id : Id) (st : Status) (fmts : list string)
           (started : Z) (scrapingSince : option Z) (expires : Z) : Job :=
  mkJob id "https://example.com/page" "https://example.com/page"
        "https://example.com/page" st fmts noContent None None None
        started scrapingSince None expires.

Definition sampleCtx (table : list Job) : Ctx :=
  mkCtx table (List.length table) (mkStorage [] 0) [].

(** The records [invalidate] is about: of the hash, completed, not yet
    expired at [now]. *)
Definition liveFor (hash : string) (now : Z) (j : Job) : bool :=
  (urlHash j =? hash)%string && Status_eqb (status j) completed && (now <? expiresAt j)%Z.

(** The batch the expiry sweep loads at [now]: the first
    [CLEANUP_BATCH_SIZE] records of the [by_expires] index below [now]. *)
Definition expiredBatch (now : Z) (table : list Job) : list Job :=
  firstn CONFIG.CLEANUP_BATCH_SIZE
    (fold_right insertByExpires [] (filter (fun j => (expiresAt j <? now)%Z) (rev table))).

(** Not both inline and in a file. *)
Definition notBoth {A B} (inline : option A) (file : option B) : Prop :=
  inline = None \/ file = None.

(** No sized field is held both inline and as a file reference. *)
Definition exclusiveContent (c : Content) : Prop :=
  notBoth (markdown c) (markdownFileId c) /\
  notBoth (html c) (htmlFileId c) /\
  notBoth (rawHtml c) (rawHtmlFileId c) /\
  notBoth (links c) (linksFileId c) /\
  notBoth (images c) (imagesFileId c) /\
  notBoth (extractedJson c) (extractedJsonFileId c).

(** The dedup invariant in the order of the table (newest first): a
    record in status pending or scraping has no newer record of its hash. *)
Fixpoint newestActive (table : list Job) : Prop :=
  match table with
  | [] => True
  | j :: older =>
      (forall k, In k older -> isActive k = true -> urlHash k <> urlHash j) /\
      newestActive older
  end.

(** At most one record per hash is in status pending or scraping. *)
Definition oneActivePerHash (table : list Job) : Prop :=
  forall j k, In j table -> In k table ->
              isActive j = true -> isActive k = true ->
              urlHash j = urlHash k -> j = k.

(** What one event may do to one record: nothing, or one of the five
    patches of lib.ts, each from the statuses its caller finds. *)
Inductive Patch : Job -> Job -> Prop :=
| patch_none : forall j, Patch j j
| patch_scraping : forall now j,
    status j = pending -> Patch j (markScrapingFields now j)
| patch_completed : forall now ttlMs new j,
    isActive j = true -> exclusiveContent new ->
    Patch j (completeFields now ttlMs new j)
| patch_failed : forall message code j,
    isActive j = true -> Patch j (failFields message code j)
| patch_timeout : forall j,
    status j = scraping -> Patch j (timeoutFields j)
| patch_invalidated : forall now j,
    status j = completed -> Patch j (setExpiresAt now j).

(** The record [startScrape] inserts at [now]. *)
Definition created (now : Z) (j : Job) : Prop :=
  status j = pending /\ content j = noContent /\
  error j = None /\ errorCode j = None /\
  startedAt j = now /\ scrapingAt j = None /\ scrapedAt j = None /\
  exists ttlMs, expiresAt j = (now + ttlMs)%Z.

(** What holds of every world the system can be in. *)
Record Inv (w : World) : Prop := mkInv {
  inv_ids : uniqueIds (scrapes (ctx w));
  inv_bound : forall j, In j (scrapes (ctx w)) -> _id j < nextId (ctx w);
  inv_newest : newestActive (scrapes (ctx w));
  inv_scheduled : forall a, In a (scheduled (ctx w)) ->
                  exists j, In j (scrapes (ctx w)) /\ _id j = arg_jobId a /\ status j = pending;
  inv_queue : NoDup (map arg_jobId (scheduled (ctx w)));
  inv_running : forall a j, In a (running w) -> In j (scrapes (ctx w)) ->
                _id j = arg_jobId a -> status j <> pending;
  inv_running_bound : forall a, In a (running w) -> arg_jobId a < nextId (ctx w);
  inv_stamped : scrapingStamped (scrapes (ctx w));
  inv_active_empty : forall j, In j (scrapes (ctx w)) -> isActive j = true ->
                     content j = noContent;
  inv_exclusive : forall j, In j (scrapes (ctx w)) -> exclusiveContent (content j)
}.

(** Ranks along pending, scraping, then completed or failed. *)
Definition rank (s : Status) : nat :=
  match s with
  | pending => 0
  | scraping => 1
  | completed | failed => 2
  end.

(** The action's steps before [completeScrape] leave the table and the
    queue alone and only add files. *)
Definition grows (c c' : Ctx) : Prop :=
  scrapes c' = scrapes c /\ nextId c' = nextId c /\ scheduled c' = scheduled c /\
  incl (files (storage c)) (files (storage c')).

(** Where the code puts a sized value: over the threshold its serialized
    text is a stored file whose id alone is kept, otherwise the value is
    kept inline and there is no file id. *)
Definition placed {A} (value : A) (serialized : string)
           (inline : option A) (file : option FileId) (c' : Ctx) : Prop :=
  if (CONFIG.FILE_STORAGE_THRESHOLD_BYTES <? getByteLength serialized)%Z
  then inline = None /\ exists fileId, file = Some fileId /\
                                       In (fileId, serialized) (files (storage c'))
  else inline = Some value /\ file = None.

(** The same for a field of the reply that may be absent or falsy: then
    neither is set. *)
Definition fieldPlaced {A} (truthy : A -> bool) (serialize : A -> string)
           (field : option A) (inline : option A) (file : option FileId) (c' : Ctx) : Prop :=
  match field with
  | Some value =>
      if truthy value then placed value (serialize value) inline file c'
      else inline = None /\ file = None
  | None => inline = None /\ file = None
  end.



(** What one event at [now] does to the table: every record of the new
    table is a record of the old one after one [Patch], or the record
    [startScrape] just created, under an id not handed out before. *)
Definition Effect (now : Z) (w w' : World) : Prop :=
  nextId (ctx w) <= nextId (ctx w') /\
  forall j', In j' (scrapes (ctx w')) ->
    (exists j, In j (scrapes (ctx w)) /\ Patch j j') \/
    (created now j' /\ nextId (ctx w) <= _id j').

(** Any number of events, one after the other. *)
Inductive steps {P : Platform} : World -> World -> Prop :=
| steps_none : forall w, steps w w
| steps_more : forall w w1 w', steps w w1 -> step w1 w' -> steps w w'.

(** Two records that differ at most in [status], [error] and [errorCode]. *)
Definition sameExceptFailure (j j' : Job) : Prop :=
  _id j' = _id j /\ url j' = url j /\ normalizedUrl j' = normalizedUrl j /\
  urlHash j' = urlHash j /\ formats j' = formats j /\ content j' = content j /\
  extractionSchema j' = extractionSchema j /\
  startedAt j' = startedAt j /\ scrapingAt j' = scrapingAt j /\
  scrapedAt j' = scrapedAt j /\ expiresAt j' = expiresAt j.

(** A schedule of events with their times, run from a world. *)
Fixpoint runEvents {P : Platform} (events : list (Z * Event)) (w : World) : option World :=
  match events with
  | [] => Some w
  | (now, e) :: rest =>
      match exec now e w with
      | Some w' => runEvents rest w'
      | None => None
      end
  end.

Definition sampleUrl : string := "https://example.com/page".

Definition htmlOptions : ScrapeOptions :=
  mkScrapeOptions (Some ["html"]) None None None None None None None None None None.

Definition markdownReply : Response :=
  Ok true None None
     (mkData (Some "# Example") None None None None None None None None).

(** A scenario on the model platform: a scrape of the sample page is
    requested at time 0, begins at 1 and completes with markdown at 2; at
    3 the same page is requested as html. *)
Definition scenario : list (Z * Event) :=
  [ (0%Z, CallStartScrape sampleUrl "key" noOptions);
    (1%Z, ActionBegins 0);
    (2%Z, ActionEnds 0 markdownReply ShotThrows);
    (3%Z, CallStartScrape sampleUrl "key" htmlOptions) ].

Definition worldAfter (n : nat) : World :=
  match @runEvents model_platform (firstn n scenario) emptyWorld with
  | Some w => w
  | None => emptyWorld
  end.

Definition shortTtlOptions : ScrapeOptions :=
  mkScrapeOptions None None (Some 1000%Z) None None None None None None None None.

(** A second scenario: a scrape requested at 0 with a ttl of 1000 ms
    begins at 1, and its call to the provider throws at 2. *)
Definition failingScenario : list (Z * Event) :=
  [ (0%Z, CallStartScrape sampleUrl "key" shortTtlOptions);
    (1%Z, ActionBegins 0);
    (2%Z, ActionEnds 0 (FetchThrows "fetch failed") ShotThrows) ].

Definition failingWorldAfter (n : nat) : World :=
  match @runEvents model_platform (firstn n failingScenario) emptyWorld with
  | Some w => w
  | None => emptyWorld
  end.

(** A table for the expiry sweep at [now = 100]: a failed record that
    expired at 50, a pending record whose placeholder expiry 10 has passed,
    a completed record that expired at 20 and keeps its markdown in
    file 7, and a completed record that expires at 100. *)
Definition sweepTable : list Job :=
  [ sampleJob 3 completed ["markdown"] 0 (Some 1%Z) 100;
    sampleJob 2 failed ["markdown"] 0 (Some 1%Z) 50;
    sampleJob 1 pending ["markdown"] 0 None 10;
    mkJob 0 sampleUrl sampleUrl sampleUrl completed ["markdown"]
          (mkContent None (Some 7) None None None None None None None None None None None
                     None None None)
          None None None 0 (Some 1%Z) (Some 2%Z) 20 ].

Definition sweepCtx : Ctx :=
  mkCtx sweepTable 4 (mkStorage [(7, "# Example")] 8) [].

(** A URL of 2020 characters. *)
Definition longUrl : string :=
  ("https://example.com/" ++ JS.repeat "a" 2000)%string.

(* ================================================================== *)
(** ** More of url.ts *)
(* ================================================================== *)

(** The names [normalizeUrl] keeps, in the order it writes them:
    [Array.from(params.keys()).filter(name => !isTrackingParam(name)).sort()] *)
Definition paramNames (params : list (string * string)) : list string :=
  JS.sort (filter (fun name => negb (isTrackingParam name)) (map fst params)).

(** The [sortedParams] of [normalizeUrl]: for each kept name, [set] with
    the value [params.get(name)] gives. *)
Definition sortedParams (params : list (string * string)) : list (string * string) :=
  fold_left
    (fun acc name =>
       match params_get params name with
       | Some value => params_set acc name value
       | None => acc
       end)
    (paramNames params) [].

(** A pattern that matches no string at all. *)
Fixpoint void (r : Regex.re) : bool :=
  match r with
  | Regex.Never => true
  | Regex.Eps | Regex.Cls _ | Regex.Star _ => false
  | Regex.Cat r1 r2 => void r1 || void r2
  | Regex.Alt r1 r2 => void r1 && void r2
  end.

(** What is left of a pattern after a prefix has been read. *)
Fixpoint derivs (r : Regex.re) (s : string) : Regex.re :=
  match s with
  | EmptyString => r
  | String c s' => derivs (Regex.deriv c r) s'
  end.

(** A host in dotted decimal, as the URL parser writes an IPv4 address. *)
Definition dotted (a b c d : nat) : string :=
  (JS.showNat a ++ "." ++ JS.showNat b ++ "." ++ JS.showNat c ++ "." ++ JS.showNat d)%string.

(** Finds a pattern in the list of the private ranges. *)
Ltac in_patterns :=
  unfold PRIVATE_IP_PATTERNS; cbv zeta;
  repeat first [ left; reflexivity | right ].

(** The IPv4 addresses of the private patterns: 0.0.0.0, 10/8, 127/8,
    169.254/16, 172.16/12 and 192.168/16. *)
Definition privateQuad (a b c d : nat) : bool :=
  (a =? 10) || (a =? 127) ||
  ((a =? 172) && (16 <=? b) && (b <=? 31)) ||
  ((a =? 192) && (b =? 168)) ||
  ((a =? 169) && (b =? 254)) ||
  ((a =? 0) && (b =? 0) && (c =? 0) && (d =? 0)).

(* ================================================================== *)
(** ** More of lib.ts: the other queries *)
(* ================================================================== *)

Definition get (id : Id) : M (option Job) := db_get id.

(** The object [getStatus] returns. *)
Record StatusInfo : Type := mkStatusInfo {
  info_status : Status;
  info_error : option string;
  info_errorCode : option ErrorCode;
  info_startedAt : Z;
  info_scrapingAt : option Z;
  info_scrapedAt : option Z;
  info_expiresAt : Z
}.

Definition getStatus (id : Id) : M (option StatusInfo) :=
  scrape <- db_get id ;;
  match scrape with
  | None => ret None
  | Some scrape =>
      ret (Some (mkStatusInfo (status scrape) (error scrape) (errorCode scrape)
                              (startedAt scrape) (scrapingAt scrape) (scrapedAt scrape)
                              (expiresAt scrape)))
  end.

(* ================================================================== *)
(** ** More vocabulary *)
(* ================================================================== *)

(** What a record holds in each status. *)
Definition wellShaped (j : Job) : Prop :=
  match status j with
  | pending =>
      scrapingAt j = None /\ scrapedAt j = None /\ error j = None /\ errorCode j = None /\
      content j = noContent
  | scraping =>
      scrapingAt j <> None /\ scrapedAt j = None /\ error j = None /\ errorCode j = None /\
      content j = noContent
  | completed => scrapedAt j <> None /\ error j = None /\ errorCode j = None
  | failed => error j <> None /\ scrapedAt j = None /\ content j = noContent
  end.

(** The key of a record is the key of its URL. *)
Definition keyed {P : Platform} (j : Job) : Prop :=
  validateUrl (url j) = valid /\
  normalizeUrl (url j) = Some (normalizedUrl j) /\
  urlHash j = hashUrl (normalizedUrl j).

(** A table for the expiry sweep at [now = 100]: a hundred pending records
    whose placeholder expiry 10 has passed, and a newer failed record that
    expired at 50. *)
Definition starvedTable : list Job :=
  sampleJob 100 failed ["markdown"] 0 (Some 1%Z) 50 ::
  map (fun id => sampleJob id pending ["markdown"] 0 None 10) (rev (seq 0 100)).

Definition starvedCtx : Ctx := mkCtx starvedTable 101 (mkStorage [] 0) [].

(** The file ids the records of a table refer to. *)
Definition fileIdsIn (table : list Job) : list FileId :=
  flat_map (fun j => fileIdsOf (content j)) table.

(** Storage and the references to it: file ids are unique and below the
    next one to hand out; no file id is referred to twice, and every one
    referred to is in storage. *)
Record FilesInv (c : Ctx) : Prop := mkFilesInv {
  files_unique : uniqueFileIds (storage c);
  files_bound : forall f, In f (map fst (files (storage c))) -> f < nextFileId (storage c);
  refs_unique : NoDup (fileIdsIn (scrapes c));
  refs_exist : forall f, In f (fileIdsIn (scrapes c)) -> In f (map fst (files (storage c)))
}.

(** The stores of an action, counted: the table, the ids and the queue are
    as before; storage holds, in front of the old files, one new file
    under each id from the old [nextFileId] up to the new one. *)
Definition extends (c c' : Ctx) : Prop :=
  scrapes c' = scrapes c /\ nextId c' = nextId c /\ scheduled c' = scheduled c /\
  nextFileId (storage c) <= nextFileId (storage c') /\
  exists added,
    files (storage c') = added ++ files (storage c) /\
    map fst added =
      rev (seq (nextFileId (storage c)) (nextFileId (storage c') - nextFileId (storage c))).

(** A file id handed out between two contexts. *)
Definition handedOut (c c' : Ctx) (file : option FileId) : Prop :=
  match file with
  | Some f => nextFileId (storage c) <= f < nextFileId (storage c')
  | None => True
  end.

(* ================================================================== *)
(** ** More of lib.ts: [getContent] *)
(* ================================================================== *)

(** The object [getContent] returns.  A file URL is absent when the record
    has no file id for the field, and [null] (here [Some None]) when
    storage has no such file. *)
Record ContentResult : Type := mkContentResult {
  res_url : string;
  res_normalizedUrl : string;
  res_status : Status;
  res_formats : list string;
  res_markdown : option string;
  res_html : option string;
  res_rawHtml : option string;
  res_summary : option string;
  res_links : option (list string);
  res_images : option (list string);
  res_screenshotUrl : option string;
  res_extractedJson : option JSON;
  res_markdownFileUrl : option (option string);
  res_htmlFileUrl : option (option string);
  res_rawHtmlFileUrl : option (option string);
  res_screenshotFileUrl : option (option string);
  res_linksFileUrl : option (option string);
  res_imagesFileUrl : option (option string);
  res_extractedJsonFileUrl : option (option string);
  res_metadata : option Metadata;
  res_error : option string;
  res_errorCode : option ErrorCode;
  res_startedAt : Z;
  res_scrapingAt : option Z;
  res_scrapedAt : option Z;
  res_expiresAt : Z
}.

Section GetContent.
(** The URL storage serves a file under. *)
Variable fileUrl : FileId -> string.

(** [ctx.storage.getUrl(fileId)]: [null] when there is no such file. *)
Definition storage_getUrl (fileId : FileId) : M (option string) :=
  fun c => (c, Return (if existsb (fun f => fst f =? fileId) (files (storage c))
                       then Some (fileUrl fileId) else None)).

(** [fileId ? await ctx.storage.getUrl(fileId) : undefined] *)
Definition urlOf (fileId : option FileId) : M (option (option string)) :=
  match fileId with
  | Some id => found <- storage_getUrl id ;; ret (Some found)
  | None => ret None
  end.

Definition getContent (id : Id) : M (option ContentResult) :=
  found <- db_get id ;;
  match found with
  | None => ret None
  | Some scrape =>
      (* Get file URLs for large content stored in file storage *)
      markdownFileUrl <- urlOf (markdownFileId (content scrape)) ;;
      htmlFileUrl <- urlOf (htmlFileId (content scrape)) ;;
      rawHtmlFileUrl <- urlOf (rawHtmlFileId (content scrape)) ;;
      screenshotFileUrl <- urlOf (screenshotFileId (content scrape)) ;;
      linksFileUrl <- urlOf (linksFileId (content scrape)) ;;
      imagesFileUrl <- urlOf (imagesFileId (content scrape)) ;;
      extractedJsonFileUrl <- urlOf (extractedJsonFileId (content scrape)) ;;
      ret (Some (mkContentResult
                   (url scrape) (normalizedUrl scrape) (status scrape) (formats scrape)
                   (markdown (content scrape)) (html (content scrape))
                   (rawHtml (content scrape)) (summary (content scrape))
                   (links (content scrape)) (images (content scrape))
                   (screenshotUrl (content scrape)) (extractedJson (content scrape))
                   markdownFileUrl htmlFileUrl rawHtmlFileUrl screenshotFileUrl
                   linksFileUrl imagesFileUrl extractedJsonFileUrl
                   (metadata (content scrape)) (error scrape) (errorCode scrape)
                   (startedAt scrape) (scrapingAt scrape) (scrapedAt scrape)
                   (expiresAt scrape)))
  end.

End GetContent.

(** The file URL of a field whose file is in storage. *)
Definition servedUrl (fileUrl : FileId -> string) (fileId : option FileId)
  : option (option string) :=
  option_map (fun id => Some (fileUrl id)) fileId.

(** A file that no record refers to stays: it is still in storage, and
    still no record refers to it. *)
Definition keepsOrphans (c c' : Ctx) : Prop :=
  forall f, In f (map fst (files (storage c))) -> ~ In f (fileIdsIn (scrapes c)) ->
            In f (map fst (files (storage c'))) /\ ~ In f (fileIdsIn (scrapes c')).

Definition screenshotOptions : ScrapeOptions :=
  mkScrapeOptions (Some ["screenshot"]) None None None None None None None None None
                  (Some true).

Definition screenshotReply : Response :=
  Ok true None None
     (mkData None None None None None None (Some "https://cdn.example/shot.png") None None).

(** A third scenario: a scrape with [storeScreenshot] is requested at 0
    and begins at 1; at 400000 the stuck-job sweep fails it; at 400001 the
    provider's reply arrives after all and the screenshot is fetched and
    stored.  The page is requested again at 400002, and this scrape
    completes at 400004.  Much later both records have expired and are
    swept. *)
Definition lateScenario : list (Z * Event) :=
  [ (0%Z, CallStartScrape sampleUrl "key" screenshotOptions);
    (1%Z, ActionBegins 0);
    (400000%Z, CronMarkStuckJobsFailed);
    (400001%Z, ActionEnds 0 screenshotReply (ShotOk "PNG"));
    (400002%Z, CallStartScrape sampleUrl "key" screenshotOptions);
    (400003%Z, ActionBegins 0);
    (400004%Z, ActionEnds 0 screenshotReply (ShotOk "PNG again"));
    (9000000000%Z, CronCleanupExpired) ].

Definition lateWorldAfter (n : nat) : World :=
  match @runEvents model_platform (firstn n lateScenario) emptyWorld with
  | Some w => w
  | None => emptyWorld
  end.

(* ================================================================== *)
(** * Properties *)
(* ================================================================== *)

Unset Implicit Arguments.

(** ** Lists and strings *)

Lemma find_some_existsb {A} (p : A -> bool) (l : list A) (x : A) :
  find p l = Some x -> existsb p l = true.
Proof.
  intro H. apply find_some in H. apply existsb_exists. exists x. exact H.
Qed.

Lemma find_none_existsb {A} (p : A -> bool) (l : list A) :
  find p l = None -> existsb p l = false.
Proof.
  intro H. destruct (existsb p l) eqn:E; [|reflexivity].
  apply existsb_exists in E. destruct E as [x [Hin Hp]].
  rewrite (find_none _ _ H x Hin) in Hp. discriminate.
Qed.

Lemma existsb_find_some {A} (p : A -> bool) (l : list A) :
  existsb p l = true -> exists x, find p l = Some x.
Proof.
  induction l as [|a l IH]; simpl; [discriminate|].
  destruct (p a); [eauto|]. simpl. exact IH.
Qed.

Lemma firstn_member {A} (n : nat) (l : list A) (x : A) :
  In x (firstn n l) -> In x l.
Proof.
  revert l. induction n as [|n IH]; intros [|a l]; simpl; try contradiction.
  intros [E|H]; [left; exact E | right; apply IH; exact H].
Qed.

Lemma Status_eqb_eq (a b : Status) : Status_eqb a b = true <-> a = b.
Proof. destruct a, b; simpl; split; intro H; try reflexivity; discriminate. Qed.

Lemma isActive_isTerminal (j : Job) : isTerminal j = negb (isActive j).
Proof. unfold isTerminal, isActive. destruct (status j); reflexivity. Qed.

Lemma prefix_app (p s : string) : prefix p (p ++ s)%string = true.
Proof.
  induction p as [|c p IH]; simpl.
  - destruct s; reflexivity.
  - destruct (ascii_dec c c) as [_|N]; [exact IH | contradiction].
Qed.

Lemma includes_unfold (s needle : string) :
  JS.includes s needle =
  prefix needle s ||
  match s with
  | EmptyString => false
  | String _ s' => JS.includes s' needle
  end.
Proof. destruct s; reflexivity. Qed.

Lemma includes_app (a needle b : string) :
  JS.includes (a ++ needle ++ b)%string needle = true.
Proof.
  induction a as [|c a IH].
  - rewrite includes_unfold. simpl. rewrite prefix_app. reflexivity.
  - rewrite includes_unfold. simpl. rewrite IH. apply orb_true_r.
Qed.

Lemma includes_prefix (needle b : string) :
  JS.includes (needle ++ b)%string needle = true.
Proof. exact (includes_app EmptyString needle b). Qed.

(** ** The handlers as equations *)

Section HandlerEquations.
Context {P : Platform}.

Lemma db_patch_found (id : Id) (fields : Job -> Job) (c : Ctx) :
  existsb (hasId id) (scrapes c) = true ->
  db_patch id fields c = (setScrapes c (patchTable id fields (scrapes c)), Return tt).
Proof. intro H. unfold db_patch. rewrite H. reflexivity. Qed.

Lemma completeScrape_run (jobId : Id) (new : Content) (ttlMs now : Z) (c : Ctx) :
  completeScrape jobId new ttlMs now c =
  match find (hasId jobId) (scrapes c) with
  | Some job =>
      if isActive job
      then (setScrapes c (patchTable jobId (completeFields now ttlMs new) (scrapes c)),
            Return tt)
      else (c, Return tt)
  | None => (c, Return tt)
  end.
Proof.
  unfold completeScrape, bind, db_get. simpl.
  destruct (find (hasId jobId) (scrapes c)) as [job|] eqn:F; [|reflexivity].
  unfold isActive. destruct (status job) eqn:S; simpl; try reflexivity;
    apply db_patch_found; eapply find_some_existsb; exact F.
Qed.

Lemma failScrape_run (jobId : Id) (message : string) (code : option ErrorCode) (c : Ctx) :
  failScrape jobId message code c =
  match find (hasId jobId) (scrapes c) with
  | Some job =>
      if isActive job
      then (setScrapes c (patchTable jobId (failFields message code) (scrapes c)),
            Return tt)
      else (c, Return tt)
  | None => (c, Return tt)
  end.
Proof.
  unfold failScrape, bind, db_get. simpl.
  destruct (find (hasId jobId) (scrapes c)) as [job|] eqn:F; [|reflexivity].
  unfold isActive. destruct (status job) eqn:S; simpl; try reflexivity;
    apply db_patch_found; eapply find_some_existsb; exact F.
Qed.

End HandlerEquations.

(** ** Tables *)

Lemma setScrapes_same (c : Ctx) : setScrapes c (scrapes c) = c.
Proof. destruct c; reflexivity. Qed.

Lemma setScrapes_twice (c : Ctx) (t t' : list Job) :
  setScrapes (setScrapes c t) t' = setScrapes c t'.
Proof. reflexivity. Qed.

Lemma hasId_patchTable (id id' : Id) (f : Job -> Job) (t : list Job) :
  (forall j, _id (f j) = _id j) ->
  existsb (hasId id) (patchTable id' f t) = existsb (hasId id) t.
Proof.
  intro Hid. induction t as [|a t IH]; simpl; [reflexivity|].
  rewrite IH. f_equal. unfold hasId. destruct (_id a =? id'); [rewrite Hid|]; reflexivity.
Qed.

Lemma map_patchTable_id (id : Id) (f : Job -> Job) (t : list Job) :
  (forall j, _id (f j) = _id j) -> map _id (patchTable id f t) = map _id t.
Proof.
  intro Hid. unfold patchTable. rewrite map_map. apply map_ext.
  intro j. destruct (hasId id j); [apply Hid | reflexivity].
Qed.

Lemma fold_patchTable (f : Job -> Job) (l t : list Job) :
  (forall j, _id (f j) = _id j) -> (forall j, f (f j) = f j) ->
  fold_left (fun table j => patchTable (_id j) f table) l t =
  map (fun j => if idIn j l then f j else j) t.
Proof.
  intros Hid Hidem. revert t. induction l as [|a l IH]; intro t; simpl.
  - symmetry. apply map_id.
  - rewrite IH. unfold patchTable. rewrite map_map. apply map_ext. intro j.
    unfold idIn, hasId. simpl. rewrite (Nat.eqb_sym (_id a) (_id j)).
    destruct (_id j =? _id a) eqn:E; simpl.
    + rewrite Hid, Hidem. destruct (existsb _ l); reflexivity.
    + reflexivity.
Qed.

Lemma uniqueIds_eq (t : list Job) (j k : Job) :
  uniqueIds t -> In j t -> In k t -> _id j = _id k -> j = k.
Proof.
  unfold uniqueIds. induction t as [|a t IH]; simpl; intros N Hj Hk E; [contradiction|].
  inversion N as [|? ? Hnot N']; subst.
  destruct Hj as [Hj|Hj], Hk as [Hk|Hk]; subst.
  - reflexivity.
  - exfalso. apply Hnot. rewrite E. apply in_map. exact Hk.
  - exfalso. apply Hnot. rewrite <- E. apply in_map. exact Hj.
  - apply IH; assumption.
Qed.

Lemma idIn_true (j : Job) (l : list Job) :
  idIn j l = true <-> exists k, In k l /\ _id k = _id j.
Proof.
  unfold idIn, hasId. rewrite existsb_exists. split; intros [k [Hin E]]; exists k; split;
    try exact Hin; apply Nat.eqb_eq; exact E.
Qed.

Lemma idIn_In (t l : list Job) (j : Job) :
  uniqueIds t -> incl l t -> In j t -> (idIn j l = true <-> In j l).
Proof.
  intros N Hsub Hj. rewrite idIn_true. split.
  - intros [k [Hk E]]. rewrite <- (uniqueIds_eq t k j N (Hsub _ Hk) Hj E). exact Hk.
  - intro H. exists j. split; [exact H | reflexivity].
Qed.

Lemma In_idIn (j : Job) (l : list Job) : In j l -> idIn j l = true.
Proof. intro H. apply idIn_true. exists j. split; [exact H | reflexivity]. Qed.

Lemma hasId_member (j : Job) (t : list Job) : In j t -> existsb (hasId (_id j)) t = true.
Proof. intro H. apply existsb_exists. exists j. split; [exact H | apply Nat.eqb_refl]. Qed.

Lemma keys_unique_filter {K V} (key : V -> K) (keep : V -> bool) (rows : list V) :
  NoDup (map key rows) -> NoDup (map key (filter keep rows)).
Proof.
  intro N. induction rows as [|row rows IH]; simpl; [exact N|].
  inversion N as [|? ? Hnot N']; subst. destruct (keep row); simpl.
  - constructor; [|apply IH; exact N'].
    intro H. apply Hnot. apply in_map_iff in H. destruct H as [k [E Hk]].
    apply filter_In in Hk. apply in_map_iff. exists k. tauto.
  - apply IH; exact N'.
Qed.

Lemma uniqueIds_filter (p : Job -> bool) (t : list Job) :
  uniqueIds t -> uniqueIds (filter p t).
Proof. apply keys_unique_filter. Qed.

Lemma uniqueIds_map (f : Job -> Job) (t : list Job) :
  (forall j, _id (f j) = _id j) -> uniqueIds t -> uniqueIds (map f t).
Proof.
  intros Hid N. unfold uniqueIds. rewrite map_map.
  rewrite (map_ext (fun x => _id (f x)) _id Hid). exact N.
Qed.

(** ** The loops *)

Section Loops.
Context {P : Platform}.

Lemma setExpiresAt_id (now : Z) (j : Job) : _id (setExpiresAt now j) = _id j.
Proof. reflexivity. Qed.

Lemma timeoutFields_id (j : Job) : _id (timeoutFields j) = _id j.
Proof. reflexivity. Qed.

Lemma markFailedLoop_run (l : list Job) (c : Ctx) :
  (forall j, In j l -> existsb (hasId (_id j)) (scrapes c) = true) ->
  markFailedLoop l c =
  (setScrapes c (map (fun j => if idIn j l then timeoutFields j else j) (scrapes c)),
   Return (List.length l)).
Proof.
  rewrite <- (fold_patchTable timeoutFields l (scrapes c)) by reflexivity.
  revert c. induction l as [|a l IH]; intros c H; simpl.
  - rewrite setScrapes_same. reflexivity.
  - unfold bind. rewrite db_patch_found by (apply H; left; reflexivity).
    rewrite IH.
    + reflexivity.
    + intros j Hj. simpl. rewrite hasId_patchTable by reflexivity. apply H. right. exact Hj.
Qed.

Lemma invalidateLoop_run (now : Z) (l : list Job) (c : Ctx) :
  (forall j, In j l -> existsb (hasId (_id j)) (scrapes c) = true) ->
  let live := filter (fun j => Status_eqb (status j) completed && (now <? expiresAt j)%Z) l in
  invalidateLoop now l c =
  (setScrapes c (map (fun j => if idIn j live then setExpiresAt now j else j) (scrapes c)),
   Return (List.length live)).
Proof.
  intros H live. subst live.
  rewrite <- (fold_patchTable (setExpiresAt now) _ (scrapes c)) by reflexivity.
  revert c H. induction l as [|a l IH]; intros c H; simpl.
  - rewrite setScrapes_same. reflexivity.
  - destruct (Status_eqb (status a) completed && (now <? expiresAt a)%Z); simpl.
    + unfold bind. rewrite db_patch_found by (apply H; left; reflexivity).
      rewrite IH.
      * reflexivity.
      * intros j Hj. simpl. rewrite hasId_patchTable by reflexivity. apply H. right. exact Hj.
    + apply IH. intros j Hj. apply H. right. exact Hj.
Qed.

End Loops.

(** ** Deletions *)



Lemma filter_all {A} (p : A -> bool) (l : list A) :
  (forall x, In x l -> p x = true) -> filter p l = l.
Proof.
  induction l as [|a l IH]; simpl; intro H; [reflexivity|].
  rewrite (H a) by (left; reflexivity). f_equal. apply IH.
  intros x Hx. apply H. right. exact Hx.
Qed.

Lemma drop_key_length {V} (key : V -> nat) (k : nat) (rows : list V) :
  NoDup (map key rows) ->
  existsb (fun v => key v =? k) rows = true ->
  S (List.length (filter (fun v => negb (key v =? k)) rows)) = List.length rows.
Proof.
  induction rows as [|a rows IH]; simpl; intros N E; [discriminate|].
  inversion N as [|? ? Hnot N']; subst.
  destruct (key a =? k) eqn:Ea; simpl.
  - apply Nat.eqb_eq in Ea.
    assert (F : forall x, In x rows -> negb (key x =? k) = true).
    { intros x Hx. destruct (key x =? k) eqn:Ex; [|reflexivity].
      exfalso. apply Hnot. apply Nat.eqb_eq in Ex. rewrite Ea, <- Ex. apply in_map. exact Hx. }
    do 2 f_equal. apply filter_all. exact F.
  - f_equal. apply IH; assumption.
Qed.

Lemma removeFile_length (fileId : FileId) (fs : list (FileId * string)) :
  NoDup (map fst fs) ->
  existsb (fun f => fst f =? fileId) fs = true ->
  S (List.length (removeFile fileId fs)) = List.length fs.
Proof. apply (drop_key_length fst). Qed.

Lemma deleteFromTable_length (id : Id) (t : list Job) :
  uniqueIds t ->
  existsb (hasId id) t = true ->
  S (List.length (deleteFromTable id t)) = List.length t.
Proof. apply (drop_key_length _id). Qed.

Lemma deleteFromTable_filter (id : Id) (p : Job -> bool) (t : list Job) :
  filter p (deleteFromTable id t) = filter (fun j => negb (hasId id j) && p j) t.
Proof.
  unfold deleteFromTable. induction t as [|a t IH]; simpl; [reflexivity|].
  destruct (hasId id a); simpl; [exact IH|]. destruct (p a); [f_equal|]; exact IH.
Qed.

Lemma hasId_deleteFromTable (id id' : Id) (t : list Job) :
  id <> id' ->
  existsb (hasId id) (deleteFromTable id' t) = existsb (hasId id) t.
Proof.
  intro Hne. unfold deleteFromTable. induction t as [|a t IH]; simpl; [reflexivity|].
  unfold hasId in *. destruct (_id a =? id') eqn:E; simpl.
  - apply Nat.eqb_eq in E. destruct (_id a =? id) eqn:E2.
    + apply Nat.eqb_eq in E2. congruence.
    + exact IH.
  - rewrite IH. reflexivity.
Qed.

Section Deletions.
Context {P : Platform}.

Lemma sameButData_refl (c : Ctx) : sameButData c c.
Proof. repeat split. Qed.

Lemma sameButData_trans (a b c : Ctx) : sameButData a b -> sameButData b c -> sameButData a c.
Proof. unfold sameButData. intros [? [? ?]] [? [? ?]]. repeat split; congruence. Qed.

Lemma storage_delete_run (fileId : FileId) (c c' : Ctx) (o : Outcome unit) :
  storage_delete fileId c = (c', o) ->
  scrapes c' = scrapes c /\ sameButData c c' /\
  incl (files (storage c')) (files (storage c)) /\
  (uniqueFileIds (storage c) ->
   uniqueFileIds (storage c') /\
   List.length (files (storage c')) + (match o with Return _ => 1 | Throw _ => 0 end) =
   List.length (files (storage c))).
Proof.
  unfold storage_delete. destruct (existsb _ (files (storage c))) eqn:E; intro H;
    inversion H; subst; clear H; simpl.
  - repeat split.
    + intros x Hx. apply filter_In in Hx. exact (proj1 Hx).
    + apply keys_unique_filter. exact H.
    + rewrite Nat.add_1_r. apply removeFile_length; assumption.
  - repeat split; auto using incl_refl.
Qed.

Lemma deleteFilesBestEffort_run (fileIds : list FileId) (c : Ctx) :
  exists c' n,
    deleteFilesBestEffort fileIds c = (c', Return n) /\
    scrapes c' = scrapes c /\ sameButData c c' /\
    incl (files (storage c')) (files (storage c)) /\
    (uniqueFileIds (storage c) ->
     uniqueFileIds (storage c') /\
     List.length (files (storage c')) + n = List.length (files (storage c))).
Proof.
  revert c. induction fileIds as [|fileId rest IH]; intro c; simpl.
  - exists c, 0. repeat split; auto using incl_refl.
  - unfold bind at 1. unfold tryCatch. unfold bind at 1.
    destruct (storage_delete fileId c) as [c1 o1] eqn:D.
    destruct (storage_delete_run _ _ _ _ D) as [S1 [B1 [I1 U1]]].
    destruct (IH c1) as [c2 [m [R2 [S2 [B2 [I2 U2]]]]]].
    destruct o1 as [[]|e]; simpl; unfold bind; rewrite R2; simpl.
    + exists c2, (1 + m). repeat split.
      * congruence.
      * apply (proj1 (sameButData_trans _ _ _ B1 B2)).
      * apply (proj1 (proj2 (sameButData_trans _ _ _ B1 B2))).
      * apply (proj2 (proj2 (sameButData_trans _ _ _ B1 B2))).
      * eapply incl_tran; eassumption.
      * apply U2, U1, H.
      * destruct (U1 H) as [N1 L1]. destruct (U2 N1) as [N2 L2]. lia.
    + exists c2, (0 + m). repeat split.
      * congruence.
      * apply (proj1 (sameButData_trans _ _ _ B1 B2)).
      * apply (proj1 (proj2 (sameButData_trans _ _ _ B1 B2))).
      * apply (proj2 (proj2 (sameButData_trans _ _ _ B1 B2))).
      * eapply incl_tran; eassumption.
      * apply U2, U1, H.
      * destruct (U1 H) as [N1 L1]. destruct (U2 N1) as [N2 L2]. lia.
Qed.

Lemma db_delete_found (id : Id) (c : Ctx) :
  existsb (hasId id) (scrapes c) = true ->
  db_delete id c = (setScrapes c (deleteFromTable id (scrapes c)), Return tt).
Proof. intro H. unfold db_delete. rewrite H. reflexivity. Qed.

Lemma cleanupLoop_run (l : list Job) (c : Ctx) :
  NoDup (map _id l) ->
  (forall j, In j l -> existsb (hasId (_id j)) (scrapes c) = true) ->
  exists c' nfiles,
    cleanupLoop l c = (c', Return (List.length (filter isTerminal l), nfiles)) /\
    scrapes c' = filter (fun j => negb (idIn j (filter isTerminal l))) (scrapes c) /\
    sameButData c c' /\
    incl (files (storage c')) (files (storage c)) /\
    (uniqueFileIds (storage c) ->
     uniqueFileIds (storage c') /\
     List.length (files (storage c')) + nfiles = List.length (files (storage c))).
Proof.
  revert c. induction l as [|entry rest IH]; intros c N H.
  - exists c, 0. simpl. repeat split; auto using incl_refl.
    symmetry. clear. induction (scrapes c) as [|a t IHt]; simpl; [reflexivity|].
    f_equal. exact IHt.
  - inversion N as [|? ? Hnot N']; subst.
    simpl cleanupLoop. simpl filter.
    replace (negb (Status_eqb (status entry) completed) &&
             negb (Status_eqb (status entry) failed))
      with (negb (isTerminal entry))
      by (unfold isTerminal; destruct (status entry); reflexivity).
    destruct (isTerminal entry) eqn:T; cbn [negb].
    + destruct (deleteFilesBestEffort_run (fileIdsOf (content entry)) c)
        as [c1 [n1 [R1 [S1 [B1 [I1 U1]]]]]].
      assert (Hdel : db_delete (_id entry) c1 =
                     (setScrapes c1 (deleteFromTable (_id entry) (scrapes c)), Return tt)).
      { rewrite <- S1. apply db_delete_found. rewrite S1. apply H. left. reflexivity. }
      destruct (IH (setScrapes c1 (deleteFromTable (_id entry) (scrapes c))) N')
        as [c2 [n2 [R2 [S2 [B2 [I2 U2]]]]]].
      { intros j Hj. simpl. rewrite hasId_deleteFromTable.
        - apply H. right. exact Hj.
        - intro E. apply Hnot. rewrite <- E. apply in_map. exact Hj. }
      exists c2, (n1 + n2). unfold bind. rewrite R1, Hdel, R2. simpl. repeat split.
      * rewrite S2. simpl. rewrite deleteFromTable_filter. apply filter_ext. intro j.
        unfold idIn at 2. simpl. unfold hasId at 1 2.
        rewrite (Nat.eqb_sym (_id entry) (_id j)). rewrite negb_orb. reflexivity.
      * destruct B1 as [? [? ?]], B2 as [? [? ?]]. simpl in *. congruence.
      * destruct B1 as [? [? ?]], B2 as [? [? ?]]. simpl in *. congruence.
      * destruct B1 as [? [? ?]], B2 as [? [? ?]]. simpl in *. congruence.
      * eapply incl_tran; [exact I2 | exact I1].
      * apply U2. simpl. apply U1. exact H0.
      * destruct (U1 H0) as [N1 L1]. destruct (U2 N1) as [N2 L2]. simpl in L2. lia.
    + apply IH; [exact N'|]. intros j Hj. apply H. right. exact Hj.
Qed.

Lemma forEach_storage_delete (fileIds : list FileId) (c c' : Ctx) (o : Outcome unit) :
  forEach fileIds storage_delete c = (c', o) ->
  scrapes c' = scrapes c /\ sameButData c c'.
Proof.
  revert c. induction fileIds as [|fileId rest IH]; intros c H; simpl in H.
  - inversion H; subst. split; [reflexivity | apply sameButData_refl].
  - unfold bind in H. destruct (storage_delete fileId c) as [c1 o1] eqn:D.
    destruct (storage_delete_run _ _ _ _ D) as [S1 [B1 _]].
    destruct o1 as [[]|e].
    + destruct (IH _ H) as [S2 B2]. split; [congruence | eapply sameButData_trans; eassumption].
    + inversion H; subst. split; assumption.
Qed.

(** The loop of [forceDelete]: whatever its outcome, the table it leaves
    is the one it found less some of the completed records of the list. *)
Lemma forceLoop_run (l : list Job) (c c' : Ctx) (o : Outcome unit) :
  forEach l (fun scrape =>
    if Status_eqb (status scrape) completed then
      forEach (fileIdsOf (content scrape)) storage_delete ;;
      db_delete (_id scrape)
    else ret tt) c = (c', o) ->
  exists deleted,
    incl deleted (filter (fun j => Status_eqb (status j) completed) l) /\
    scrapes c' = filter (fun j => negb (idIn j deleted)) (scrapes c) /\
    sameButData c c'.
Proof.
  revert c. induction l as [|entry rest IH]; intros c H; simpl in H.
  - inversion H; subst. exists []. repeat split; auto using incl_refl.
    clear. induction (scrapes c') as [|a t IHt]; simpl; [reflexivity|]. f_equal. exact IHt.
  - unfold bind at 1 in H. simpl filter.
    destruct (Status_eqb (status entry) completed) eqn:T.
    + unfold bind at 1 in H.
      destruct (forEach (fileIdsOf (content entry)) storage_delete c) as [c1 o1] eqn:F.
      destruct (forEach_storage_delete _ _ _ _ F) as [S1 B1].
      destruct o1 as [[]|e].
      * unfold db_delete in H. destruct (existsb (hasId (_id entry)) (scrapes c1)) eqn:E.
        -- destruct (IH _ H) as [D [Hin [S2 B2]]]. exists (entry :: D). split; [|split].
           ++ intros x [Hx|Hx]; [left; exact Hx | right; apply Hin; exact Hx].
           ++ rewrite S2. simpl. rewrite S1. rewrite deleteFromTable_filter.
              apply filter_ext. intro j. unfold idIn at 2. simpl. unfold hasId at 1 2.
              rewrite (Nat.eqb_sym (_id entry) (_id j)). rewrite negb_orb. reflexivity.
           ++ eapply sameButData_trans; [exact B1|].
              destruct B2 as [? [? ?]]. repeat split; assumption.
        -- inversion H; subst. exists []. repeat split; try apply B1.
           ++ intros x [].
           ++ rewrite S1. clear. induction (scrapes c) as [|a t IHt]; simpl; [reflexivity|].
              f_equal. exact IHt.
      * inversion H; subst. exists []. repeat split; try apply B1.
        -- intros x [].
        -- rewrite S1. clear. induction (scrapes c) as [|a t IHt]; simpl; [reflexivity|].
           f_equal. exact IHt.
    + simpl in H. destruct (IH _ H) as [D [Hin [S2 B2]]]. exists D. repeat split;
        try apply B2; assumption.
Qed.

End Deletions.

(* ================================================================== *)
(** ** The stuck-job sweep *)
(* ================================================================== *)

Lemma stuck_query (table : list Job) (now : Z) (j : Job) :
  scrapingStamped table -> In j table ->
  Status_eqb (status j) scraping &&
  indexKeyLt (scrapingAt j) (now - CONFIG.STUCK_JOB_TIMEOUT_MS) = isStuck now j.
Proof.
  intros St Hj. unfold isStuck. destruct (Status_eqb (status j) scraping) eqn:E; [|reflexivity].
  apply Status_eqb_eq in E. specialize (St j Hj E).
  destruct (scrapingAt j); [reflexivity | contradiction].
Qed.

Lemma markStuckJobsFailed_run (now : Z) (c : Ctx) :
  uniqueIds (scrapes c) ->
  scrapingStamped (scrapes c) ->
  markStuckJobsFailed now c =
    (setScrapes c (map (fun j => if isStuck now j then timeoutFields j else j) (scrapes c)),
     Return (List.length (filter (isStuck now) (scrapes c)))).
Proof.
  intros N St. unfold markStuckJobsFailed, bind, by_status_scraping_lt.
  rewrite markFailedLoop_run.
  - f_equal; [f_equal|f_equal].
    + apply map_ext_in. intros j Hj.
      set (l := filter _ (rev (scrapes c))).
      assert (E : idIn j l = isStuck now j).
      { rewrite <- (stuck_query (scrapes c) now j St Hj).
        apply eq_true_iff_eq. rewrite (idIn_In (scrapes c) l j N).
        - unfold l. rewrite filter_In, <- in_rev. tauto.
        - intros x Hx. unfold l in Hx. apply filter_In in Hx.
          apply in_rev. exact (proj1 Hx).
        - exact Hj. }
      rewrite E. reflexivity.
    + rewrite filter_rev, length_rev. f_equal. apply filter_ext_in.
      intros j Hj. apply (stuck_query (scrapes c) now j St Hj).
  - intros j Hj. apply filter_In in Hj. apply hasId_member. apply in_rev. exact (proj1 Hj).
Qed.

(** C6.  On a table with unique ids whose scraping records carry their
    [scrapingAt], [markStuckJobsFailed] at [now] returns the number of
    records with [status = scraping] and [scrapingAt < now - 5 min], and
    in the table it leaves each of these records has status failed and the
    error "Scrape timed out after 5 minutes", its other fields as they
    were; every other record is in the table as it was, a scraping record
    within the timeout among them, so that no record still scraping is
    beyond the timeout; ids, storage and the queue are untouched.  The
    selection does not look at [startedAt]. *)
Theorem markStuckJobsFailed_exact (now : Z) (c : Ctx) :
  uniqueIds (scrapes c) ->
  scrapingStamped (scrapes c) ->
  (exists c',
     markStuckJobsFailed now c =
       (c', Return (List.length (filter (isStuck now) (scrapes c)))) /\
     scrapes c' = map (fun j => if isStuck now j then timeoutFields j else j) (scrapes c) /\
     map _id (scrapes c') = map _id (scrapes c) /\
     sameButTable c c' /\
     (forall j, In j (scrapes c) -> isStuck now j = true ->
        exists j', In j' (scrapes c') /\ _id j' = _id j /\
                   status j' = failed /\
                   error j' = Some "Scrape timed out after 5 minutes" /\
                   errorCode j' = errorCode j /\ sameExceptFailure j j') /\
     (forall j, In j (scrapes c) -> isStuck now j = false -> In j (scrapes c')) /\
     (forall j', In j' (scrapes c') -> status j' = scraping ->
                 In j' (scrapes c) /\ isStuck now j' = false)) /\
  (forall j t, scrapingAt j = Some t ->
               (isStuck now j = true <->
                status j = scraping /\ (t < now - 5 * 60 * 1000)%Z)) /\
  (forall j t, isStuck now (setStartedAt t j) = isStuck now j).
Proof.
  intros N St. split; [|split].
  - set (sweep := fun j => if isStuck now j then timeoutFields j else j).
    exists (setScrapes c (map sweep (scrapes c))).
    split; [apply markStuckJobsFailed_run; assumption|].
    cbn [setScrapes scrapes]. split; [reflexivity|]. split.
    + rewrite map_map. apply map_ext. intro j. unfold sweep.
      destruct (isStuck now j); reflexivity.
    + split; [split; [reflexivity | split; reflexivity]|]. split; [|split].
      * intros j Hj Hstuck. exists (timeoutFields j). split.
        -- apply in_map_iff. exists j. split; [|exact Hj]. unfold sweep.
           rewrite Hstuck. reflexivity.
        -- split; [reflexivity|]. split; [reflexivity|]. split; [reflexivity|].
           split; [reflexivity|]. unfold sameExceptFailure. cbn. tauto.
      * intros j Hj Hnot. apply in_map_iff. exists j. split; [|exact Hj]. unfold sweep.
        rewrite Hnot. reflexivity.
      * intros j' Hj' Hs. apply in_map_iff in Hj'. destruct Hj' as [j [E Hj]].
        unfold sweep in E. destruct (isStuck now j) eqn:K.
        -- subst j'. discriminate.
        -- subst j'. split; [exact Hj | exact K].
  - intros j t E. unfold isStuck. rewrite E, andb_true_iff, Status_eqb_eq, Z.ltb_lt.
    reflexivity.
  - intros j t. reflexivity.
Qed.

(** The sweep at [now = 300001]: record 1 began scraping at 0, one
    millisecond beyond the timeout, and is failed; record 0 began at 1,
    exactly the timeout ago, and stays scraping. *)
Lemma markStuckJobsFailed_exact_witness :
  let c := sampleCtx [ sampleJob 1 scraping ["markdown"] 0 (Some 0%Z) 1000;
                       sampleJob 0 scraping ["markdown"] 0 (Some 1%Z) 1000 ] in
  uniqueIds (scrapes c) /\ scrapingStamped (scrapes c) /\
  exists c',
    markStuckJobsFailed 300001 c = (c', Return 1) /\
    map (fun j => (_id j, status j, error j)) (scrapes c') =
      [ (1, failed, Some "Scrape timed out after 5 minutes"); (0, scraping, None) ].
Proof.
  intro c.
  assert (N : uniqueIds (scrapes c)).
  { unfold uniqueIds. simpl. repeat constructor; simpl; intuition discriminate. }
  assert (St : scrapingStamped (scrapes c)).
  { intros j Hj _. simpl in Hj. destruct Hj as [E|[E|[]]]; subst j; discriminate. }
  split; [exact N | split; [exact St |]].
  destruct (proj1 (markStuckJobsFailed_exact 300001 c N St)) as [c' [R [S _]]].
  exists c'. split; [exact R|]. rewrite S. reflexivity.
Defined.

(* ================================================================== *)
(** ** Invalidation *)
(* ================================================================== *)

Section Invalidation.
Context {P : Platform}.

Lemma valid_normalizes (u : string) :
  validateUrl u = valid -> exists normalized, normalizeUrl u = Some normalized.
Proof.
  unfold validateUrl, normalizeUrl. destruct (CONFIG.MAX_URL_LENGTH <? length u); [discriminate|].
  destruct (URL_parse u); [eauto | discriminate].
Qed.

Lemma find_all_false {A} (p : A -> bool) (l : list A) :
  (forall x, In x l -> p x = false) -> find p l = None.
Proof.
  induction l as [|a l IH]; simpl; intro H; [reflexivity|].
  rewrite (H a) by (left; reflexivity). apply IH. intros x Hx. apply H. right. exact Hx.
Qed.


Lemma filter_twice {A} (inner outer : A -> bool) (l : list A) :
  filter outer (filter inner l) = filter (fun x => inner x && outer x) l.
Proof.
  induction l as [|a l IH]; simpl; [reflexivity|].
  destruct (inner a); simpl; [destruct (outer a); [f_equal|] |]; exact IH.
Qed.

Lemma map_unchanged {A} (f : A -> A) (l : list A) :
  (forall x, In x l -> f x = x) -> map f l = l.
Proof.
  intro H. rewrite <- (map_id l) at 2. apply map_ext_in. exact H.
Qed.

Lemma invalidate_run (u normalized : string) (now : Z) (c : Ctx) :
  uniqueIds (scrapes c) ->
  validateUrl u = valid ->
  normalizeUrl u = Some normalized ->
  invalidate u now c =
    (setScrapes c (map (fun j => if liveFor (hashUrl normalized) now j
                                 then setExpiresAt now j else j) (scrapes c)),
     Return (true, List.length (filter (liveFor (hashUrl normalized) now) (scrapes c)))).
Proof.
  intros N V Hn. unfold invalidate. rewrite V, Hn. unfold bind, by_url_hash_asc.
  set (hash := hashUrl normalized).
  set (l := rev (filter (fun j => (urlHash j =? hash)%string) (scrapes c))).
  assert (Hl : forall j, In j l <-> In j (scrapes c) /\ (urlHash j =? hash)%string = true).
  { intro j. unfold l. rewrite <- in_rev, filter_In. reflexivity. }
  rewrite invalidateLoop_run.
  - unfold ret. f_equal; [f_equal | do 2 f_equal].
    + apply map_ext_in. intros j Hj.
      set (live := filter _ l).
      assert (E : idIn j live = liveFor hash now j).
      { apply eq_true_iff_eq. rewrite (idIn_In (scrapes c) live j N).
        - unfold live. rewrite filter_In, Hl. unfold liveFor.
          rewrite !andb_true_iff. tauto.
        - intros x Hx. unfold live in Hx. apply filter_In in Hx. apply Hl. exact (proj1 Hx).
        - exact Hj. }
      rewrite E. reflexivity.
    + unfold l. rewrite filter_rev, length_rev. rewrite filter_twice.
      f_equal. apply filter_ext. intro j. unfold liveFor.
      destruct (urlHash j =? hash)%string; destruct (Status_eqb (status j) completed);
        destruct (now <? expiresAt j)%Z; reflexivity.
  - intros j Hj. apply hasId_member. apply Hl. exact Hj.
Qed.


End Invalidation.


(* ================================================================== *)
(** ** The expiry sweep *)
(* ================================================================== *)

Lemma insertByExpires_perm (j : Job) (l : list Job) :
  Permutation (insertByExpires j l) (j :: l).
Proof.
  induction l as [|k l IH]; simpl; [apply Permutation_refl|].
  destruct (expiresAt j <=? expiresAt k)%Z; [apply Permutation_refl|].
  eapply Permutation_trans; [apply perm_skip; exact IH | apply perm_swap].
Qed.

Lemma by_expires_perm (l : list Job) :
  Permutation (fold_right insertByExpires [] l) l.
Proof.
  induction l as [|j l IH]; simpl; [apply Permutation_refl|].
  eapply Permutation_trans; [apply insertByExpires_perm | apply perm_skip; exact IH].
Qed.

Lemma firstn_NoDup {A} (n : nat) (l : list A) : NoDup l -> NoDup (firstn n l).
Proof.
  revert l. induction n as [|n IH]; intros [|a l] N; simpl; try constructor.
  - inversion N; subst. intro H. apply firstn_member in H. contradiction.
  - inversion N; subst. apply IH. assumption.
Qed.

Lemma expiredBatch_member (now : Z) (table : list Job) (j : Job) :
  In j (expiredBatch now table) -> In j table /\ (expiresAt j < now)%Z.
Proof.
  unfold expiredBatch. intro H. apply firstn_member in H.
  apply (Permutation_in _ (by_expires_perm _)) in H.
  apply filter_In in H. rewrite <- in_rev, Z.ltb_lt in H. exact H.
Qed.

Lemma expiredBatch_unique (now : Z) (table : list Job) :
  uniqueIds table -> NoDup (map _id (expiredBatch now table)).
Proof.
  unfold uniqueIds, expiredBatch. intro N. rewrite <- firstn_map. apply firstn_NoDup.
  eapply Permutation_NoDup.
  - apply Permutation_sym, Permutation_map, by_expires_perm.
  - apply keys_unique_filter. rewrite map_rev. apply NoDup_rev. exact N.
Qed.

Lemma expiredBatch_length (now : Z) (table : list Job) :
  List.length (expiredBatch now table) <= CONFIG.CLEANUP_BATCH_SIZE.
Proof. unfold expiredBatch. rewrite length_firstn. apply Nat.le_min_l. Qed.

Lemma length_without (deleted t : list Job) :
  uniqueIds t -> NoDup (map _id deleted) -> incl deleted t ->
  List.length (filter (fun j => negb (idIn j deleted)) t) + List.length deleted =
  List.length t.
Proof.
  revert t. induction deleted as [|d deleted IH]; intros t N ND Hsub; simpl.
  - rewrite filter_all by reflexivity. apply Nat.add_0_r.
  - inversion ND as [|? ? Hnot ND']; subst.
    assert (Hd : existsb (hasId (_id d)) t = true)
      by (apply hasId_member, Hsub; left; reflexivity).
    rewrite <- (deleteFromTable_length (_id d) t N Hd).
    rewrite <- (IH (deleteFromTable (_id d) t)).
    + rewrite deleteFromTable_filter. rewrite Nat.add_succ_r. do 3 f_equal.
      apply filter_ext. intro j. unfold hasId at 1 2.
      rewrite (Nat.eqb_sym (_id d) (_id j)), negb_orb. reflexivity.
    + apply uniqueIds_filter. exact N.
    + exact ND'.
    + intros x Hx. unfold deleteFromTable. apply filter_In. split.
      * apply Hsub. right. exact Hx.
      * unfold hasId. destruct (_id x =? _id d) eqn:E; [|reflexivity].
        exfalso. apply Hnot. apply Nat.eqb_eq in E. rewrite <- E. apply in_map. exact Hx.
Qed.

Lemma cleanupExpired_run (now : Z) (c : Ctx) :
  uniqueIds (scrapes c) ->
  let deleted := filter isTerminal (expiredBatch now (scrapes c)) in
  exists c' deletedFileCount,
    cleanupExpired now c = (c', Return (List.length deleted, deletedFileCount)) /\
    scrapes c' = filter (fun j => negb (idIn j deleted)) (scrapes c) /\
    (forall j, In j (scrapes c) ->
               (idIn j deleted = true <->
                In j (expiredBatch now (scrapes c)) /\ isTerminal j = true)) /\
    sameButData c c' /\
    incl (files (storage c')) (files (storage c)) /\
    (uniqueFileIds (storage c) ->
     List.length (files (storage c')) + deletedFileCount = List.length (files (storage c))).
Proof.
  intros N deleted. unfold cleanupExpired, bind, by_expires_lt.
  change (firstn CONFIG.CLEANUP_BATCH_SIZE _) with (expiredBatch now (scrapes c)).
  destruct (cleanupLoop_run (expiredBatch now (scrapes c)) c
                            (expiredBatch_unique now (scrapes c) N))
    as [c' [nfiles [R [S [B [I U]]]]]].
  { intros j Hj. apply hasId_member. apply (expiredBatch_member now _ j Hj). }
  exists c', nfiles.
  split; [exact R | split; [exact S | split; [| split; [exact B | split; [exact I |]]]]].
  - intros j Hj. rewrite (idIn_In (scrapes c) deleted j N).
    + unfold deleted. apply filter_In.
    + intros x Hx. unfold deleted in Hx. apply filter_In in Hx.
      apply (expiredBatch_member now _ x (proj1 Hx)).
    + exact Hj.
  - intro UF. exact (proj2 (U UF)).
Qed.

(** *** The files the sweep removes *)

Lemma removeFile_absent (fileId : FileId) (fs : list (FileId * string)) :
  existsb (fun f => fst f =? fileId) fs = false -> removeFile fileId fs = fs.
Proof.
  intro H. unfold removeFile. apply filter_all. intros f Hf.
  destruct (fst f =? fileId) eqn:E; [|reflexivity].
  assert (Ht : existsb (fun f => fst f =? fileId) fs = true)
    by (apply existsb_exists; exists f; split; assumption).
  congruence.
Qed.

Lemma deleteFilesBestEffort_exact (fileIds : list FileId) (c : Ctx) :
  exists c' n,
    deleteFilesBestEffort fileIds c = (c', Return n) /\
    scrapes c' = scrapes c /\ sameButData c c' /\
    files (storage c') =
      filter (fun f => negb (existsb (Nat.eqb (fst f)) fileIds)) (files (storage c)).
Proof.
  revert c. induction fileIds as [|fileId rest IH]; intro c.
  - exists c, 0. simpl. unfold ret. repeat split; try reflexivity.
    symmetry. apply filter_all. reflexivity.
  - cbn [deleteFilesBestEffort]. unfold bind at 1, tryCatch, bind at 1, storage_delete.
    destruct (existsb (fun f => fst f =? fileId) (files (storage c))) eqn:E.
    + cbn [ret].
      set (c1 := mkCtx (scrapes c) (nextId c)
                   (mkStorage (removeFile fileId (files (storage c)))
                              (nextFileId (storage c))) (scheduled c)).
      destruct (IH c1) as [c' [n [Hrun [Ht [Hs Hf]]]]].
      exists c', (1 + n). unfold bind. rewrite Hrun. unfold ret.
      split; [reflexivity|]. split; [rewrite Ht; reflexivity|].
      split; [exact (sameButData_trans c c1 c' (conj eq_refl (conj eq_refl eq_refl)) Hs)|].
      rewrite Hf. subst c1. cbn [storage files]. unfold removeFile. rewrite filter_twice.
      apply filter_ext. intro f. cbn [existsb]. rewrite negb_orb. reflexivity.
    + cbn [ret].
      destruct (IH c) as [c' [n [Hrun [Ht [Hs Hf]]]]].
      exists c', (0 + n). unfold bind. rewrite Hrun. unfold ret.
      split; [reflexivity|]. split; [exact Ht|]. split; [exact Hs|].
      rewrite Hf. rewrite <- (removeFile_absent fileId (files (storage c)) E) at 1.
      unfold removeFile. rewrite filter_twice.
      apply filter_ext. intro f. cbn [existsb]. rewrite negb_orb. reflexivity.
Qed.

Lemma filter_files_twice (ids1 ids2 : list FileId) (fs : list (FileId * string)) :
  filter (fun f => negb (existsb (Nat.eqb (fst f)) ids2))
         (filter (fun f => negb (existsb (Nat.eqb (fst f)) ids1)) fs) =
  filter (fun f => negb (existsb (Nat.eqb (fst f)) (ids1 ++ ids2))) fs.
Proof.
  rewrite filter_twice. apply filter_ext. intro f.
  rewrite existsb_app, negb_orb. reflexivity.
Qed.

Lemma fileIdsIn_terminal_cons (entry : Job) (rest : list Job) :
  fileIdsIn (filter isTerminal (entry :: rest)) =
  (if isTerminal entry then fileIdsOf (content entry) else []) ++
  fileIdsIn (filter isTerminal rest).
Proof. simpl. destruct (isTerminal entry); reflexivity. Qed.

(** The files the expiry sweep removes are those of the records it
    deletes. *)
Lemma cleanupLoop_files (l : list Job) (c c' : Ctx) (r : nat * nat) :
  cleanupLoop l c = (c', Return r) ->
  files (storage c') =
    filter (fun f => negb (existsb (Nat.eqb (fst f)) (fileIdsIn (filter isTerminal l))))
           (files (storage c)).
Proof.
  revert c r. induction l as [|entry rest IH]; intros c r H.
  - injection H as <- _. symmetry. apply filter_all. reflexivity.
  - cbn [cleanupLoop] in H. rewrite fileIdsIn_terminal_cons.
    unfold isTerminal at 1.
    destruct (Status_eqb (status entry) completed || Status_eqb (status entry) failed) eqn:T.
    + replace (negb (Status_eqb (status entry) completed) &&
               negb (Status_eqb (status entry) failed)) with false in H
        by (rewrite <- negb_orb, T; reflexivity).
      unfold bind at 1 in H.
      destruct (deleteFilesBestEffort_exact (fileIdsOf (content entry)) c)
        as [c1 [n [R1 [Ht [_ Hf]]]]].
      rewrite R1 in H. unfold bind at 1 in H. unfold db_delete in H.
      destruct (existsb (hasId (_id entry)) (scrapes c1)); [|discriminate].
      unfold bind at 1 in H.
      destruct (cleanupLoop rest _) as [c2 [counts|e]] eqn:R2; [|discriminate].
      injection H as <- _.
      rewrite (IH _ _ R2). cbn [setScrapes storage]. rewrite Hf.
      apply filter_files_twice.
    + replace (negb (Status_eqb (status entry) completed) &&
               negb (Status_eqb (status entry) failed)) with true in H
        by (rewrite <- negb_orb, T; reflexivity).
      exact (IH _ _ H).
Qed.

(** C7.  On a table with unique ids, [cleanupExpired] at [now] returns
    (never throws); the table it leaves is the one it found less the
    completed and failed records of the batch it loaded, every record it
    removed has [expiresAt < now] and status completed or failed, the
    records in status pending or scraping all stay whatever their
    [expiresAt], as do the records that have not expired.  Storage is the
    one it found less the files the removed records refer to: every file
    removed belonged to a removed record, no file of a removed record is
    left, and a file that no removed record refers to stays, the files of
    the records kept among them when no file is shared.  Nothing but the
    table and the stored files changes, and the two numbers returned are
    the number of records removed, at most the batch size, and (file ids
    being unique) the number of files removed. *)
Theorem cleanupExpired_terminal_only (now : Z) (c : Ctx) :
  uniqueIds (scrapes c) ->
  exists c' deletedCount deletedFileCount,
    cleanupExpired now c = (c', Return (deletedCount, deletedFileCount)) /\
    scrapes c' =
      filter (fun j => negb (idIn j (filter isTerminal (expiredBatch now (scrapes c)))))
             (scrapes c) /\
    (forall j, In j (scrapes c) -> ~ In j (scrapes c') ->
               (expiresAt j < now)%Z /\ (status j = completed \/ status j = failed)) /\
    (forall j, In j (scrapes c) -> status j = pending \/ status j = scraping ->
               In j (scrapes c')) /\
    (forall j, In j (scrapes c) -> (now <= expiresAt j)%Z -> In j (scrapes c')) /\
    List.length (scrapes c') + deletedCount = List.length (scrapes c) /\
    deletedCount <= CONFIG.CLEANUP_BATCH_SIZE /\
    sameButData c c' /\
    incl (files (storage c')) (files (storage c)) /\
    (uniqueFileIds (storage c) ->
     List.length (files (storage c')) + deletedFileCount = List.length (files (storage c))) /\
    files (storage c') =
      filter (fun f => negb (existsb (Nat.eqb (fst f))
                (fileIdsIn (filter isTerminal (expiredBatch now (scrapes c))))))
             (files (storage c)) /\
    (forall f blob, In (f, blob) (files (storage c)) -> ~ In (f, blob) (files (storage c')) ->
       exists j, In j (scrapes c) /\ ~ In j (scrapes c') /\ In f (fileIdsOf (content j))) /\
    (forall j f, In j (scrapes c) -> ~ In j (scrapes c') -> In f (fileIdsOf (content j)) ->
       ~ In f (map fst (files (storage c')))) /\
    (forall f blob, In (f, blob) (files (storage c)) ->
       (forall j, In j (scrapes c) -> ~ In j (scrapes c') -> ~ In f (fileIdsOf (content j))) ->
       In (f, blob) (files (storage c'))).
Proof.
  intro N.
  destruct (cleanupExpired_run now c N) as [c' [nfiles [R [S [Hdel [B [I U]]]]]]].
  set (deleted := filter isTerminal (expiredBatch now (scrapes c))) in *.
  assert (Hfiles : files (storage c') =
                   filter (fun f => negb (existsb (Nat.eqb (fst f)) (fileIdsIn deleted)))
                          (files (storage c))).
  { unfold cleanupExpired, bind, by_expires_lt in R. exact (cleanupLoop_files _ _ _ _ R). }
  assert (Hgone : forall j, In j deleted -> In j (scrapes c) /\ ~ In j (scrapes c')).
  { intros j Hj. pose proof Hj as Hb. unfold deleted in Hb. apply filter_In in Hb.
    split; [exact (proj1 (expiredBatch_member now _ j (proj1 Hb)))|].
    intro Hin. rewrite S in Hin. apply filter_In in Hin.
    rewrite (In_idIn j deleted Hj) in Hin. destruct Hin as [_ Hin]. discriminate. }
  assert (Hwas : forall j, In j (scrapes c) -> ~ In j (scrapes c') -> idIn j deleted = true).
  { intros j Hj Hnot. destruct (idIn j deleted) eqn:E; [reflexivity|].
    exfalso. apply Hnot. rewrite S. apply filter_In. split; [exact Hj | rewrite E; reflexivity]. }
  assert (Hone : forall j, In j (scrapes c) -> ~ In j (scrapes c') -> In j deleted).
  { intros j Hj Hnot. pose proof (Hwas j Hj Hnot) as E. apply (Hdel j Hj) in E.
    unfold deleted. apply filter_In. exact E. }
  exists c', (List.length deleted), nfiles.
  split; [exact R | split; [exact S |]].
  split; [|split; [|split; [|split; [|split; [|split; [exact B | split; [exact I |
    split; [exact U | split; [exact Hfiles | split; [|split]]]]]]]]]].
  - intros j Hj Hnot. pose proof (Hwas j Hj Hnot) as E.
    apply (Hdel j Hj) in E. destruct E as [Hb T].
    split; [apply (expiredBatch_member now _ j Hb)|].
    unfold isTerminal in T. destruct (status j); try discriminate; auto.
  - intros j Hj Hactive. rewrite S. apply filter_In. split; [exact Hj|].
    destruct (idIn j deleted) eqn:E; [|reflexivity].
    apply (Hdel j Hj) in E. destruct E as [_ T]. unfold isTerminal in T.
    destruct Hactive as [Hs|Hs]; rewrite Hs in T; discriminate.
  - intros j Hj Hlate. rewrite S. apply filter_In. split; [exact Hj|].
    destruct (idIn j deleted) eqn:E; [|reflexivity].
    apply (Hdel j Hj) in E. destruct E as [Hb _].
    apply (expiredBatch_member now) in Hb. lia.
  - rewrite S. apply length_without.
    + exact N.
    + unfold deleted. apply keys_unique_filter. apply expiredBatch_unique. exact N.
    + intros x Hx. unfold deleted in Hx. apply filter_In in Hx.
      apply (expiredBatch_member now _ x (proj1 Hx)).
  - unfold deleted. eapply Nat.le_trans; [apply filter_length_le | apply expiredBatch_length].
  - intros f blob Hin Hnot.
    destruct (existsb (Nat.eqb f) (fileIdsIn deleted)) eqn:E.
    + apply existsb_exists in E. destruct E as [g [Hg Hfg]]. apply Nat.eqb_eq in Hfg. subst g.
      unfold fileIdsIn in Hg. apply in_flat_map in Hg. destruct Hg as [j [Hj Hfj]].
      exists j. destruct (Hgone j Hj) as [H1 H2]. split; [exact H1|]. split; [exact H2 | exact Hfj].
    + exfalso. apply Hnot. rewrite Hfiles. apply filter_In. split; [exact Hin|].
      cbn [fst]. rewrite E. reflexivity.
  - intros j f Hj Hnot Hfj Hin. rewrite Hfiles in Hin.
    apply in_map_iff in Hin. destruct Hin as [x [Hx Hxin]]. apply filter_In in Hxin.
    destruct Hxin as [_ Hkeep]. apply negb_true_iff in Hkeep.
    assert (E : existsb (Nat.eqb (fst x)) (fileIdsIn deleted) = true).
    { apply existsb_exists. exists f. split; [|apply Nat.eqb_eq; exact Hx].
      unfold fileIdsIn. apply in_flat_map. exists j. split; [exact (Hone j Hj Hnot) | exact Hfj]. }
    rewrite E in Hkeep. discriminate.
  - intros f blob Hin Hfree. rewrite Hfiles. apply filter_In. split; [exact Hin|].
    cbn [fst]. apply negb_true_iff.
    destruct (existsb (Nat.eqb f) (fileIdsIn deleted)) eqn:E; [|reflexivity].
    exfalso. apply existsb_exists in E. destruct E as [g [Hg Hfg]].
    apply Nat.eqb_eq in Hfg. subst g.
    unfold fileIdsIn in Hg. apply in_flat_map in Hg. destruct Hg as [j [Hj Hfj]].
    destruct (Hgone j Hj) as [H1 H2]. exact (Hfree j H1 H2 Hfj).
Qed.

(* ================================================================== *)
(** ** [startScrape], case by case *)
(* ================================================================== *)

Section StartScrape.
Context {P : Platform}.

(** The handler unfolded: what it returns and the context it leaves. *)
Lemma startScrape_run (u apiKey : string) (options : ScrapeOptions) (now : Z) (c : Ctx) :
  startScrape u apiKey options now c =
  match validateUrl u with
  | invalid e => (c, Throw (formatValidationError e))
  | valid =>
      match normalizeUrl u with
      | None => (c, Throw "Invalid URL")
      | Some normalized =>
          let hash := hashUrl normalized in
          let formats := orElse (opt_formats options) ["markdown"] in
          let force := orElse (opt_force options) false in
          let ttlMs := orElse (opt_ttlMs options) CONFIG.DEFAULT_TTL_MS in
          match (if force then forceDelete hash else ret tt) c with
          | (c1, Throw e) => (c1, Throw e)
          | (c1, Return _) =>
              let pendingJobs :=
                firstn 10 (filter (fun j => (urlHash j =? hash)%string) (scrapes c1)) in
              match find isActive pendingJobs with
              | Some job => (c1, Throw (conflictMessage (_id job)))
              | None =>
                  match (if force then None else find (cacheHit now formats) pendingJobs) with
                  | Some job => (c1, Return (_id job))
                  | None =>
                      (mkCtx (pendingRecord u normalized hash formats options now ttlMs
                                            (nextId c1) :: scrapes c1)
                             (S (nextId c1)) (storage c1)
                             (scheduled c1 ++
                              [scheduledArgs (nextId c1) u apiKey formats options ttlMs]),
                       Return (nextId c1))
                  end
              end
          end
      end
  end.
Proof.
  unfold startScrape. destruct (validateUrl u); [|reflexivity].
  destruct (normalizeUrl u) as [normalized|]; [|reflexivity].
  cbv zeta. unfold bind at 1.
  destruct ((if orElse (opt_force options) false then forceDelete (hashUrl normalized)
             else ret tt) c) as [c1 [[]|e]]; [|reflexivity].
  unfold bind at 1. unfold by_url_hash_desc at 1.
  destruct (find isActive _); [reflexivity|].
  destruct (if orElse (opt_force options) false then None else _); reflexivity.
Qed.

(** Step 4 leaves the table less some completed records of the hash. *)
Lemma forceDelete_run (hash : string) (c c' : Ctx) (o : Outcome unit) :
  forceDelete hash c = (c', o) ->
  exists deleted,
    (forall d, In d deleted -> In d (scrapes c) /\ status d = completed /\ urlHash d = hash) /\
    scrapes c' = filter (fun j => negb (idIn j deleted)) (scrapes c) /\
    sameButData c c'.
Proof.
  unfold forceDelete, bind at 1, by_url_hash_desc. intro H.
  destruct (forceLoop_run _ _ _ _ H) as [deleted [Hin [S B]]].
  exists deleted. split; [|split; assumption].
  intros d Hd. apply Hin in Hd. apply filter_In in Hd. destruct Hd as [Hd T].
  apply firstn_member in Hd. apply filter_In in Hd. destruct Hd as [Hd Hh].
  apply Status_eqb_eq in T. apply String.eqb_eq in Hh. auto.
Qed.

End StartScrape.

(* ================================================================== *)
(** ** The invariant of the running system *)
(* ================================================================== *)

Lemma over_none {A} (new : option A) : over new None = new.
Proof. destruct new; reflexivity. Qed.

Lemma mergeContent_noContent (new : Content) : mergeContent new noContent = new.
Proof. destruct new. unfold mergeContent. simpl. rewrite !over_none. reflexivity. Qed.

Lemma exclusive_noContent : exclusiveContent noContent.
Proof. repeat split; left; reflexivity. Qed.

Lemma Patch_id (j j' : Job) : Patch j j' -> _id j' = _id j.
Proof. intros []; reflexivity. Qed.

Lemma Patch_hash (j j' : Job) : Patch j j' -> urlHash j' = urlHash j.
Proof. intros []; reflexivity. Qed.

Lemma Patch_active (j j' : Job) : Patch j j' -> isActive j' = true -> isActive j = true.
Proof.
  intros [j0|now j0 H|now ttl new j0 H E|m code j0 H|j0 H|now j0 H]; unfold isActive in *;
    simpl; try tauto; try discriminate; rewrite H; intros; auto.
Qed.

Lemma Patch_rank (j j' : Job) : Patch j j' -> rank (status j) <= rank (status j').
Proof.
  intros [j0|now j0 H|now ttl new j0 H E|m code j0 H|j0 H|now j0 H]; simpl;
    try rewrite H; simpl; try lia; destruct (status j0); simpl; lia.
Qed.

Lemma Patch_terminal (j j' : Job) :
  Patch j j' -> isTerminal j = true -> status j' = status j.
Proof.
  rewrite isActive_isTerminal.
  intros [j0|now j0 H|now ttl new j0 H E|m code j0 H|j0 H|now j0 H]; simpl; try reflexivity;
    unfold isActive in *; try rewrite H; simpl; try discriminate.
Qed.

Lemma Patch_stamped (j j' : Job) :
  Patch j j' -> (status j = scraping -> scrapingAt j <> None) ->
  status j' = scraping -> scrapingAt j' <> None.
Proof.
  intros [j0|now j0 H|now ttl new j0 H E|m code j0 H|j0 H|now j0 H] St; simpl; try exact St;
    discriminate.
Qed.

Lemma Patch_content (j j' : Job) :
  Patch j j' -> (isActive j = true -> content j = noContent) ->
  exclusiveContent (content j) ->
  (isActive j' = true -> content j' = noContent) /\ exclusiveContent (content j').
Proof.
  intros [j0|now j0 H|now ttl new j0 H E|m code j0 H|j0 H|now j0 H] Hc Hx; simpl;
    unfold isActive in *; simpl; try (split; [assumption | assumption]).
  - split; [intros _; apply Hc; rewrite H; reflexivity | exact Hx].
  - split; [discriminate|]. rewrite (Hc H). rewrite mergeContent_noContent. exact E.
  - split; [discriminate | exact Hx].
  - split; [discriminate | exact Hx].
Qed.

Lemma newestActive_filter (keep : Job -> bool) (t : list Job) :
  newestActive t -> newestActive (filter keep t).
Proof.
  induction t as [|j t IH]; simpl; [tauto|]. intros [Hj Ht].
  destruct (keep j); simpl; [split|]; auto.
  intros k Hk. apply filter_In in Hk. apply Hj. exact (proj1 Hk).
Qed.

Lemma newestActive_map (f : Job -> Job) (t : list Job) :
  (forall j, In j t -> urlHash (f j) = urlHash j /\
                       (isActive (f j) = true -> isActive j = true)) ->
  newestActive t -> newestActive (map f t).
Proof.
  induction t as [|j t IH]; simpl; [tauto|]. intros Hf [Hj Ht]. split.
  - intros k' Hk' Ha. apply in_map_iff in Hk'. destruct Hk' as [k [E Hk]]. subst k'.
    destruct (Hf k (or_intror Hk)) as [Hh Hact]. destruct (Hf j (or_introl eq_refl)) as [Hh' _].
    rewrite Hh, Hh'. apply Hj; [exact Hk | apply Hact; exact Ha].
  - apply IH; [|exact Ht]. intros k Hk. apply Hf. right. exact Hk.
Qed.

(** An active record heads the records of its hash. *)
Lemma newestActive_first (t : list Job) (k : Job) :
  newestActive t -> In k t -> isActive k = true ->
  exists rest, filter (fun j => (urlHash j =? urlHash k)%string) t = k :: rest.
Proof.
  induction t as [|j t IH]; simpl; [contradiction|]. intros [Hj Ht] Hk Ha.
  destruct Hk as [E|Hk].
  - subst j. rewrite String.eqb_refl. eauto.
  - destruct (urlHash j =? urlHash k)%string eqn:E.
    + apply String.eqb_eq in E. exfalso. apply (Hj k Hk Ha). symmetry. exact E.
    + apply IH; assumption.
Qed.

Lemma newestActive_one (t : list Job) :
  uniqueIds t -> newestActive t -> oneActivePerHash t.
Proof.
  intros N H j k Hj Hk Aj Ak E.
  destruct (newestActive_first t j H Hj Aj) as [r1 E1].
  destruct (newestActive_first t k H Hk Ak) as [r2 E2].
  rewrite E in E1. rewrite E1 in E2. inversion E2. reflexivity.
Qed.

(** The dedup check sees every active record of the hash. *)
Lemma dedup_check_complete (t : list Job) (hash : string) :
  newestActive t ->
  find isActive (firstn 10 (filter (fun j => (urlHash j =? hash)%string) t)) = None ->
  forall k, In k t -> isActive k = true -> urlHash k <> hash.
Proof.
  intros H F k Hk Ha E. subst hash.
  destruct (newestActive_first t k H Hk Ha) as [rest Er]. rewrite Er in F.
  simpl in F. rewrite Ha in F. discriminate.
Qed.

Section Invariant.
Context {P : Platform}.

Lemma Inv_empty : Inv emptyWorld.
Proof.
  constructor; simpl; try (intros; contradiction); try constructor.
  intros j [].
Qed.

Lemma Inv_filter (w : World) (c' : Ctx) (keep : Job -> bool) :
  Inv w ->
  scrapes c' = filter keep (scrapes (ctx w)) ->
  nextId c' = nextId (ctx w) ->
  scheduled c' = scheduled (ctx w) ->
  (forall j, In j (scrapes (ctx w)) -> keep j = false -> status j <> pending) ->
  Inv (mkWorld c' (running w)).
Proof.
  intros I S Hn Hs Hkeep. destruct I.
  assert (Sub : forall j, In j (scrapes c') -> In j (scrapes (ctx w))).
  { intros j Hj. rewrite S in Hj. apply filter_In in Hj. exact (proj1 Hj). }
  constructor; simpl; try rewrite Hn; try rewrite Hs; auto.
  - rewrite S. apply uniqueIds_filter. assumption.
  - rewrite S. apply newestActive_filter. assumption.
  - intros a Ha. destruct (inv_scheduled0 a Ha) as [j [Hj [E T]]].
    exists j. split; [|auto]. rewrite S. apply filter_In. split; [exact Hj|].
    destruct (keep j) eqn:K; [reflexivity|]. exfalso. exact (Hkeep j Hj K T).
  - intros a j Ha Hj. apply inv_running0; auto.
  - intros j Hj. apply inv_stamped0; auto.
Qed.

Lemma Inv_map (w : World) (c' : Ctx) (running' : list ActionArgs) (f : Job -> Job) :
  Inv w ->
  scrapes c' = map f (scrapes (ctx w)) ->
  nextId c' = nextId (ctx w) ->
  (forall j, In j (scrapes (ctx w)) -> Patch j (f j)) ->
  (forall a, In a (scheduled c') -> In a (scheduled (ctx w))) ->
  NoDup (map arg_jobId (scheduled c')) ->
  (forall a j, In a (scheduled c') -> In j (scrapes (ctx w)) ->
               _id j = arg_jobId a -> f j = j) ->
  (forall a, In a running' -> arg_jobId a < nextId (ctx w)) ->
  (forall a j, In a running' -> In j (scrapes (ctx w)) ->
               _id j = arg_jobId a -> status (f j) <> pending) ->
  Inv (mkWorld c' running').
Proof.
  intros I S Hn HP Hsub Hq Hkeep Hrb Hr. destruct I.
  assert (Img : forall j', In j' (scrapes c') ->
                           exists j, In j (scrapes (ctx w)) /\ j' = f j /\ Patch j j').
  { intros j' Hj'. rewrite S in Hj'. apply in_map_iff in Hj'. destruct Hj' as [j [E Hj]].
    exists j. subst j'. auto. }
  constructor; simpl; try rewrite Hn; auto.
  - rewrite S. unfold uniqueIds. rewrite map_map.
    rewrite (map_ext_in (fun x => _id (f x)) _id); [assumption|].
    intros j Hj. apply Patch_id. auto.
  - intros j' Hj'. destruct (Img j' Hj') as [j [Hj [_ Pj]]].
    rewrite (Patch_id _ _ Pj). auto.
  - rewrite S. apply newestActive_map; [|assumption].
    intros j Hj. split; [apply Patch_hash | apply Patch_active]; auto.
  - intros a Ha. destruct (inv_scheduled0 a (Hsub a Ha)) as [j [Hj [E T]]].
    exists j. split; [|auto]. rewrite S. rewrite <- (Hkeep a j Ha Hj E). apply in_map. exact Hj.
  - intros a j' Ha Hj' E. destruct (Img j' Hj') as [j [Hj [Ej Pj]]]. subst j'.
    apply (Hr a j Ha Hj). rewrite <- E. symmetry. apply Patch_id. exact Pj.
  - intros j' Hj'. destruct (Img j' Hj') as [j [Hj [_ Pj]]].
    apply (Patch_stamped _ _ Pj). apply inv_stamped0. exact Hj.
  - intros j' Hj'. destruct (Img j' Hj') as [j [Hj [_ Pj]]].
    apply (Patch_content _ _ Pj); auto.
  - intros j' Hj'. destruct (Img j' Hj') as [j [Hj [_ Pj]]].
    apply (Patch_content _ _ Pj); auto.
Qed.

Lemma Inv_insert (w : World) (c' : Ctx) (now : Z) (jn : Job) (args : ActionArgs) :
  Inv w ->
  scrapes c' = jn :: scrapes (ctx w) ->
  nextId c' = S (nextId (ctx w)) ->
  scheduled c' = scheduled (ctx w) ++ [args] ->
  _id jn = nextId (ctx w) ->
  arg_jobId args = nextId (ctx w) ->
  created now jn ->
  (forall k, In k (scrapes (ctx w)) -> isActive k = true -> urlHash k <> urlHash jn) ->
  Inv (mkWorld c' (running w)).
Proof.
  intros I S Hn Hs Hid Ha [Cp [Cc _]] Hfresh. destruct I.
  constructor; simpl; rewrite ?S, ?Hn, ?Hs.
  - unfold uniqueIds. simpl. constructor; [|assumption].
    intro H. apply in_map_iff in H. destruct H as [k [E Hk]].
    specialize (inv_bound0 k Hk). lia.
  - intros j [E|Hj]; [subst j; lia | specialize (inv_bound0 j Hj); lia].
  - simpl. split; assumption.
  - intros a Hin. apply in_app_iff in Hin. destruct Hin as [Hin|[E|[]]].
    + destruct (inv_scheduled0 a Hin) as [j [Hj [E T]]]. exists j. simpl. auto.
    + subst a. exists jn. simpl. rewrite Ha. auto.
  - rewrite map_app. simpl. apply NoDup_app_remove_l with (l := []). simpl.
    apply Permutation_NoDup with (l := arg_jobId args :: map arg_jobId (scheduled (ctx w))).
    + apply Permutation_cons_append.
    + constructor; [|assumption]. intro H. apply in_map_iff in H.
      destruct H as [a [E Hin]]. destruct (inv_scheduled0 a Hin) as [j [Hj [Ej _]]].
      specialize (inv_bound0 j Hj). lia.
  - intros a j Hin [E|Hj] Eid.
    + subst j. specialize (inv_running_bound0 a Hin). lia.
    + apply (inv_running0 a j); assumption.
  - intros a Hin. specialize (inv_running_bound0 a Hin). lia.
  - intros j [E|Hj] T; [subst j; congruence | apply inv_stamped0; assumption].
  - intros j [E|Hj] T; [subst j; assumption | apply inv_active_empty0; assumption].
  - intros j [E|Hj]; [subst j; rewrite Cc; apply exclusive_noContent
                     | apply inv_exclusive0; assumption].
Qed.

End Invariant.

(* ================================================================== *)
(** ** The executor's content update *)
(* ================================================================== *)

Section ContentUpdate.
Context {P : Platform}.

Lemma grows_refl (c : Ctx) : grows c c.
Proof. repeat split. apply incl_refl. Qed.

Lemma grows_trans (a b c : Ctx) : grows a b -> grows b c -> grows a c.
Proof.
  intros [S1 [N1 [Q1 F1]]] [S2 [N2 [Q2 F2]]]. repeat split; try congruence.
  eapply incl_tran; eassumption.
Qed.

Lemma placed_grows {A} (value : A) (serialized : string)
      (inline : option A) (file : option FileId) (c c' : Ctx) :
  placed value serialized inline file c -> grows c c' ->
  placed value serialized inline file c'.
Proof.
  unfold placed. intros H [_ [_ [_ F]]].
  destruct (CONFIG.FILE_STORAGE_THRESHOLD_BYTES <? getByteLength serialized)%Z; [|exact H].
  destruct H as [Hi [fileId [Hf Hin]]]. split; [exact Hi|]. exists fileId. auto.
Qed.

Lemma fieldPlaced_grows {A} (truthy : A -> bool) (serialize : A -> string)
      (field inline : option A) (file : option FileId) (c c' : Ctx) :
  fieldPlaced truthy serialize field inline file c -> grows c c' ->
  fieldPlaced truthy serialize field inline file c'.
Proof.
  unfold fieldPlaced. intros H G. destruct field as [value|]; [|exact H].
  destruct (truthy value); [|exact H]. eapply placed_grows; eassumption.
Qed.

Lemma inlineOrFile_run {A} (value : A) (serialized : string) (c : Ctx) :
  exists c' inline file,
    inlineOrFile value serialized c = (c', Return (inline, file)) /\
    grows c c' /\ placed value serialized inline file c' /\
    ((getByteLength serialized <= CONFIG.FILE_STORAGE_THRESHOLD_BYTES)%Z -> c' = c).
Proof.
  unfold inlineOrFile, placed.
  destruct (CONFIG.FILE_STORAGE_THRESHOLD_BYTES <? getByteLength serialized)%Z eqn:E.
  - eexists _, None, (Some (nextFileId (storage c))). split; [reflexivity|].
    split; [|split].
    + repeat split. simpl. intros x Hx. right. exact Hx.
    + split; [reflexivity|]. eexists. split; [reflexivity|]. simpl. left. reflexivity.
    + apply Z.ltb_lt in E. lia.
  - exists c, (Some value), None. split; [reflexivity|].
    split; [apply grows_refl | split; [split; reflexivity | reflexivity]].
Qed.

Lemma sizedField_run {A} (truthy : A -> bool) (serialize : A -> string)
      (field : option A) (c : Ctx) :
  exists c' inline file,
    sizedField truthy serialize field c = (c', Return (inline, file)) /\
    grows c c' /\ fieldPlaced truthy serialize field inline file c' /\
    notBoth inline file.
Proof.
  unfold sizedField, fieldPlaced. destruct field as [value|].
  - destruct (truthy value).
    + destruct (inlineOrFile_run value (serialize value) c)
        as [c' [inline [file [R [G [Pl _]]]]]].
      exists c', inline, file. repeat split; try apply G; try assumption.
      unfold placed in Pl.
      destruct (CONFIG.FILE_STORAGE_THRESHOLD_BYTES <? getByteLength (serialize value))%Z;
        [left | right]; tauto.
    + exists c, None, None. repeat split; try apply incl_refl. left. reflexivity.
  - exists c, None, None. repeat split; try apply incl_refl. left. reflexivity.
Qed.

Lemma screenshotField_run (field : option string) (storeScreenshot : option bool)
      (shot : ScreenshotFetch) (c : Ctx) :
  exists c' r, screenshotField field storeScreenshot shot c = (c', Return r) /\ grows c c'.
Proof.
  unfold screenshotField. destruct (keepTruthy field) as [shotUrl|].
  - destruct (orElse storeScreenshot false).
    + destruct shot; try (eexists _, _; split; [reflexivity | apply grows_refl]).
      eexists _, _. split; [reflexivity|]. repeat split. simpl. intros x Hx. right. exact Hx.
    + eexists _, _; split; [reflexivity | apply grows_refl].
  - eexists _, _; split; [reflexivity | apply grows_refl].
Qed.

(** What [buildContentUpdate] returns, field by field. *)
Lemma buildContentUpdate_run (data : FirecrawlData) (storeScreenshot : option bool)
      (shot : ScreenshotFetch) (c : Ctx) :
  exists c' update,
    buildContentUpdate data storeScreenshot shot c = (c', Return update) /\
    grows c c' /\
    fieldPlaced JS.truthy asIs (data_markdown data)
                (markdown update) (markdownFileId update) c' /\
    fieldPlaced JS.truthy asIs (data_html data) (html update) (htmlFileId update) c' /\
    fieldPlaced JS.truthy asIs (data_rawHtml data)
                (rawHtml update) (rawHtmlFileId update) c' /\
    fieldPlaced arrayTruthy stringsJson (data_links data)
                (links update) (linksFileId update) c' /\
    fieldPlaced arrayTruthy stringsJson (option_map (map imageUrl) (data_images data))
                (images update) (imagesFileId update) c' /\
    fieldPlaced jsonTruthy JSON_stringify (data_extract data)
                (extractedJson update) (extractedJsonFileId update) c' /\
    summary update = keepTruthy (data_summary data) /\
    exclusiveContent update.
Proof.
  unfold buildContentUpdate.
  destruct (sizedField_run JS.truthy asIs (data_markdown data) c)
    as [c1 [i1 [f1 [R1 [G1 [P1 X1]]]]]].
  destruct (sizedField_run JS.truthy asIs (data_html data) c1)
    as [c2 [i2 [f2 [R2 [G2 [P2 X2]]]]]].
  destruct (sizedField_run JS.truthy asIs (data_rawHtml data) c2)
    as [c3 [i3 [f3 [R3 [G3 [P3 X3]]]]]].
  destruct (sizedField_run arrayTruthy stringsJson (data_links data) c3)
    as [c4 [i4 [f4 [R4 [G4 [P4 X4]]]]]].
  destruct (sizedField_run arrayTruthy stringsJson
              (option_map (map imageUrl) (data_images data)) c4)
    as [c5 [i5 [f5 [R5 [G5 [P5 X5]]]]]].
  destruct (screenshotField_run (data_screenshot data) storeScreenshot shot c5)
    as [c6 [r6 [R6 G6]]].
  destruct (sizedField_run jsonTruthy JSON_stringify (data_extract data) c6)
    as [c7 [i7 [f7 [R7 [G7 [P7 X7]]]]]].
  unfold bind. rewrite R1, R2, R3, R4, R5, R6, R7.
  eexists _, _. split; [reflexivity|]. simpl.
  assert (G67 : grows c6 c7) by exact G7.
  assert (G57 : grows c5 c7) by (eapply grows_trans; eassumption).
  assert (G47 : grows c4 c7) by (eapply grows_trans; eassumption).
  assert (G37 : grows c3 c7) by (eapply grows_trans; eassumption).
  assert (G27 : grows c2 c7) by (eapply grows_trans; eassumption).
  assert (G17 : grows c1 c7) by (eapply grows_trans; eassumption).
  split; [eapply grows_trans; eassumption|].
  split; [eapply fieldPlaced_grows; eassumption|].
  split; [eapply fieldPlaced_grows; eassumption|].
  split; [eapply fieldPlaced_grows; eassumption|].
  split; [eapply fieldPlaced_grows; eassumption|].
  split; [eapply fieldPlaced_grows; eassumption|].
  split; [exact P7|].
  split; [reflexivity|].
  repeat split; assumption.
Qed.

End ContentUpdate.

(* ================================================================== *)
(** ** The events, one by one *)
(* ================================================================== *)

Lemma commit_return {A} (m : M A) (c c' : Ctx) (a : A) :
  m c = (c', Return a) -> commit m c = (c', Return a).
Proof. intro H. unfold commit. rewrite H. reflexivity. Qed.

Lemma commit_throw {A} (m : M A) (c c' : Ctx) (e : string) :
  m c = (c', Throw e) -> commit m c = (c, Throw e).
Proof. intro H. unfold commit. rewrite H. reflexivity. Qed.

Lemma world_eta (w : World) : mkWorld (ctx w) (running w) = w.
Proof. destruct w; reflexivity. Qed.

Lemma Effect_filter (now : Z) (w w' : World) (keep : Job -> bool) :
  scrapes (ctx w') = filter keep (scrapes (ctx w)) ->
  nextId (ctx w') = nextId (ctx w) -> Effect now w w'.
Proof.
  intros S Hn. split; [rewrite Hn; apply Nat.le_refl|]. intros j' Hj'. left. exists j'. rewrite S in Hj'. apply filter_In in Hj'.
  split; [exact (proj1 Hj') | apply patch_none].
Qed.

Lemma Effect_same (now : Z) (w w' : World) :
  scrapes (ctx w') = scrapes (ctx w) ->
  nextId (ctx w') = nextId (ctx w) -> Effect now w w'.
Proof.
  intros S Hn. split; [rewrite Hn; apply Nat.le_refl|]. intros j' Hj'. left. exists j'. rewrite S in Hj'. split; [exact Hj' | apply patch_none].
Qed.

Lemma Effect_map (now : Z) (w w' : World) (f : Job -> Job) :
  scrapes (ctx w') = map f (scrapes (ctx w)) ->
  nextId (ctx w') = nextId (ctx w) ->
  (forall j, In j (scrapes (ctx w)) -> Patch j (f j)) ->
  Effect now w w'.
Proof.
  intros S Hn HP. split; [rewrite Hn; apply Nat.le_refl|]. intros j' Hj'. left. rewrite S in Hj'. apply in_map_iff in Hj'.
  destruct Hj' as [j [E Hj]]. exists j. subst j'. auto.
Qed.

Lemma found_unique (t : list Job) (id : Id) (job j : Job) :
  uniqueIds t -> find (hasId id) t = Some job -> In j t -> hasId id j = true -> j = job.
Proof.
  intros N F Hj Hid. apply find_some in F. destruct F as [Hjob Hid'].
  unfold hasId in *. apply Nat.eqb_eq in Hid, Hid'.
  apply (uniqueIds_eq t j job N Hj Hjob). congruence.
Qed.

Section Events.
Context {P : Platform}.

Lemma failScrape_shape (jobId : Id) (message : string) (code : option ErrorCode) (c : Ctx) :
  uniqueIds (scrapes c) ->
  exists f,
    failScrape jobId message code c = (setScrapes c (map f (scrapes c)), Return tt) /\
    forall j, In j (scrapes c) ->
      f j = j \/
      (hasId jobId j = true /\ isActive j = true /\ f j = failFields message code j).
Proof.
  intro N. rewrite failScrape_run.
  destruct (find (hasId jobId) (scrapes c)) as [job|] eqn:F.
  - destruct (isActive job) eqn:A.
    + exists (fun j => if hasId jobId j then failFields message code j else j).
      split; [reflexivity|]. intros j Hj. destruct (hasId jobId j) eqn:E; [right | left; reflexivity].
      rewrite (found_unique _ _ _ _ N F Hj E). auto.
    + exists (fun j => j). rewrite map_id, setScrapes_same. auto.
  - exists (fun j => j). rewrite map_id, setScrapes_same. auto.
Qed.

Lemma completeScrape_shape (jobId : Id) (new : Content) (ttlMs now : Z) (c : Ctx) :
  uniqueIds (scrapes c) ->
  exists f,
    completeScrape jobId new ttlMs now c = (setScrapes c (map f (scrapes c)), Return tt) /\
    forall j, In j (scrapes c) ->
      f j = j \/
      (hasId jobId j = true /\ isActive j = true /\ f j = completeFields now ttlMs new j).
Proof.
  intro N. rewrite completeScrape_run.
  destruct (find (hasId jobId) (scrapes c)) as [job|] eqn:F.
  - destruct (isActive job) eqn:A.
    + exists (fun j => if hasId jobId j then completeFields now ttlMs new j else j).
      split; [reflexivity|]. intros j Hj. destruct (hasId jobId j) eqn:E; [right | left; reflexivity].
      rewrite (found_unique _ _ _ _ N F Hj E). auto.
    + exists (fun j => j). rewrite map_id, setScrapes_same. auto.
  - exists (fun j => j). rewrite map_id, setScrapes_same. auto.
Qed.

(** [failScrape] does not throw, so the [catch] of the action is not
    entered after it. *)
Lemma finish_failure (jobId : Id) (message : string) (code : option ErrorCode)
      (handler : string -> M unit) (c : Ctx) :
  tryCatch (runMutation (failScrape jobId message code)) handler c =
  runMutation (failScrape jobId message code) c.
Proof.
  unfold tryCatch, runMutation, commit. rewrite failScrape_run.
  destruct (find (hasId jobId) (scrapes c)) as [job|]; [|reflexivity].
  destruct (isActive job); reflexivity.
Qed.

(** The call of [failScrape] inside the [try] of the action: with
    arguments of the expected types it runs the mutation; otherwise the
    call throws and the [catch] records the message of that error, with
    no code. *)
Lemma callFailScrape_caught (jobId : Id) (error : JSON) (errorCode : option JSON) (c : Ctx) :
  tryCatch (callFailScrape jobId error errorCode)
           (fun errorMessage => runMutation (failScrape jobId errorMessage None)) c =
  match asString error, asOptionalErrorCode errorCode with
  | Some message, Some code => runMutation (failScrape jobId message code) c
  | _, _ => runMutation (failScrape jobId (argumentError error errorCode) None) c
  end.
Proof.
  unfold callFailScrape.
  destruct (asString error) as [message|]; [|reflexivity].
  destruct (asOptionalErrorCode errorCode) as [code|]; [|reflexivity].
  apply finish_failure.
Qed.

(** Whatever the provider answered, short of a reply with [success], the
    action ends in one run of [failScrape]. *)
Lemma scrapeAction_finish_fails (args : ActionArgs) (response : Response)
      (shot : ScreenshotFetch) (now : Z) (c : Ctx) :
  (forall resultError resultCode data, response <> Ok true resultError resultCode data) ->
  exists message code,
    scrapeAction_finish args response shot now c =
    runMutation (failScrape (arg_jobId args) message code) c.
Proof.
  intro H. unfold scrapeAction_finish.
  destruct response as [message|httpStatus errorBody errorJson|success resultError resultCode data].
  - exists message, None. reflexivity.
  - rewrite callFailScrape_caught.
    match goal with |- context [asString ?e] => destruct (asString e) as [m|] end;
      [match goal with |- context [asOptionalErrorCode ?k] =>
         destruct (asOptionalErrorCode k) as [code|] end|]; eauto.
  - destruct success; [exfalso; exact (H _ _ _ eq_refl)|]. cbn [negb].
    rewrite callFailScrape_caught.
    match goal with |- context [asString ?e] => destruct (asString e) as [m|] end;
      [match goal with |- context [asOptionalErrorCode ?k] =>
         destruct (asOptionalErrorCode k) as [code|] end|]; eauto.
Qed.

(** The end of an action patches at most the action's own record, and
    only if it is still pending or scraping. *)
Lemma scrapeAction_finish_shape (args : ActionArgs) (response : Response)
      (shot : ScreenshotFetch) (now : Z) (c : Ctx) :
  uniqueIds (scrapes c) ->
  exists f c',
    fst (scrapeAction_finish args response shot now c) = c' /\
    scrapes c' = map f (scrapes c) /\ nextId c' = nextId c /\ scheduled c' = scheduled c /\
    forall j, In j (scrapes c) ->
      f j = j \/
      (hasId (arg_jobId args) j = true /\ isActive j = true /\
       ((exists message code, f j = failFields message code j) \/
        (exists new, exclusiveContent new /\
                     f j = completeFields now (arg_ttlMs args) new j))).
Proof.
  intro N.
  assert (Fail : forall message code,
    exists f c',
      fst (runMutation (failScrape (arg_jobId args) message code) c) = c' /\
      snd (runMutation (failScrape (arg_jobId args) message code) c) = Return tt /\
      scrapes c' = map f (scrapes c) /\ nextId c' = nextId c /\ scheduled c' = scheduled c /\
      forall j, In j (scrapes c) ->
        f j = j \/
        (hasId (arg_jobId args) j = true /\ isActive j = true /\
         ((exists message code, f j = failFields message code j) \/
          (exists new, exclusiveContent new /\
                       f j = completeFields now (arg_ttlMs args) new j)))).
  { intros message code.
    destruct (failScrape_shape (arg_jobId args) message code c N) as [f [R Hf]].
    exists f, (setScrapes c (map f (scrapes c))). unfold runMutation.
    rewrite (commit_return _ _ _ _ R). repeat split.
    intros j Hj. destruct (Hf j Hj) as [E|[Hid [Ha E]]]; [left; exact E | right].
    repeat split; try assumption. left. eauto. }
  assert (Failed : (forall resultError resultCode data,
                      response <> Ok true resultError resultCode data) ->
    exists f c',
      fst (scrapeAction_finish args response shot now c) = c' /\
      scrapes c' = map f (scrapes c) /\ nextId c' = nextId c /\ scheduled c' = scheduled c /\
      forall j, In j (scrapes c) ->
        f j = j \/
        (hasId (arg_jobId args) j = true /\ isActive j = true /\
         ((exists message code, f j = failFields message code j) \/
          (exists new, exclusiveContent new /\
                       f j = completeFields now (arg_ttlMs args) new j)))).
  { intro Hne. destruct (scrapeAction_finish_fails args response shot now c Hne)
      as [m [code R]]. rewrite R.
    destruct (Fail m code) as [f [c' [E [_ H]]]]. exists f, c'. auto. }
  destruct response as [message|httpStatus errorBody errorJson|success resultError resultCode data].
  - apply Failed. discriminate.
  - apply Failed. discriminate.
  - destruct success; [|apply Failed; discriminate].
    unfold scrapeAction_finish, tryCatch. cbn [negb].
    destruct (buildContentUpdate_run data (act_storeScreenshot (arg_options args)) shot c)
      as [c1 [update [R [[S1 [N1 [Q1 _]]] X]]]].
    unfold bind. rewrite R.
    assert (N' : uniqueIds (scrapes c1)) by (rewrite S1; exact N).
    destruct (completeScrape_shape (arg_jobId args) update (arg_ttlMs args) now c1 N')
      as [f [Rc Hf]].
    unfold runMutation. rewrite (commit_return _ _ _ _ Rc).
    exists f, (setScrapes c1 (map f (scrapes c1))). simpl. rewrite S1.
    repeat split; try assumption.
    intros j Hj. rewrite S1 in Hf. destruct (Hf j Hj) as [E|[Hid [Ha E]]]; [left; exact E | right].
    repeat split; try assumption. right. exists update. split; [|exact E].
    do 7 (destruct X as [_ X]). exact X.
Qed.

End Events.

Section Soundness.
Context {P : Platform}.

Lemma unchanged_sound (now : Z) (w : World) (c' : Ctx) :
  Inv w ->
  scrapes c' = scrapes (ctx w) -> nextId c' = nextId (ctx w) ->
  scheduled c' = scheduled (ctx w) ->
  Inv (mkWorld c' (running w)) /\ Effect now w (mkWorld c' (running w)).
Proof.
  intros I S Hn Hs. split.
  - apply (Inv_filter w c' (fun _ => true)); auto.
    + rewrite filter_all by reflexivity. exact S.
    + intros j _ H. discriminate.
  - apply Effect_same; assumption.
Qed.

Lemma insert_sound (now : Z) (w : World) (c0 : Ctx) (jn : Job) (args : ActionArgs)
      (keep : Job -> bool) :
  Inv w ->
  scrapes c0 = filter keep (scrapes (ctx w)) -> nextId c0 = nextId (ctx w) ->
  scheduled c0 = scheduled (ctx w) ->
  (forall j, In j (scrapes (ctx w)) -> keep j = false -> status j <> pending) ->
  _id jn = nextId c0 -> arg_jobId args = nextId c0 -> created now jn ->
  find isActive (firstn 10 (filter (fun j => (urlHash j =? urlHash jn)%string) (scrapes c0)))
    = None ->
  let w' := mkWorld (mkCtx (jn :: scrapes c0) (S (nextId c0)) (storage c0)
                           (scheduled c0 ++ [args])) (running w) in
  Inv w' /\ Effect now w w'.
Proof.
  intros I S Hn Hs Hkeep Hid Ha Cr Fa w'.
  assert (I0 : Inv (mkWorld c0 (running w))) by (apply (Inv_filter w c0 keep); assumption).
  split.
  - apply (Inv_insert (mkWorld c0 (running w)) _ now jn args I0); simpl; auto.
    apply dedup_check_complete; [apply (inv_newest I0) | exact Fa].
  - split; [simpl; lia|]. intros j' [E|Hj'].
    + subst j'. right. split; [exact Cr|]. rewrite Hid, Hn. apply Nat.le_refl.
    + left. exists j'. simpl in Hj'. rewrite S in Hj'. apply filter_In in Hj'.
      split; [exact (proj1 Hj') | apply patch_none].
Qed.

Lemma startScrape_sound (u apiKey : string) (options : ScrapeOptions) (now : Z) (w : World) :
  Inv w ->
  let w' := mkWorld (fst (commit (startScrape u apiKey options now) (ctx w))) (running w) in
  Inv w' /\ Effect now w w'.
Proof.
  intros I w'. subst w'.
  destruct (startScrape u apiKey options now (ctx w)) as [c1 out] eqn:R.
  destruct out as [id|e].
  2:{ rewrite (commit_throw _ _ _ _ R). simpl. apply unchanged_sound; auto. }
  rewrite (commit_return _ _ _ _ R). simpl.
  rewrite startScrape_run in R.
  destruct (validateUrl u); [|discriminate].
  destruct (normalizeUrl u) as [normalized|]; [|discriminate].
  cbv zeta in R.
  assert (Cr : forall ttlMs fid,
             created now (pendingRecord u normalized (hashUrl normalized)
                            (orElse (opt_formats options) ["markdown"]) options now ttlMs fid)).
  { intros ttlMs fid. repeat split. exists ttlMs. reflexivity. }
  destruct (orElse (opt_force options) false) eqn:Force.
  - destruct (forceDelete (hashUrl normalized) (ctx w)) as [c0 [[]|e]] eqn:F; [|discriminate].
    destruct (forceDelete_run _ _ _ _ F) as [deleted [Hdel [S [Hn [Hs _]]]]].
    destruct (find isActive _) eqn:Fa in R; [discriminate|].
    inversion R; subst c1 id; clear R.
    apply (insert_sound now w c0 _ _ (fun j => negb (idIn j deleted))); auto.
    intros j Hj K T. apply negb_false_iff in K. apply idIn_true in K.
    destruct K as [d [Hd E]]. destruct (Hdel d Hd) as [Hdt [Hc _]].
    rewrite (uniqueIds_eq _ d j (inv_ids I) Hdt Hj E) in Hc. congruence.
  - unfold ret in R.
    destruct (find isActive _) eqn:Fa in R; [discriminate|].
    destruct (find (cacheHit now _) _) eqn:Fc in R.
    + inversion R; subst c1 id. apply unchanged_sound; auto.
    + inversion R; subst c1 id; clear R.
      apply (insert_sound now w (ctx w) _ _ (fun _ => true)); auto.
      * rewrite filter_all by reflexivity. reflexivity.
      * intros j _ K. discriminate.
Qed.

Lemma invalidate_sound (u : string) (now : Z) (w : World) :
  Inv w ->
  let w' := mkWorld (fst (commit (invalidate u now) (ctx w))) (running w) in
  Inv w' /\ Effect now w w'.
Proof.
  intros I w'. subst w'.
  destruct (validateUrl u) as [|e] eqn:V.
  - destruct (valid_normalizes u V) as [normalized Hn].
    rewrite (commit_return _ _ _ _ (invalidate_run u normalized now (ctx w) (inv_ids I) V Hn)).
    simpl.
    set (f := fun j => if liveFor (hashUrl normalized) now j then setExpiresAt now j else j).
    assert (HP : forall j, Patch j (f j)).
    { intro j. unfold f. destruct (liveFor (hashUrl normalized) now j) eqn:L;
        [|apply patch_none].
      apply patch_invalidated. unfold liveFor in L.
      apply andb_true_iff in L. destruct L as [L _]. apply andb_true_iff in L.
      apply Status_eqb_eq. exact (proj2 L). }
    assert (Hst : forall j, status (f j) = status j).
    { intro j. unfold f. destruct (liveFor _ now j); reflexivity. }
    split.
    + apply (Inv_map w _ (running w) f I); simpl; auto.
      * apply (inv_queue I).
      * intros a j Ha Hj E. destruct (inv_scheduled I a Ha) as [k [Hk [Ek Tk]]].
        rewrite (uniqueIds_eq _ j k (inv_ids I) Hj Hk) by congruence.
        unfold f, liveFor. rewrite Tk. simpl. rewrite andb_false_r. reflexivity.
      * apply (inv_running_bound I).
      * intros a j Ha Hj E. rewrite Hst. apply (inv_running I a j); assumption.
    + apply (Effect_map now w _ f); simpl; auto.
  - unfold invalidate, commit. rewrite V. simpl. apply unchanged_sound; auto.
Qed.

Lemma deleteScrape_sound (id : Id) (now : Z) (w : World) :
  Inv w ->
  let w' := mkWorld (fst (commit (deleteScrape id) (ctx w))) (running w) in
  Inv w' /\ Effect now w w'.
Proof.
  intros I w'. subst w'.
  destruct (deleteScrape id (ctx w)) as [c1 out] eqn:R.
  destruct out as [r|e].
  2:{ rewrite (commit_throw _ _ _ _ R). simpl. apply unchanged_sound; auto. }
  rewrite (commit_return _ _ _ _ R). simpl.
  unfold deleteScrape, bind at 1, db_get in R.
  destruct (find (hasId id) (scrapes (ctx w))) as [scrape|] eqn:F.
  - destruct (isActive scrape) eqn:A; [discriminate|].
    unfold bind at 1 in R.
    destruct (deleteFilesBestEffort_run (fileIdsOf (content scrape)) (ctx w))
      as [c0 [n [R0 [S0 [[N0 [Q0 _]] _]]]]].
    rewrite R0 in R. unfold bind in R. unfold db_delete in R. rewrite S0 in R.
    rewrite (find_some_existsb _ _ _ F) in R. inversion R; subst c1 r; clear R.
    split.
    + apply (Inv_filter w _ (fun j => negb (hasId id j))); auto.
      intros j Hj K T. apply negb_false_iff in K.
      rewrite (found_unique _ _ _ _ (inv_ids I) F Hj K) in T.
      unfold isActive in A. rewrite T in A. discriminate.
    + apply (Effect_filter now w _ (fun j => negb (hasId id j))); [reflexivity | exact N0].
  - inversion R; subst c1 r. apply unchanged_sound; auto.
Qed.

Lemma cleanupExpired_sound (now : Z) (w : World) :
  Inv w ->
  let w' := mkWorld (fst (commit (cleanupExpired now) (ctx w))) (running w) in
  Inv w' /\ Effect now w w'.
Proof.
  intros I w'. subst w'.
  destruct (cleanupExpired_run now (ctx w) (inv_ids I))
    as [c1 [m [R [S [Hdel [[Hn [Hs _]] _]]]]]].
  rewrite (commit_return _ _ _ _ R). simpl. split.
  - apply (Inv_filter w c1 _ I S Hn Hs).
    intros j Hj K T. apply negb_false_iff in K. apply (Hdel j Hj) in K.
    destruct K as [_ K]. unfold isTerminal in K. rewrite T in K. discriminate.
  - apply (Effect_filter now w (mkWorld c1 (running w)) _ S Hn).
Qed.

Lemma markStuckJobsFailed_sound (now : Z) (w : World) :
  Inv w ->
  let w' := mkWorld (fst (commit (markStuckJobsFailed now) (ctx w))) (running w) in
  Inv w' /\ Effect now w w'.
Proof.
  intros I w'. subst w'.
  rewrite (commit_return _ _ _ _
             (markStuckJobsFailed_run now (ctx w) (inv_ids I) (inv_stamped I))).
  simpl. set (f := fun j => if isStuck now j then timeoutFields j else j).
  assert (Hs : forall j, isStuck now j = true -> status j = scraping).
  { intros j H. unfold isStuck in H. apply andb_true_iff in H.
    apply Status_eqb_eq. exact (proj1 H). }
  assert (HP : forall j, Patch j (f j)).
  { intro j. unfold f. destruct (isStuck now j) eqn:L; [|apply patch_none].
    apply patch_timeout. auto. }
  split.
  - apply (Inv_map w _ (running w) f I); simpl; auto.
    + apply (inv_queue I).
    + intros a j Ha Hj E. destruct (inv_scheduled I a Ha) as [k [Hk [Ek Tk]]].
      rewrite (uniqueIds_eq _ j k (inv_ids I) Hj Hk) by congruence.
      unfold f. destruct (isStuck now k) eqn:L; [|reflexivity].
      rewrite (Hs k L) in Tk. discriminate.
    + apply (inv_running_bound I).
    + intros a j Ha Hj E. unfold f. destruct (isStuck now j); [discriminate|].
      apply (inv_running I a j); assumption.
  - apply (Effect_map now w _ f); simpl; auto.
Qed.

End Soundness.

Lemma removeNth_In {A} (n : nat) (l : list A) (x : A) :
  In x (removeNth n l) -> In x l.
Proof.
  revert n. induction l as [|a l IH]; intros [|n]; simpl; try tauto.
  intros [E|H]; [left; exact E | right; exact (IH n H)].
Qed.

Lemma removeNth_keys {A} (key : A -> nat) (n : nat) (l : list A) (x : A) :
  NoDup (map key l) -> nth_error l n = Some x ->
  NoDup (map key (removeNth n l)) /\
  forall y, In y (removeNth n l) -> key y <> key x.
Proof.
  revert n. induction l as [|a l IH]; intros [|n] N E; simpl in *; try discriminate.
  - inversion E; subst a. inversion N as [|? ? Hnot N']; subst. split; [exact N'|].
    intros y Hy Ek. apply Hnot. rewrite <- Ek. apply in_map. exact Hy.
  - inversion N as [|? ? Hnot N']; subst. destruct (IH n N' E) as [N2 D]. split.
    + constructor; [|exact N2]. intro H. apply Hnot. apply in_map_iff in H.
      destruct H as [y [Ey Hy]]. apply in_map_iff. exists y. split; [exact Ey|].
      eapply removeNth_In. exact Hy.
    + intros y [Ey|Hy]; [|apply D; exact Hy]. subst y. intro Ek. apply Hnot.
      rewrite Ek. apply in_map. eapply nth_error_In. exact E.
Qed.

Section Actions.
Context {P : Platform}.

Lemma actionBegins_sound (n : nat) (args : ActionArgs) (now : Z) (w : World) :
  Inv w ->
  nth_error (scheduled (ctx w)) n = Some args ->
  exists c',
    scrapeAction_begin args now (dequeue (ctx w) n) = (c', Return tt) /\
    Inv (mkWorld c' (args :: running w)) /\
    Effect now w (mkWorld c' (args :: running w)).
Proof.
  intros I E.
  assert (Ha : In args (scheduled (ctx w))) by (eapply nth_error_In; exact E).
  destruct (inv_scheduled I args Ha) as [k [Hk [Ek Tk]]].
  destruct (removeNth_keys arg_jobId n _ args (inv_queue I) E) as [Nq Dq].
  set (f := fun j => if hasId (arg_jobId args) j then markScrapingFields now j else j).
  exists (setScrapes (dequeue (ctx w) n) (map f (scrapes (ctx w)))).
  assert (Hf : forall j, In j (scrapes (ctx w)) -> hasId (arg_jobId args) j = true -> j = k).
  { intros j Hj Hid. apply (uniqueIds_eq _ j k (inv_ids I) Hj Hk).
    unfold hasId in Hid. apply Nat.eqb_eq in Hid. congruence. }
  assert (HP : forall j, In j (scrapes (ctx w)) -> Patch j (f j)).
  { intros j Hj. unfold f. destruct (hasId (arg_jobId args) j) eqn:Hid; [|apply patch_none].
    apply patch_scraping. rewrite (Hf j Hj Hid). exact Tk. }
  split; [|split].
  - unfold scrapeAction_begin, runMutation, markScraping.
    apply commit_return. apply db_patch_found. simpl.
    rewrite <- Ek. apply hasId_member. exact Hk.
  - apply (Inv_map w _ (args :: running w) f I); simpl; auto.
    + intros a H. eapply removeNth_In. exact H.
    + intros a j Hin Hj Eid. unfold f.
      destruct (hasId (arg_jobId args) j) eqn:Hid; [|reflexivity].
      exfalso. apply (Dq a Hin). unfold hasId in Hid. apply Nat.eqb_eq in Hid. congruence.
    + intros a [Ea|Hin].
      * subst a. rewrite <- Ek. apply (inv_bound I). exact Hk.
      * apply (inv_running_bound I). exact Hin.
    + intros a j Hin Hj Eid. unfold f.
      destruct (hasId (arg_jobId args) j) eqn:Hid; [discriminate|].
      destruct Hin as [Ea|Hin].
      * subst a. unfold hasId in Hid. rewrite Eid, Nat.eqb_refl in Hid. discriminate.
      * apply (inv_running I a j); assumption.
  - apply (Effect_map now w _ f); simpl; auto.
Qed.

Lemma actionEnds_sound (n : nat) (args : ActionArgs) (response : Response)
      (shot : ScreenshotFetch) (now : Z) (w : World) :
  Inv w ->
  nth_error (running w) n = Some args ->
  let w' := mkWorld (fst (scrapeAction_finish args response shot now (ctx w)))
                    (removeNth n (running w)) in
  Inv w' /\ Effect now w w'.
Proof.
  intros I E w'. subst w'.
  assert (Ha : In args (running w)) by (eapply nth_error_In; exact E).
  destruct (scrapeAction_finish_shape args response shot now (ctx w) (inv_ids I))
    as [f [c' [Ec [S [Hn [Hs Hf]]]]]].
  rewrite Ec.
  assert (HP : forall j, In j (scrapes (ctx w)) -> Patch j (f j)).
  { intros j Hj. destruct (Hf j Hj) as [Ej|[_ [A [[m [code Ej]]|[new [X Ej]]]]]]; rewrite Ej.
    - apply patch_none.
    - apply patch_failed. exact A.
    - apply patch_completed; assumption. }
  assert (Hrun : forall j, In j (scrapes (ctx w)) -> status j <> pending -> status (f j) <> pending).
  { intros j Hj T. destruct (Hf j Hj) as [Ej|[_ [A [[m [code Ej]]|[new [X Ej]]]]]]; rewrite Ej;
      [exact T | discriminate | discriminate]. }
  split.
  - apply (Inv_map w c' (removeNth n (running w)) f I); auto.
    + rewrite Hs. auto.
    + rewrite Hs. apply (inv_queue I).
    + rewrite Hs. intros a j Hin Hj Eid.
      destruct (Hf j Hj) as [Ej|[Hid _]]; [exact Ej|]. exfalso.
      destruct (inv_scheduled I a Hin) as [k [Hk [Ek Tk]]].
      assert (j = k) by (apply (uniqueIds_eq _ j k (inv_ids I) Hj Hk); congruence). subst k.
      unfold hasId in Hid. apply Nat.eqb_eq in Hid.
      exact (inv_running I args j Ha Hj Hid Tk).
    + intros a Hin. apply (inv_running_bound I). eapply removeNth_In. exact Hin.
    + intros a j Hin Hj Eid. apply (Hrun j Hj).
      apply (inv_running I a j); auto. eapply removeNth_In. exact Hin.
  - apply (Effect_map now w _ f); simpl; auto.
Qed.

(** Every event keeps the invariant, and changes the table by patches
    and creations only. *)
Lemma exec_sound (now : Z) (e : Event) (w w' : World) :
  Inv w -> exec now e w = Some w' -> Inv w' /\ Effect now w w'.
Proof.
  intros I E. destruct e; simpl in E.
  - inversion E; subst w'. apply startScrape_sound. exact I.
  - inversion E; subst w'. apply invalidate_sound. exact I.
  - inversion E; subst w'. apply deleteScrape_sound. exact I.
  - inversion E; subst w'. apply cleanupExpired_sound. exact I.
  - inversion E; subst w'. apply markStuckJobsFailed_sound. exact I.
  - destruct (nth_error (scheduled (ctx w)) n) as [args|] eqn:En; [|discriminate].
    destruct (actionBegins_sound n args now w I En) as [c' [R [I' Ef]]].
    rewrite R in E. inversion E; subst w'. auto.
  - destruct (nth_error (running w) n) as [args|] eqn:En; [|discriminate].
    inversion E; subst w'. apply actionEnds_sound; assumption.
Qed.

Lemma reachable_Inv (w : World) : reachable w -> Inv w.
Proof.
  induction 1 as [|w w' _ IH [now [e E]]].
  - apply Inv_empty.
  - exact (proj1 (exec_sound now e w w' IH E)).
Qed.

(** One step, record by record: the record under an id is patched once,
    by one of the five patches and from the statuses its guard admits. *)
Lemma step_patch (w w' : World) (j j' : Job) :
  reachable w -> step w w' ->
  In j (scrapes (ctx w)) -> In j' (scrapes (ctx w')) -> _id j = _id j' ->
  Patch j j'.
Proof.
  intros R [now [e E]] Hj Hj' Eid.
  pose proof (reachable_Inv w R) as I.
  destruct (exec_sound now e w w' I E) as [_ Ef].
  destruct (proj2 Ef j' Hj') as [[k [Hk Pk]]|[_ Fresh]].
  - rewrite (uniqueIds_eq _ j k (inv_ids I) Hj Hk); [exact Pk|].
    rewrite Eid. apply Patch_id. exact Pk.
  - exfalso. pose proof (inv_bound I j Hj). lia.
Qed.

End Actions.

(* ================================================================== *)
(** ** Deduplication *)
(* ================================================================== *)

Section Dedup.
Context {P : Platform}.

Lemma runEvents_reachable (events : list (Z * Event)) (w w' : World) :
  reachable w -> runEvents events w = Some w' -> reachable w'.
Proof.
  revert w. induction events as [|[now e] rest IH]; intros w R H; simpl in H.
  - inversion H; subst. exact R.
  - destruct (exec now e w) as [w1|] eqn:E; [|discriminate].
    apply (IH w1); [|exact H]. eapply reachable_step; [exact R|]. exists now, e. exact E.
Qed.

(** With an active record of the hash in a reachable world, the dedup
    check finds exactly that record, also after the forced deletion. *)
Lemma dedup_check_finds (w : World) (c1 : Ctx) (keep : Job -> bool) (active : Job) :
  reachable w ->
  scrapes c1 = filter keep (scrapes (ctx w)) ->
  (forall j, In j (scrapes (ctx w)) -> keep j = false -> status j = completed) ->
  In active (scrapes (ctx w)) -> isActive active = true ->
  find isActive
       (firstn 10 (filter (fun j => (urlHash j =? urlHash active)%string) (scrapes c1)))
  = Some active.
Proof.
  intros R S Hkeep Hin Ha. pose proof (reachable_Inv w R) as I.
  assert (Hin1 : In active (scrapes c1)).
  { rewrite S. apply filter_In. split; [exact Hin|].
    destruct (keep active) eqn:K; [reflexivity|].
    specialize (Hkeep active Hin K). unfold isActive in Ha. rewrite Hkeep in Ha. discriminate. }
  assert (N1 : newestActive (scrapes c1))
    by (rewrite S; apply newestActive_filter; apply (inv_newest I)).
  destruct (newestActive_first (scrapes c1) active N1 Hin1 Ha) as [rest E].
  rewrite E. simpl. rewrite Ha. reflexivity.
Qed.

(** C1.  In every world the system can reach, at most one record per
    [urlHash] is in status pending or scraping.  When [startScrape] gets
    to its dedup check (the URL is valid and step 4 has returned) and a
    record in status pending or scraping is among the ten newest records it
    loads for the hash, it throws the conflict error with the id of such a
    record; the table at the throw holds no record that was not there
    before, and the transaction leaves the context as it was.  In a
    reachable world the active record of the hash is always among those
    loaded, and the id in the message is its id. *)
Theorem dedup_one_active_per_hash :
  (forall w, reachable w -> oneActivePerHash (scrapes (ctx w))) /\
  (forall u apiKey options now c c1 normalized active,
     validateUrl u = valid ->
     normalizeUrl u = Some normalized ->
     (if orElse (opt_force options) false then forceDelete (hashUrl normalized) else ret tt) c
       = (c1, Return tt) ->
     In active (firstn 10 (filter (fun j => (urlHash j =? hashUrl normalized)%string)
                                  (scrapes c1))) ->
     isActive active = true ->
     exists job,
       In job (firstn 10 (filter (fun j => (urlHash j =? hashUrl normalized)%string)
                                 (scrapes c1))) /\
       isActive job = true /\
       startScrape u apiKey options now c = (c1, Throw (conflictMessage (_id job))) /\
       (forall j, In j (scrapes c1) -> In j (scrapes c)) /\
       commit (startScrape u apiKey options now) c = (c, Throw (conflictMessage (_id job)))) /\
  (forall w u apiKey options now normalized active,
     reachable w ->
     validateUrl u = valid ->
     normalizeUrl u = Some normalized ->
     In active (scrapes (ctx w)) -> isActive active = true ->
     urlHash active = hashUrl normalized ->
     exists e,
       commit (startScrape u apiKey options now) (ctx w) = (ctx w, Throw e) /\
       (forall c1,
          (if orElse (opt_force options) false then forceDelete (hashUrl normalized)
           else ret tt) (ctx w) = (c1, Return tt) ->
          e = conflictMessage (_id active))).
Proof.
  split; [|split].
  - intros w R. pose proof (reachable_Inv w R) as I.
    apply newestActive_one; [apply (inv_ids I) | apply (inv_newest I)].
  - intros u apiKey options now c c1 normalized active V Hn H4 Hin Ha.
    assert (F : exists job, find isActive
                  (firstn 10 (filter (fun j => (urlHash j =? hashUrl normalized)%string)
                                     (scrapes c1))) = Some job).
    { apply existsb_find_some. apply existsb_exists. exists active. auto. }
    destruct F as [job F]. exists job.
    assert (R : startScrape u apiKey options now c = (c1, Throw (conflictMessage (_id job)))).
    { rewrite startScrape_run, V, Hn. cbv zeta. rewrite H4, F. reflexivity. }
    destruct (find_some _ _ F) as [Hjob Hact].
    split; [exact Hjob | split; [exact Hact | split; [exact R | split]]].
    + destruct (orElse (opt_force options) false).
      * destruct (forceDelete_run _ _ _ _ H4) as [deleted [_ [S _]]].
        intros j Hj. rewrite S in Hj. apply filter_In in Hj. exact (proj1 Hj).
      * inversion H4; subst c1. auto.
    + apply (commit_throw _ _ _ _ R).
  - intros w u apiKey options now normalized active R V Hn Hin Ha Hh.
    destruct ((if orElse (opt_force options) false then forceDelete (hashUrl normalized)
               else ret tt) (ctx w)) as [c1 [[]|e]] eqn:H4.
    + exists (conflictMessage (_id active)). split; [|reflexivity].
      apply (commit_throw _ _ c1). rewrite startScrape_run, V, Hn. cbv zeta. rewrite H4.
      assert (F : find isActive
                    (firstn 10 (filter (fun j => (urlHash j =? hashUrl normalized)%string)
                                       (scrapes c1))) = Some active).
      { rewrite <- Hh. destruct (orElse (opt_force options) false).
        - destruct (forceDelete_run _ _ _ _ H4) as [deleted [Hdel [S _]]].
          apply (dedup_check_finds w c1 (fun j => negb (idIn j deleted))); auto.
          intros j Hj K. apply negb_false_iff in K. apply idIn_true in K.
          destruct K as [d [Hd E]]. destruct (Hdel d Hd) as [Hdt [Hc _]].
          rewrite <- (uniqueIds_eq _ d j (inv_ids (reachable_Inv w R)) Hdt Hj E). exact Hc.
        - inversion H4; subst c1.
          apply (dedup_check_finds w (ctx w) (fun _ => true)); auto.
          + rewrite filter_all by reflexivity. reflexivity.
          + intros j _ K. discriminate. }
      rewrite F. reflexivity.
    + exists e. split; [|intros c1' H; discriminate].
      apply (commit_throw _ _ c1). rewrite startScrape_run, V, Hn. cbv zeta. rewrite H4.
      reflexivity.
Qed.

End Dedup.

(** The second scenario of the specification: right after a first
    [scrape] of the page (world 1 of the scenario), a second one is
    rejected with the id of the first job, and nothing changes. *)
Lemma dedup_one_active_per_hash_witness :
  let w := worldAfter 1 in
  let active := pendingRecord sampleUrl sampleUrl sampleUrl ["markdown"] noOptions 0
                              CONFIG.DEFAULT_TTL_MS 0 in
  @reachable model_platform w /\
  @validateUrl model_platform sampleUrl = valid /\
  @normalizeUrl model_platform sampleUrl = Some sampleUrl /\
  In active (scrapes (ctx w)) /\ isActive active = true /\
  urlHash active = @hashUrl model_platform sampleUrl /\
  @commit Id (@startScrape model_platform sampleUrl "key" noOptions 5) (ctx w) =
    (ctx w, Throw "Scrape already in progress for this URL. Job ID: 0").
Proof.
  intros w active.
  assert (R : @reachable model_platform w).
  { apply (@runEvents_reachable model_platform (firstn 1 scenario) emptyWorld w).
    - apply reachable_start.
    - vm_compute. reflexivity. }
  assert (V : @validateUrl model_platform sampleUrl = valid) by (vm_compute; reflexivity).
  assert (Hn : @normalizeUrl model_platform sampleUrl = Some sampleUrl)
    by (vm_compute; reflexivity).
  assert (Hin : In active (scrapes (ctx w))) by (vm_compute; left; reflexivity).
  assert (Ha : isActive active = true) by (vm_compute; reflexivity).
  assert (Hh : urlHash active = @hashUrl model_platform sampleUrl) by (vm_compute; reflexivity).
  split; [exact R | split; [exact V | split; [exact Hn | split; [exact Hin |
    split; [exact Ha | split; [exact Hh |]]]]]].
  destruct (proj2 (proj2 (@dedup_one_active_per_hash model_platform))
              w sampleUrl "key" noOptions 5%Z sampleUrl active R V Hn Hin Ha Hh)
    as [e [Hc He]].
  rewrite Hc. f_equal. f_equal.
  assert (H4 : (if orElse (opt_force noOptions) false
                then @forceDelete (@hashUrl model_platform sampleUrl) else ret tt) (ctx w)
               = (ctx w, Return tt)) by reflexivity.
  rewrite (He (ctx w) H4). vm_compute. reflexivity.
Defined.

(* ================================================================== *)
(** ** Status transitions *)
(* ================================================================== *)

Section Transitions.
Context {P : Platform}.

(** C3.  [completeScrape] and [failScrape] never throw.  On a job that is
    missing, completed or failed each returns with the context exactly as
    it was; otherwise the job found is pending or scraping and the only
    change is the patch of that id.  In the running system every event
    moves the status of a record forward along pending, scraping, then
    completed or failed, and a record that is completed or failed keeps
    its status. *)
Theorem status_transitions_monotonic :
  (forall jobId new ttlMs now message code c,
     match find (hasId jobId) (scrapes c) with
     | Some job => status job = completed \/ status job = failed
     | None => True
     end ->
     completeScrape jobId new ttlMs now c = (c, Return tt) /\
     failScrape jobId message code c = (c, Return tt)) /\
  (forall jobId new ttlMs now c, exists c',
     completeScrape jobId new ttlMs now c = (c', Return tt) /\
     (c' = c \/
      exists job, find (hasId jobId) (scrapes c) = Some job /\
                  (status job = pending \/ status job = scraping) /\
                  c' = setScrapes c (patchTable jobId (completeFields now ttlMs new)
                                                (scrapes c)))) /\
  (forall jobId message code c, exists c',
     failScrape jobId message code c = (c', Return tt) /\
     (c' = c \/
      exists job, find (hasId jobId) (scrapes c) = Some job /\
                  (status job = pending \/ status job = scraping) /\
                  c' = setScrapes c (patchTable jobId (failFields message code)
                                                (scrapes c)))) /\
  (forall w w' j j',
     reachable w -> step w w' ->
     In j (scrapes (ctx w)) -> In j' (scrapes (ctx w')) -> _id j = _id j' ->
     rank (status j) <= rank (status j') /\
     (status j = completed \/ status j = failed -> status j' = status j)).
Proof.
  assert (Act : forall job, isActive job = true ->
                            status job = pending \/ status job = scraping).
  { intros job H. unfold isActive in H. destruct (status job); try discriminate; auto. }
  split; [|split; [|split]].
  - intros jobId new ttlMs now message code c H.
    rewrite completeScrape_run, failScrape_run.
    destruct (find (hasId jobId) (scrapes c)) as [job|]; [|split; reflexivity].
    assert (A : isActive job = false)
      by (unfold isActive; destruct H as [H|H]; rewrite H; reflexivity).
    rewrite A. split; reflexivity.
  - intros jobId new ttlMs now c. rewrite completeScrape_run.
    destruct (find (hasId jobId) (scrapes c)) as [job|] eqn:F; [|eauto].
    destruct (isActive job) eqn:A; [|eauto].
    eexists. split; [reflexivity|]. right. exists job. auto.
  - intros jobId message code c. rewrite failScrape_run.
    destruct (find (hasId jobId) (scrapes c)) as [job|] eqn:F; [|eauto].
    destruct (isActive job) eqn:A; [|eauto].
    eexists. split; [reflexivity|]. right. exists job. auto.
  - intros w w' j j' R St Hj Hj' E.
    pose proof (step_patch w w' j j' R St Hj Hj' E) as Pj. split.
    + apply Patch_rank. exact Pj.
    + intro T. apply (Patch_terminal j j' Pj). unfold isTerminal.
      destruct T as [T|T]; rewrite T; reflexivity.
Qed.

End Transitions.

(** The step of the scenario in which the action ends: the record goes
    from scraping to completed. *)
Lemma status_transitions_monotonic_witness :
  let w := worldAfter 2 in
  let w' := worldAfter 3 in
  exists j j',
    @reachable model_platform w /\ @step model_platform w w' /\
    In j (scrapes (ctx w)) /\ In j' (scrapes (ctx w')) /\ _id j = _id j' /\
    status j = scraping /\ status j' = completed /\
    rank (status j) <= rank (status j').
Proof.
  intros w w'.
  assert (R : @reachable model_platform w).
  { apply (@runEvents_reachable model_platform (firstn 2 scenario) emptyWorld w).
    - apply reachable_start.
    - vm_compute. reflexivity. }
  assert (St : @step model_platform w w').
  { exists 2%Z, (ActionEnds 0 markdownReply ShotThrows). vm_compute. reflexivity. }
  assert (Hj : exists j, In j (scrapes (ctx w)) /\ _id j = 0 /\ status j = scraping).
  { vm_compute. eexists. split; [left; reflexivity | split; reflexivity]. }
  assert (Hj' : exists j', In j' (scrapes (ctx w')) /\ _id j' = 0 /\ status j' = completed).
  { vm_compute. eexists. split; [left; reflexivity | split; reflexivity]. }
  destruct Hj as [j [Hj [Ej Sj]]]. destruct Hj' as [j' [Hj' [Ej' Sj']]].
  exists j, j'.
  assert (E : _id j = _id j') by congruence.
  repeat (split; [assumption|]).
  exact (proj1 (proj2 (proj2 (proj2 (@status_transitions_monotonic model_platform)))
                 w w' j j' R St Hj Hj' E)).
Defined.

(* ================================================================== *)
(** ** What a failure leaves alone *)
(* ================================================================== *)

Lemma Forall2_map_same {A} (R : A -> A -> Prop) (f : A -> A) (l : list A) :
  (forall x, R x (f x)) -> Forall2 R l (map f l).
Proof. intro H. induction l as [|a l IH]; simpl; constructor; auto. Qed.

Lemma sameExceptFailure_refl (j : Job) : sameExceptFailure j j.
Proof. repeat split. Qed.

Lemma Patch_keeps (j j' : Job) :
  Patch j j' -> status j' <> completed ->
  status j <> completed /\
  expiresAt j' = expiresAt j /\ startedAt j' = startedAt j /\ content j' = content j.
Proof.
  intros [j0|now j0 H|now ttl new j0 H E|m code j0 H|j0 H|now j0 H] T; simpl in *;
    try (repeat split; congruence).
  repeat split. unfold isActive in H. intro C. rewrite C in H. discriminate.
Qed.

Section Failure.
Context {P : Platform}.

Lemma steps_reachable (w w' : World) : reachable w -> steps w w' -> reachable w'.
Proof.
  intros R S. induction S as [|w w1 w' _ IH St]; [exact R|].
  eapply reachable_step; [apply IH; exact R | exact St].
Qed.

Lemma steps_nextId (w w' : World) :
  reachable w -> steps w w' -> nextId (ctx w) <= nextId (ctx w').
Proof.
  intros R S. induction S as [|w w1 w' S1 IH [now [e E]]]; [apply Nat.le_refl|].
  pose proof (reachable_Inv w1 (steps_reachable w w1 R S1)) as I1.
  destruct (exec_sound now e w1 w' I1 E) as [_ [Hn _]].
  specialize (IH R). lia.
Qed.

(** Until a record completes, no event touches its [expiresAt], its
    [startedAt] or its content. *)
Lemma expiry_retained (w w' : World) (j j' : Job) :
  reachable w -> steps w w' ->
  In j (scrapes (ctx w)) -> In j' (scrapes (ctx w')) -> _id j = _id j' ->
  status j' <> completed ->
  expiresAt j' = expiresAt j /\ startedAt j' = startedAt j /\ content j' = content j.
Proof.
  intros R S Hj. revert j'.
  induction S as [|w w1 w' S1 IH [now [e E]]]; intros j' Hj' Eid T.
  - rewrite (uniqueIds_eq _ j j' (inv_ids (reachable_Inv w R)) Hj Hj' Eid). auto.
  - pose proof (reachable_Inv w1 (steps_reachable w w1 R S1)) as I1.
    destruct (exec_sound now e w1 w' I1 E) as [_ [_ Ef]].
    destruct (Ef j' Hj') as [[k [Hk Pk]]|[_ Fresh]].
    + destruct (Patch_keeps k j' Pk T) as [Tk [Ee [Es Ec]]].
      assert (Ek : _id j = _id k) by (rewrite Eid; apply Patch_id; exact Pk).
      destruct (IH R Hj k Hk Ek Tk) as [Ee' [Es' Ec']].
      repeat split; congruence.
    + exfalso. pose proof (steps_nextId w w1 R S1).
      pose proof (inv_bound (reachable_Inv w R) j Hj). lia.
Qed.

Lemma markStuckJobsFailed_any (now : Z) (c : Ctx) :
  exists stuckJobs,
    markStuckJobsFailed now c =
      (setScrapes c (map (fun j => if idIn j stuckJobs then timeoutFields j else j)
                         (scrapes c)),
       Return (List.length stuckJobs)).
Proof.
  unfold markStuckJobsFailed, bind, by_status_scraping_lt. eexists.
  apply markFailedLoop_run.
  intros j Hj. apply filter_In in Hj. apply hasId_member. apply in_rev. exact (proj1 Hj).
Qed.

(** C10.  [failScrape] and the patch of the stuck-job sweep change
    nothing but [status], [error] and (for [failScrape]) [errorCode]: every
    other field of every record, [expiresAt], the content and the
    timestamps among them, is as before.  The record [startScrape] inserts
    at [now] has [startedAt = now] and [expiresAt = now + ttl], the
    requested [ttlMs] or the default.  In the running system a record that
    has not completed has, after any number of events, the [expiresAt],
    [startedAt] and content it had; and the expiry sweep keeps every record
    whose [expiresAt] is not before the sweep's [now]. *)
Theorem failure_keeps_expiry :
  (forall jobId message code c, exists c',
     failScrape jobId message code c = (c', Return tt) /\
     sameButTable c c' /\
     Forall2 sameExceptFailure (scrapes c) (scrapes c')) /\
  (forall now c, exists c' n,
     markStuckJobsFailed now c = (c', Return n) /\
     sameButTable c c' /\
     Forall2 (fun j j' => sameExceptFailure j j' /\ errorCode j' = errorCode j)
             (scrapes c) (scrapes c')) /\
  (forall u apiKey options now c c' id,
     startScrape u apiKey options now c = (c', Return id) ->
     (forall j, In j (scrapes c) -> _id j <> id) ->
     exists job,
       In job (scrapes c') /\ _id job = id /\ status job = pending /\
       startedAt job = now /\
       expiresAt job = (now + orElse (opt_ttlMs options) CONFIG.DEFAULT_TTL_MS)%Z) /\
  (forall w w' j j',
     reachable w -> steps w w' ->
     In j (scrapes (ctx w)) -> In j' (scrapes (ctx w')) -> _id j = _id j' ->
     status j' = failed ->
     expiresAt j' = expiresAt j /\ startedAt j' = startedAt j /\ content j' = content j) /\
  (forall now c j,
     uniqueIds (scrapes c) -> In j (scrapes c) -> (now <= expiresAt j)%Z ->
     In j (scrapes (fst (cleanupExpired now c)))).
Proof.
  split; [|split; [|split; [|split]]].
  - intros jobId message code c. rewrite failScrape_run.
    destruct (find (hasId jobId) (scrapes c)) as [job|].
    + destruct (isActive job).
      * eexists. split; [reflexivity|]. split; [repeat split|]. simpl.
        apply Forall2_map_same. intro j. destruct (hasId jobId j); repeat split.
      * exists c. split; [reflexivity|]. split; [repeat split|].
        rewrite <- (map_id (scrapes c)) at 2. apply Forall2_map_same.
        intro j. repeat split.
    + exists c. split; [reflexivity|]. split; [repeat split|].
      rewrite <- (map_id (scrapes c)) at 2. apply Forall2_map_same.
      intro j. repeat split.
  - intros now c. destruct (markStuckJobsFailed_any now c) as [stuckJobs R].
    eexists _, _. split; [exact R|]. split; [repeat split|]. simpl.
    apply Forall2_map_same. intro j. destruct (idIn j stuckJobs); repeat split.
  - intros u apiKey options now c c' id R Fresh.
    rewrite startScrape_run in R.
    destruct (validateUrl u); [|discriminate].
    destruct (normalizeUrl u) as [normalized|]; [|discriminate].
    cbv zeta in R.
    destruct ((if orElse (opt_force options) false then forceDelete (hashUrl normalized)
               else ret tt) c) as [c1 [[]|e]] eqn:H4; [|discriminate].
    destruct (find isActive _) in R; [discriminate|].
    destruct (orElse (opt_force options) false) eqn:Force.
    + inversion R; subst c' id. eexists. split; [left; reflexivity|]. repeat split.
    + inversion H4; subst c1.
      destruct (find (cacheHit now _) _) as [job|] eqn:Fc in R.
      * inversion R; subst c' id. exfalso. apply find_some in Fc.
        destruct Fc as [Hin _]. apply firstn_member in Hin. apply filter_In in Hin.
        exact (Fresh job (proj1 Hin) eq_refl).
      * inversion R; subst c' id. eexists. split; [left; reflexivity|]. repeat split.
  - intros w w' j j' R S Hj Hj' E T.
    apply (expiry_retained w w' j j' R S Hj Hj' E). congruence.
  - intros now c j N Hj Hlate.
    destruct (cleanupExpired_run now c N) as [c' [m [R [S [Hdel _]]]]].
    rewrite R. simpl. rewrite S. apply filter_In. split; [exact Hj|].
    apply negb_true_iff. apply not_true_is_false. intro E.
    apply (Hdel j Hj) in E. destruct E as [Hb _].
    apply (expiredBatch_member now) in Hb. lia.
Qed.

End Failure.

Lemma runEvents_steps {P : Platform} (events : list (Z * Event)) (w w' : World) :
  runEvents events w = Some w' -> steps w w'.
Proof.
  assert (G : forall w0, steps w0 w -> runEvents events w = Some w' -> steps w0 w').
  { revert w. induction events as [|[now e] rest IH]; intros w w0 S H; simpl in H.
    - inversion H; subst. exact S.
    - destruct (exec now e w) as [w1|] eqn:E; [|discriminate].
      apply (IH w1); [|exact H]. eapply steps_more; [exact S|]. exists now, e. exact E. }
  apply G. apply steps_none.
Qed.

(** The failing scenario: created at 0 with a ttl of 1000, failed at 2,
    the record still expires at 1000; a sweep at 1000 keeps it. *)
Lemma failure_keeps_expiry_witness :
  let w := failingWorldAfter 1 in
  let w' := failingWorldAfter 3 in
  exists j j',
    @reachable model_platform w /\ @steps model_platform w w' /\
    In j (scrapes (ctx w)) /\ In j' (scrapes (ctx w')) /\ _id j = _id j' /\
    status j' = failed /\ expiresAt j = 1000%Z /\
    expiresAt j' = 1000%Z /\
    uniqueIds (scrapes (ctx w')) /\
    In j' (scrapes (fst (cleanupExpired 1000 (ctx w')))).
Proof.
  intros w w'.
  assert (R : @reachable model_platform w).
  { apply (@runEvents_reachable model_platform (firstn 1 failingScenario) emptyWorld w).
    - apply reachable_start.
    - vm_compute. reflexivity. }
  assert (S : @steps model_platform w w').
  { apply (@runEvents_steps model_platform (skipn 1 failingScenario)).
    vm_compute. reflexivity. }
  assert (Hj : exists j, In j (scrapes (ctx w)) /\ _id j = 0 /\ expiresAt j = 1000%Z).
  { vm_compute. eexists. split; [left; reflexivity | split; reflexivity]. }
  assert (Hj' : exists j', In j' (scrapes (ctx w')) /\ _id j' = 0 /\ status j' = failed).
  { vm_compute. eexists. split; [left; reflexivity | split; reflexivity]. }
  assert (N : uniqueIds (scrapes (ctx w'))).
  { vm_compute. repeat constructor. simpl. tauto. }
  destruct Hj as [j [Hj [Ej Xj]]]. destruct Hj' as [j' [Hj' [Ej' Sj']]].
  exists j, j'.
  assert (E : _id j = _id j') by congruence.
  destruct (@failure_keeps_expiry model_platform) as [_ [_ [_ [Keep Sweep]]]].
  destruct (Keep w w' j j' R S Hj Hj' E Sj') as [Ee _].
  split; [exact R|].
  split; [exact S|].
  split; [exact Hj|].
  split; [exact Hj'|].
  split; [exact E|].
  split; [exact Sj'|].
  split; [exact Xj|].
  split; [rewrite Ee; exact Xj|].
  split; [exact N|].
  apply (Sweep 1000%Z (ctx w') j' N Hj'). rewrite Ee, Xj. apply Z.le_refl.
Defined.

(** The sweep at 100 over [sweepTable]: the failed and the completed
    record that have expired go, with the one file; the pending record
    and the record expiring at 100 stay. *)
Lemma cleanupExpired_terminal_only_witness :
  uniqueIds (scrapes sweepCtx) /\
  exists c',
    cleanupExpired 100 sweepCtx = (c', Return (2, 1)) /\
    map _id (scrapes c') = [3; 1] /\
    files (storage c') = [].
Proof.
  assert (N : uniqueIds (scrapes sweepCtx)).
  { unfold uniqueIds. simpl. repeat constructor; simpl; intuition discriminate. }
  split; [exact N|].
  destruct (cleanupExpired_terminal_only 100 sweepCtx N)
    as [c' [n [m [R _]]]].
  exists c'.
  assert (E : cleanupExpired 100 sweepCtx =
              (mkCtx [ sampleJob 3 completed ["markdown"] 0 (Some 1%Z) 100;
                       sampleJob 1 pending ["markdown"] 0 None 10 ]
                     4 (mkStorage [] 8) [], Return (2, 1)))
    by (vm_compute; reflexivity).
  rewrite E in R. inversion R. subst c' n m.
  split; [exact E | split; reflexivity].
Defined.

(* ================================================================== *)
(** ** The cache *)
(* ================================================================== *)

Lemma formatsSatisfied_spec (cached requested : list string) :
  formatsSatisfied cached requested = true <-> forall f, In f requested -> In f cached.
Proof.
  unfold formatsSatisfied. rewrite forallb_forall. split; intros H f Hf.
  - specialize (H f Hf). apply existsb_exists in H. destruct H as [g [Hg E]].
    apply String.eqb_eq in E. subst g. exact Hg.
  - apply existsb_exists. exists f. split; [apply H; exact Hf | apply String.eqb_refl].
Qed.

Lemma cacheHit_spec (now : Z) (requested : list string) (j : Job) :
  cacheHit now requested j = true <->
  status j = completed /\ (now < expiresAt j)%Z /\
  forall f, In f requested -> In f (formats j).
Proof.
  unfold cacheHit. rewrite !andb_true_iff, Status_eqb_eq, Z.ltb_lt, formatsSatisfied_spec.
  tauto.
Qed.

Section Cache.
Context {P : Platform}.

Lemma getCached_run (u normalized : string) (requested : option (list string))
      (now : Z) (c : Ctx) :
  validateUrl u = valid -> normalizeUrl u = Some normalized ->
  getCached u requested now c =
  (c, Return (find (cacheHit now (orElse requested ["markdown"]))
                   (firstn 10 (filter (fun j => (urlHash j =? hashUrl normalized)%string)
                                      (scrapes c))))).
Proof. intros V Hn. unfold getCached. rewrite V, Hn. reflexivity. Qed.

(** C4, amended.  [getCached] returns nothing for a URL that fails
    validation.  For a valid URL it returns the newest of the ten newest
    records of the hash that is completed, not expired at [now], and whose
    formats contain every requested format (["markdown"] by default); it
    returns a record exactly when there is such a record.  [startScrape]
    without [force] returns the id of that same record, leaving the
    context as it was, provided that none of the records loaded is pending
    or scraping. *)
Theorem cache_hit_superset (u : string) (requested : option (list string))
        (now : Z) (c : Ctx) :
  (forall error, validateUrl u = invalid error ->
                 getCached u requested now c = (c, Return None)) /\
  (forall normalized,
     validateUrl u = valid -> normalizeUrl u = Some normalized ->
     let loaded := firstn 10 (filter (fun j => (urlHash j =? hashUrl normalized)%string)
                                     (scrapes c)) in
     let wanted := orElse requested ["markdown"] in
     (exists found, getCached u requested now c = (c, Return found) /\
                    found = find (cacheHit now wanted) loaded) /\
     (forall job, getCached u requested now c = (c, Return (Some job)) ->
                  In job loaded /\ status job = completed /\ (now < expiresAt job)%Z /\
                  forall f, In f wanted -> In f (formats job)) /\
     ((exists j, In j loaded /\ status j = completed /\ (now < expiresAt j)%Z /\
                 forall f, In f wanted -> In f (formats j)) <->
      (exists job, getCached u requested now c = (c, Return (Some job)))) /\
     (forall apiKey options job,
        opt_formats options = requested ->
        orElse (opt_force options) false = false ->
        (forall k, In k loaded -> status k <> pending /\ status k <> scraping) ->
        getCached u requested now c = (c, Return (Some job)) ->
        startScrape u apiKey options now c = (c, Return (_id job)))).
Proof.
  split.
  - intros error V. unfold getCached. rewrite V. reflexivity.
  - intros normalized V Hn loaded wanted.
    pose proof (getCached_run u normalized requested now c V Hn) as G.
    fold loaded in G. fold wanted in G.
    split; [eauto | split; [|split]].
    + intros job H. rewrite G in H. inversion H as [F]. apply find_some in F.
      destruct F as [Hin Hit]. apply cacheHit_spec in Hit. tauto.
    + split.
      * intros [j [Hin Hj]]. destruct (existsb_find_some (cacheHit now wanted) loaded)
          as [job F].
        { apply existsb_exists. exists j. split; [exact Hin | apply cacheHit_spec; exact Hj]. }
        exists job. rewrite G, F. reflexivity.
      * intros [job H]. rewrite G in H. inversion H as [F]. apply find_some in F.
        destruct F as [Hin Hit]. apply cacheHit_spec in Hit. exists job. tauto.
    + intros apiKey options job Hf Hforce Hnone H.
      rewrite G in H. inversion H as [F].
      rewrite startScrape_run, V, Hn. cbv zeta. rewrite Hforce. unfold ret.
      fold loaded. rewrite Hf. fold wanted.
      rewrite (find_all_false isActive loaded).
      * rewrite F. reflexivity.
      * intros k Hk. destruct (Hnone k Hk) as [Np Ns]. unfold isActive.
        destruct (status k); try reflexivity; contradiction.
Qed.

End Cache.

(** Without the premise on active jobs the equivalence of the two
    lookups fails in world 4 of the scenario, which the system
    reaches: the completed markdown record 0 is a cache hit for
    [getCached], and [startScrape] for markdown, without [force], does
    not return it but throws the conflict with the pending html job 1. *)
Lemma cache_hit_superset_counterexample :
  let w := worldAfter 4 in
  @reachable model_platform w /\
  (exists job, _id job = 0 /\
     @getCached model_platform sampleUrl None 5 (ctx w) = (ctx w, Return (Some job))) /\
  @startScrape model_platform sampleUrl "key" noOptions 5 (ctx w) =
    (ctx w, Throw "Scrape already in progress for this URL. Job ID: 1").
Proof.
  intro w. split; [|split].
  - apply (@runEvents_reachable model_platform (firstn 4 scenario) emptyWorld w).
    + apply reachable_start.
    + vm_compute. reflexivity.
  - vm_compute. eexists. split; [|reflexivity]. reflexivity.
  - vm_compute. reflexivity.
Qed.

(** World 3 of the scenario: the completed markdown record is returned
    by [getCached] and, nothing being in progress, by [startScrape]. *)
Lemma cache_hit_superset_witness :
  let w := worldAfter 3 in
  exists job,
    @validateUrl model_platform sampleUrl = valid /\
    @normalizeUrl model_platform sampleUrl = Some sampleUrl /\
    _id job = 0 /\
    @getCached model_platform sampleUrl None 5 (ctx w) = (ctx w, Return (Some job)) /\
    @startScrape model_platform sampleUrl "key" noOptions 5 (ctx w) = (ctx w, Return 0).
Proof.
  intro w.
  assert (V : @validateUrl model_platform sampleUrl = valid) by (vm_compute; reflexivity).
  assert (Hn : @normalizeUrl model_platform sampleUrl = Some sampleUrl)
    by (vm_compute; reflexivity).
  assert (G : exists job, _id job = 0 /\
              @getCached model_platform sampleUrl None 5 (ctx w) = (ctx w, Return (Some job))).
  { vm_compute. eexists. split; [|reflexivity]. reflexivity. }
  destruct G as [job [Eid G]]. exists job.
  split; [exact V | split; [exact Hn | split; [exact Eid | split; [exact G|]]]].
  rewrite <- Eid.
  apply (proj2 (proj2 (proj2 (proj2 (@cache_hit_superset model_platform sampleUrl None 5%Z (ctx w))
                                sampleUrl V Hn))) "key" noOptions job eq_refl eq_refl);
    [|exact G].
  vm_compute. intros k [E|[]]. subst k. split; discriminate.
Defined.

(* ================================================================== *)
(** ** Normalization is applied once *)
(* ================================================================== *)

Section Normalization.
Context {P : Platform}.

(** C5, at the input [https://example.com/a//].  On any platform that
    parses this URL to the path [/a//] and the URL [https://example.com/a/]
    to the path [/a/] (neither has a port or a query), [normalizeUrl]
    strips one of the two slashes, and applied to its own result strips the
    other: the first result is not a fixed point. *)
Theorem normalizeUrl_strips_one_slash :
  URL_parse "https://example.com/a//"
    = Some (mkURL "https:" "example.com" EmptyString "/a//" EmptyString) ->
  URL_parse "https://example.com/a/"
    = Some (mkURL "https:" "example.com" EmptyString "/a/" EmptyString) ->
  URLSearchParams_parse EmptyString = [] ->
  URLSearchParams_toString [] = EmptyString ->
  normalizeUrl "https://example.com/a//" = Some "https://example.com/a/" /\
  normalizeUrl "https://example.com/a/" = Some "https://example.com/a" /\
  exists once twice,
    normalizeUrl "https://example.com/a//" = Some once /\
    normalizeUrl once = Some twice /\
    once <> twice.
Proof.
  intros Parse2 Parse1 NoParams NoQuery.
  assert (E2 : normalizeUrl "https://example.com/a//" = Some "https://example.com/a/").
  { unfold normalizeUrl. rewrite Parse2. cbn [protocol hostname port pathname search].
    rewrite NoParams. cbn [map filter JS.sort fold_right fold_left].
    rewrite NoQuery. reflexivity. }
  assert (E1 : normalizeUrl "https://example.com/a/" = Some "https://example.com/a").
  { unfold normalizeUrl. rewrite Parse1. cbn [protocol hostname port pathname search].
    rewrite NoParams. cbn [map filter JS.sort fold_right fold_left].
    rewrite NoQuery. reflexivity. }
  split; [exact E2 | split; [exact E1 |]].
  exists "https://example.com/a/", "https://example.com/a".
  split; [exact E2 | split; [exact E1 | discriminate]].
Qed.

End Normalization.

(** The model platform parses the two URLs as assumed. *)
Lemma normalizeUrl_strips_one_slash_witness :
  @URL_parse model_platform "https://example.com/a//"
    = Some (mkURL "https:" "example.com" EmptyString "/a//" EmptyString) /\
  @URL_parse model_platform "https://example.com/a/"
    = Some (mkURL "https:" "example.com" EmptyString "/a/" EmptyString) /\
  @URLSearchParams_parse model_platform EmptyString = [] /\
  @URLSearchParams_toString model_platform [] = EmptyString /\
  @normalizeUrl model_platform "https://example.com/a//" = Some "https://example.com/a/" /\
  @normalizeUrl model_platform "https://example.com/a/" = Some "https://example.com/a".
Proof.
  assert (H2 : @URL_parse model_platform "https://example.com/a//"
               = Some (mkURL "https:" "example.com" EmptyString "/a//" EmptyString))
    by (vm_compute; reflexivity).
  assert (H1 : @URL_parse model_platform "https://example.com/a/"
               = Some (mkURL "https:" "example.com" EmptyString "/a/" EmptyString))
    by (vm_compute; reflexivity).
  assert (H3 : @URLSearchParams_parse model_platform EmptyString = [])
    by (vm_compute; reflexivity).
  assert (H4 : @URLSearchParams_toString model_platform [] = EmptyString)
    by (vm_compute; reflexivity).
  destruct (@normalizeUrl_strips_one_slash model_platform H2 H1 H3 H4) as [E2 [E1 _]].
  split; [exact H2 | split; [exact H1 | split; [exact H3 | split; [exact H4 |
    split; [exact E2 | exact E1]]]]].
Defined.

(* ================================================================== *)
(** ** Inline or offloaded *)
(* ================================================================== *)




Section Offload.
Context {P : Platform}.




End Offload.




(* ================================================================== *)
(** * Further properties *)
(* ================================================================== *)

(** ** Strings, again *)

Lemma append_empty (s : string) : (s ++ EmptyString)%string = s.
Proof. induction s as [|c s IH]; simpl; [reflexivity | rewrite IH; reflexivity]. Qed.

Lemma append_assoc (a b c : string) : ((a ++ b) ++ c)%string = (a ++ b ++ c)%string.
Proof. induction a as [|x a IH]; simpl; [reflexivity | rewrite IH; reflexivity]. Qed.

Lemma length_append (a b : string) : length (a ++ b)%string = length a + length b.
Proof. induction a as [|x a IH]; simpl; [reflexivity | rewrite IH; reflexivity]. Qed.

Lemma substring_whole (s : string) : substring 0 (length s) s = s.
Proof. induction s as [|c s IH]; simpl; [reflexivity | rewrite IH; reflexivity]. Qed.

Lemma substring_skip (p s : string) (m : nat) :
  substring (length p) m (p ++ s)%string = substring 0 m s.
Proof. induction p as [|c p IH]; simpl; [reflexivity | exact IH]. Qed.

Lemma substring_split (s : string) (n m : nat) :
  n + m = length s -> s = (substring 0 n s ++ substring n m s)%string.
Proof.
  revert n m. induction s as [|c s IH]; intros n m H; simpl in *.
  - destruct n; destruct m; simpl; try reflexivity; discriminate.
  - destruct n as [|n]; simpl.
    + destruct m as [|m]; [discriminate|]. injection H as H.
      subst m. rewrite substring_whole. reflexivity.
    + f_equal. apply IH. lia.
Qed.

(** [endsWith] says what it should. *)
Lemma endsWith_spec (s suffix : string) :
  JS.endsWith s suffix = true <-> exists p, s = (p ++ suffix)%string.
Proof.
  unfold JS.endsWith. split.
  - intro H. apply andb_true_iff in H. destruct H as [Hlen Heq].
    apply Nat.leb_le in Hlen. apply String.eqb_eq in Heq.
    exists (substring 0 (length s - length suffix) s).
    pose proof (substring_split s (length s - length suffix) (length suffix)) as Hs.
    rewrite Heq in Hs. apply Hs. lia.
  - intros [p ->]. rewrite length_append.
    replace (length p + length suffix - length suffix) with (length p) by lia.
    rewrite substring_skip, substring_whole, String.eqb_refl.
    rewrite andb_true_r. apply Nat.leb_le. lia.
Qed.

Lemma list_of_append (a b : string) :
  list_ascii_of_string (a ++ b)%string = list_ascii_of_string a ++ list_ascii_of_string b.
Proof. induction a as [|c a IH]; simpl; [reflexivity | rewrite IH; reflexivity]. Qed.

Lemma last_of_append {A} (l1 l2 : list A) (d : A) :
  l2 <> [] -> last (l1 ++ l2) d = last l2 d.
Proof.
  intro H. induction l1 as [|x l1 IH]; [reflexivity|].
  simpl. destruct (l1 ++ l2) eqn:E.
  - destruct l1; destruct l2; simpl in E; try discriminate. contradiction.
  - exact IH.
Qed.

(** The last code unit of a string, [" "] for the empty one. *)
Lemma lastChar_append (a b : string) :
  b <> EmptyString ->
  last (list_ascii_of_string (a ++ b)%string) " "%char = last (list_ascii_of_string b) " "%char.
Proof.
  intro H. rewrite list_of_append. apply last_of_append.
  destruct b; [contradiction | discriminate].
Qed.

Lemma toLowerCase_append (a b : string) :
  JS.toLowerCase (a ++ b)%string = (JS.toLowerCase a ++ JS.toLowerCase b)%string.
Proof. induction a as [|c a IH]; simpl; [reflexivity | rewrite IH; reflexivity]. Qed.

Lemma lowerChar_twice (c : ascii) : JS.lowerChar (JS.lowerChar c) = JS.lowerChar c.
Proof.
  destruct c as [[] [] [] [] [] [] [] []]; vm_compute; reflexivity.
Qed.

Lemma toLowerCase_twice (s : string) : JS.toLowerCase (JS.toLowerCase s) = JS.toLowerCase s.
Proof.
  induction s as [|c s IH]; simpl; [reflexivity | rewrite lowerChar_twice, IH; reflexivity].
Qed.

Lemma append_inj_r (a b c : string) : (a ++ c)%string = (b ++ c)%string -> a = b.
Proof.
  intro H. apply (f_equal list_ascii_of_string) in H.
  rewrite !list_of_append in H. apply app_inv_tail in H.
  rewrite <- (string_of_list_ascii_of_string a), <- (string_of_list_ascii_of_string b), H.
  reflexivity.
Qed.

Lemma eqb_append_r (a b c : string) : ((a ++ c) =? (b ++ c))%string = (a =? b)%string.
Proof.
  destruct (String.eqb_spec a b) as [->|N].
  - apply String.eqb_refl.
  - apply String.eqb_neq. intro H. apply N. exact (append_inj_r _ _ _ H).
Qed.

(** ** Patterns *)

Lemma void_nullable (r : Regex.re) : void r = true -> Regex.nullable r = false.
Proof.
  induction r as [| |p|r1 IH1 r2 IH2|r1 IH1 r2 IH2|r IH]; simpl; intro H;
    try discriminate; try reflexivity.
  - apply orb_true_iff in H. destruct H as [H|H].
    + rewrite (IH1 H). reflexivity.
    + rewrite (IH2 H). apply andb_false_r.
  - apply andb_true_iff in H. destruct H as [H1 H2].
    rewrite (IH1 H1), (IH2 H2). reflexivity.
Qed.

Lemma void_deriv (c : ascii) (r : Regex.re) : void r = true -> void (Regex.deriv c r) = true.
Proof.
  induction r as [| |p|r1 IH1 r2 IH2|r1 IH1 r2 IH2|r IH]; simpl; intro H;
    try discriminate; try reflexivity.
  - apply orb_true_iff in H. destruct H as [H|H].
    + rewrite (void_nullable _ H). simpl. rewrite (IH1 H). reflexivity.
    + destruct (Regex.nullable r1); simpl; rewrite ?H, ?(IH2 H), ?orb_true_r; reflexivity.
  - apply andb_true_iff in H. destruct H as [H1 H2].
    rewrite (IH1 H1), (IH2 H2). reflexivity.
Qed.

Lemma void_matches (r : Regex.re) (s : string) : void r = true -> Regex.matches r s = false.
Proof.
  revert r. induction s as [|c s IH]; intros r H; simpl.
  - apply void_nullable. exact H.
  - apply IH. apply void_deriv. exact H.
Qed.

Lemma matches_derivs (r : Regex.re) (s t : string) :
  Regex.matches r (s ++ t)%string = Regex.matches (derivs r s) t.
Proof.
  revert r. induction s as [|c s IH]; intro r; simpl; [reflexivity | apply IH].
Qed.

Lemma matches_Alt (a b : Regex.re) (s : string) :
  Regex.matches (Regex.Alt a b) s = Regex.matches a s || Regex.matches b s.
Proof.
  revert a b. induction s as [|c s IH]; intros a b; simpl; [reflexivity | apply IH].
Qed.

Lemma matches_Cat_nullable (r1 r2 : Regex.re) (s : string) :
  Regex.nullable r1 = true -> Regex.matches r2 s = true ->
  Regex.matches (Regex.Cat r1 r2) s = true.
Proof.
  intros N H. destruct s as [|c s]; simpl in *.
  - rewrite N, H. reflexivity.
  - rewrite N, matches_Alt, H. apply orb_true_r.
Qed.

Lemma matches_Cat_app (r1 r2 : Regex.re) (s1 s2 : string) :
  Regex.matches r1 s1 = true -> Regex.matches r2 s2 = true ->
  Regex.matches (Regex.Cat r1 r2) (s1 ++ s2)%string = true.
Proof.
  revert r1. induction s1 as [|c s1 IH]; intros r1 H1 H2; simpl in *.
  - apply matches_Cat_nullable; assumption.
  - destruct (Regex.nullable r1).
    + rewrite matches_Alt, (IH _ H1 H2). reflexivity.
    + apply IH; assumption.
Qed.

Lemma matches_Cat_Eps (r : Regex.re) (s : string) :
  Regex.matches (Regex.Cat Regex.Eps r) s = Regex.matches r s.
Proof.
  destruct s as [|c s]; simpl; [reflexivity|].
  rewrite matches_Alt. rewrite (void_matches (Regex.Cat Regex.Never r)); reflexivity.
Qed.

(** A literal matches itself and nothing else. *)
Lemma matches_lit (s t : string) : Regex.matches (Regex.lit s) t = (t =? s)%string.
Proof.
  revert t. induction s as [|c s IH]; intro t; simpl.
  - destruct t as [|d t]; simpl; [reflexivity|]. apply void_matches. reflexivity.
  - destruct t as [|d t]; simpl; [reflexivity|].
    rewrite (Ascii.eqb_sym d c).
    destruct (Ascii.eqb c d).
    + rewrite matches_Cat_Eps. apply IH.
    + apply void_matches. reflexivity.
Qed.

Lemma existsb_matches_cons (c : ascii) (s : string) (rs : list Regex.re) :
  existsb (fun p => Regex.matches p (String c s)) rs =
  existsb (fun p => Regex.matches p s) (map (Regex.deriv c) rs).
Proof. induction rs as [|r rs IH]; simpl; [reflexivity | f_equal; exact IH]. Qed.

Lemma existsb_matches_live (s : string) (rs : list Regex.re) :
  existsb (fun p => Regex.matches p s) rs =
  existsb (fun p => Regex.matches p s) (filter (fun r => negb (void r)) rs).
Proof.
  induction rs as [|r rs IH]; simpl; [reflexivity|].
  destruct (void r) eqn:V; simpl.
  - rewrite (void_matches _ _ V). exact IH.
  - rewrite IH. reflexivity.
Qed.

Lemma existsb_matches_prefix (s t : string) (rs : list Regex.re) :
  forallb (fun p => void (derivs p s)) rs = true ->
  existsb (fun p => Regex.matches p (s ++ t)%string) rs = false.
Proof.
  induction rs as [|r rs IH]; simpl; intro H; [reflexivity|].
  apply andb_true_iff in H. destruct H as [H1 H2].
  rewrite matches_derivs, (void_matches _ _ H1), (IH H2). reflexivity.
Qed.

(** ** Bracketed hosts *)

Lemma bracket_patterns :
  filter (fun r => negb (void r)) (map (Regex.deriv "[") PRIVATE_IP_PATTERNS) =
  [ Regex.Cat Regex.Eps (Regex.lit "::1]"); Regex.Cat Regex.Eps (Regex.lit "::]") ].
Proof. vm_compute. reflexivity. Qed.

Lemma bracketed_private (body : string) :
  existsb (fun pattern => Regex.matches pattern ("[" ++ body ++ "]")%string) PRIVATE_IP_PATTERNS =
  (body =? "::1")%string || (body =? "::")%string.
Proof.
  change ("[" ++ body ++ "]")%string with (String "[" (body ++ "]")).
  rewrite existsb_matches_cons, existsb_matches_live, bracket_patterns.
  cbn [existsb]. rewrite !matches_Cat_Eps, !matches_lit, orb_false_r.
  change "::1]" with ("::1" ++ "]")%string. change "::]" with ("::" ++ "]")%string.
  rewrite !eqb_append_r. reflexivity.
Qed.

Lemma bracketed_suffix (body suffix : string) :
  In suffix BLOCKED_HOSTNAME_SUFFIXES ->
  JS.endsWith ("[" ++ body ++ "]")%string suffix = false.
Proof.
  intro Hin. destruct (JS.endsWith _ suffix) eqn:E; [|reflexivity].
  apply endsWith_spec in E. destruct E as [p E].
  apply (f_equal (fun s => last (list_ascii_of_string s) " "%char)) in E.
  change ("[" ++ body ++ "]")%string with (("[" ++ body) ++ "]")%string in E.
  rewrite (lastChar_append ("[" ++ body) "]") in E by discriminate.
  simpl in Hin. destruct Hin as [<-|[<-|[<-|[]]]];
    rewrite lastChar_append in E by discriminate; vm_compute in E; discriminate.
Qed.

Section Hosts.
Context {P : Platform}.

Lemma validateUrl_run (u : string) (parsed : URL) :
  length u <= CONFIG.MAX_URL_LENGTH ->
  URL_parse u = Some parsed ->
  protocol parsed = "http:" \/ protocol parsed = "https:" ->
  validateUrl u =
    let host := JS.toLowerCase (hostname parsed) in
    if existsb (fun pattern => Regex.matches pattern host) PRIVATE_IP_PATTERNS
    then invalid (private_ip host)
    else if existsb (fun suffix => JS.endsWith host suffix) BLOCKED_HOSTNAME_SUFFIXES
         then invalid (blocked_hostname host)
         else valid.
Proof.
  intros Hlen Hparse Hscheme. unfold validateUrl.
  replace (CONFIG.MAX_URL_LENGTH <? length u) with false
    by (symmetry; apply Nat.ltb_ge; exact Hlen).
  rewrite Hparse.
  replace (negb (protocol parsed =? "http:")%string && negb (protocol parsed =? "https:")%string)
    with false; [reflexivity|].
  destruct Hscheme as [-> | ->]; reflexivity.
Qed.

(** X1.  A bracketed host, the form in which the URL parser gives an IPv6
    literal, is refused only when it is [[::1]] or [[::]]: the patterns for
    fe80:, fc00: and fdxx: are anchored at a first character that is never
    the bracket, so every other IPv6 literal validates, link-local and
    unique-local addresses included. *)
Theorem validateUrl_bracketed_host (u : string) (parsed : URL) (body : string) :
  length u <= CONFIG.MAX_URL_LENGTH ->
  URL_parse u = Some parsed ->
  protocol parsed = "http:" \/ protocol parsed = "https:" ->
  hostname parsed = ("[" ++ body ++ "]")%string ->
  validateUrl u =
    if (JS.toLowerCase body =? "::1")%string || (JS.toLowerCase body =? "::")%string
    then invalid (private_ip ("[" ++ JS.toLowerCase body ++ "]")%string)
    else valid.
Proof.
  intros Hlen Hparse Hscheme Hhost.
  rewrite (validateUrl_run u parsed Hlen Hparse Hscheme). cbv zeta.
  rewrite Hhost.
  replace (JS.toLowerCase ("[" ++ body ++ "]")%string)
    with ("[" ++ JS.toLowerCase body ++ "]")%string
    by (rewrite !toLowerCase_append; reflexivity).
  rewrite bracketed_private.
  destruct ((JS.toLowerCase body =? "::1")%string || (JS.toLowerCase body =? "::")%string);
    [reflexivity|].
  replace (existsb _ BLOCKED_HOSTNAME_SUFFIXES) with false; [reflexivity|].
  symmetry. cbn [existsb BLOCKED_HOSTNAME_SUFFIXES].
  rewrite !bracketed_suffix by (simpl; tauto). reflexivity.
Qed.

End Hosts.

Lemma validateUrl_bracketed_host_witness :
  @validateUrl model_platform "http://[fe80::1]:8080/admin" = valid /\
  @validateUrl model_platform "http://[fd12:3456::1]/" = valid.
Proof.
  assert (L1 : length "http://[fe80::1]:8080/admin" <= CONFIG.MAX_URL_LENGTH)
    by (apply Nat.leb_le; vm_compute; reflexivity).
  assert (P1 : @URL_parse model_platform "http://[fe80::1]:8080/admin" =
               Some (mkURL "http:" "[fe80::1]" "8080" "/admin" EmptyString))
    by (vm_compute; reflexivity).
  assert (L2 : length "http://[fd12:3456::1]/" <= CONFIG.MAX_URL_LENGTH)
    by (apply Nat.leb_le; vm_compute; reflexivity).
  assert (P2 : @URL_parse model_platform "http://[fd12:3456::1]/" =
               Some (mkURL "http:" "[fd12:3456::1]" EmptyString "/" EmptyString))
    by (vm_compute; reflexivity).
  split.
  - rewrite (@validateUrl_bracketed_host model_platform _ _ "fe80::1" L1 P1
               (or_introl eq_refl) eq_refl).
    vm_compute. reflexivity.
  - rewrite (@validateUrl_bracketed_host model_platform _ _ "fd12:3456::1" L2 P2
               (or_introl eq_refl) eq_refl).
    vm_compute. reflexivity.
Defined.

(** ** Dotted-decimal hosts *)

Lemma octet_facts (n : nat) :
  n <= 255 ->
  Regex.matches Regex.digits13 (JS.showNat n) = true /\
  JS.toLowerCase (JS.showNat n) = JS.showNat n /\
  JS.showNat n <> EmptyString /\
  last (list_ascii_of_string (JS.showNat n)) " "%char <> "l"%char /\
  last (list_ascii_of_string (JS.showNat n)) " "%char <> "t"%char.
Proof.
  intro H.
  assert (F : forallb (fun n =>
                Regex.matches Regex.digits13 (JS.showNat n) &&
                (JS.toLowerCase (JS.showNat n) =? JS.showNat n)%string &&
                negb (JS.showNat n =? EmptyString)%string &&
                negb (Ascii.eqb (last (list_ascii_of_string (JS.showNat n)) " "%char) "l") &&
                negb (Ascii.eqb (last (list_ascii_of_string (JS.showNat n)) " "%char) "t"))
              (seq 0 256) = true) by (vm_compute; reflexivity).
  rewrite forallb_forall in F. specialize (F n).
  assert (Hin : In n (seq 0 256)) by (apply in_seq; lia).
  apply F in Hin. clear F.
  repeat (apply andb_true_iff in Hin; destruct Hin as [Hin ?]).
  repeat split.
  - exact Hin.
  - apply String.eqb_eq. assumption.
  - apply String.eqb_neq. apply negb_true_iff. assumption.
  - intro E. rewrite E in *. discriminate.
  - intro E. rewrite E in *. discriminate.
Qed.

Lemma matches_seq_cons (r : Regex.re) (rs : list Regex.re) (s t : string) :
  Regex.matches r s = true -> Regex.matches (Regex.seq rs) t = true ->
  Regex.matches (Regex.seq (r :: rs)) (s ++ t)%string = true.
Proof. intros H1 H2. exact (matches_Cat_app r (Regex.seq rs) s t H1 H2). Qed.

Lemma matches_octets (c d : nat) :
  c <= 255 -> d <= 255 ->
  Regex.matches
    (Regex.seq [Regex.chr "."; Regex.digits13; Regex.chr "."; Regex.digits13])
    ("." ++ JS.showNat c ++ "." ++ JS.showNat d)%string = true.
Proof.
  intros Hc Hd.
  destruct (octet_facts c Hc) as [Mc _]. destruct (octet_facts d Hd) as [Md _].
  apply matches_seq_cons; [reflexivity|].
  apply matches_seq_cons; [exact Mc|].
  apply matches_seq_cons; [reflexivity|].
  rewrite <- (append_empty (JS.showNat d)).
  apply matches_seq_cons; [exact Md | reflexivity].
Qed.

Lemma in_patterns_true (p : Regex.re) (s : string) :
  In p PRIVATE_IP_PATTERNS -> Regex.matches p s = true ->
  existsb (fun pattern => Regex.matches pattern s) PRIVATE_IP_PATTERNS = true.
Proof. intros Hin Hm. apply existsb_exists. exists p. split; assumption. Qed.

Lemma private_10 (b c d : nat) :
  b <= 255 -> c <= 255 -> d <= 255 ->
  existsb (fun pattern => Regex.matches pattern (dotted 10 b c d)) PRIVATE_IP_PATTERNS = true.
Proof.
  intros Hb Hc Hd.
  apply (in_patterns_true
           (Regex.anchored (Regex.seq [Regex.lit "10"; Regex.chr "."; Regex.digits13;
                                       Regex.chr "."; Regex.digits13;
                                       Regex.chr "."; Regex.digits13]))).
  - in_patterns.
  - unfold dotted, Regex.anchored. change (JS.showNat 10) with "10".
    apply matches_seq_cons; [reflexivity|].
    apply matches_seq_cons; [reflexivity|].
    apply matches_seq_cons; [exact (proj1 (octet_facts b Hb))|].
    apply matches_octets; assumption.
Qed.

Lemma private_127 (b c d : nat) :
  b <= 255 -> c <= 255 -> d <= 255 ->
  existsb (fun pattern => Regex.matches pattern (dotted 127 b c d)) PRIVATE_IP_PATTERNS = true.
Proof.
  intros Hb Hc Hd.
  apply (in_patterns_true
           (Regex.anchored (Regex.seq [Regex.lit "127"; Regex.chr "."; Regex.digits13;
                                       Regex.chr "."; Regex.digits13;
                                       Regex.chr "."; Regex.digits13]))).
  - in_patterns.
  - unfold dotted, Regex.anchored. change (JS.showNat 127) with "127".
    apply matches_seq_cons; [reflexivity|].
    apply matches_seq_cons; [reflexivity|].
    apply matches_seq_cons; [exact (proj1 (octet_facts b Hb))|].
    apply matches_octets; assumption.
Qed.

Lemma private_192_168 (c d : nat) :
  c <= 255 -> d <= 255 ->
  existsb (fun pattern => Regex.matches pattern (dotted 192 168 c d)) PRIVATE_IP_PATTERNS = true.
Proof.
  intros Hc Hd.
  apply (in_patterns_true
           (Regex.anchored (Regex.seq [Regex.lit "192"; Regex.chr "."; Regex.lit "168";
                                       Regex.chr "."; Regex.digits13;
                                       Regex.chr "."; Regex.digits13]))).
  - in_patterns.
  - unfold dotted, Regex.anchored.
    change (JS.showNat 192) with "192". change (JS.showNat 168) with "168".
    apply matches_seq_cons; [reflexivity|].
    apply matches_seq_cons; [reflexivity|].
    apply matches_seq_cons; [reflexivity|].
    apply matches_octets; assumption.
Qed.

Lemma private_169_254 (c d : nat) :
  c <= 255 -> d <= 255 ->
  existsb (fun pattern => Regex.matches pattern (dotted 169 254 c d)) PRIVATE_IP_PATTERNS = true.
Proof.
  intros Hc Hd.
  apply (in_patterns_true
           (Regex.anchored (Regex.seq [Regex.lit "169"; Regex.chr "."; Regex.lit "254";
                                       Regex.chr "."; Regex.digits13;
                                       Regex.chr "."; Regex.digits13]))).
  - in_patterns.
  - unfold dotted, Regex.anchored.
    change (JS.showNat 169) with "169". change (JS.showNat 254) with "254".
    apply matches_seq_cons; [reflexivity|].
    apply matches_seq_cons; [reflexivity|].
    apply matches_seq_cons; [reflexivity|].
    apply matches_octets; assumption.
Qed.

Lemma private_172 (b c d : nat) :
  16 <= b <= 31 -> c <= 255 -> d <= 255 ->
  existsb (fun pattern => Regex.matches pattern (dotted 172 b c d)) PRIVATE_IP_PATTERNS = true.
Proof.
  intros Hb Hc Hd.
  set (second := Regex.Alt (Regex.Cat (Regex.chr "1") (Regex.range "6" "9"))
                   (Regex.Alt (Regex.Cat (Regex.chr "2") Regex.digit)
                              (Regex.Cat (Regex.chr "3") (Regex.range "0" "1")))).
  apply (in_patterns_true
           (Regex.anchored (Regex.seq [Regex.lit "172"; Regex.chr "."; second;
                                       Regex.chr "."; Regex.digits13;
                                       Regex.chr "."; Regex.digits13]))).
  - in_patterns.
  - assert (F : forallb (fun n => Regex.matches second (JS.showNat n)) (seq 16 16) = true)
      by (vm_compute; reflexivity).
    rewrite forallb_forall in F.
    assert (Mb : Regex.matches second (JS.showNat b) = true)
      by (apply F; apply in_seq; lia).
    unfold dotted, Regex.anchored. change (JS.showNat 172) with "172".
    apply matches_seq_cons; [reflexivity|].
    apply matches_seq_cons; [reflexivity|].
    apply matches_seq_cons; [exact Mb|].
    apply matches_octets; assumption.
Qed.

(** When the first octet decides: outside 0, 10, 127, 169, 172 and 192 no
    pattern survives the first label. *)
Lemma public_first_octet (a : nat) (rest : string) :
  a <= 255 ->
  a <> 0 -> a <> 10 -> a <> 127 -> a <> 169 -> a <> 172 -> a <> 192 ->
  existsb (fun pattern => Regex.matches pattern (JS.showNat a ++ "." ++ rest)%string)
          PRIVATE_IP_PATTERNS = false.
Proof.
  intros Ha N0 N10 N127 N169 N172 N192.
  assert (F : forallb (fun a =>
                (a =? 0) || (a =? 10) || (a =? 127) || (a =? 169) || (a =? 172) || (a =? 192) ||
                forallb (fun p => void (derivs p (JS.showNat a ++ ".")%string))
                        PRIVATE_IP_PATTERNS)
              (seq 0 256) = true) by (vm_compute; reflexivity).
  rewrite forallb_forall in F. specialize (F a).
  assert (Hin : In a (seq 0 256)) by (apply in_seq; lia).
  apply F in Hin. clear F.
  apply Nat.eqb_neq in N0, N10, N127, N169, N172, N192.
  rewrite N0, N10, N127, N169, N172, N192 in Hin. simpl in Hin.
  rewrite <- append_assoc. apply existsb_matches_prefix. exact Hin.
Qed.

(** When the second octet decides, after a first octet [first] that is
    written [shown]. *)
Lemma public_second_octet (shown : string) (isPrivate : nat -> bool) (b : nat) (rest : string) :
  forallb (fun b =>
     isPrivate b ||
     forallb (fun p => void (derivs p (shown ++ "." ++ JS.showNat b ++ ".")%string))
             PRIVATE_IP_PATTERNS) (seq 0 256) = true ->
  b <= 255 -> isPrivate b = false ->
  existsb (fun pattern => Regex.matches pattern (shown ++ "." ++ JS.showNat b ++ "." ++ rest)%string)
          PRIVATE_IP_PATTERNS = false.
Proof.
  intros F Hb Hp.
  rewrite forallb_forall in F. specialize (F b).
  assert (Hin : In b (seq 0 256)) by (apply in_seq; lia).
  apply F in Hin. rewrite Hp in Hin. simpl in Hin.
  replace (shown ++ "." ++ JS.showNat b ++ "." ++ rest)%string
    with ((shown ++ "." ++ JS.showNat b ++ ".") ++ rest)%string
    by (rewrite !append_assoc; reflexivity).
  apply existsb_matches_prefix. exact Hin.
Qed.

(** The private patterns on dotted-decimal hosts. *)
Lemma dotted_private (a b c d : nat) :
  a <= 255 -> b <= 255 -> c <= 255 -> d <= 255 ->
  existsb (fun pattern => Regex.matches pattern (dotted a b c d)) PRIVATE_IP_PATTERNS =
  privateQuad a b c d.
Proof.
  intros Ha Hb Hc Hd.
  destruct (Nat.eq_dec a 10) as [->|N10]; [rewrite private_10 by assumption; reflexivity|].
  destruct (Nat.eq_dec a 127) as [->|N127]; [rewrite private_127 by assumption; reflexivity|].
  destruct (Nat.eq_dec a 172) as [->|N172].
  { unfold privateQuad. cbn [Nat.eqb orb andb].
    destruct ((16 <=? b) && (b <=? 31)) eqn:R.
    - apply andb_true_iff in R. destruct R as [R1 R2].
      apply Nat.leb_le in R1, R2. rewrite private_172 by (try split; assumption). reflexivity.
    - simpl.
      apply (public_second_octet "172" (fun b => (16 <=? b) && (b <=? 31)));
        [vm_compute; reflexivity | assumption | exact R]. }
  destruct (Nat.eq_dec a 192) as [->|N192].
  { unfold privateQuad. cbn [Nat.eqb orb andb].
    destruct (Nat.eq_dec b 168) as [->|N].
    - rewrite private_192_168 by assumption. reflexivity.
    - apply Nat.eqb_neq in N. rewrite N. simpl.
      apply (public_second_octet "192" (fun b => b =? 168));
        [vm_compute; reflexivity | assumption | exact N]. }
  destruct (Nat.eq_dec a 169) as [->|N169].
  { unfold privateQuad. cbn [Nat.eqb orb andb].
    destruct (Nat.eq_dec b 254) as [->|N].
    - rewrite private_169_254 by assumption. reflexivity.
    - apply Nat.eqb_neq in N. rewrite N. simpl.
      apply (public_second_octet "169" (fun b => b =? 254));
        [vm_compute; reflexivity | assumption | exact N]. }
  destruct (Nat.eq_dec a 0) as [->|N0].
  { unfold privateQuad. cbn [Nat.eqb orb andb].
    destruct (Nat.eq_dec b 0) as [->|Nb].
    - destruct (Nat.eq_dec c 0) as [->|Nc].
      + cbn [Nat.eqb andb].
        assert (F : forallb (fun d =>
                      Bool.eqb (existsb (fun p => Regex.matches p (dotted 0 0 0 d))
                                        PRIVATE_IP_PATTERNS) (d =? 0))
                    (seq 0 256) = true) by (vm_compute; reflexivity).
        rewrite forallb_forall in F. apply Bool.eqb_prop. apply F. apply in_seq. lia.
      + apply Nat.eqb_neq in Nc. cbn [Nat.eqb andb]. rewrite Nc.
        change (dotted 0 0 c d)
          with ("0.0" ++ "." ++ JS.showNat c ++ "." ++ JS.showNat d)%string.
        apply (public_second_octet "0.0" (fun c => c =? 0));
          [vm_compute; reflexivity | assumption | exact Nc].
    - apply Nat.eqb_neq in Nb. rewrite Nb. simpl.
      apply (public_second_octet "0" (fun b => b =? 0));
        [vm_compute; reflexivity | assumption | exact Nb]. }
  unfold privateQuad.
  apply Nat.eqb_neq in N0, N10, N127, N169, N172, N192.
  rewrite N0, N10, N127, N169, N172, N192. simpl.
  apply Nat.eqb_neq in N0, N10, N127, N169, N172, N192.
  apply public_first_octet; assumption.
Qed.

Lemma dotted_lower (a b c d : nat) :
  a <= 255 -> b <= 255 -> c <= 255 -> d <= 255 ->
  JS.toLowerCase (dotted a b c d) = dotted a b c d.
Proof.
  intros Ha Hb Hc Hd. unfold dotted. rewrite !toLowerCase_append.
  destruct (octet_facts a Ha) as [_ [-> _]]. destruct (octet_facts b Hb) as [_ [-> _]].
  destruct (octet_facts c Hc) as [_ [-> _]]. destruct (octet_facts d Hd) as [_ [-> _]].
  reflexivity.
Qed.

Lemma dotted_suffix (a b c d : nat) (suffix : string) :
  d <= 255 -> In suffix BLOCKED_HOSTNAME_SUFFIXES ->
  JS.endsWith (dotted a b c d) suffix = false.
Proof.
  intros Hd Hin. destruct (JS.endsWith _ suffix) eqn:E; [|reflexivity].
  apply endsWith_spec in E. destruct E as [p E].
  apply (f_equal (fun s => last (list_ascii_of_string s) " "%char)) in E.
  destruct (octet_facts d Hd) as [_ [_ [Ne [Nl Nt]]]].
  unfold dotted in E.
  rewrite <- !append_assoc in E.
  rewrite (lastChar_append _ (JS.showNat d) Ne) in E.
  remember (last (list_ascii_of_string (JS.showNat d)) " "%char) as x eqn:Hx. clear Hx.
  simpl in Hin. destruct Hin as [<-|[<-|[<-|[]]]];
    rewrite lastChar_append in E by discriminate; vm_compute in E; congruence.
Qed.

Section Quads.
Context {P : Platform}.

(** X2.  On a host in dotted decimal the private patterns are exactly
    0.0.0.0, 10.0.0.0/8, 127.0.0.0/8, 169.254.0.0/16, 172.16.0.0/12 and
    192.168.0.0/16: an http(s) URL to such a host is refused as a private
    address, and one to any other IPv4 address validates. *)
Theorem validateUrl_ipv4 (u : string) (parsed : URL) (a b c d : nat) :
  length u <= CONFIG.MAX_URL_LENGTH ->
  URL_parse u = Some parsed ->
  protocol parsed = "http:" \/ protocol parsed = "https:" ->
  a <= 255 -> b <= 255 -> c <= 255 -> d <= 255 ->
  hostname parsed = dotted a b c d ->
  validateUrl u =
    if privateQuad a b c d then invalid (private_ip (dotted a b c d)) else valid.
Proof.
  intros Hlen Hparse Hscheme Ha Hb Hc Hd Hhost.
  rewrite (validateUrl_run u parsed Hlen Hparse Hscheme). cbv zeta.
  rewrite Hhost, dotted_lower, dotted_private by assumption.
  destruct (privateQuad a b c d); [reflexivity|].
  replace (existsb _ BLOCKED_HOSTNAME_SUFFIXES) with false; [reflexivity|].
  symmetry. cbn [existsb BLOCKED_HOSTNAME_SUFFIXES].
  rewrite !dotted_suffix by (try assumption; simpl; tauto). reflexivity.
Qed.

End Quads.

Lemma validateUrl_ipv4_witness :
  @validateUrl model_platform "http://172.31.255.1/" = invalid (private_ip "172.31.255.1") /\
  @validateUrl model_platform "http://172.32.0.1/" = valid /\
  @validateUrl model_platform "https://100.64.0.1/status" = valid.
Proof.
  assert (L : forall u, (length u <=? CONFIG.MAX_URL_LENGTH) = true ->
                        length u <= CONFIG.MAX_URL_LENGTH)
    by (intros u H; apply Nat.leb_le; exact H).
  assert (P1 : @URL_parse model_platform "http://172.31.255.1/" =
               Some (mkURL "http:" "172.31.255.1" EmptyString "/" EmptyString))
    by (vm_compute; reflexivity).
  assert (P2 : @URL_parse model_platform "http://172.32.0.1/" =
               Some (mkURL "http:" "172.32.0.1" EmptyString "/" EmptyString))
    by (vm_compute; reflexivity).
  assert (P3 : @URL_parse model_platform "https://100.64.0.1/status" =
               Some (mkURL "https:" "100.64.0.1" EmptyString "/status" EmptyString))
    by (vm_compute; reflexivity).
  assert (B : forall n, (n <=? 255) = true -> n <= 255)
    by (intros n H; apply Nat.leb_le; exact H).
  split; [|split].
  - rewrite (@validateUrl_ipv4 model_platform "http://172.31.255.1/" _ 172 31 255 1
               (L "http://172.31.255.1/" eq_refl) P1
               (or_introl eq_refl) (B 172 eq_refl) (B 31 eq_refl) (B 255 eq_refl) (B 1 eq_refl)
               eq_refl).
    vm_compute. reflexivity.
  - rewrite (@validateUrl_ipv4 model_platform "http://172.32.0.1/" _ 172 32 0 1
               (L "http://172.32.0.1/" eq_refl) P2
               (or_introl eq_refl) (B 172 eq_refl) (B 32 eq_refl) (B 0 eq_refl) (B 1 eq_refl)
               eq_refl).
    vm_compute. reflexivity.
  - rewrite (@validateUrl_ipv4 model_platform "https://100.64.0.1/status" _ 100 64 0 1
               (L "https://100.64.0.1/status" eq_refl) P3
               (or_intror eq_refl) (B 100 eq_refl) (B 64 eq_refl) (B 0 eq_refl) (B 1 eq_refl)
               eq_refl).
    vm_compute. reflexivity.
Defined.

(* ================================================================== *)
(** ** Validation errors *)
(* ================================================================== *)

Lemma localhost_private :
  existsb (fun pattern => Regex.matches pattern "localhost") PRIVATE_IP_PATTERNS = true.
Proof. vm_compute. reflexivity. Qed.

Section Validation.
Context {P : Platform}.

(** C9.  [validateUrl] answers [too_long] for a URL of more than 2000
    characters and [invalid_scheme] for a parsed URL whose scheme is
    neither http nor https.  Of the hosts of an http(s) URL it answers
    [private_ip] for [localhost] in any case, for the dotted-decimal
    addresses 0.0.0.0, 10/8, 127/8, 169.254/16, 172.16/12 and 192.168/16,
    and for the IPv6 literals [[::1]] and [[::]]; every other IPv6 literal
    validates, the link-local and unique-local addresses fe80:, fc00: and
    fdxx: included, because the parser gives the literal in brackets and
    their patterns are anchored at its first character.  Whatever the
    error, [startScrape] throws its formatted message at once, before
    reading or writing anything, and [getCached] and [getByUrl] return
    nothing without throwing.  The message contains "exceeds maximum
    length", "Invalid URL scheme" or "Private/local" for these three
    kinds. *)
Theorem validation_errors (u : string) :
  (CONFIG.MAX_URL_LENGTH < length u ->
   validateUrl u = invalid (too_long CONFIG.MAX_URL_LENGTH (length u))) /\
  (forall parsed,
     length u <= CONFIG.MAX_URL_LENGTH -> URL_parse u = Some parsed ->
     protocol parsed <> "http:" -> protocol parsed <> "https:" ->
     validateUrl u = invalid (invalid_scheme (protocol parsed))) /\
  (forall parsed,
     length u <= CONFIG.MAX_URL_LENGTH -> URL_parse u = Some parsed ->
     protocol parsed = "http:" \/ protocol parsed = "https:" ->
     (JS.toLowerCase (hostname parsed) = "localhost" ->
      validateUrl u = invalid (private_ip "localhost")) /\
     (forall a b c d,
        a <= 255 -> b <= 255 -> c <= 255 -> d <= 255 ->
        hostname parsed = dotted a b c d -> privateQuad a b c d = true ->
        validateUrl u = invalid (private_ip (dotted a b c d))) /\
     (forall body,
        hostname parsed = ("[" ++ body ++ "]")%string ->
        validateUrl u =
          if (JS.toLowerCase body =? "::1")%string || (JS.toLowerCase body =? "::")%string
          then invalid (private_ip ("[" ++ JS.toLowerCase body ++ "]")%string)
          else valid)) /\
  (forall error,
     validateUrl u = invalid error ->
     (forall apiKey options now c,
        startScrape u apiKey options now c = (c, Throw (formatValidationError error)) /\
        commit (startScrape u apiKey options now) c =
          (c, Throw (formatValidationError error))) /\
     (forall requested now c, getCached u requested now c = (c, Return None)) /\
     (forall c, getByUrl u c = (c, Return None)) /\
     match error with
     | too_long _ _ =>
         JS.includes (formatValidationError error) "exceeds maximum length" = true
     | invalid_scheme _ =>
         JS.includes (formatValidationError error) "Invalid URL scheme" = true
     | private_ip _ =>
         JS.includes (formatValidationError error) "Private/local" = true
     | invalid_url _ | blocked_hostname _ => True
     end).
Proof.
  split; [|split; [|split]].
  - intro H. unfold validateUrl. apply Nat.ltb_lt in H. rewrite H. reflexivity.
  - intros parsed Hlen Hp N1 N2. unfold validateUrl.
    replace (CONFIG.MAX_URL_LENGTH <? length u) with false
      by (symmetry; apply Nat.ltb_ge; exact Hlen).
    rewrite Hp. apply String.eqb_neq in N1, N2. rewrite N1, N2. reflexivity.
  - intros parsed Hlen Hp Hs.
    pose proof (validateUrl_run u parsed Hlen Hp Hs) as R. cbv zeta in R.
    split; [|split].
    + intro Hhost. rewrite R, Hhost, localhost_private. reflexivity.
    + intros a b c d Ha Hb Hc Hd Hhost Hq.
      rewrite R, Hhost, dotted_lower, dotted_private, Hq by assumption. reflexivity.
    + intros body Hhost. rewrite R, Hhost.
      replace (JS.toLowerCase ("[" ++ body ++ "]")%string)
        with ("[" ++ JS.toLowerCase body ++ "]")%string
        by (rewrite !toLowerCase_append; reflexivity).
      rewrite bracketed_private.
      destruct ((JS.toLowerCase body =? "::1")%string || (JS.toLowerCase body =? "::")%string);
        [reflexivity|].
      replace (existsb _ BLOCKED_HOSTNAME_SUFFIXES) with false; [reflexivity|].
      symmetry. cbn [existsb BLOCKED_HOSTNAME_SUFFIXES].
      rewrite !bracketed_suffix by (simpl; tauto). reflexivity.
  - intros error V. split; [|split; [|split]].
    + intros apiKey options now c.
      assert (R : startScrape u apiKey options now c =
                  (c, Throw (formatValidationError error)))
        by (rewrite startScrape_run, V; reflexivity).
      split; [exact R | apply (commit_throw _ _ _ _ R)].
    + intros requested now c. unfold getCached. rewrite V. reflexivity.
    + intro c. unfold getByUrl. rewrite V. reflexivity.
    + destruct error as [maxLength actualLength|message|scheme|host|host]; try exact I.
      * apply (includes_app "URL " "exceeds maximum length").
      * apply (includes_prefix "Invalid URL scheme").
      * apply (includes_prefix "Private/local").
Qed.

End Validation.

(** The three scenarios of the specification on the model platform, and a
    link-local IPv6 address: it validates, and [startScrape] on the empty
    table inserts a pending record for it. *)
Lemma validation_errors_witness :
  let c := ctx emptyWorld in
  (@validateUrl model_platform "http://localhost:3000/x" = invalid (private_ip "localhost") /\
   @startScrape model_platform "http://localhost:3000/x" "key" noOptions 0 c =
     (c, Throw "Private/local IP addresses are not allowed: localhost") /\
   @getCached model_platform "http://localhost:3000/x" None 0 c = (c, Return None) /\
   @getByUrl model_platform "http://localhost:3000/x" c = (c, Return None)) /\
  (@validateUrl model_platform "ftp://example.com" = invalid (invalid_scheme "ftp:") /\
   @startScrape model_platform "ftp://example.com" "key" noOptions 0 c =
     (c, Throw "Invalid URL scheme: ftp:. Only http and https are allowed")) /\
  (CONFIG.MAX_URL_LENGTH < length longUrl /\
   @validateUrl model_platform longUrl = invalid (too_long 2000 2020) /\
   @startScrape model_platform longUrl "key" noOptions 0 c =
     (c, Throw "URL exceeds maximum length of 2000 characters (got 2020)")) /\
  (@validateUrl model_platform "http://[fe80::1]/" = valid /\
   exists c',
     @startScrape model_platform "http://[fe80::1]/" "key" noOptions 0 c = (c', Return 0) /\
     map (fun j => (_id j, url j, status j)) (scrapes c') = [(0, "http://[fe80::1]/", pending)]).
Proof.
  intro c.
  assert (L1 : length "http://localhost:3000/x" <= CONFIG.MAX_URL_LENGTH)
    by (apply Nat.leb_le; vm_compute; reflexivity).
  assert (P1 : @URL_parse model_platform "http://localhost:3000/x" =
               Some (mkURL "http:" "localhost" "3000" "/x" EmptyString))
    by (vm_compute; reflexivity).
  pose proof (proj1 (proj1 (proj2 (proj2 (@validation_errors model_platform
                                             "http://localhost:3000/x")))
                           _ L1 P1 (or_introl eq_refl)) eq_refl) as V1.
  assert (V2 : @validateUrl model_platform "ftp://example.com"
               = invalid (invalid_scheme "ftp:")) by (vm_compute; reflexivity).
  assert (L3 : CONFIG.MAX_URL_LENGTH < length longUrl).
  { apply Nat.ltb_lt. vm_compute. reflexivity. }
  pose proof (proj1 (@validation_errors model_platform longUrl) L3) as V3.
  assert (E3 : length longUrl = 2020) by (vm_compute; reflexivity).
  rewrite E3 in V3.
  assert (L4 : length "http://[fe80::1]/" <= CONFIG.MAX_URL_LENGTH)
    by (apply Nat.leb_le; vm_compute; reflexivity).
  assert (P4 : @URL_parse model_platform "http://[fe80::1]/" =
               Some (mkURL "http:" "[fe80::1]" EmptyString "/" EmptyString))
    by (vm_compute; reflexivity).
  pose proof (proj2 (proj2 (proj1 (proj2 (proj2 (@validation_errors model_platform
                                                    "http://[fe80::1]/")))
                                  _ L4 P4 (or_introl eq_refl))) "fe80::1" eq_refl) as V4.
  destruct (proj2 (proj2 (proj2 (@validation_errors model_platform "http://localhost:3000/x")))
              _ V1) as [S1 [G1 [B1 _]]].
  destruct (proj2 (proj2 (proj2 (@validation_errors model_platform "ftp://example.com")))
              _ V2) as [S2 _].
  destruct (proj2 (proj2 (proj2 (@validation_errors model_platform longUrl)))
              _ V3) as [S3 _].
  split; [|split; [|split]].
  - split; [exact V1 | split; [exact (proj1 (S1 "key" noOptions 0%Z c)) |
      split; [exact (G1 None 0%Z c) | exact (B1 c)]]].
  - split; [exact V2 | exact (proj1 (S2 "key" noOptions 0%Z c))].
  - split; [exact L3 | split; [exact V3 |]].
    rewrite (proj1 (S3 "key" noOptions 0%Z c)). vm_compute. reflexivity.
  - split; [exact V4|]. vm_compute. eexists. split; reflexivity.
Defined.

Section Suffixes.
Context {P : Platform}.

(** X3.  A host that ends, once lowercased, in [.local], [.internal] or
    [.localhost] never validates: the URL is refused as a blocked hostname,
    or as a private address when a private pattern matches first. *)
Theorem validateUrl_blocked_suffix (u : string) (parsed : URL) (label suffix : string) :
  length u <= CONFIG.MAX_URL_LENGTH ->
  URL_parse u = Some parsed ->
  protocol parsed = "http:" \/ protocol parsed = "https:" ->
  In suffix BLOCKED_HOSTNAME_SUFFIXES ->
  JS.toLowerCase (hostname parsed) = (label ++ suffix)%string ->
  validateUrl u =
    invalid (if existsb (fun pattern => Regex.matches pattern (label ++ suffix)%string)
                        PRIVATE_IP_PATTERNS
             then private_ip (label ++ suffix)%string
             else blocked_hostname (label ++ suffix)%string).
Proof.
  intros Hlen Hparse Hscheme Hin Hhost.
  rewrite (validateUrl_run u parsed Hlen Hparse Hscheme). cbv zeta. rewrite Hhost.
  destruct (existsb _ PRIVATE_IP_PATTERNS); [reflexivity|].
  replace (existsb _ BLOCKED_HOSTNAME_SUFFIXES) with true; [reflexivity|].
  symmetry. apply existsb_exists. exists suffix. split; [exact Hin|].
  apply endsWith_spec. exists label. reflexivity.
Qed.

End Suffixes.

Lemma validateUrl_blocked_suffix_witness :
  @validateUrl model_platform "https://Printer.Office.LOCAL/status" =
    invalid (blocked_hostname "printer.office.local").
Proof.
  assert (L : length "https://Printer.Office.LOCAL/status" <= CONFIG.MAX_URL_LENGTH)
    by (apply Nat.leb_le; vm_compute; reflexivity).
  assert (P1 : @URL_parse model_platform "https://Printer.Office.LOCAL/status" =
               Some (mkURL "https:" "printer.office.local" EmptyString "/status" EmptyString))
    by (vm_compute; reflexivity).
  assert (S : In ".local" BLOCKED_HOSTNAME_SUFFIXES) by (left; reflexivity).
  rewrite (@validateUrl_blocked_suffix model_platform _ _ "printer.office" ".local" L P1
             (or_intror eq_refl) S eq_refl).
  vm_compute. reflexivity.
Defined.

(** ** The order of strings *)

Lemma ascii_compare_refl (c : ascii) : Ascii.compare c c = Eq.
Proof. unfold Ascii.compare. apply N.compare_refl. Qed.

Lemma string_compare_lt_trans (a b c : string) :
  String.compare a b = Lt -> String.compare b c = Lt -> String.compare a c = Lt.
Proof.
  revert b c. induction a as [|x a IH]; intros [|y b] [|z c]; simpl; try congruence.
  unfold Ascii.compare.
  destruct (N.compare_spec (N_of_ascii x) (N_of_ascii y)) as [E1|L1|G1];
    destruct (N.compare_spec (N_of_ascii y) (N_of_ascii z)) as [E2|L2|G2];
    try congruence; intros H1 H2.
  - rewrite E1, E2, N.compare_refl. exact (IH _ _ H1 H2).
  - replace (N_of_ascii x ?= N_of_ascii z)%N with Lt; [reflexivity|].
    symmetry. apply N.compare_lt_iff. lia.
  - replace (N_of_ascii x ?= N_of_ascii z)%N with Lt; [reflexivity|].
    symmetry. apply N.compare_lt_iff. lia.
  - replace (N_of_ascii x ?= N_of_ascii z)%N with Lt; [reflexivity|].
    symmetry. apply N.compare_lt_iff. lia.
Qed.

Lemma string_leb_trans (a b c : string) :
  String.leb a b = true -> String.leb b c = true -> String.leb a c = true.
Proof.
  unfold String.leb.
  destruct (String.compare a b) eqn:E1; try discriminate;
    destruct (String.compare b c) eqn:E2; try discriminate; intros _ _.
  - apply String.compare_eq_iff in E1, E2. subst.
    pose proof (String.compare_antisym c c) as A.
    destruct (String.compare c c); simpl in A; try reflexivity; discriminate.
  - apply String.compare_eq_iff in E1. subst. rewrite E2. reflexivity.
  - apply String.compare_eq_iff in E2. subst. rewrite E1. reflexivity.
  - rewrite (string_compare_lt_trans _ _ _ E1 E2). reflexivity.
Qed.


Lemma insertSorted_perm (x : string) (l : list string) :
  Permutation (JS.insertSorted x l) (x :: l).
Proof.
  induction l as [|y l IH]; simpl; [apply Permutation_refl|].
  destruct (String.leb x y); [apply Permutation_refl|].
  apply Permutation_trans with (y :: x :: l); [apply perm_skip; exact IH | apply perm_swap].
Qed.

Lemma sort_perm (l : list string) : Permutation (JS.sort l) l.
Proof.
  induction l as [|x l IH]; simpl; [apply Permutation_refl|].
  apply Permutation_trans with (x :: JS.sort l);
    [apply insertSorted_perm | apply perm_skip; exact IH].
Qed.

Lemma insertSorted_sorted (x : string) (l : list string) :
  StronglySorted (fun a b => String.leb a b = true) l ->
  StronglySorted (fun a b => String.leb a b = true) (JS.insertSorted x l).
Proof.
  induction l as [|y l IH]; simpl; intro H.
  - constructor; constructor.
  - inversion H as [|? ? Hl Hy]; subst.
    destruct (String.leb x y) eqn:E.
    + constructor; [exact H|]. constructor; [exact E|].
      rewrite Forall_forall in *. intros z Hz.
      exact (string_leb_trans _ _ _ E (Hy z Hz)).
    + constructor; [apply IH; exact Hl|].
      rewrite Forall_forall in *. intros z Hz.
      apply (Permutation_in _ (insertSorted_perm x l)) in Hz.
      destruct Hz as [<-|Hz]; [|exact (Hy z Hz)].
      destruct (String.leb_total x y) as [T|T]; [congruence | exact T].
Qed.

Lemma sort_sorted (l : list string) :
  StronglySorted (fun a b => String.leb a b = true) (JS.sort l).
Proof.
  induction l as [|x l IH]; simpl; [constructor | apply insertSorted_sorted; exact IH].
Qed.

Lemma sorted_perm_unique (l1 l2 : list string) :
  StronglySorted (fun a b => String.leb a b = true) l1 ->
  StronglySorted (fun a b => String.leb a b = true) l2 ->
  Permutation l1 l2 -> l1 = l2.
Proof.
  revert l2. induction l1 as [|x l1 IH]; intros l2 S1 S2 Hp.
  - apply Permutation_nil in Hp. subst. reflexivity.
  - destruct l2 as [|y l2].
    + apply Permutation_sym, Permutation_nil in Hp. discriminate.
    + inversion S1 as [|? ? S1' F1]; inversion S2 as [|? ? S2' F2]; subst.
      rewrite Forall_forall in F1, F2.
      assert (E : x = y).
      { assert (Hx : In x (y :: l2)) by (apply (Permutation_in _ Hp); left; reflexivity).
        assert (Hy : In y (x :: l1))
          by (apply (Permutation_in _ (Permutation_sym Hp)); left; reflexivity).
        destruct Hx as [Hx|Hx]; [congruence|].
        destruct Hy as [Hy|Hy]; [congruence|].
        apply String.leb_antisym; [exact (F1 y Hy) | exact (F2 x Hx)]. }
      subst y. f_equal. apply IH; try assumption.
      exact (Permutation_cons_inv Hp).
Qed.

(** ** The query of the normalized URL *)

Lemma params_get_In (params : list (string * string)) (name value : string) :
  params_get params name = Some value -> In (name, value) params.
Proof.
  induction params as [|[k v] rest IH]; simpl; [discriminate|].
  destruct (String.eqb_spec k name) as [->|N].
  - intro H. injection H as ->. left. reflexivity.
  - intro H. right. exact (IH H).
Qed.

Lemma params_get_key (params : list (string * string)) (name : string) :
  In name (map fst params) -> exists value, params_get params name = Some value.
Proof.
  induction params as [|[k v] rest IH]; simpl; [contradiction|].
  destruct (String.eqb_spec k name) as [->|N].
  - intros _. exists v. reflexivity.
  - intros [E|H]; [contradiction | exact (IH H)].
Qed.

Lemma params_get_unique (params : list (string * string)) (name value : string) :
  NoDup (map fst params) -> In (name, value) params -> params_get params name = Some value.
Proof.
  induction params as [|[k v] rest IH]; simpl; [contradiction|].
  intros Hnd Hin. inversion Hnd as [|? ? Hk Hrest]; subst.
  destruct (String.eqb_spec k name) as [->|N].
  - destruct Hin as [E|Hin]; [congruence|].
    exfalso. apply Hk. apply (in_map fst) in Hin. exact Hin.
  - destruct Hin as [E|Hin]; [congruence|]. exact (IH Hrest Hin).
Qed.

Lemma params_set_new (acc : list (string * string)) (name value : string) :
  ~ In name (map fst acc) -> params_set acc name value = acc ++ [(name, value)].
Proof.
  induction acc as [|[k v] rest IH]; simpl; intro H; [reflexivity|].
  destruct (String.eqb_spec k name) as [->|N].
  - exfalso. apply H. left. reflexivity.
  - rewrite IH; [reflexivity|]. intro Hin. apply H. right. exact Hin.
Qed.

Lemma params_set_same (acc : list (string * string)) (name value : string) :
  NoDup (map fst acc) -> In (name, value) acc -> params_set acc name value = acc.
Proof.
  induction acc as [|[k v] rest IH]; simpl; intros Hnd Hin; [contradiction|].
  inversion Hnd as [|? ? Hk Hrest]; subst.
  destruct (String.eqb_spec k name) as [->|N].
  - assert (Hv : v = value).
    { destruct Hin as [E|Hin]; [congruence|].
      exfalso. apply Hk. apply (in_map fst) in Hin. exact Hin. }
    subst v. f_equal. apply filter_all. intros [k' v'] Hin'. simpl.
    apply negb_true_iff. apply String.eqb_neq. intros ->.
    apply Hk. apply (in_map fst) in Hin'. exact Hin'.
  - destruct Hin as [E|Hin]; [congruence|]. rewrite (IH Hrest Hin). reflexivity.
Qed.

Lemma sorted_snoc (l : list string) (n : string) :
  StronglySorted (fun a b => String.leb a b = true) l ->
  (forall k, In k l -> String.leb k n = true) ->
  StronglySorted (fun a b => String.leb a b = true) (l ++ [n]).
Proof.
  induction l as [|x l IH]; simpl; intros Hs Hle.
  - constructor; constructor.
  - inversion Hs as [|? ? Hl Hx]; subst. constructor.
    + apply IH; [exact Hl|]. intros k Hk. apply Hle. right. exact Hk.
    + rewrite Forall_forall in *. intros z Hz. apply in_app_or in Hz.
      destruct Hz as [Hz|[<-|[]]]; [exact (Hx z Hz)|]. apply Hle. left. reflexivity.
Qed.

Lemma fold_names (params : list (string * string)) (names : list string)
      (acc : list (string * string)) :
  NoDup (map fst acc) ->
  (forall k v, In (k, v) acc -> params_get params k = Some v) ->
  (forall n, In n names -> In n (map fst params)) ->
  StronglySorted (fun a b => String.leb a b = true) names ->
  StronglySorted (fun a b => String.leb a b = true) (map fst acc) ->
  (forall k n, In k (map fst acc) -> In n names -> String.leb k n = true) ->
  let r := fold_left
             (fun acc name =>
                match params_get params name with
                | Some value => params_set acc name value
                | None => acc
                end) names acc in
  NoDup (map fst r) /\
  StronglySorted (fun a b => String.leb a b = true) (map fst r) /\
  (forall k v, In (k, v) r <->
               In (k, v) acc \/ (In k names /\ params_get params k = Some v)).
Proof.
  revert acc. induction names as [|n names IH]; intros acc Hnd Hget Hkeys Hsn Hsa Hle; simpl.
  - repeat split; try assumption.
    + intro H. left. exact H.
    + intros [H|[[] _]]. exact H.
  - destruct (params_get_key params n (Hkeys n (or_introl eq_refl))) as [v Hv].
    rewrite Hv.
    inversion Hsn as [|? ? Hsn' Hn]; subst. rewrite Forall_forall in Hn.
    destruct (in_dec string_dec n (map fst acc)) as [Hin|Hnin].
    + apply in_map_iff in Hin. destruct Hin as [[k v'] [Hk Hin]]. simpl in Hk. subst k.
      assert (v' = v) by (pose proof (Hget n v' Hin); congruence). subst v'.
      rewrite (params_set_same acc n v Hnd Hin).
      destruct (IH acc Hnd Hget (fun m Hm => Hkeys m (or_intror Hm)) Hsn' Hsa
                   (fun k m Hk Hm => Hle k m Hk (or_intror Hm))) as [R1 [R2 R3]].
      split; [exact R1|]. split; [exact R2|].
      intros k w. rewrite R3. split.
      * intros [H|[H1 H2]]; [left; exact H | right; split; [right; exact H1 | exact H2]].
      * intros [H|[[<-|H1] H2]].
        -- left. exact H.
        -- left. assert (w = v) by congruence. subst w. exact Hin.
        -- right. split; assumption.
    + rewrite (params_set_new acc n v Hnin).
      destruct (IH (acc ++ [(n, v)])) as [R1 [R2 R3]].
      * rewrite map_app. simpl.
        apply (Permutation_NoDup (Permutation_cons_append (map fst acc) n)).
        constructor; assumption.
      * intros k w Hin. apply in_app_or in Hin.
        destruct Hin as [Hin|[E|[]]]; [exact (Hget k w Hin)|]. congruence.
      * intros m Hm. apply Hkeys. right. exact Hm.
      * exact Hsn'.
      * rewrite map_app. simpl. apply sorted_snoc; [exact Hsa|].
        intros k Hk. apply Hle; [exact Hk | left; reflexivity].
      * intros k m Hk Hm. rewrite map_app in Hk. apply in_app_or in Hk.
        destruct Hk as [Hk|[<-|[]]].
        -- apply Hle; [exact Hk | right; exact Hm].
        -- exact (Hn m Hm).
      * split; [exact R1|]. split; [exact R2|].
        intros k w. rewrite R3. split.
        -- intros [H|[H1 H2]].
           ++ apply in_app_or in H. destruct H as [H|[E|[]]]; [left; exact H|].
              injection E as <- <-. right. split; [left; reflexivity | exact Hv].
           ++ right. split; [right; exact H1 | exact H2].
        -- intros [H|[[<-|H1] H2]].
           ++ left. apply in_or_app. left. exact H.
           ++ left. apply in_or_app. right. left. congruence.
           ++ right. split; assumption.
Qed.

Lemma paramNames_In (params : list (string * string)) (name : string) :
  In name (paramNames params) <->
  In name (map fst params) /\ isTrackingParam name = false.
Proof.
  unfold paramNames. split.
  - intro H. apply (Permutation_in _ (sort_perm _)) in H.
    apply filter_In in H. destruct H as [H1 H2]. split; [exact H1|].
    apply negb_true_iff. exact H2.
  - intros [H1 H2]. apply (Permutation_in _ (Permutation_sym (sort_perm _))).
    apply filter_In. split; [exact H1|]. apply negb_true_iff. exact H2.
Qed.

Lemma sortedParams_spec (params : list (string * string)) :
  NoDup (map fst (sortedParams params)) /\
  StronglySorted (fun a b => String.leb a b = true) (map fst (sortedParams params)) /\
  (forall name value,
     In (name, value) (sortedParams params) <->
     isTrackingParam name = false /\ params_get params name = Some value).
Proof.
  destruct (fold_names params (paramNames params) []) as [R1 [R2 R3]].
  - constructor.
  - intros k v [].
  - intros n Hn. apply paramNames_In in Hn. exact (proj1 Hn).
  - apply sort_sorted.
  - constructor.
  - intros k n [].
  - split; [exact R1|]. split; [exact R2|].
    intros name value. unfold sortedParams. rewrite R3. split.
    + intros [[]|[H1 H2]]. apply paramNames_In in H1. split; [exact (proj2 H1) | exact H2].
    + intros [H1 H2]. right. split; [|exact H2].
      apply paramNames_In. split; [|exact H1].
      apply params_get_In in H2. apply (in_map fst) in H2. exact H2.
Qed.

Section Query.
Context {P : Platform}.

Lemma normalizeUrl_parsed (u : string) (parsed : URL) :
  URL_parse u = Some parsed ->
  normalizeUrl u =
    Some (let normalized :=
            (protocol parsed ++ "//" ++ JS.toLowerCase (hostname parsed))%string in
          let isDefaultPort :=
            ((protocol parsed =? "http:") && (port parsed =? "80"))%string ||
            ((protocol parsed =? "https:") && (port parsed =? "443"))%string ||
            (port parsed =? EmptyString)%string in
          let normalized :=
            if negb isDefaultPort then (normalized ++ ":" ++ port parsed)%string
            else normalized in
          let path := pathname parsed in
          let path :=
            if (1 <? length path) && JS.endsWith path "/" then JS.dropLast path else path in
          let queryString :=
            URLSearchParams_toString (sortedParams (URLSearchParams_parse (search parsed))) in
          let normalized :=
            if (path =? "/")%string && JS.truthy queryString then normalized
            else (normalized ++ path)%string in
          if JS.truthy queryString then (normalized ++ "?" ++ queryString)%string
          else normalized).
Proof. intro H. unfold normalizeUrl. rewrite H. reflexivity. Qed.

(** X4.  The query of the normalized URL is written from the parameters
    [normalizeUrl] keeps: every name that is not a tracking parameter, once,
    in the order of the code units, with the first value the URL gives it;
    a repeated name loses its later values. *)
Theorem normalizeUrl_query (u : string) (parsed : URL) :
  URL_parse u = Some parsed ->
  let params := URLSearchParams_parse (search parsed) in
  let kept := sortedParams params in
  let query := URLSearchParams_toString kept in
  (exists base,
     normalizeUrl u = Some (if JS.truthy query then (base ++ "?" ++ query)%string else base)) /\
  NoDup (map fst kept) /\
  StronglySorted (fun a b => String.leb a b = true) (map fst kept) /\
  (forall name value,
     In (name, value) kept <->
     isTrackingParam name = false /\ params_get params name = Some value).
Proof.
  intros Hparse params kept query.
  split; [|exact (sortedParams_spec params)].
  rewrite (normalizeUrl_parsed u parsed Hparse). cbv zeta.
  fold params. fold kept. fold query.
  destruct (JS.truthy query).
  - eexists. reflexivity.
  - eexists. reflexivity.
Qed.

End Query.

Lemma normalizeUrl_query_witness :
  @normalizeUrl model_platform "https://example.com/p?b=2&utm_source=x&a=1&a=9&B=3" =
    Some "https://example.com/p?B=3&a=1&b=2" /\
  In ("a", "1")
     (sortedParams (@URLSearchParams_parse model_platform "?b=2&utm_source=x&a=1&a=9&B=3")).
Proof.
  assert (P1 : @URL_parse model_platform "https://example.com/p?b=2&utm_source=x&a=1&a=9&B=3" =
               Some (mkURL "https:" "example.com" EmptyString "/p"
                           "?b=2&utm_source=x&a=1&a=9&B=3"))
    by (vm_compute; reflexivity).
  destruct (@normalizeUrl_query model_platform _ _ P1) as [_ [_ [_ H]]].
  split; [vm_compute; reflexivity|].
  apply H. split; vm_compute; reflexivity.
Defined.

(** ** Spellings with the same key *)

Lemma filter_map_fst {B} (keep : string -> bool) (l : list (string * B)) :
  filter keep (map fst l) = map fst (filter (fun kv => keep (fst kv)) l).
Proof.
  induction l as [|[k v] l IH]; simpl; [reflexivity|].
  destruct (keep k); simpl; rewrite IH; reflexivity.
Qed.

Lemma params_get_kept (params : list (string * string)) (name : string) :
  isTrackingParam name = false ->
  params_get (filter (fun kv => negb (isTrackingParam (fst kv))) params) name =
  params_get params name.
Proof.
  intro H. induction params as [|[k v] rest IH]; simpl; [reflexivity|].
  destruct (String.eqb_spec k name) as [->|N].
  - rewrite H. simpl. rewrite String.eqb_refl. reflexivity.
  - destruct (isTrackingParam k); simpl; [exact IH|].
    destruct (String.eqb_spec k name) as [E|_]; [contradiction | exact IH].
Qed.

Lemma params_get_perm (l1 l2 : list (string * string)) (name : string) :
  NoDup (map fst l1) -> Permutation l1 l2 -> params_get l1 name = params_get l2 name.
Proof.
  intros Hnd Hp.
  assert (Hnd2 : NoDup (map fst l2))
    by exact (Permutation_NoDup (Permutation_map fst Hp) Hnd).
  destruct (params_get l1 name) as [v|] eqn:E1.
  - apply params_get_In in E1. apply (Permutation_in _ Hp) in E1.
    symmetry. exact (params_get_unique l2 name v Hnd2 E1).
  - destruct (params_get l2 name) as [w|] eqn:E2; [|reflexivity].
    apply params_get_In in E2. apply (Permutation_in _ (Permutation_sym Hp)) in E2.
    rewrite (params_get_unique l1 name w Hnd E2) in E1. discriminate.
Qed.

Lemma fold_left_agree {A B} (f g : A -> B -> A) (l : list B) (a : A) :
  (forall acc x, In x l -> f acc x = g acc x) -> fold_left f l a = fold_left g l a.
Proof.
  revert a. induction l as [|x l IH]; intros a H; simpl; [reflexivity|].
  rewrite (H a x (or_introl eq_refl)). apply IH.
  intros acc y Hy. apply H. right. exact Hy.
Qed.

Lemma sortedParams_perm (params1 params2 : list (string * string)) :
  let kept := fun kv : string * string => negb (isTrackingParam (fst kv)) in
  NoDup (map fst (filter kept params1)) ->
  Permutation (filter kept params1) (filter kept params2) ->
  sortedParams params1 = sortedParams params2.
Proof.
  intros kept Hnd Hp. unfold kept in *. clear kept.
  assert (Hnames : paramNames params1 = paramNames params2).
  { unfold paramNames.
    rewrite !(filter_map_fst (fun name => negb (isTrackingParam name))).
    apply sorted_perm_unique; try apply sort_sorted.
    apply Permutation_trans
      with (map fst (filter (fun kv => negb (isTrackingParam (fst kv))) params1));
      [apply sort_perm|].
    apply Permutation_trans
      with (map fst (filter (fun kv => negb (isTrackingParam (fst kv))) params2));
      [apply Permutation_map; exact Hp | apply Permutation_sym, sort_perm]. }
  unfold sortedParams. rewrite <- Hnames.
  apply fold_left_agree. intros acc name Hin.
  apply paramNames_In in Hin. destruct Hin as [_ Hnt].
  rewrite <- (params_get_kept params1 name Hnt), <- (params_get_kept params2 name Hnt).
  rewrite (params_get_perm _ _ name Hnd Hp). reflexivity.
Qed.

Section SameKey.
Context {P : Platform}.

(** X5.  Two URLs get the same normalized form, hence the same cache key,
    when they parse to the same scheme, port and path, to hosts that differ
    in case only, and to queries that differ only in tracking parameters
    and in the order of their parameters, the kept names being distinct. *)
Theorem normalizeUrl_same_key (u1 u2 : string) (parsed1 parsed2 : URL) :
  let params1 := URLSearchParams_parse (search parsed1) in
  let params2 := URLSearchParams_parse (search parsed2) in
  let kept := fun kv : string * string => negb (isTrackingParam (fst kv)) in
  URL_parse u1 = Some parsed1 ->
  URL_parse u2 = Some parsed2 ->
  protocol parsed1 = protocol parsed2 ->
  JS.toLowerCase (hostname parsed1) = JS.toLowerCase (hostname parsed2) ->
  port parsed1 = port parsed2 ->
  pathname parsed1 = pathname parsed2 ->
  NoDup (map fst (filter kept params1)) ->
  Permutation (filter kept params1) (filter kept params2) ->
  normalizeUrl u1 = normalizeUrl u2 /\
  (validateUrl u1 = valid -> validateUrl u2 = valid ->
   forall requested now c,
     getCached u1 requested now c = getCached u2 requested now c /\
     getByUrl u1 c = getByUrl u2 c).
Proof.
  intros params1 params2 kept H1 H2 Hprot Hhost Hport Hpath Hnd Hp.
  assert (E : normalizeUrl u1 = normalizeUrl u2).
  { rewrite (normalizeUrl_parsed u1 parsed1 H1), (normalizeUrl_parsed u2 parsed2 H2).
    fold params1. fold params2.
    rewrite (sortedParams_perm params1 params2 Hnd Hp).
    rewrite Hprot, Hhost, Hport, Hpath. reflexivity. }
  split; [exact E|].
  intros V1 V2 requested now c. unfold getCached, getByUrl.
  rewrite V1, V2, E. split; reflexivity.
Qed.

End SameKey.

Lemma normalizeUrl_same_key_witness :
  @normalizeUrl model_platform "HTTPS://Example.COM/docs?b=2&utm_source=news&a=1#top" =
  @normalizeUrl model_platform "https://example.com/docs?a=1&fbclid=xyz&b=2" /\
  @normalizeUrl model_platform "https://example.com/docs?a=1&fbclid=xyz&b=2" =
    Some "https://example.com/docs?a=1&b=2".
Proof.
  assert (P1 : @URL_parse model_platform
                 "HTTPS://Example.COM/docs?b=2&utm_source=news&a=1#top" =
               Some (mkURL "https:" "example.com" EmptyString "/docs"
                           "?b=2&utm_source=news&a=1"))
    by (vm_compute; reflexivity).
  assert (P2 : @URL_parse model_platform "https://example.com/docs?a=1&fbclid=xyz&b=2" =
               Some (mkURL "https:" "example.com" EmptyString "/docs"
                           "?a=1&fbclid=xyz&b=2"))
    by (vm_compute; reflexivity).
  assert (N : NoDup (map fst [("b", "2"); ("a", "1")]))
    by (repeat constructor; simpl; intuition discriminate).
  assert (Q : Permutation [("b", "2"); ("a", "1")] [("a", "1"); ("b", "2")])
    by apply perm_swap.
  split; [|vm_compute; reflexivity].
  exact (proj1 (@normalizeUrl_same_key model_platform _ _ _ _ P1 P2 eq_refl eq_refl
                  eq_refl eq_refl N Q)).
Defined.

(** ** From [startScrape] to the lookups *)

Section Lookups.
Context {P : Platform}.

(** X6.  The id [startScrape] returns always resolves.  Either the call
    was served from the cache, nothing was written and the id is that of
    a completed, unexpired record covering the formats; or a pending record
    was inserted under the next free id and one action was queued for it,
    and [get], [getStatus] and [getByUrl] on the same URL find that record
    at once.  With [force] only the second case occurs. *)
Theorem startScrape_then_lookup (u apiKey : string) (options : ScrapeOptions) (now : Z)
        (c c' : Ctx) (id : Id) :
  uniqueIds (scrapes c) ->
  startScrape u apiKey options now c = (c', Return id) ->
  let formats := orElse (opt_formats options) ["markdown"] in
  let ttlMs := orElse (opt_ttlMs options) CONFIG.DEFAULT_TTL_MS in
  exists normalized job,
    normalizeUrl u = Some normalized /\
    get id c' = (c', Return (Some job)) /\
    _id job = id /\ urlHash job = hashUrl normalized /\
    ((orElse (opt_force options) false = false /\ c' = c /\
      In job (scrapes c) /\ cacheHit now formats job = true)
     \/
     (id = nextId c /\ nextId c' = S (nextId c) /\
      job = pendingRecord u normalized (hashUrl normalized) formats options now ttlMs id /\
      scheduled c' = scheduled c ++ [scheduledArgs id u apiKey formats options ttlMs] /\
      getByUrl u c' = (c', Return (Some job)) /\
      getStatus id c' =
        (c', Return (Some (mkStatusInfo pending None None now None None (now + ttlMs)%Z))))).
Proof.
  intros Hids Hrun formats ttlMs.
  rewrite startScrape_run in Hrun.
  destruct (validateUrl u) as [|e] eqn:V; [|discriminate].
  destruct (normalizeUrl u) as [normalized|] eqn:N; [|discriminate].
  cbv zeta in Hrun. fold formats in Hrun. fold ttlMs in Hrun.
  exists normalized.
  destruct ((if orElse (opt_force options) false
             then forceDelete (hashUrl normalized) else ret tt) c) as [c1 [[]|e]] eqn:F;
    [|discriminate].
  assert (Hframe : nextId c1 = nextId c /\ scheduled c1 = scheduled c).
  { destruct (orElse (opt_force options) false).
    - destruct (forceDelete_run _ _ _ _ F) as [deleted [_ [_ [H1 [H2 _]]]]]. split; assumption.
    - injection F as <-. split; reflexivity. }
  destruct Hframe as [Hnext Hqueue].
  destruct (find isActive _) as [active|] eqn:A; [discriminate|].
  destruct (if orElse (opt_force options) false then None else find _ _) as [hit|] eqn:H.
  - (* served from the cache *)
    injection Hrun as <- <-.
    destruct (orElse (opt_force options) false) eqn:Force; [discriminate|].
    injection F as <-.
    apply find_some in H. destruct H as [Hin Hhit].
    apply firstn_member in Hin. apply filter_In in Hin. destruct Hin as [Hin Hhash].
    apply String.eqb_eq in Hhash.
    exists hit. split; [reflexivity|]. split.
    + unfold get, db_get.
      destruct (find (hasId (_id hit)) (scrapes c)) as [job|] eqn:G.
      * rewrite (found_unique (scrapes c) (_id hit) job hit Hids G Hin); [reflexivity|].
        unfold hasId. apply Nat.eqb_refl.
      * exfalso. pose proof (find_none _ _ G hit Hin) as Hf. unfold hasId in Hf.
        rewrite Nat.eqb_refl in Hf. discriminate.
    + split; [reflexivity|]. split; [exact Hhash|].
      left. repeat split; assumption.
  - (* a new job *)
    injection Hrun as <- <-.
    exists (pendingRecord u normalized (hashUrl normalized) formats options now ttlMs (nextId c1)).
    split; [reflexivity|]. split.
    + unfold get, db_get. simpl. unfold hasId. simpl. rewrite Nat.eqb_refl. reflexivity.
    + split; [reflexivity|]. split; [reflexivity|]. right.
      rewrite Hnext, Hqueue.
      split; [reflexivity|]. split; [reflexivity|]. split; [reflexivity|].
      split; [reflexivity|]. split.
      * unfold getByUrl, by_url_hash_desc, bind, ret. rewrite V, N. simpl.
        rewrite String.eqb_refl. simpl. reflexivity.
      * unfold getStatus, db_get, bind, ret. simpl. unfold hasId. simpl.
        rewrite Nat.eqb_refl. simpl. reflexivity.
Qed.

End Lookups.

(** ** Deleting one record *)

Lemma find_deleted (id : Id) (t : list Job) : find (hasId id) (deleteFromTable id t) = None.
Proof.
  apply find_all_false. intros j Hj. unfold deleteFromTable in Hj.
  apply filter_In in Hj. destruct Hj as [_ Hj]. apply negb_true_iff. exact Hj.
Qed.

(** The three cases of [deleteScrape]. *)
Lemma deleteScrape_cases (id : Id) (c : Ctx) :
  match find (hasId id) (scrapes c) with
  | None => deleteScrape id c = (c, Return (false, 0))
  | Some scrape =>
      if isActive scrape then
        deleteScrape id c =
          (c, Throw ("Cannot delete scrape with status " ++
                     String PlatformModel.dquote (showStatus (status scrape)) ++
                     String PlatformModel.dquote ". Wait for scrape to complete or fail.")%string)
      else
        exists c' deletedFileCount,
          deleteScrape id c = (c', Return (true, deletedFileCount)) /\
          scrapes c' = deleteFromTable id (scrapes c) /\
          files (storage c') =
            filter (fun f => negb (existsb (Nat.eqb (fst f)) (fileIdsOf (content scrape))))
                   (files (storage c)) /\
          sameButData c c' /\
          (uniqueFileIds (storage c) ->
           List.length (files (storage c')) + deletedFileCount =
             List.length (files (storage c)))
  end.
Proof.
  assert (Hget : deleteScrape id c =
                 match find (hasId id) (scrapes c) with
                 | None => (c, Return (false, 0))
                 | Some scrape =>
                     if isActive scrape then
                       (c, Throw ("Cannot delete scrape with status " ++
                                  String PlatformModel.dquote (showStatus (status scrape)) ++
                                  String PlatformModel.dquote
                                    ". Wait for scrape to complete or fail.")%string)
                     else
                       (deletedFileCount <- deleteFilesBestEffort (fileIdsOf (content scrape)) ;;
                        db_delete id ;; ret (true, deletedFileCount)) c
                 end).
  { unfold deleteScrape. unfold bind at 1. unfold db_get.
    destruct (find (hasId id) (scrapes c)) as [scrape|]; [|reflexivity].
    destruct (isActive scrape); reflexivity. }
  rewrite Hget. clear Hget.
  destruct (find (hasId id) (scrapes c)) as [scrape|] eqn:F; [|reflexivity].
  destruct (isActive scrape); [reflexivity|].
  destruct (deleteFilesBestEffort_exact (fileIdsOf (content scrape)) c)
    as [c1 [n [Hrun [Ht [Hs Hf]]]]].
  destruct (deleteFilesBestEffort_run (fileIdsOf (content scrape)) c)
    as [c1' [n' [Hrun' [_ [_ [_ Hcount]]]]]].
  rewrite Hrun in Hrun'. injection Hrun' as <- <-.
  assert (Hex : existsb (hasId id) (scrapes c1) = true)
    by (rewrite Ht; exact (find_some_existsb _ _ _ F)).
  exists (setScrapes c1 (deleteFromTable id (scrapes c1))), n.
  unfold bind. rewrite Hrun. rewrite (db_delete_found id c1 Hex). unfold ret.
  split; [reflexivity|]. cbn [setScrapes scrapes storage]. rewrite Ht.
  split; [reflexivity|]. split; [exact Hf|]. split.
  - destruct Hs as [H1 [H2 H3]]. split; [exact H1|]. split; [exact H2 | exact H3].
  - intro Hfiles. exact (proj2 (Hcount Hfiles)).
Qed.

(** X7.  [deleteScrape] on an id that is not in the table answers
    [success: false] and writes nothing; on a pending or scraping record it
    throws and writes nothing; on a completed or failed record it removes
    that record and no other, removes from storage exactly the files the
    record referred to, and counts the files it found there. *)
Theorem deleteScrape_spec (id : Id) (c : Ctx) :
  uniqueIds (scrapes c) ->
  uniqueFileIds (storage c) ->
  match find (hasId id) (scrapes c) with
  | None => deleteScrape id c = (c, Return (false, 0))
  | Some scrape =>
      if isActive scrape then
        deleteScrape id c =
          (c, Throw ("Cannot delete scrape with status " ++
                     String PlatformModel.dquote (showStatus (status scrape)) ++
                     String PlatformModel.dquote ". Wait for scrape to complete or fail.")%string)
      else
        exists c' deletedFileCount,
          deleteScrape id c = (c', Return (true, deletedFileCount)) /\
          scrapes c' = deleteFromTable id (scrapes c) /\
          get id c' = (c', Return None) /\
          S (List.length (scrapes c')) = List.length (scrapes c) /\
          files (storage c') =
            filter (fun f => negb (existsb (Nat.eqb (fst f)) (fileIdsOf (content scrape))))
                   (files (storage c)) /\
          List.length (files (storage c')) + deletedFileCount =
            List.length (files (storage c)) /\
          sameButData c c'
  end.
Proof.
  intros Hids Hfiles. pose proof (deleteScrape_cases id c) as D.
  destruct (find (hasId id) (scrapes c)) as [scrape|] eqn:F; [|exact D].
  destruct (isActive scrape); [exact D|].
  destruct D as [c' [n [R [Ht [Hf [Hs Hlen]]]]]].
  exists c', n. split; [exact R|]. split; [exact Ht|]. split.
  - unfold get, db_get. rewrite Ht, find_deleted. reflexivity.
  - split.
    + rewrite Ht. apply deleteFromTable_length; [exact Hids|].
      exact (find_some_existsb _ _ _ F).
    + split; [exact Hf|]. split; [exact (Hlen Hfiles) | exact Hs].
Qed.


Lemma startScrape_then_lookup_witness :
  let c := ctx emptyWorld in
  let c' := fst (@startScrape model_platform sampleUrl "key" noOptions 7 c) in
  uniqueIds (scrapes c) /\
  @startScrape model_platform sampleUrl "key" noOptions 7 c = (c', Return 0) /\
  exists job, get 0 c' = (c', Return (Some job)) /\ _id job = 0.
Proof.
  intros c c'.
  assert (U : uniqueIds (scrapes c)) by constructor.
  assert (R : @startScrape model_platform sampleUrl "key" noOptions 7 c = (c', Return 0))
    by (vm_compute; reflexivity).
  split; [exact U|]. split; [exact R|].
  destruct (@startScrape_then_lookup model_platform sampleUrl "key" noOptions 7 c c' 0 U R)
    as [normalized [job [_ [G [I _]]]]].
  exists job. split; [exact G | exact I].
Defined.

Lemma deleteScrape_spec_witness :
  uniqueIds (scrapes sweepCtx) /\ uniqueFileIds (storage sweepCtx) /\
  exists c', deleteScrape 0 sweepCtx = (c', Return (true, 1)) /\
             files (storage c') = [] /\ List.length (scrapes c') = 3.
Proof.
  assert (U : uniqueIds (scrapes sweepCtx))
    by (repeat constructor; simpl; intuition discriminate).
  assert (F : uniqueFileIds (storage sweepCtx))
    by (repeat constructor; simpl; intuition discriminate).
  split; [exact U|]. split; [exact F|].
  pose proof (deleteScrape_spec 0 sweepCtx U F) as H.
  assert (G : find (hasId 0) (scrapes sweepCtx) =
              Some (mkJob 0 sampleUrl sampleUrl sampleUrl completed ["markdown"]
                     (mkContent None (Some 7) None None None None None None None None None
                                None None None None None)
                     None None None 0 (Some 1%Z) (Some 2%Z) 20))
    by (vm_compute; reflexivity).
  rewrite G in H. cbv beta iota in H.
  change (isActive _) with false in H. cbv iota in H.
  destruct H as [c' [n [Hrun [Ht [_ [Hlen [Hf [Hcount _]]]]]]]].
  assert (Hf0 : files (storage c') = []) by (rewrite Hf; vm_compute; reflexivity).
  rewrite Hf0 in Hcount. simpl in Hcount.
  assert (Hn : n = 1) by (vm_compute in Hcount; exact Hcount).
  subst n. exists c'. split; [exact Hrun|]. split; [exact Hf0|].
  vm_compute in Hlen. injection Hlen as Hlen. exact Hlen.
Defined.

(** ** A sweep that finds only active records *)

Lemma cleanupLoop_active (l : list Job) (c : Ctx) :
  (forall j, In j l -> isActive j = true) -> cleanupLoop l c = (c, Return (0, 0)).
Proof.
  induction l as [|j l IH]; intro H; [reflexivity|].
  cbn [cleanupLoop].
  pose proof (H j (or_introl eq_refl)) as Hj.
  pose proof (isActive_isTerminal j) as Ht. rewrite Hj in Ht. unfold isTerminal in Ht.
  simpl in Ht. apply orb_false_iff in Ht. destruct Ht as [-> ->]. simpl.
  apply IH. intros k Hk. apply H. right. exact Hk.
Qed.

(** X8.  The expiry sweep reads one batch, the [CLEANUP_BATCH_SIZE] records
    that expired first, and skips the pending and scraping ones among
    them.  When the whole batch is pending or scraping the sweep deletes
    nothing and leaves the context as it was, whatever has expired behind
    the batch. *)
Theorem cleanupExpired_starved (now : Z) (c : Ctx) :
  (forall j, In j (expiredBatch now (scrapes c)) -> isActive j = true) ->
  cleanupExpired now c = (c, Return (0, 0)).
Proof.
  intro H. unfold cleanupExpired, bind, by_expires_lt.
  apply cleanupLoop_active. exact H.
Qed.

Lemma cleanupExpired_starved_witness :
  cleanupExpired 100 starvedCtx = (starvedCtx, Return (0, 0)) /\
  exists j, In j (scrapes starvedCtx) /\ status j = failed /\ (expiresAt j < 100)%Z.
Proof.
  split.
  - apply cleanupExpired_starved.
    assert (F : forallb isActive (expiredBatch 100 (scrapes starvedCtx)) = true)
      by (vm_compute; reflexivity).
    rewrite forallb_forall in F. exact F.
  - exists (sampleJob 100 failed ["markdown"] 0 (Some 1%Z) 50).
    split; [left; reflexivity|]. split; [reflexivity|]. reflexivity.
Defined.

(** ** What a failed call records *)

Section ProviderErrors.
Context {P : Platform}.






End ProviderErrors.


(** ** The shape of a record, status by status *)

Section Shapes.
Context {P : Platform}.

(** A property of records that the insertion establishes and every patch
    keeps holds of every record of every reachable world. *)
Lemma reachable_records (good : Job -> Prop) :
  (forall now j, created now j -> good j) ->
  (forall j j', Patch j j' -> good j -> good j') ->
  forall w, reachable w -> forall j, In j (scrapes (ctx w)) -> good j.
Proof.
  intros Hnew Hpatch w Hw. induction Hw as [|w w' Hw IH [now [e He]]].
  - intros j [].
  - intros j' Hj'.
    destruct (exec_sound now e w w' (reachable_Inv w Hw) He) as [_ [_ Heff]].
    destruct (Heff j' Hj') as [[j [Hj Hp]]|[Hc _]].
    + exact (Hpatch j j' Hp (IH j Hj)).
    + exact (Hnew now j' Hc).
Qed.

Lemma created_shaped (now : Z) (j : Job) : created now j -> wellShaped j.
Proof.
  intros [Hs [Hc [He [Hec [_ [Hsa [Hsd _]]]]]]]. unfold wellShaped. rewrite Hs.
  repeat split; assumption.
Qed.

Lemma Patch_shaped (j j' : Job) : Patch j j' -> wellShaped j -> wellShaped j'.
Proof.
  intros Hp Hj. destruct Hp as [j|now j Hs|now ttlMs new j Ha _|message code j Ha|j Hs|now j Hs].
  - exact Hj.
  - unfold wellShaped in *. rewrite Hs in Hj. simpl.
    destruct Hj as [_ [H2 [H3 [H4 H5]]]]. repeat split; try assumption. discriminate.
  - unfold wellShaped in *. simpl. unfold isActive in Ha.
    destruct (status j); simpl in Ha; try discriminate;
      destruct Hj as [_ [_ [H3 [H4 _]]]]; repeat split; try assumption; discriminate.
  - unfold wellShaped in *. simpl. unfold isActive in Ha.
    destruct (status j); simpl in Ha; try discriminate;
      destruct Hj as [_ [H2 [_ [_ H5]]]]; repeat split; try assumption; discriminate.
  - unfold wellShaped in *. rewrite Hs in Hj. simpl.
    destruct Hj as [_ [H2 [_ [_ H5]]]]. repeat split; try assumption. discriminate.
  - unfold wellShaped in *. rewrite Hs in Hj. simpl. rewrite Hs. exact Hj.
Qed.

(** X10.  In every reachable world a record holds what its status says: a
    pending or scraping record has no content, no error and no time of
    completion, and carries its [scrapingAt] exactly when it is scraping;
    a completed record has its [scrapedAt] and neither error nor error
    code; a failed record has its error, no content and no [scrapedAt]. *)
Theorem records_well_shaped (w : World) (j : Job) :
  reachable w -> In j (scrapes (ctx w)) -> wellShaped j.
Proof.
  intros Hw Hj.
  exact (reachable_records wellShaped created_shaped Patch_shaped w Hw j Hj).
Qed.

End Shapes.

Lemma records_well_shaped_witness :
  exists j, @reachable model_platform (failingWorldAfter 3) /\
            In j (scrapes (ctx (failingWorldAfter 3))) /\
            status j = failed /\ error j = Some "fetch failed" /\ content j = noContent.
Proof.
  assert (R : @reachable model_platform (failingWorldAfter 3)).
  { apply (@runEvents_reachable model_platform failingScenario emptyWorld).
    - apply reachable_start.
    - vm_compute. reflexivity. }
  assert (E : exists j, In j (scrapes (ctx (failingWorldAfter 3))) /\ status j = failed /\
                        error j = Some "fetch failed").
  { vm_compute. eexists. split; [left; reflexivity|]. split; reflexivity. }
  destruct E as [j [Hin [Hs He]]].
  exists j. split; [exact R|]. split; [exact Hin|]. split; [exact Hs|]. split; [exact He|].
  pose proof (@records_well_shaped model_platform _ j R Hin) as H.
  unfold wellShaped in H. rewrite Hs in H. exact (proj2 (proj2 H)).
Defined.

(** ** The queue and the ids, event by event *)

Section Frame.
Context {P : Platform}.

Lemma invalidate_frame (u : string) (now : Z) (c : Ctx) :
  uniqueIds (scrapes c) ->
  nextId (fst (commit (invalidate u now) c)) = nextId c /\
  scheduled (fst (commit (invalidate u now) c)) = scheduled c.
Proof.
  intro Hids. destruct (validateUrl u) as [|e] eqn:V.
  - destruct (valid_normalizes u V) as [normalized Hn].
    rewrite (commit_return _ _ _ _ (invalidate_run u normalized now c Hids V Hn)).
    split; reflexivity.
  - unfold invalidate, commit. rewrite V. split; reflexivity.
Qed.

Lemma deleteScrape_frame (id : Id) (c : Ctx) :
  nextId (fst (commit (deleteScrape id) c)) = nextId c /\
  scheduled (fst (commit (deleteScrape id) c)) = scheduled c.
Proof.
  destruct (deleteScrape id c) as [c1 [r|e]] eqn:R.
  2:{ rewrite (commit_throw _ _ _ _ R). split; reflexivity. }
  rewrite (commit_return _ _ _ _ R). simpl.
  unfold deleteScrape, bind at 1, db_get in R.
  destruct (find (hasId id) (scrapes c)) as [scrape|] eqn:F.
  - destruct (isActive scrape); [discriminate|].
    unfold bind at 1 in R.
    destruct (deleteFilesBestEffort_run (fileIdsOf (content scrape)) c)
      as [c0 [n [R0 [S0 [[N0 [Q0 _]] _]]]]].
    rewrite R0 in R. unfold bind in R. unfold db_delete in R.
    destruct (existsb (hasId id) (scrapes c0)); inversion R; subst c1; split; assumption.
  - inversion R; subst c1. split; reflexivity.
Qed.

(** What an event does to the ids and to the queue: nothing, or it is
    the insertion of [startScrape], or the start of an action. *)
Lemma exec_frame (now : Z) (e : Event) (w w' : World) :
  Inv w -> exec now e w = Some w' ->
  (nextId (ctx w') = nextId (ctx w) /\ scheduled (ctx w') = scheduled (ctx w))
  \/
  (exists u apiKey options normalized keep,
     e = CallStartScrape u apiKey options /\
     validateUrl u = valid /\ normalizeUrl u = Some normalized /\
     let formats := orElse (opt_formats options) ["markdown"] in
     let ttlMs := orElse (opt_ttlMs options) CONFIG.DEFAULT_TTL_MS in
     scrapes (ctx w') =
       pendingRecord u normalized (hashUrl normalized) formats options now ttlMs
                     (nextId (ctx w)) :: filter keep (scrapes (ctx w)) /\
     nextId (ctx w') = S (nextId (ctx w)) /\
     scheduled (ctx w') =
       scheduled (ctx w) ++ [scheduledArgs (nextId (ctx w)) u apiKey formats options ttlMs])
  \/
  (exists n args,
     e = ActionBegins n /\
     nth_error (scheduled (ctx w)) n = Some args /\
     scrapes (ctx w') =
       patchTable (arg_jobId args) (markScrapingFields now) (scrapes (ctx w)) /\
     nextId (ctx w') = nextId (ctx w) /\
     scheduled (ctx w') = removeNth n (scheduled (ctx w)) /\
     running w' = args :: running w).
Proof.
  intros I E. destruct e as [u apiKey options|u|id| | |n|n response shot]; simpl in E.
  - (* startScrape *)
    inversion E; subst w'; clear E. cbn [ctx].
    destruct (startScrape u apiKey options now (ctx w)) as [c1 [id|e]] eqn:R.
    2:{ rewrite (commit_throw _ _ _ _ R). left. split; reflexivity. }
    rewrite (commit_return _ _ _ _ R). cbn [fst].
    rewrite startScrape_run in R.
    destruct (validateUrl u) as [|e] eqn:V; [|discriminate].
    destruct (normalizeUrl u) as [normalized|] eqn:N; [|discriminate].
    cbv zeta in R.
    destruct ((if orElse (opt_force options) false
               then forceDelete (hashUrl normalized) else ret tt) (ctx w))
      as [c0 [[]|e]] eqn:F; [|discriminate].
    assert (Hc0 : exists keep, scrapes c0 = filter keep (scrapes (ctx w)) /\
                               nextId c0 = nextId (ctx w) /\
                               scheduled c0 = scheduled (ctx w)).
    { destruct (orElse (opt_force options) false).
      - destruct (forceDelete_run _ _ _ _ F) as [deleted [_ [S [Hn [Hs _]]]]].
        exists (fun j => negb (idIn j deleted)). repeat split; assumption.
      - injection F as <-. exists (fun _ => true).
        rewrite filter_all by reflexivity. repeat split; reflexivity. }
    destruct Hc0 as [keep [Ht [Hn Hs]]].
    destruct (find isActive _) eqn:Fa in R; [discriminate|].
    destruct (if orElse (opt_force options) false then None else _) eqn:Fc in R.
    + inversion R; subst c1. left. split; assumption.
    + inversion R; subst c1. right. left.
      exists u, apiKey, options, normalized, keep.
      split; [reflexivity|]. split; [exact V|]. split; [exact N|].
      cbn [scrapes nextId scheduled]. rewrite Ht, Hn, Hs.
      split; [reflexivity|]. split; reflexivity.
  - inversion E; subst w'. left. exact (invalidate_frame u now (ctx w) (inv_ids I)).
  - inversion E; subst w'. left. exact (deleteScrape_frame id (ctx w)).
  - inversion E; subst w'. left. cbn [ctx].
    destruct (cleanupExpired_run now (ctx w) (inv_ids I))
      as [c1 [m [R [_ [_ [[Hn [Hs _]] _]]]]]].
    rewrite (commit_return _ _ _ _ R). split; assumption.
  - inversion E; subst w'. left. cbn [ctx].
    destruct (markStuckJobsFailed_any now (ctx w)) as [stuck R].
    rewrite (commit_return _ _ _ _ R). split; reflexivity.
  - destruct (nth_error (scheduled (ctx w)) n) as [args|] eqn:En; [|discriminate].
    assert (Ha : In args (scheduled (ctx w))) by (eapply nth_error_In; exact En).
    destruct (inv_scheduled I args Ha) as [k [Hk [Ek Tk]]].
    assert (R : scrapeAction_begin args now (dequeue (ctx w) n) =
                (setScrapes (dequeue (ctx w) n)
                   (patchTable (arg_jobId args) (markScrapingFields now) (scrapes (ctx w))),
                 Return tt)).
    { unfold scrapeAction_begin, runMutation, markScraping.
      apply commit_return.
      change (scrapes (ctx w)) with (scrapes (dequeue (ctx w) n)).
      apply db_patch_found. simpl.
      rewrite <- Ek. apply hasId_member. exact Hk. }
    rewrite R in E. inversion E; subst w'. right. right.
    exists n, args. split; [reflexivity|]. split; [exact En|]. repeat split; reflexivity.
  - destruct (nth_error (running w) n) as [args|] eqn:En; [|discriminate].
    inversion E; subst w'. left. cbn [ctx].
    destruct (scrapeAction_finish_shape args response shot now (ctx w) (inv_ids I))
      as [f [c' [Ec [_ [Hn [Hs _]]]]]].
    rewrite Ec. split; assumption.
Qed.

End Frame.

Lemma Patch_pending (j j' : Job) : Patch j j' -> status j' = pending -> j' = j.
Proof.
  intros Hp Hs. destruct Hp as [j|now j H|now ttlMs new j H _|message code j H|j H|now j H];
    try reflexivity; try discriminate Hs.
  simpl in Hs. congruence.
Qed.

Lemma Patch_key (j j' : Job) :
  Patch j j' ->
  url j' = url j /\ normalizedUrl j' = normalizedUrl j /\ urlHash j' = urlHash j /\
  formats j' = formats j.
Proof. intro Hp. destruct Hp; repeat split; reflexivity. Qed.

Lemma removeNth_other {A} (n : nat) (l : list A) (a x : A) :
  In a l -> nth_error l n = Some x -> a <> x -> In a (removeNth n l).
Proof.
  revert n. induction l as [|y l IH]; intros n Hin Hn Hne; [contradiction|].
  destruct n as [|n]; simpl in *.
  - injection Hn as ->. destruct Hin as [->|Hin]; [contradiction | exact Hin].
  - destruct Hin as [->|Hin]; [left; reflexivity|]. right. exact (IH n Hin Hn Hne).
Qed.

Lemma keys_inj {K V} (key : V -> K) (rows : list V) (a b : V) :
  NoDup (map key rows) -> In a rows -> In b rows -> key a = key b -> a = b.
Proof.
  induction rows as [|x rows IH]; simpl; intros Hnd Ha Hb E; [contradiction|].
  inversion Hnd as [|? ? Hx Hrows]; subst.
  destruct Ha as [->|Ha]; destruct Hb as [->|Hb].
  - reflexivity.
  - exfalso. apply Hx. rewrite E. apply in_map. exact Hb.
  - exfalso. apply Hx. rewrite <- E. apply in_map. exact Ha.
  - exact (IH Hrows Ha Hb E).
Qed.

Section Records.
Context {P : Platform}.

(** Where a record of the new table comes from: it is a record of the old
    table after one patch, or the record [startScrape] has just inserted. *)
Lemma step_record (now : Z) (e : Event) (w w' : World) (j' : Job) :
  Inv w -> exec now e w = Some w' -> In j' (scrapes (ctx w')) ->
  (exists j, In j (scrapes (ctx w)) /\ Patch j j') \/
  (exists u apiKey options normalized,
     e = CallStartScrape u apiKey options /\
     validateUrl u = valid /\ normalizeUrl u = Some normalized /\
     let formats := orElse (opt_formats options) ["markdown"] in
     let ttlMs := orElse (opt_ttlMs options) CONFIG.DEFAULT_TTL_MS in
     j' = pendingRecord u normalized (hashUrl normalized) formats options now ttlMs
                        (nextId (ctx w)) /\
     scheduled (ctx w') =
       scheduled (ctx w) ++ [scheduledArgs (nextId (ctx w)) u apiKey formats options ttlMs]).
Proof.
  intros I E Hj'.
  destruct (exec_sound now e w w' I E) as [I' [_ Heff]].
  assert (Hquiet : nextId (ctx w') = nextId (ctx w) ->
                   exists j, In j (scrapes (ctx w)) /\ Patch j j').
  { intro Hn. destruct (Heff j' Hj') as [H|[_ Hfresh]]; [exact H|].
    pose proof (inv_bound I' j' Hj'). lia. }
  destruct (exec_frame now e w w' I E)
    as [[Hn _]|[[u [apiKey [options [normalized [keep [-> [V [N [Ht [Hn Hs]]]]]]]]]]
               |[n [args [_ [_ [_ [Hn _]]]]]]]].
  - left. exact (Hquiet Hn).
  - cbv zeta in Ht, Hs. rewrite Ht in Hj'. destruct Hj' as [<-|Hj'].
    + right. exists u, apiKey, options, normalized.
      split; [reflexivity|]. split; [exact V|]. split; [exact N|].
      split; [reflexivity | exact Hs].
    + left. exists j'. apply filter_In in Hj'. split; [exact (proj1 Hj') | apply patch_none].
  - left. exact (Hquiet Hn).
Qed.

(** X11.  In every reachable world the key of a record is the key of its
    URL: the URL validates, [normalizedUrl] is its normalization and
    [urlHash] the hash of that; so the lookups by URL, called with the URL
    of a record, search the very index entries the record is filed under. *)
Theorem records_keyed (w : World) (j : Job) :
  reachable w -> In j (scrapes (ctx w)) -> keyed j.
Proof.
  intro Hw. revert j. induction Hw as [|w w' Hw IH [now [e E]]]; intros j' Hj'.
  - destruct Hj'.
  - destruct (step_record now e w w' j' (reachable_Inv w Hw) E Hj')
      as [[j [Hj Hp]]|[u [apiKey [options [normalized [_ [V [N [-> _]]]]]]]]].
    + destruct (Patch_key j j' Hp) as [H1 [H2 [H3 _]]].
      destruct (IH j Hj) as [K1 [K2 K3]].
      unfold keyed. rewrite H1, H2, H3. repeat split; assumption.
    + unfold keyed. simpl. repeat split; assumption.
Qed.

(** X12.  The pending records and the scheduler's queue correspond: in
    every reachable world each pending record has one queued action, which
    carries its id, its URL and its formats, and the time to live from
    which its placeholder expiry was computed.  No pending record is left
    without the action that will scrape it. *)
Theorem pending_is_queued (w : World) (j : Job) :
  reachable w -> In j (scrapes (ctx w)) -> status j = pending ->
  exists a,
    In a (scheduled (ctx w)) /\ arg_jobId a = _id j /\
    arg_url a = url j /\ arg_formats a = formats j /\
    expiresAt j = (startedAt j + arg_ttlMs a)%Z /\
    forall b, In b (scheduled (ctx w)) -> arg_jobId b = _id j -> b = a.
Proof.
  intros Hw Hj Hs.
  assert (Hex : exists a, In a (scheduled (ctx w)) /\ arg_jobId a = _id j /\
                          arg_url a = url j /\ arg_formats a = formats j /\
                          expiresAt j = (startedAt j + arg_ttlMs a)%Z).
  { revert j Hj Hs. induction Hw as [|w w' Hw IH [now [e E]]]; intros j' Hj' Hs'.
    - destruct Hj'.
    - pose proof (reachable_Inv w Hw) as I.
      destruct (step_record now e w w' j' I E Hj')
        as [[j [Hj Hp]]|[u [apiKey [options [normalized [_ [_ [_ [Hnew Hq]]]]]]]]].
      + assert (Ej : j' = j) by exact (Patch_pending j j' Hp Hs'). subst j'.
        destruct (IH j Hj Hs') as [a [Ha [Hid Hrest]]].
        exists a. split; [|split; [exact Hid | exact Hrest]].
        destruct (exec_frame now e w w' I E)
          as [[_ Hq]|[[u [apiKey [options [normalized [keep [_ [_ [_ [_ [_ Hq]]]]]]]]]]
                     |[n [args [_ [Hn [Ht [_ [Hq _]]]]]]]]].
        * rewrite Hq. exact Ha.
        * cbv zeta in Hq. rewrite Hq. apply in_or_app. left. exact Ha.
        * rewrite Hq. apply (removeNth_other n _ a args Ha Hn). intros ->.
          rewrite Ht in Hj'. unfold patchTable in Hj'. apply in_map_iff in Hj'.
          destruct Hj' as [k [Hk _]].
          destruct (hasId (arg_jobId args) k) eqn:Hid'.
          -- subst j. discriminate Hs'.
          -- subst k. unfold hasId in Hid'. rewrite Hid, Nat.eqb_refl in Hid'. discriminate.
      + cbv zeta in Hnew, Hq. subst j'. eexists. split.
        * rewrite Hq. apply in_or_app. right. left. reflexivity.
        * simpl. repeat split; reflexivity. }
  destruct Hex as [a [Ha [Hid Hrest]]]. exists a.
  split; [exact Ha|]. split; [exact Hid|].
  destruct Hrest as [H1 [H2 H3]].
  split; [exact H1|]. split; [exact H2|]. split; [exact H3|].
  intros b Hb Hbid.
  apply (keys_inj arg_jobId (scheduled (ctx w)) b a
           (inv_queue (reachable_Inv w Hw)) Hb Ha).
  congruence.
Qed.

End Records.

Lemma records_keyed_witness :
  exists j, @reachable model_platform (worldAfter 3) /\
            In j (scrapes (ctx (worldAfter 3))) /\ @keyed model_platform j.
Proof.
  assert (R : @reachable model_platform (worldAfter 3)).
  { apply (@runEvents_reachable model_platform (firstn 3 scenario) emptyWorld).
    - apply reachable_start.
    - vm_compute. reflexivity. }
  assert (E : exists j, In j (scrapes (ctx (worldAfter 3))))
    by (vm_compute; eexists; left; reflexivity).
  destruct E as [j Hin]. exists j.
  split; [exact R|]. split; [exact Hin|].
  exact (@records_keyed model_platform (worldAfter 3) j R Hin).
Defined.

Lemma pending_is_queued_witness :
  exists j a, @reachable model_platform (worldAfter 1) /\
              In j (scrapes (ctx (worldAfter 1))) /\ status j = pending /\
              In a (scheduled (ctx (worldAfter 1))) /\ arg_jobId a = _id j.
Proof.
  assert (R : @reachable model_platform (worldAfter 1)).
  { apply (@runEvents_reachable model_platform (firstn 1 scenario) emptyWorld).
    - apply reachable_start.
    - vm_compute. reflexivity. }
  assert (E : exists j, In j (scrapes (ctx (worldAfter 1))) /\ status j = pending)
    by (vm_compute; eexists; split; [left; reflexivity | reflexivity]).
  destruct E as [j [Hin Hs]].
  destruct (@pending_is_queued model_platform (worldAfter 1) j R Hin Hs) as [a [Ha [Hid _]]].
  exists j, a.
  split; [exact R|]. split; [exact Hin|]. split; [exact Hs|]. split; [exact Ha | exact Hid].
Defined.

(** ** From a finished scrape to the cache *)

Lemma find_by_id (t : list Job) (j : Job) :
  uniqueIds t -> In j t -> find (hasId (_id j)) t = Some j.
Proof.
  intros Hids Hin.
  destruct (find (hasId (_id j)) t) as [k|] eqn:F.
  - f_equal. symmetry. apply (found_unique t (_id j) k j Hids F Hin).
    unfold hasId. apply Nat.eqb_refl.
  - pose proof (find_none _ _ F j Hin) as H. unfold hasId in H.
    rewrite Nat.eqb_refl in H. discriminate.
Qed.


Section Finish.
Context {P : Platform}.


End Finish.

Section ScrapeThenCached.
Context {P : Platform}.


End ScrapeThenCached.


(** ** Storage and the references to it *)

Lemma NoDup_app_disjoint {A} (l1 l2 : list A) (x : A) :
  NoDup (l1 ++ l2) -> In x l1 -> In x l2 -> False.
Proof.
  induction l1 as [|y l1 IH]; simpl; intros Hnd H1 H2; [contradiction|].
  inversion Hnd as [|? ? Hy Hrest]; subst.
  destruct H1 as [->|H1].
  - apply Hy. apply in_or_app. right. exact H2.
  - exact (IH Hrest H1 H2).
Qed.

Lemma fileIdsIn_member (t : list Job) (f : FileId) :
  In f (fileIdsIn t) <-> exists j, In j t /\ In f (fileIdsOf (content j)).
Proof. unfold fileIdsIn. apply in_flat_map. Qed.

(** A file id belongs to one record. *)
Lemma fileIdsIn_owner (t : list Job) (j k : Job) (f : FileId) :
  NoDup (fileIdsIn t) -> In j t -> In k t ->
  In f (fileIdsOf (content j)) -> In f (fileIdsOf (content k)) -> j = k.
Proof.
  unfold fileIdsIn. induction t as [|x t IH]; simpl; intros Hnd Hj Hk Fj Fk; [contradiction|].
  destruct Hj as [->|Hj]; destruct Hk as [->|Hk].
  - reflexivity.
  - exfalso. apply (NoDup_app_disjoint _ _ f Hnd Fj).
    apply in_flat_map. exists k. split; assumption.
  - exfalso. apply (NoDup_app_disjoint _ _ f Hnd Fk).
    apply in_flat_map. exists j. split; assumption.
  - apply IH; try assumption. exact (NoDup_app_remove_l _ _ Hnd).
Qed.

Lemma fileIdsIn_filter (keep : Job -> bool) (t : list Job) :
  NoDup (fileIdsIn t) -> NoDup (fileIdsIn (filter keep t)).
Proof.
  unfold fileIdsIn. induction t as [|x t IH]; simpl; intro Hnd; [constructor|].
  pose proof (IH (NoDup_app_remove_l _ _ Hnd)) as Hrest.
  destruct (keep x); [|exact Hrest]. simpl.
  apply NoDup_app; [exact (NoDup_app_remove_r _ _ Hnd) | exact Hrest |].
  intros f Hf Hin. apply (NoDup_app_disjoint _ _ f Hnd Hf).
  apply in_flat_map in Hin. destruct Hin as [j [Hj Hfj]]. apply filter_In in Hj.
  apply in_flat_map. exists j. split; [exact (proj1 Hj) | exact Hfj].
Qed.

Lemma fileIdsIn_firstn (n : nat) (t : list Job) :
  NoDup (fileIdsIn t) -> NoDup (fileIdsIn (firstn n t)).
Proof.
  unfold fileIdsIn. revert n. induction t as [|x t IH]; intros [|n] Hnd; simpl;
    try constructor.
  apply NoDup_app;
    [exact (NoDup_app_remove_r _ _ Hnd) | exact (IH n (NoDup_app_remove_l _ _ Hnd)) |].
  intros f Hf Hin. apply (NoDup_app_disjoint _ _ f Hnd Hf).
  apply in_flat_map in Hin. destruct Hin as [j [Hj Hfj]].
  apply in_flat_map. exists j. split; [exact (firstn_member _ _ _ Hj) | exact Hfj].
Qed.

Lemma fileIdsIn_map (f : Job -> Job) (t : list Job) :
  (forall j, In j t -> content (f j) = content j) -> fileIdsIn (map f t) = fileIdsIn t.
Proof.
  unfold fileIdsIn. induction t as [|x t IH]; simpl; intro H; [reflexivity|].
  rewrite (H x (or_introl eq_refl)), IH; [reflexivity|].
  intros j Hj. apply H. right. exact Hj.
Qed.

(** Patches that leave the content alone, with storage as it was. *)
Lemma FilesInv_map (c c' : Ctx) (f : Job -> Job) :
  FilesInv c ->
  scrapes c' = map f (scrapes c) -> storage c' = storage c ->
  (forall j, In j (scrapes c) -> content (f j) = content j) ->
  FilesInv c'.
Proof.
  intros [H1 H2 H3 H4] Ht Hs Hc.
  constructor; rewrite ?Hs, ?Ht, ?(fileIdsIn_map f _ Hc); assumption.
Qed.

(** Deletions: the records that go take with them no file of a record
    that stays. *)
Lemma FilesInv_delete (c c' : Ctx) (keep : Job -> bool) (gone : list FileId) :
  FilesInv c ->
  scrapes c' = filter keep (scrapes c) ->
  files (storage c') =
    filter (fun f => negb (existsb (Nat.eqb (fst f)) gone)) (files (storage c)) ->
  nextFileId (storage c') = nextFileId (storage c) ->
  (forall f, In f gone ->
             exists d, In d (scrapes c) /\ keep d = false /\ In f (fileIdsOf (content d))) ->
  FilesInv c'.
Proof.
  intros [H1 H2 H3 H4] Ht Hf Hn Hgone. constructor.
  - unfold uniqueFileIds. rewrite Hf. apply keys_unique_filter. exact H1.
  - intros f Hin. rewrite Hn. apply H2. rewrite Hf in Hin.
    apply in_map_iff in Hin. destruct Hin as [x [<- Hx]]. apply filter_In in Hx.
    apply in_map. exact (proj1 Hx).
  - rewrite Ht. apply fileIdsIn_filter. exact H3.
  - intros f Hin. rewrite Ht in Hin. apply fileIdsIn_member in Hin.
    destruct Hin as [j [Hj Hfj]]. apply filter_In in Hj. destruct Hj as [Hj Hkeep].
    assert (Hold : In f (map fst (files (storage c)))).
    { apply H4. apply fileIdsIn_member. exists j. split; assumption. }
    apply in_map_iff in Hold. destruct Hold as [x [<- Hx]].
    rewrite Hf. apply in_map. apply filter_In. split; [exact Hx|].
    apply negb_true_iff. destruct (existsb (Nat.eqb (fst x)) gone) eqn:E; [|reflexivity].
    exfalso. apply existsb_exists in E. destruct E as [g [Hg Heq]].
    apply Nat.eqb_eq in Heq. subst g.
    destruct (Hgone (fst x) Hg) as [d [Hd [Hkd Hfd]]].
    rewrite (fileIdsIn_owner _ j d (fst x) H3 Hj Hd Hfj Hfd) in Hkeep. congruence.
Qed.

(** Deleting files that are all there. *)
Lemma storage_delete_all (fileIds : list FileId) (c : Ctx) :
  NoDup fileIds ->
  (forall f, In f fileIds -> In f (map fst (files (storage c)))) ->
  exists c',
    forEach fileIds storage_delete c = (c', Return tt) /\
    scrapes c' = scrapes c /\ sameButData c c' /\
    files (storage c') =
      filter (fun f => negb (existsb (Nat.eqb (fst f)) fileIds)) (files (storage c)).
Proof.
  revert c. induction fileIds as [|fileId rest IH]; intros c Hnd Hin.
  - exists c. split; [reflexivity|]. split; [reflexivity|]. split; [apply sameButData_refl|].
    symmetry. apply filter_all. reflexivity.
  - inversion Hnd as [|? ? Hnotin Hrest]; subst.
    cbn [forEach]. unfold bind, storage_delete.
    assert (E : existsb (fun f => fst f =? fileId) (files (storage c)) = true).
    { pose proof (Hin fileId (or_introl eq_refl)) as H. apply in_map_iff in H.
      destruct H as [x [Hx Hxin]]. apply existsb_exists. exists x.
      split; [exact Hxin | apply Nat.eqb_eq; exact Hx]. }
    rewrite E.
    set (c1 := mkCtx (scrapes c) (nextId c)
                 (mkStorage (removeFile fileId (files (storage c)))
                            (nextFileId (storage c))) (scheduled c)).
    destruct (IH c1 Hrest) as [c' [R [Ht [Hs Hf]]]].
    + intros f Hf. subst c1. cbn [storage files].
      pose proof (Hin f (or_intror Hf)) as H. apply in_map_iff in H.
      destruct H as [x [Hx Hxin]]. apply in_map_iff. exists x. split; [exact Hx|].
      unfold removeFile. apply filter_In. split; [exact Hxin|].
      apply negb_true_iff. apply Nat.eqb_neq. rewrite Hx. intros ->. contradiction.
    + exists c'. split; [exact R|]. split; [rewrite Ht; reflexivity|].
      split; [exact (sameButData_trans c c1 c' (conj eq_refl (conj eq_refl eq_refl)) Hs)|].
      rewrite Hf. subst c1. cbn [storage files]. unfold removeFile. rewrite filter_twice.
      apply filter_ext. intro f. cbn [existsb]. rewrite negb_orb. reflexivity.
Qed.

(** The forced deletion, when every file referred to is there: it
    returns, and removes the completed records of the list with their
    files. *)
Lemma forceLoop_total (l : list Job) (c : Ctx) :
  NoDup (map _id l) ->
  (forall j, In j l -> In j (scrapes c)) ->
  NoDup (fileIdsIn l) ->
  (forall f, In f (fileIdsIn l) -> In f (map fst (files (storage c)))) ->
  let deleted := filter (fun j => Status_eqb (status j) completed) l in
  exists c',
    forEach l (fun scrape =>
      if Status_eqb (status scrape) completed then
        forEach (fileIdsOf (content scrape)) storage_delete ;;
        db_delete (_id scrape)
      else ret tt) c = (c', Return tt) /\
    scrapes c' = filter (fun j => negb (idIn j deleted)) (scrapes c) /\
    sameButData c c' /\
    files (storage c') =
      filter (fun f => negb (existsb (Nat.eqb (fst f)) (fileIdsIn deleted)))
             (files (storage c)).
Proof.
  revert c. induction l as [|j rest IH]; intros c Hids Hin Hrefs Hexist deleted.
  - exists c. split; [reflexivity|]. split.
    + symmetry. apply filter_all. reflexivity.
    + split; [apply sameButData_refl|]. symmetry. apply filter_all. reflexivity.
  - inversion Hids as [|? ? Hj Hrest]; subst.
    assert (Hrefs' : NoDup (fileIdsIn rest)) by exact (NoDup_app_remove_l _ _ Hrefs).
    cbn [forEach]. subst deleted. cbn [filter].
    destruct (Status_eqb (status j) completed) eqn:T.
    + unfold bind at 1. unfold bind at 1.
      destruct (storage_delete_all (fileIdsOf (content j)) c) as [c1 [R1 [Ht1 [Hs1 Hf1]]]].
      { exact (NoDup_app_remove_r _ _ Hrefs). }
      { intros f Hf. apply Hexist. unfold fileIdsIn. simpl. apply in_or_app. left. exact Hf. }
      rewrite R1.
      assert (Hex : existsb (hasId (_id j)) (scrapes c1) = true).
      { rewrite Ht1. apply hasId_member. apply Hin. left. reflexivity. }
      rewrite (db_delete_found (_id j) c1 Hex).
      set (c2 := setScrapes c1 (deleteFromTable (_id j) (scrapes c1))).
      destruct (IH c2 Hrest) as [c' [R [Ht [Hs Hf]]]].
      * intros k Hk. subst c2. cbn [setScrapes scrapes]. rewrite Ht1.
        unfold deleteFromTable. apply filter_In. split; [apply Hin; right; exact Hk|].
        apply negb_true_iff. unfold hasId. apply Nat.eqb_neq. intro E.
        apply Hj. rewrite <- E. apply in_map. exact Hk.
      * exact Hrefs'.
      * intros f Hf. subst c2. cbn [setScrapes storage]. rewrite Hf1.
        assert (Hold : In f (map fst (files (storage c)))).
        { apply Hexist. unfold fileIdsIn. simpl. apply in_or_app. right. exact Hf. }
        apply in_map_iff in Hold. destruct Hold as [x [<- Hx]].
        apply in_map. apply filter_In. split; [exact Hx|].
        apply negb_true_iff.
        destruct (existsb (Nat.eqb (fst x)) (fileIdsOf (content j))) eqn:E; [|reflexivity].
        exfalso. apply existsb_exists in E. destruct E as [g [Hg Heq]].
        apply Nat.eqb_eq in Heq. subst g.
        exact (NoDup_app_disjoint _ _ (fst x) Hrefs Hg Hf).
      * exists c'. split; [exact R|]. split; [|split].
        -- rewrite Ht. subst c2. cbn [setScrapes scrapes]. rewrite Ht1.
           unfold deleteFromTable. rewrite filter_twice. apply filter_ext.
           intro k. unfold idIn. cbn [existsb]. rewrite negb_orb.
           unfold hasId. rewrite (Nat.eqb_sym (_id k) (_id j)). reflexivity.
        -- apply (sameButData_trans c c1 c'); [exact Hs1|].
           apply (sameButData_trans c1 c2 c'); [|exact Hs].
           subst c2. repeat split.
        -- rewrite Hf. subst c2. cbn [setScrapes storage]. rewrite Hf1.
           apply filter_files_twice.
    + unfold bind at 1. unfold ret at 1.
      destruct (IH c Hrest) as [c' [R [Ht [Hs Hf]]]].
      * intros k Hk. apply Hin. right. exact Hk.
      * exact Hrefs'.
      * intros f Hf. apply Hexist. unfold fileIdsIn. simpl. apply in_or_app. right. exact Hf.
      * exists c'. split; [exact R|]. split; [exact Ht|]. split; [exact Hs | exact Hf].
Qed.

(** ** The stores of the executor, counted *)

Lemma extends_refl (c : Ctx) : extends c c.
Proof.
  repeat split; try reflexivity. exists []. rewrite Nat.sub_diag. split; reflexivity.
Qed.

Lemma extends_trans (a b c : Ctx) : extends a b -> extends b c -> extends a c.
Proof.
  intros [S1 [N1 [Q1 [L1 [add1 [F1 K1]]]]]] [S2 [N2 [Q2 [L2 [add2 [F2 K2]]]]]].
  repeat split; try congruence; try lia.
  exists (add2 ++ add1). split.
  - rewrite F2, F1, app_assoc. reflexivity.
  - rewrite map_app, K1, K2, <- rev_app_distr. f_equal.
    replace (nextFileId (storage c) - nextFileId (storage a))
      with ((nextFileId (storage b) - nextFileId (storage a)) +
            (nextFileId (storage c) - nextFileId (storage b))) by lia.
    rewrite seq_app. f_equal. f_equal. lia.
Qed.

Lemma handedOut_wider (a b c d : Ctx) (file : option FileId) :
  handedOut b c file ->
  nextFileId (storage a) <= nextFileId (storage b) ->
  nextFileId (storage c) <= nextFileId (storage d) ->
  handedOut a d file.
Proof. unfold handedOut. destruct file; [lia | trivial]. Qed.

Lemma extends_member (c c' : Ctx) (f : FileId) :
  extends c c' ->
  (In f (map fst (files (storage c'))) <->
   In f (map fst (files (storage c))) \/
   nextFileId (storage c) <= f < nextFileId (storage c')).
Proof.
  intros [_ [_ [_ [L [added [F K]]]]]]. rewrite F, map_app, in_app_iff, K, <- in_rev, in_seq.
  split; intros [H|H]; [right; lia | left; exact H | right; exact H | left; lia].
Qed.

Lemma storage_store_extends (blob : string) (c : Ctx) :
  exists c', storage_store blob c = (c', Return (nextFileId (storage c))) /\
             extends c c' /\ nextFileId (storage c') = S (nextFileId (storage c)).
Proof.
  eexists. split; [reflexivity|]. split; [|reflexivity].
  unfold extends. cbn [scrapes nextId scheduled storage files nextFileId].
  split; [reflexivity|]. split; [reflexivity|]. split; [reflexivity|]. split; [lia|].
  exists [(nextFileId (storage c), blob)]. split; [reflexivity|].
  replace (S (nextFileId (storage c)) - nextFileId (storage c)) with 1 by lia. reflexivity.
Qed.

Section Stores.
Context {P : Platform}.

Lemma sizedField_extends {A} (truthy : A -> bool) (serialize : A -> string)
      (field : option A) (c : Ctx) :
  exists c' inline file,
    sizedField truthy serialize field c = (c', Return (inline, file)) /\
    extends c c' /\ handedOut c c' file.
Proof.
  unfold sizedField. destruct field as [value|].
  - destruct (truthy value).
    + unfold inlineOrFile.
      destruct (CONFIG.FILE_STORAGE_THRESHOLD_BYTES <? getByteLength (serialize value))%Z.
      * destruct (storage_store_extends (serialize value) c) as [c' [R [E N]]].
        exists c', None, (Some (nextFileId (storage c))).
        unfold bind. rewrite R. split; [reflexivity|]. split; [exact E|].
        unfold handedOut. lia.
      * exists c, (Some value), None. split; [reflexivity|].
        split; [apply extends_refl | exact I].
    + exists c, None, None. split; [reflexivity|]. split; [apply extends_refl | exact I].
  - exists c, None, None. split; [reflexivity|]. split; [apply extends_refl | exact I].
Qed.

Lemma screenshotField_extends (field : option string) (storeScreenshot : option bool)
      (shot : ScreenshotFetch) (c : Ctx) :
  exists c' shotUrl file,
    screenshotField field storeScreenshot shot c = (c', Return (shotUrl, file)) /\
    extends c c' /\ handedOut c c' file.
Proof.
  unfold screenshotField. destruct (keepTruthy field) as [shotUrl|].
  - destruct (orElse storeScreenshot false).
    + destruct shot as [| |blob].
      * exists c, (Some shotUrl), None. split; [reflexivity|].
        split; [apply extends_refl | exact I].
      * exists c, (Some shotUrl), None. split; [reflexivity|].
        split; [apply extends_refl | exact I].
      * destruct (storage_store_extends blob c) as [c' [R [E N]]].
        exists c', (Some shotUrl), (Some (nextFileId (storage c))).
        unfold bind. rewrite R. split; [reflexivity|]. split; [exact E|].
        unfold handedOut. lia.
    + exists c, (Some shotUrl), None. split; [reflexivity|].
      split; [apply extends_refl | exact I].
  - exists c, None, None. split; [reflexivity|]. split; [apply extends_refl | exact I].
Qed.

(** What [buildContentUpdate] stores: one file for each file id of the
    update, under ids handed out during the call and all different. *)
Lemma buildContentUpdate_extends (data : FirecrawlData) (storeScreenshot : option bool)
      (shot : ScreenshotFetch) (c : Ctx) :
  exists c' update,
    buildContentUpdate data storeScreenshot shot c = (c', Return update) /\
    extends c c' /\
    NoDup (fileIdsOf update) /\
    forall f, In f (fileIdsOf update) ->
              nextFileId (storage c) <= f < nextFileId (storage c').
Proof.
  unfold buildContentUpdate.
  destruct (sizedField_extends JS.truthy asIs (data_markdown data) c)
    as [c1 [i1 [f1 [R1 [E1 H1]]]]].
  destruct (sizedField_extends JS.truthy asIs (data_html data) c1)
    as [c2 [i2 [f2 [R2 [E2 H2]]]]].
  destruct (sizedField_extends JS.truthy asIs (data_rawHtml data) c2)
    as [c3 [i3 [f3 [R3 [E3 H3]]]]].
  destruct (sizedField_extends arrayTruthy stringsJson (data_links data) c3)
    as [c4 [i4 [f4 [R4 [E4 H4]]]]].
  destruct (sizedField_extends arrayTruthy stringsJson
              (option_map (map imageUrl) (data_images data)) c4)
    as [c5 [i5 [f5 [R5 [E5 H5]]]]].
  destruct (screenshotField_extends (data_screenshot data) storeScreenshot shot c5)
    as [c6 [i6 [f6 [R6 [E6 H6]]]]].
  destruct (sizedField_extends jsonTruthy JSON_stringify (data_extract data) c6)
    as [c7 [i7 [f7 [R7 [E7 H7]]]]].
  unfold bind. rewrite R1, R2, R3, R4, R5, R6, R7.
  eexists _, _. split; [reflexivity|].
  split.
  { eapply extends_trans; [exact E1|]. eapply extends_trans; [exact E2|].
    eapply extends_trans; [exact E3|]. eapply extends_trans; [exact E4|].
    eapply extends_trans; [exact E5|]. eapply extends_trans; [exact E6 | exact E7]. }
  destruct E1 as [_ [_ [_ [L1 _]]]]. destruct E2 as [_ [_ [_ [L2 _]]]].
  destruct E3 as [_ [_ [_ [L3 _]]]]. destruct E4 as [_ [_ [_ [L4 _]]]].
  destruct E5 as [_ [_ [_ [L5 _]]]]. destruct E6 as [_ [_ [_ [L6 _]]]].
  destruct E7 as [_ [_ [_ [L7 _]]]].
  unfold fileIdsOf, handedOut in *. cbn [fst snd markdownFileId htmlFileId rawHtmlFileId
    screenshotFileId linksFileId imagesFileId extractedJsonFileId].
  destruct f1 as [f1|], f2 as [f2|], f3 as [f3|], f4 as [f4|], f5 as [f5|], f6 as [f6|],
           f7 as [f7|]; cbn [optList app]; split;
    try (repeat constructor; cbn [In]; lia);
    try (intros f Hf; cbn [In] in Hf; lia).
Qed.

End Stores.

Lemma FilesInv_extends (c c1 : Ctx) : FilesInv c -> extends c c1 -> FilesInv c1.
Proof.
  intros [H1 H2 H3 H4] E.
  pose proof (fun f => extends_member c c1 f E) as M.
  destruct E as [Ht [_ [_ [L [added [F K]]]]]]. constructor.
  - unfold uniqueFileIds. rewrite F, map_app, K. apply NoDup_app.
    + apply NoDup_rev. apply seq_NoDup.
    + exact H1.
    + intros f Hf Hold. apply in_rev, in_seq in Hf. pose proof (H2 f Hold). lia.
  - intros f Hf. apply (M f) in Hf. destruct Hf as [Hf|Hf]; [|lia].
    pose proof (H2 f Hf). lia.
  - rewrite Ht. exact H3.
  - intros f Hf. rewrite Ht in Hf. apply (M f). left. exact (H4 f Hf).
Qed.

Lemma FilesInv_insert (c0 : Ctx) (new : Job) (next : Id) (queue : list ActionArgs) :
  FilesInv c0 -> content new = noContent ->
  FilesInv (mkCtx (new :: scrapes c0) next (storage c0) queue).
Proof.
  intros [H1 H2 H3 H4] Hc. constructor; cbn [scrapes storage]; try assumption.
  - unfold fileIdsIn. simpl. rewrite Hc. exact H3.
  - unfold fileIdsIn. simpl. rewrite Hc. exact H4.
Qed.

Lemma patchTable_absent (id : Id) (f : Job -> Job) (t : list Job) :
  existsb (hasId id) t = false -> patchTable id f t = t.
Proof.
  intro H. unfold patchTable. apply map_unchanged. intros j Hj.
  destruct (hasId id j) eqn:E; [|reflexivity].
  assert (existsb (hasId id) t = true) by (apply existsb_exists; exists j; split; assumption).
  congruence.
Qed.

(** The file ids of a table after the one record under an id has been
    given a new content. *)
Lemma fileIdsIn_patch (id : Id) (f : Job -> Job) (t : list Job) (j : Job) :
  uniqueIds t -> In j t -> _id j = id -> fileIdsOf (content j) = [] ->
  Permutation (fileIdsIn (patchTable id f t)) (fileIdsOf (content (f j)) ++ fileIdsIn t).
Proof.
  unfold fileIdsIn. induction t as [|x t IH]; intros Hids Hj Hid Hempty; [contradiction|].
  inversion Hids as [|? ? Hx Hrest]; subst.
  cbn [patchTable map flat_map]. fold (patchTable (_id j) f t).
  destruct Hj as [->|Hj].
  - unfold hasId at 1. rewrite Nat.eqb_refl.
    rewrite patchTable_absent.
    + rewrite Hempty. apply Permutation_refl.
    + destruct (existsb (hasId (_id j)) t) eqn:E; [|reflexivity].
      exfalso. apply Hx. apply existsb_exists in E. destruct E as [k [Hk Hh]].
      unfold hasId in Hh. apply Nat.eqb_eq in Hh. rewrite <- Hh. apply in_map. exact Hk.
  - assert (Hne : hasId (_id j) x = false).
    { unfold hasId. apply Nat.eqb_neq. intro E. apply Hx. rewrite E. apply in_map. exact Hj. }
    rewrite Hne.
    apply Permutation_trans
      with (fileIdsOf (content x) ++ fileIdsOf (content (f j)) ++
            flat_map (fun k => fileIdsOf (content k)) t).
    + apply Permutation_app_head. exact (IH Hrest Hj eq_refl Hempty).
    + rewrite !app_assoc. apply Permutation_app_tail. apply Permutation_app_comm.
Qed.

Lemma FilesInv_complete (c1 : Ctx) (id : Id) (f : Job -> Job) (j : Job) :
  FilesInv c1 -> uniqueIds (scrapes c1) ->
  In j (scrapes c1) -> _id j = id -> content j = noContent ->
  NoDup (fileIdsOf (content (f j))) ->
  (forall x, In x (fileIdsOf (content (f j))) ->
             In x (map fst (files (storage c1))) /\ ~ In x (fileIdsIn (scrapes c1))) ->
  FilesInv (setScrapes c1 (patchTable id f (scrapes c1))).
Proof.
  intros [H1 H2 H3 H4] Hids Hj Hid Hc Hnd Hnew.
  assert (Hempty : fileIdsOf (content j) = []) by (rewrite Hc; reflexivity).
  pose proof (fileIdsIn_patch id f (scrapes c1) j Hids Hj Hid Hempty) as Hp.
  constructor; cbn [setScrapes scrapes storage]; try assumption.
  - apply (Permutation_NoDup (Permutation_sym Hp)).
    apply NoDup_app; [exact Hnd | exact H3 |].
    intros x Hx. exact (proj2 (Hnew x Hx)).
  - intros x Hx. apply (Permutation_in _ Hp) in Hx. apply in_app_or in Hx.
    destruct Hx as [Hx|Hx]; [exact (proj1 (Hnew x Hx)) | exact (H4 x Hx)].
Qed.


(** ** Files that no record refers to *)

Lemma orphans_refl (c : Ctx) : keepsOrphans c c.
Proof. intros f H1 H2. split; assumption. Qed.

Lemma orphans_trans (a b c : Ctx) : keepsOrphans a b -> keepsOrphans b c -> keepsOrphans a c.
Proof. intros H1 H2 f Hf Hn. destruct (H1 f Hf Hn) as [Hf' Hn']. exact (H2 f Hf' Hn'). Qed.

Lemma orphans_map (c c' : Ctx) (f : Job -> Job) :
  scrapes c' = map f (scrapes c) -> storage c' = storage c ->
  (forall j, In j (scrapes c) -> content (f j) = content j) ->
  keepsOrphans c c'.
Proof.
  intros Ht Hs Hc x Hx Hn. rewrite Hs, Ht, (fileIdsIn_map f _ Hc). split; assumption.
Qed.

Lemma orphans_delete (c c' : Ctx) (keep : Job -> bool) (gone : list FileId) :
  scrapes c' = filter keep (scrapes c) ->
  files (storage c') =
    filter (fun f => negb (existsb (Nat.eqb (fst f)) gone)) (files (storage c)) ->
  (forall f, In f gone ->
             exists d, In d (scrapes c) /\ keep d = false /\ In f (fileIdsOf (content d))) ->
  keepsOrphans c c'.
Proof.
  intros Ht Hf Hgone x Hx Hn. split.
  - apply in_map_iff in Hx. destruct Hx as [y [<- Hy]].
    rewrite Hf. apply in_map. apply filter_In. split; [exact Hy|].
    apply negb_true_iff. destruct (existsb (Nat.eqb (fst y)) gone) eqn:E; [|reflexivity].
    exfalso. apply existsb_exists in E. destruct E as [g [Hg Heq]].
    apply Nat.eqb_eq in Heq. subst g. destruct (Hgone (fst y) Hg) as [d [Hd [_ Hfd]]].
    apply Hn. apply fileIdsIn_member. exists d. split; assumption.
  - intro Hin. apply Hn. rewrite Ht in Hin. apply fileIdsIn_member in Hin.
    destruct Hin as [j [Hj Hfj]]. apply filter_In in Hj.
    apply fileIdsIn_member. exists j. split; [exact (proj1 Hj) | exact Hfj].
Qed.

Lemma orphans_insert (c0 : Ctx) (new : Job) (next : Id) (queue : list ActionArgs) :
  content new = noContent ->
  keepsOrphans c0 (mkCtx (new :: scrapes c0) next (storage c0) queue).
Proof.
  intros Hc x Hx Hn. cbn [scrapes storage]. split; [exact Hx|].
  unfold fileIdsIn. simpl. rewrite Hc. exact Hn.
Qed.

Lemma orphans_extends (c c1 : Ctx) : extends c c1 -> keepsOrphans c c1.
Proof.
  intros E x Hx Hn. split.
  - apply (extends_member c c1 x E). left. exact Hx.
  - destruct E as [Ht _]. rewrite Ht. exact Hn.
Qed.

Lemma orphans_complete (c c1 : Ctx) (id : Id) (f : Job -> Job) (j : Job) :
  keepsOrphans c c1 ->
  uniqueIds (scrapes c1) ->
  In j (scrapes c1) -> _id j = id -> content j = noContent ->
  (forall x, In x (fileIdsOf (content (f j))) -> ~ In x (map fst (files (storage c)))) ->
  keepsOrphans c (setScrapes c1 (patchTable id f (scrapes c1))).
Proof.
  intros K Hids Hj Hid Hc Hnew x Hx Hn. cbn [setScrapes scrapes storage].
  destruct (K x Hx Hn) as [Hx1 Hn1]. split; [exact Hx1|].
  assert (Hempty : fileIdsOf (content j) = []) by (rewrite Hc; reflexivity).
  intro Hin.
  apply (Permutation_in _ (fileIdsIn_patch id f (scrapes c1) j Hids Hj Hid Hempty)) in Hin.
  apply in_app_or in Hin. destruct Hin as [Hin|Hin]; [|exact (Hn1 Hin)].
  exact (Hnew x Hin Hx).
Qed.

Section FilesStep.
Context {P : Platform}.

Lemma failScrape_files (jobId : Id) (message : string) (code : option ErrorCode) (c : Ctx) :
  FilesInv c ->
  FilesInv (fst (runMutation (failScrape jobId message code) c)) /\
  keepsOrphans c (fst (runMutation (failScrape jobId message code) c)).
Proof.
  intro H. unfold runMutation, commit. rewrite failScrape_run.
  destruct (find (hasId jobId) (scrapes c)) as [job|]; [|split; [exact H | apply orphans_refl]].
  destruct (isActive job); [|split; [exact H | apply orphans_refl]]. cbn [fst].
  assert (Hc : forall j, In j (scrapes c) ->
                 content (if hasId jobId j then failFields message code j else j) = content j)
    by (intros j _; destruct (hasId jobId j); reflexivity).
  split.
  - apply (FilesInv_map c _ (fun j => if hasId jobId j then failFields message code j else j) H);
      try reflexivity. exact Hc.
  - apply (orphans_map c _ (fun j => if hasId jobId j then failFields message code j else j));
      try reflexivity. exact Hc.
Qed.

(** The forced deletion in a context whose references are sound. *)
Lemma forceDelete_total (hash : string) (c : Ctx) :
  uniqueIds (scrapes c) -> FilesInv c ->
  exists c', forceDelete hash c = (c', Return tt) /\ FilesInv c' /\ keepsOrphans c c' /\
             nextId c' = nextId c /\ scheduled c' = scheduled c.
Proof.
  intros Hids H. pose proof H as [H1 H2 H3 H4].
  set (l := firstn 10 (filter (fun j => (urlHash j =? hash)%string) (scrapes c))).
  assert (Hl : forall j, In j l -> In j (scrapes c)).
  { intros j Hj. apply firstn_member in Hj. apply filter_In in Hj. exact (proj1 Hj). }
  destruct (forceLoop_total l c) as [c' [R [Ht [Hs Hf]]]].
  - unfold l. rewrite <- firstn_map. apply firstn_NoDup. apply uniqueIds_filter. exact Hids.
  - exact Hl.
  - apply fileIdsIn_firstn. apply fileIdsIn_filter. exact H3.
  - intros f Hf. apply H4. apply fileIdsIn_member in Hf. destruct Hf as [j [Hj Hfj]].
    apply fileIdsIn_member. exists j. split; [exact (Hl j Hj) | exact Hfj].
  - exists c'. split; [exact R|]. destruct Hs as [Hn [Hq Hnf]].
    assert (Hgone : forall f, In f (fileIdsIn (filter (fun j => Status_eqb (status j) completed) l)) ->
              exists d, In d (scrapes c) /\
                        negb (idIn d (filter (fun j => Status_eqb (status j) completed) l)) = false /\
                        In f (fileIdsOf (content d))).
    { intros f Hfin. apply fileIdsIn_member in Hfin. destruct Hfin as [d [Hd Hfd]].
      exists d. split; [|split; [|exact Hfd]].
      + apply filter_In in Hd. exact (Hl d (proj1 Hd)).
      + apply negb_false_iff. apply In_idIn. exact Hd. }
    split; [exact (FilesInv_delete c c' _ _ H Ht Hf Hnf Hgone)|].
    split; [exact (orphans_delete c c' _ _ Ht Hf Hgone)|]. split; assumption.
Qed.

(** Every event keeps the references sound, and keeps every file that no
    record refers to. *)
Lemma exec_files (now : Z) (e : Event) (w w' : World) :
  Inv w -> FilesInv (ctx w) -> exec now e w = Some w' ->
  FilesInv (ctx w') /\ keepsOrphans (ctx w) (ctx w').
Proof.
  intros I H E.
  assert (Hsame : FilesInv (ctx w) /\ keepsOrphans (ctx w) (ctx w))
    by (split; [exact H | apply orphans_refl]).
  destruct e as [u apiKey options|u|id| | |n|n response shot]; simpl in E.
  - (* startScrape *)
    inversion E; subst w'; clear E. cbn [ctx].
    destruct (startScrape u apiKey options now (ctx w)) as [c1 [id|e]] eqn:R.
    2:{ rewrite (commit_throw _ _ _ _ R). exact Hsame. }
    rewrite (commit_return _ _ _ _ R). cbn [fst].
    rewrite startScrape_run in R.
    destruct (validateUrl u) as [|e] eqn:V; [|discriminate].
    destruct (normalizeUrl u) as [normalized|] eqn:N; [|discriminate].
    cbv zeta in R.
    destruct ((if orElse (opt_force options) false
               then forceDelete (hashUrl normalized) else ret tt) (ctx w))
      as [c0 [[]|e]] eqn:F; [|discriminate].
    assert (H0 : FilesInv c0 /\ keepsOrphans (ctx w) c0).
    { destruct (orElse (opt_force options) false).
      - destruct (forceDelete_total (hashUrl normalized) (ctx w) (inv_ids I) H)
          as [c0' [F' [H' [K' _]]]].
        rewrite F' in F. injection F as <-. split; assumption.
      - injection F as <-. exact Hsame. }
    destruct H0 as [H0 K0].
    destruct (find isActive _) eqn:Fa in R; [discriminate|].
    destruct (if orElse (opt_force options) false then None else _) eqn:Fc in R.
    + inversion R; subst c1. split; assumption.
    + inversion R; subst c1. split.
      * apply FilesInv_insert; [exact H0 | reflexivity].
      * apply (orphans_trans _ c0 _ K0). apply orphans_insert. reflexivity.
  - (* invalidate *)
    inversion E; subst w'; clear E. cbn [ctx].
    destruct (validateUrl u) as [|e] eqn:V.
    + destruct (valid_normalizes u V) as [normalized Hn].
      rewrite (commit_return _ _ _ _ (invalidate_run u normalized now (ctx w) (inv_ids I) V Hn)).
      cbn [fst].
      assert (Hc : forall j, In j (scrapes (ctx w)) ->
                     content (if liveFor (hashUrl normalized) now j
                              then setExpiresAt now j else j) = content j)
        by (intros j _; destruct (liveFor (hashUrl normalized) now j); reflexivity).
      split.
      * apply (FilesInv_map (ctx w) _
                 (fun j => if liveFor (hashUrl normalized) now j then setExpiresAt now j else j)
                 H); try reflexivity. exact Hc.
      * apply (orphans_map (ctx w) _
                 (fun j => if liveFor (hashUrl normalized) now j then setExpiresAt now j else j));
          try reflexivity. exact Hc.
    + unfold invalidate, commit. rewrite V. exact Hsame.
  - (* deleteScrape *)
    inversion E; subst w'; clear E. cbn [ctx].
    pose proof (deleteScrape_cases id (ctx w)) as D.
    destruct (find (hasId id) (scrapes (ctx w))) as [scrape|] eqn:F.
    + destruct (isActive scrape).
      * rewrite (commit_throw _ _ _ _ D). exact Hsame.
      * destruct D as [c' [n [R [Ht [Hf [[_ [_ Hnf]] _]]]]]].
        rewrite (commit_return _ _ _ _ R). cbn [fst].
        assert (Hgone : forall f, In f (fileIdsOf (content scrape)) ->
                  exists d, In d (scrapes (ctx w)) /\ negb (hasId id d) = false /\
                            In f (fileIdsOf (content d))).
        { intros f Hfin. exists scrape. apply find_some in F. destruct F as [F1 F2].
          split; [exact F1|]. split; [rewrite F2; reflexivity | exact Hfin]. }
        split.
        -- exact (FilesInv_delete (ctx w) c' (fun j => negb (hasId id j)) _ H Ht Hf Hnf Hgone).
        -- exact (orphans_delete (ctx w) c' (fun j => negb (hasId id j)) _ Ht Hf Hgone).
    + rewrite (commit_return _ _ _ _ D). exact Hsame.
  - (* cleanupExpired *)
    inversion E; subst w'; clear E. cbn [ctx].
    destruct (cleanupExpired_run now (ctx w) (inv_ids I))
      as [c1 [m [R [Ht [_ [[_ [_ Hnf]] _]]]]]].
    rewrite (commit_return _ _ _ _ R). cbn [fst].
    assert (Hf : files (storage c1) =
                 filter (fun f => negb (existsb (Nat.eqb (fst f))
                           (fileIdsIn (filter isTerminal (expiredBatch now (scrapes (ctx w)))))))
                        (files (storage (ctx w)))).
    { exact (cleanupLoop_files _ _ _ _ R). }
    assert (Hgone : forall f,
              In f (fileIdsIn (filter isTerminal (expiredBatch now (scrapes (ctx w))))) ->
              exists d, In d (scrapes (ctx w)) /\
                        negb (idIn d (filter isTerminal (expiredBatch now (scrapes (ctx w)))))
                          = false /\
                        In f (fileIdsOf (content d))).
    { intros f Hfin. apply fileIdsIn_member in Hfin. destruct Hfin as [d [Hd Hfd]].
      exists d. split; [|split; [|exact Hfd]].
      + apply filter_In in Hd. exact (proj1 (expiredBatch_member _ _ _ (proj1 Hd))).
      + apply negb_false_iff. apply In_idIn. exact Hd. }
    split.
    + exact (FilesInv_delete (ctx w) c1 _ _ H Ht Hf Hnf Hgone).
    + exact (orphans_delete (ctx w) c1 _ _ Ht Hf Hgone).
  - (* markStuckJobsFailed *)
    inversion E; subst w'; clear E. cbn [ctx].
    destruct (markStuckJobsFailed_any now (ctx w)) as [stuck R].
    rewrite (commit_return _ _ _ _ R). cbn [fst].
    assert (Hc : forall j, In j (scrapes (ctx w)) ->
                   content (if idIn j stuck then timeoutFields j else j) = content j)
      by (intros j _; destruct (idIn j stuck); reflexivity).
    split.
    + apply (FilesInv_map (ctx w) _ (fun j => if idIn j stuck then timeoutFields j else j) H);
        try reflexivity. exact Hc.
    + apply (orphans_map (ctx w) _ (fun j => if idIn j stuck then timeoutFields j else j));
        try reflexivity. exact Hc.
  - (* an action begins *)
    destruct (nth_error (scheduled (ctx w)) n) as [args|] eqn:En; [|discriminate].
    unfold scrapeAction_begin, runMutation, commit, markScraping, db_patch in E.
    cbn [dequeue scrapes] in E.
    destruct (existsb (hasId (arg_jobId args)) (scrapes (ctx w)));
      inversion E; subst w'; cbn [ctx].
    + assert (Hc : forall j, In j (scrapes (ctx w)) ->
                     content (if hasId (arg_jobId args) j
                              then markScrapingFields now j else j) = content j)
        by (intros j _; destruct (hasId (arg_jobId args) j); reflexivity).
      split.
      * apply (FilesInv_map (ctx w) _
                 (fun j => if hasId (arg_jobId args) j then markScrapingFields now j else j) H);
          try reflexivity. exact Hc.
      * apply (orphans_map (ctx w) _
                 (fun j => if hasId (arg_jobId args) j then markScrapingFields now j else j));
          try reflexivity. exact Hc.
    + split.
      * destruct H as [H1 H2 H3 H4]. constructor; assumption.
      * intros f Hf Hn. split; assumption.
  - (* an action ends *)
    destruct (nth_error (running w) n) as [args|] eqn:En; [|discriminate].
    inversion E; subst w'; clear E. cbn [ctx].
    assert (Failed : (forall resultError resultCode data,
                        response <> Ok true resultError resultCode data) ->
              FilesInv (fst (scrapeAction_finish args response shot now (ctx w))) /\
              keepsOrphans (ctx w) (fst (scrapeAction_finish args response shot now (ctx w)))).
    { intro Hne. destruct (scrapeAction_finish_fails args response shot now (ctx w) Hne)
        as [m [code R]]. rewrite R. apply failScrape_files. exact H. }
    destruct response as [message|httpStatus errorBody errorJson
                         |success resultError resultCode data].
    + apply Failed. discriminate.
    + apply Failed. discriminate.
    + destruct success.
      * destruct (buildContentUpdate_extends data (act_storeScreenshot (arg_options args))
                    shot (ctx w)) as [c1 [update [Rb [Ex [Hnd Hfresh]]]]].
        pose proof (FilesInv_extends (ctx w) c1 H Ex) as H1.
        pose proof (orphans_extends (ctx w) c1 Ex) as K1.
        pose proof Ex as [Ht _].
        unfold scrapeAction_finish, tryCatch. cbn [negb]. unfold bind. rewrite Rb.
        unfold runMutation, commit. rewrite completeScrape_run. rewrite Ht.
        destruct (find (hasId (arg_jobId args)) (scrapes (ctx w))) as [job|] eqn:F;
          [|split; assumption].
        destruct (isActive job) eqn:A; [|split; assumption]. cbn [fst].
        rewrite <- Ht.
        assert (Hjob : In job (scrapes c1) /\ _id job = arg_jobId args).
        { apply find_some in F. destruct F as [F1 F2]. rewrite Ht. split; [exact F1|].
          unfold hasId in F2. apply Nat.eqb_eq. exact F2. }
        assert (Hc : content job = noContent).
        { apply (inv_active_empty I job); [rewrite <- Ht; exact (proj1 Hjob) | exact A]. }
        assert (Hup : content (completeFields now (arg_ttlMs args) update job) = update).
        { cbn [completeFields content]. rewrite Hc. apply mergeContent_noContent. }
        assert (Hids1 : uniqueIds (scrapes c1)) by (rewrite Ht; exact (inv_ids I)).
        assert (Hnew : forall x, In x (fileIdsOf update) ->
                  In x (map fst (files (storage c1))) /\ ~ In x (fileIdsIn (scrapes c1))).
        { intros x Hx. pose proof (Hfresh x Hx) as Hr. split.
          - apply (extends_member (ctx w) c1 x Ex). right. exact Hr.
          - intro Hin. rewrite Ht in Hin.
            pose proof (files_bound H x (refs_exist H x Hin)). lia. }
        split.
        -- apply (FilesInv_complete c1 (arg_jobId args) _ job H1 Hids1 (proj1 Hjob)
                    (proj2 Hjob) Hc); rewrite Hup; assumption.
        -- apply (orphans_complete (ctx w) c1 (arg_jobId args) _ job K1 Hids1 (proj1 Hjob)
                    (proj2 Hjob) Hc).
           rewrite Hup. intros x Hx Hold. pose proof (Hfresh x Hx) as Hr.
           pose proof (files_bound H x Hold). lia.
      * apply Failed. discriminate.
Qed.

End FilesStep.

Section Intact.
Context {P : Platform}.

Lemma FilesInv_empty : FilesInv (ctx emptyWorld).
Proof.
  constructor; simpl.
  - constructor.
  - intros f [].
  - constructor.
  - intros f [].
Qed.

Lemma reachable_files (w : World) : reachable w -> FilesInv (ctx w).
Proof.
  induction 1 as [|w w' Hw IH [now [e E]]].
  - exact FilesInv_empty.
  - exact (proj1 (exec_files now e w w' (reachable_Inv w Hw) IH E)).
Qed.

(** X14.  In every reachable world the references to storage are sound:
    each file id a record holds names a file that is in storage, no file
    id is held twice, by one record or by two, and the ids of the stored
    files are unique. *)
Theorem stored_files_intact (w : World) :
  reachable w ->
  (forall j f, In j (scrapes (ctx w)) -> In f (fileIdsOf (content j)) ->
               exists blob, In (f, blob) (files (storage (ctx w)))) /\
  (forall j, In j (scrapes (ctx w)) -> NoDup (fileIdsOf (content j))) /\
  (forall j k f, In j (scrapes (ctx w)) -> In k (scrapes (ctx w)) ->
                 In f (fileIdsOf (content j)) -> In f (fileIdsOf (content k)) -> j = k) /\
  uniqueFileIds (storage (ctx w)).
Proof.
  intro Hw. destruct (reachable_files w Hw) as [H1 H2 H3 H4].
  split; [|split; [|split]].
  - intros j f Hj Hf.
    assert (Hin : In f (map fst (files (storage (ctx w)))))
      by (apply H4; apply fileIdsIn_member; exists j; split; assumption).
    apply in_map_iff in Hin. destruct Hin as [[f' blob] [E Hin]]. simpl in E. subst f'.
    exists blob. exact Hin.
  - intros j Hj. apply in_split in Hj. destruct Hj as [l1 [l2 E]].
    unfold fileIdsIn in H3. rewrite E, flat_map_app in H3. simpl in H3.
    apply NoDup_app_remove_l in H3. exact (NoDup_app_remove_r _ _ H3).
  - intros j k f Hj Hk Hfj Hfk. exact (fileIdsIn_owner _ j k f H3 Hj Hk Hfj Hfk).
  - exact H1.
Qed.

(** X15.  In a reachable world [startScrape] fails in two ways only: the
    URL does not validate, and the error is the formatted validation
    error; or a pending or scraping job of the same key is in the table,
    and the error names it.  The forced deletion never fails: every file
    it deletes is there.  In both cases nothing is written. *)
Theorem startScrape_errors (w : World) (u apiKey : string) (options : ScrapeOptions)
        (now : Z) (c' : Ctx) (e : string) :
  reachable w ->
  startScrape u apiKey options now (ctx w) = (c', Throw e) ->
  commit (startScrape u apiKey options now) (ctx w) = (ctx w, Throw e) /\
  ((exists error, validateUrl u = invalid error /\ e = formatValidationError error) \/
   (exists normalized job,
      validateUrl u = valid /\ normalizeUrl u = Some normalized /\
      In job (scrapes (ctx w)) /\ urlHash job = hashUrl normalized /\
      isActive job = true /\ e = conflictMessage (_id job))).
Proof.
  intros Hw R. split; [exact (commit_throw _ _ _ _ R)|].
  pose proof (reachable_Inv w Hw) as I. pose proof (reachable_files w Hw) as H.
  rewrite startScrape_run in R.
  destruct (validateUrl u) as [|error] eqn:V.
  2:{ left. exists error. injection R as _ <-. split; reflexivity. }
  destruct (valid_normalizes u V) as [normalized N]. rewrite N in R. cbv zeta in R.
  right. exists normalized.
  assert (H0 : exists c0 keep,
            (if orElse (opt_force options) false
             then forceDelete (hashUrl normalized) else ret tt) (ctx w) = (c0, Return tt) /\
            scrapes c0 = filter keep (scrapes (ctx w))).
  { destruct (orElse (opt_force options) false).
    - destruct (forceDelete_total (hashUrl normalized) (ctx w) (inv_ids I) H)
        as [c0 [F _]].
      destruct (forceDelete_run _ _ _ _ F) as [deleted [_ [S _]]].
      exists c0, (fun j => negb (idIn j deleted)). split; assumption.
    - exists (ctx w), (fun _ => true). split; [reflexivity|].
      rewrite filter_all by reflexivity. reflexivity. }
  destruct H0 as [c0 [keep [F Ht]]]. rewrite F in R.
  destruct (find isActive _) as [job|] eqn:Fa in R.
  - injection R as _ <-. exists job. apply find_some in Fa. destruct Fa as [Hin Ha].
    apply firstn_member in Hin. apply filter_In in Hin. destruct Hin as [Hin Hh].
    rewrite Ht in Hin. apply filter_In in Hin.
    split; [reflexivity|]. split; [exact N|]. split; [exact (proj1 Hin)|].
    split; [apply String.eqb_eq; exact Hh|]. split; [exact Ha | reflexivity].
  - destruct (if orElse (opt_force options) false then None else _) in R; discriminate.
Qed.

End Intact.

(** ** Reading the content back *)

Lemma urlOf_served (fileUrl : FileId -> string) (fileId : option FileId) (c : Ctx) :
  (forall f, fileId = Some f -> In f (map fst (files (storage c)))) ->
  urlOf fileUrl fileId c = (c, Return (servedUrl fileUrl fileId)).
Proof.
  intro H. destruct fileId as [f|]; [|reflexivity].
  unfold urlOf, bind, storage_getUrl, ret, servedUrl. cbn [option_map].
  replace (existsb (fun x => fst x =? f) (files (storage c))) with true; [reflexivity|].
  symmetry. apply existsb_exists. pose proof (H f eq_refl) as Hin.
  apply in_map_iff in Hin. destruct Hin as [x [Hx Hin]].
  exists x. split; [exact Hin | apply Nat.eqb_eq; exact Hx].
Qed.

Lemma fileIdsOf_fields (c : Content) (f : FileId) :
  markdownFileId c = Some f \/ htmlFileId c = Some f \/ rawHtmlFileId c = Some f \/
  screenshotFileId c = Some f \/ linksFileId c = Some f \/ imagesFileId c = Some f \/
  extractedJsonFileId c = Some f ->
  In f (fileIdsOf c).
Proof.
  unfold fileIdsOf. intros [H|[H|[H|[H|[H|[H|H]]]]]]; rewrite H;
    repeat (apply in_or_app; first [left; left; reflexivity | right]).
  left. reflexivity.
Qed.

Section ReadBack.
Context {P : Platform}.
Variable fileUrl : FileId -> string.

(** X16.  [getContent] on a record of a reachable world serves every
    field the record holds: an inline field as it is, and for each file id
    of the record the URL of a file that is in storage, never [null].  No
    sized field comes both inline and as a URL. *)
Theorem getContent_serves (w : World) (job : Job) :
  reachable w -> In job (scrapes (ctx w)) ->
  exists r,
    getContent fileUrl (_id job) (ctx w) = (ctx w, Return (Some r)) /\
    res_status r = status job /\
    res_markdown r = markdown (content job) /\ res_html r = html (content job) /\
    res_rawHtml r = rawHtml (content job) /\ res_summary r = summary (content job) /\
    res_links r = links (content job) /\ res_images r = images (content job) /\
    res_extractedJson r = extractedJson (content job) /\
    res_markdownFileUrl r = servedUrl fileUrl (markdownFileId (content job)) /\
    res_htmlFileUrl r = servedUrl fileUrl (htmlFileId (content job)) /\
    res_rawHtmlFileUrl r = servedUrl fileUrl (rawHtmlFileId (content job)) /\
    res_screenshotFileUrl r = servedUrl fileUrl (screenshotFileId (content job)) /\
    res_linksFileUrl r = servedUrl fileUrl (linksFileId (content job)) /\
    res_imagesFileUrl r = servedUrl fileUrl (imagesFileId (content job)) /\
    res_extractedJsonFileUrl r = servedUrl fileUrl (extractedJsonFileId (content job)) /\
    notBoth (res_markdown r) (res_markdownFileUrl r) /\
    notBoth (res_html r) (res_htmlFileUrl r) /\
    notBoth (res_rawHtml r) (res_rawHtmlFileUrl r) /\
    notBoth (res_links r) (res_linksFileUrl r) /\
    notBoth (res_images r) (res_imagesFileUrl r) /\
    notBoth (res_extractedJson r) (res_extractedJsonFileUrl r).
Proof.
  intros Hw Hj. pose proof (reachable_Inv w Hw) as I.
  pose proof (reachable_files w Hw) as H.
  assert (Hfile : forall f, In f (fileIdsOf (content job)) ->
                            In f (map fst (files (storage (ctx w))))).
  { intros f Hf. apply (refs_exist H). apply fileIdsIn_member. exists job.
    split; assumption. }
  eexists. split.
  - unfold getContent. unfold bind at 1. unfold db_get.
    rewrite (find_by_id _ job (inv_ids I) Hj).
    unfold bind.
    rewrite (urlOf_served fileUrl (markdownFileId (content job)))
      by (intros f E; apply Hfile, fileIdsOf_fields; tauto).
    rewrite (urlOf_served fileUrl (htmlFileId (content job)))
      by (intros f E; apply Hfile, fileIdsOf_fields; tauto).
    rewrite (urlOf_served fileUrl (rawHtmlFileId (content job)))
      by (intros f E; apply Hfile, fileIdsOf_fields; tauto).
    rewrite (urlOf_served fileUrl (screenshotFileId (content job)))
      by (intros f E; apply Hfile, fileIdsOf_fields; tauto).
    rewrite (urlOf_served fileUrl (linksFileId (content job)))
      by (intros f E; apply Hfile, fileIdsOf_fields; tauto).
    rewrite (urlOf_served fileUrl (imagesFileId (content job)))
      by (intros f E; apply Hfile, fileIdsOf_fields; tauto).
    rewrite (urlOf_served fileUrl (extractedJsonFileId (content job)))
      by (intros f E; apply Hfile, fileIdsOf_fields; tauto).
    reflexivity.
  - cbn. do 15 (split; [reflexivity|]).
    destruct (inv_exclusive I job Hj) as [X1 [X2 [X3 [X4 [X5 X6]]]]].
    unfold notBoth, servedUrl in *.
    repeat split;
      match goal with
      | X : ?a = None \/ ?b = None |- ?a = None \/ option_map _ ?b = None =>
          destruct X as [X|X]; [left; exact X | right; rewrite X; reflexivity]
      end.
Qed.

End ReadBack.

(** ** A reply that comes too late *)

Section Late.
Context {P : Platform}.

Lemma steps_orphans (w w' : World) :
  reachable w -> steps w w' -> keepsOrphans (ctx w) (ctx w').
Proof.
  intros Hw Hs. induction Hs as [w|w w1 w' Hs IH [now [e E]]].
  - apply orphans_refl.
  - pose proof (steps_reachable w w1 Hw Hs) as Hw1.
    apply (orphans_trans _ (ctx w1) _ (IH Hw)).
    exact (proj2 (exec_files now e w1 w' (reachable_Inv w1 Hw1) (reachable_files w1 Hw1) E)).
Qed.

(** X17.  When the successful reply of an action finds its job no longer
    pending or scraping (the stuck-job sweep has failed it, say), the
    table stays as it is, but the blobs the action has stored for the reply
    stay in storage: no record refers to them, and no later event of the
    system removes them or refers to them. *)
Theorem late_reply_leaves_blobs (w w' : World) (n : nat) (args : ActionArgs)
        (resultError : option JSON) (resultCode : option JSON)
        (data : FirecrawlData) (shot : ScreenshotFetch) (now : Z) :
  reachable w ->
  nth_error (running w) n = Some args ->
  (forall j, In j (scrapes (ctx w)) -> _id j = arg_jobId args -> isActive j = false) ->
  exec now (ActionEnds n (Ok true resultError resultCode data) shot) w = Some w' ->
  exists update,
    buildContentUpdate data (act_storeScreenshot (arg_options args)) shot (ctx w) =
      (ctx w', Return update) /\
    scrapes (ctx w') = scrapes (ctx w) /\
    forall f, In f (fileIdsOf update) ->
      forall w'', steps w' w'' ->
        (exists blob, In (f, blob) (files (storage (ctx w'')))) /\
        forall j, In j (scrapes (ctx w'')) -> ~ In f (fileIdsOf (content j)).
Proof.
  intros Hw Hn Hdone E.
  assert (Hw' : reachable w') by (eapply reachable_step; [exact Hw | exists now; eexists; exact E]).
  pose proof (reachable_Inv w Hw) as I. pose proof (reachable_files w Hw) as H.
  simpl in E. rewrite Hn in E. injection E as <-.
  destruct (buildContentUpdate_extends data (act_storeScreenshot (arg_options args))
              shot (ctx w)) as [c1 [update [Rb [Ex [Hnd Hfresh]]]]].
  pose proof Ex as [Ht _].
  assert (Hrun : scrapeAction_finish args (Ok true resultError resultCode data) shot now (ctx w)
                 = (c1, Return tt)).
  { unfold scrapeAction_finish, tryCatch. cbn [negb]. unfold bind. rewrite Rb.
    unfold runMutation, commit. rewrite completeScrape_run, Ht.
    destruct (find (hasId (arg_jobId args)) (scrapes (ctx w))) as [job|] eqn:F; [|reflexivity].
    apply find_some in F. destruct F as [F1 F2]. unfold hasId in F2. apply Nat.eqb_eq in F2.
    rewrite (Hdone job F1 F2). reflexivity. }
  rewrite Hrun in *. cbn [fst ctx] in *.
  exists update. split; [exact Rb|]. split; [exact Ht|].
  intros f Hf w'' Hs.
  pose proof (Hfresh f Hf) as Hr.
  assert (Hin : In f (map fst (files (storage c1))))
    by (apply (extends_member (ctx w) c1 f Ex); right; exact Hr).
  assert (Hno : ~ In f (fileIdsIn (scrapes c1))).
  { rewrite Ht. intro Hin'. pose proof (files_bound H f (refs_exist H f Hin')). lia. }
  destruct (steps_orphans _ w'' Hw' Hs f Hin Hno) as [Hin'' Hno''].
  split.
  - apply in_map_iff in Hin''. destruct Hin'' as [[f' blob] [Ef Hx]]. simpl in Ef. subst f'.
    exists blob. exact Hx.
  - intros j Hj Hfj. apply Hno''. apply fileIdsIn_member. exists j. split; assumption.
Qed.

End Late.

Lemma lateWorld_reachable (n : nat) : @reachable model_platform (lateWorldAfter n).
Proof.
  unfold lateWorldAfter.
  destruct (@runEvents model_platform (firstn n lateScenario) emptyWorld) as [w|] eqn:E.
  - exact (@runEvents_reachable model_platform _ _ _ (@reachable_start model_platform) E).
  - apply reachable_start.
Qed.

Lemma stored_files_intact_witness :
  exists j f blob,
    @reachable model_platform (lateWorldAfter 7) /\
    In j (scrapes (ctx (lateWorldAfter 7))) /\ In f (fileIdsOf (content j)) /\
    In (f, blob) (files (storage (ctx (lateWorldAfter 7)))).
Proof.
  pose proof (lateWorld_reachable 7) as R.
  assert (E : exists j f, In j (scrapes (ctx (lateWorldAfter 7))) /\
                          In f (fileIdsOf (content j))).
  { vm_compute. eexists. eexists. split; [left; reflexivity | left; reflexivity]. }
  destruct E as [j [f [Hj Hf]]].
  destruct (proj1 (@stored_files_intact model_platform (lateWorldAfter 7) R) j f Hj Hf)
    as [blob Hb].
  exists j, f, blob.
  split; [exact R|]. split; [exact Hj|]. split; [exact Hf | exact Hb].
Defined.

Lemma startScrape_errors_witness :
  exists c' e,
    @reachable model_platform (worldAfter 1) /\
    @startScrape model_platform sampleUrl "key" noOptions 5%Z (ctx (worldAfter 1)) =
      (c', Throw e) /\
    commit (@startScrape model_platform sampleUrl "key" noOptions 5%Z) (ctx (worldAfter 1)) =
      (ctx (worldAfter 1), Throw e).
Proof.
  assert (R : @reachable model_platform (worldAfter 1)).
  { apply (@runEvents_reachable model_platform (firstn 1 scenario) emptyWorld).
    - apply reachable_start.
    - vm_compute. reflexivity. }
  assert (E : exists c' e,
             @startScrape model_platform sampleUrl "key" noOptions 5%Z (ctx (worldAfter 1)) =
               (c', Throw e))
    by (vm_compute; eexists; eexists; reflexivity).
  destruct E as [c' [e E]]. exists c', e.
  split; [exact R|]. split; [exact E|].
  exact (proj1 (@startScrape_errors model_platform (worldAfter 1) sampleUrl "key" noOptions
                                    5%Z c' e R E)).
Defined.

Lemma getContent_serves_witness :
  exists j r,
    @reachable model_platform (lateWorldAfter 7) /\
    In j (scrapes (ctx (lateWorldAfter 7))) /\
    getContent (fun _ => "https://files.example/blob") (_id j) (ctx (lateWorldAfter 7)) =
      (ctx (lateWorldAfter 7), Return (Some r)) /\
    res_screenshotFileUrl r =
      servedUrl (fun _ => "https://files.example/blob") (screenshotFileId (content j)).
Proof.
  pose proof (lateWorld_reachable 7) as R.
  assert (E : exists j, In j (scrapes (ctx (lateWorldAfter 7))))
    by (vm_compute; eexists; left; reflexivity).
  destruct E as [j Hj].
  destruct (@getContent_serves model_platform (fun _ => "https://files.example/blob")
              (lateWorldAfter 7) j R Hj) as [r [G H]].
  exists j, r.
  split; [exact R|]. split; [exact Hj|]. split; [exact G|].
  exact (proj1 (proj2 (proj2 (proj2 (proj2 (proj2 (proj2 (proj2 (proj2 (proj2 (proj2 (proj2 H)))))))))))).
Defined.

Lemma late_reply_leaves_blobs_witness :
  exists f blob,
    @reachable model_platform (lateWorldAfter 3) /\
    @steps model_platform (lateWorldAfter 4) (lateWorldAfter 8) /\
    In (f, blob) (files (storage (ctx (lateWorldAfter 8)))) /\
    forall j, In j (scrapes (ctx (lateWorldAfter 8))) -> ~ In f (fileIdsOf (content j)).
Proof.
  pose proof (lateWorld_reachable 3) as R.
  pose (data := mkData None None None None None None (Some "https://cdn.example/shot.png")
                       None None).
  assert (S : @steps model_platform (lateWorldAfter 4) (lateWorldAfter 8)).
  { apply (@runEvents_steps model_platform (skipn 4 lateScenario)). vm_compute. reflexivity. }
  assert (X : @exec model_platform 400001%Z (ActionEnds 0 (Ok true None None data) (ShotOk "PNG"))
                    (lateWorldAfter 3) = Some (lateWorldAfter 4))
    by (vm_compute; reflexivity).
  assert (E : exists args u,
             nth_error (running (lateWorldAfter 3)) 0 = Some args /\
             forallb (fun j => negb (_id j =? arg_jobId args) || negb (isActive j))
                     (scrapes (ctx (lateWorldAfter 3))) = true /\
             @buildContentUpdate model_platform data (act_storeScreenshot (arg_options args))
                                 (ShotOk "PNG") (ctx (lateWorldAfter 3)) =
               (ctx (lateWorldAfter 4), Return u) /\
             In 0 (fileIdsOf u)).
  { vm_compute. eexists. eexists. split; [reflexivity|]. split; [reflexivity|].
    split; [reflexivity | left; reflexivity]. }
  destruct E as [args [u [Hn [Hall [Hb Hu]]]]].
  assert (Hdone : forall j, In j (scrapes (ctx (lateWorldAfter 3))) ->
                            _id j = arg_jobId args -> isActive j = false).
  { intros j Hj Hid. rewrite forallb_forall in Hall. pose proof (Hall j Hj) as H.
    apply Nat.eqb_eq in Hid. rewrite Hid in H. simpl in H.
    destruct (isActive j); [discriminate | reflexivity]. }
  destruct (@late_reply_leaves_blobs model_platform (lateWorldAfter 3) (lateWorldAfter 4) 0 args
              None None data (ShotOk "PNG") 400001%Z R Hn Hdone X)
    as [update [Hb' [_ Hkeep]]].
  assert (Eu : u = update).
  { rewrite Hb in Hb'.
    exact (f_equal (fun p => match snd p with Return x => x | Throw _ => u end) Hb'). }
  rewrite Eu in Hu.
  destruct (Hkeep 0 Hu (lateWorldAfter 8) S) as [[blob Hin] Hno].
  exists 0, blob.
  split; [exact R|]. split; [exact S|]. split; [exact Hin | exact Hno].
Defined.

(** ** The deletion counts *)

(** Taking the files of a list of ids out of storage shortens it by the
    length of the list, when the ids are distinct and all there. *)
Lemma count_removed (ids : list FileId) (l : list (FileId * string)) :
  NoDup ids -> NoDup (map fst l) -> (forall f, In f ids -> In f (map fst l)) ->
  List.length (filter (fun f => negb (existsb (Nat.eqb (fst f)) ids)) l) + List.length ids =
  List.length l.
Proof.
  intros Hids Hl Hin.
  rewrite <- (filter_length (fun f => existsb (Nat.eqb (fst f)) ids) l).
  rewrite Nat.add_comm. f_equal.
  rewrite <- (length_map fst (filter _ l)).
  apply Permutation_length. apply NoDup_Permutation.
  - exact Hids.
  - apply keys_unique_filter. exact Hl.
  - intro f. split.
    + intro Hf. pose proof (Hin f Hf) as H. apply in_map_iff in H.
      destruct H as [x [Hx Hxin]]. apply in_map_iff. exists x. split; [exact Hx|].
      apply filter_In. split; [exact Hxin|]. apply existsb_exists. exists f.
      split; [exact Hf | apply Nat.eqb_eq; exact Hx].
    + intro Hf. apply in_map_iff in Hf. destruct Hf as [x [Hx Hxin]].
      apply filter_In in Hxin. destruct Hxin as [_ Hex]. apply existsb_exists in Hex.
      destruct Hex as [g [Hg Hgx]]. apply Nat.eqb_eq in Hgx. subst f. rewrite Hgx. exact Hg.
Qed.

Lemma removed_gone (ids : list FileId) (l : list (FileId * string)) (f : FileId) :
  In f ids ->
  ~ In f (map fst (filter (fun x => negb (existsb (Nat.eqb (fst x)) ids)) l)).
Proof.
  intros Hf Hin. apply in_map_iff in Hin. destruct Hin as [x [Hx Hxin]].
  apply filter_In in Hxin. destruct Hxin as [_ Hex]. apply negb_true_iff in Hex.
  assert (E : existsb (Nat.eqb (fst x)) ids = true).
  { apply existsb_exists. exists f. split; [exact Hf | apply Nat.eqb_eq; exact Hx]. }
  rewrite E in Hex. discriminate.
Qed.

Lemma fileIdsIn_perm (l l' : list Job) :
  Permutation l l' -> Permutation (fileIdsIn l) (fileIdsIn l').
Proof. apply Permutation_flat_map. Qed.

Lemma fileIdsIn_batch (now : Z) (t : list Job) :
  NoDup (fileIdsIn t) -> NoDup (fileIdsIn (filter isTerminal (expiredBatch now t))).
Proof.
  intro H. apply fileIdsIn_filter. unfold expiredBatch. apply fileIdsIn_firstn.
  apply (Permutation_NoDup (l := fileIdsIn (filter (fun j => (expiresAt j <? now)%Z) (rev t)))).
  - apply fileIdsIn_perm. apply Permutation_sym. apply by_expires_perm.
  - apply fileIdsIn_filter.
    apply (Permutation_NoDup (l := fileIdsIn t)); [|exact H].
    apply fileIdsIn_perm. apply Permutation_rev.
Qed.

Section Counts.
Context {P : Platform}.

(** X18.  In a reachable world no deletion of a file fails: [deleteScrape]
    on a completed or failed record counts every file id the record holds,
    and [cleanupExpired] counts every file id of the records it deletes;
    after either none of these files is in storage. *)
Theorem deletions_count_every_file (w : World) :
  reachable w ->
  (forall scrape, In scrape (scrapes (ctx w)) -> isActive scrape = false ->
     exists c',
       deleteScrape (_id scrape) (ctx w) =
         (c', Return (true, List.length (fileIdsOf (content scrape)))) /\
       forall f, In f (fileIdsOf (content scrape)) ->
                 ~ In f (map fst (files (storage c')))) /\
  (forall now,
     let deleted := filter isTerminal (expiredBatch now (scrapes (ctx w))) in
     exists c',
       cleanupExpired now (ctx w) =
         (c', Return (List.length deleted, List.length (fileIdsIn deleted))) /\
       forall f, In f (fileIdsIn deleted) -> ~ In f (map fst (files (storage c')))).
Proof.
  intro Hw. pose proof (reachable_Inv w Hw) as I.
  pose proof (reachable_files w Hw) as [H1 H2 H3 H4].
  split.
  - intros scrape Hin Ha.
    assert (Hnd : NoDup (fileIdsOf (content scrape))).
    { apply in_split in Hin. destruct Hin as [l1 [l2 E]].
      unfold fileIdsIn in H3. rewrite E, flat_map_app in H3. simpl in H3.
      apply NoDup_app_remove_l in H3. exact (NoDup_app_remove_r _ _ H3). }
    assert (Hthere : forall f, In f (fileIdsOf (content scrape)) ->
                               In f (map fst (files (storage (ctx w))))).
    { intros f Hf. apply H4. apply fileIdsIn_member. exists scrape. split; assumption. }
    destruct (deleteFilesBestEffort_exact (fileIdsOf (content scrape)) (ctx w))
      as [c1 [n [R [Ht [_ Hf]]]]].
    destruct (deleteFilesBestEffort_run (fileIdsOf (content scrape)) (ctx w))
      as [c1' [n' [R' [_ [_ [_ Hlen]]]]]].
    rewrite R in R'. injection R' as <- <-.
    destruct (Hlen H1) as [_ Hn].
    pose proof (count_removed (fileIdsOf (content scrape)) (files (storage (ctx w)))
                              Hnd H1 Hthere) as Hc.
    rewrite <- Hf in Hc.
    assert (En : n = List.length (fileIdsOf (content scrape))) by lia.
    exists (setScrapes c1 (deleteFromTable (_id scrape) (scrapes c1))). split.
    + unfold deleteScrape. unfold bind at 1. unfold db_get.
      rewrite (find_by_id _ scrape (inv_ids I) Hin). rewrite Ha.
      unfold bind. rewrite R.
      rewrite db_delete_found by (rewrite Ht; apply hasId_member; exact Hin).
      unfold ret. rewrite En. reflexivity.
    + intros f Hfin. cbn [setScrapes storage files]. rewrite Hf.
      apply removed_gone. exact Hfin.
  - intros now deleted.
    destruct (cleanupExpired_run now (ctx w) (inv_ids I))
      as [c' [n [R [_ [_ [_ [_ Hlen]]]]]]].
    fold deleted in R.
    assert (Hfiles : files (storage c') =
                     filter (fun f => negb (existsb (Nat.eqb (fst f)) (fileIdsIn deleted)))
                            (files (storage (ctx w)))).
    { unfold cleanupExpired, bind, by_expires_lt in R.
      exact (cleanupLoop_files _ _ _ _ R). }
    assert (Hthere : forall f, In f (fileIdsIn deleted) ->
                               In f (map fst (files (storage (ctx w))))).
    { intros f Hf. apply H4. apply fileIdsIn_member in Hf. destruct Hf as [j [Hj Hfj]].
      apply fileIdsIn_member. exists j. split; [|exact Hfj].
      unfold deleted in Hj. apply filter_In in Hj.
      exact (proj1 (expiredBatch_member _ _ _ (proj1 Hj))). }
    pose proof (count_removed (fileIdsIn deleted) (files (storage (ctx w)))
                              (fileIdsIn_batch now _ H3) H1 Hthere) as Hc.
    rewrite <- Hfiles in Hc. pose proof (Hlen H1) as Hn.
    assert (En : n = List.length (fileIdsIn deleted)) by lia.
    exists c'. split; [rewrite R, En; reflexivity|].
    intros f Hf. rewrite Hfiles. apply removed_gone. exact Hf.
Qed.

End Counts.

Lemma deletions_count_every_file_witness :
  exists c',
    @reachable model_platform (lateWorldAfter 7) /\
    @cleanupExpired 9000000000%Z (ctx (lateWorldAfter 7)) = (c', Return (2, 1)).
Proof.
  pose proof (lateWorld_reachable 7) as R.
  destruct (proj2 (@deletions_count_every_file model_platform (lateWorldAfter 7) R)
                  9000000000%Z) as [c' [E _]].
  exists c'. split; [exact R | exact E].
Defined.
